(** * automapper: a shallow embedding of the reflective struct mapper

    The Go package maps the fields of one struct value into another by
    reflection.  The development below embeds

    - the part of Go's [reflect] package the mapper calls (types, kinds,
      addressable values, [Set], [New], [MakeSlice], ...), over an explicit
      heap so that aliasing between source and destination is visible;
    - the current revision of the package (module [V2]): the plan cache
      [knownMappings], the mutex, the [mapper] tag and the strategy table
      with [mapConverterFunc];
    - the earlier revision kept in [mapper.go] (module [V1]), where the
      converter is called inline by [mapStructs].

    Go panics, a blocked [Lock] and an exhausted recursion budget are
    distinct outcomes of the monad [M]. *)

From Stdlib Require Import ZArith DecimalString.
From stdpp Require Import gmap strings list fin_maps.

Set Warnings "-register-all".

Local Open Scope string_scope.
Local Open Scope list_scope.

(** ** reflect: types *)

Inductive Kind : Set :=
  | KInvalid | KBool | KInt | KFloat64 | KString
  | KPtr | KSlice | KArray | KStruct.

Definition Kind_eqb (a b : Kind) : bool :=
  match a, b with
  | KInvalid, KInvalid | KBool, KBool | KInt, KInt | KFloat64, KFloat64
  | KString, KString | KPtr, KPtr | KSlice, KSlice | KArray, KArray
  | KStruct, KStruct => true
  | _, _ => false
  end.

(** [reflect.StructField]: the declared name, the value of the [mapper] key
    of the struct tag ([None] when the tag has no such key) and the type. *)
Record StructField (T : Type) : Type := mkField {
  Name : string;
  Tag_mapper : option string;
  FType : T
}.
Arguments mkField {T} _ _ _.
Arguments Name {T} _.
Arguments Tag_mapper {T} _.
Arguments FType {T} _.

(** Go types.  A struct type carries its declared name, so [Simple1] and
    [Simple2] are different types although their fields agree. *)
Inductive type : Type :=
  | TBool | TInt | TFloat64 | TString
  | TPtr (elem : type)
  | TSlice (elem : type)
  | TArray (len : nat) (elem : type)
  | TStruct (name : string) (fields : list (StructField type)).

Definition option_string_eqb (a b : option string) : bool :=
  match a, b with
  | None, None => true
  | Some x, Some y => String.eqb x y
  | _, _ => false
  end.

(** [==] on [reflect.Type]. *)
Fixpoint type_eqb (a b : type) : bool :=
  match a, b with
  | TBool, TBool | TInt, TInt | TFloat64, TFloat64 | TString, TString => true
  | TPtr x, TPtr y => type_eqb x y
  | TSlice x, TSlice y => type_eqb x y
  | TArray n x, TArray m y => Nat.eqb n m && type_eqb x y
  | TStruct n fs, TStruct m gs =>
      String.eqb n m &&
      (fix fields_eqb (fs gs : list (StructField type)) : bool :=
         match fs, gs with
         | [], [] => true
         | f :: fs', g :: gs' =>
             String.eqb (Name f) (Name g)
             && option_string_eqb (Tag_mapper f) (Tag_mapper g)
             && type_eqb (FType f) (FType g)
             && fields_eqb fs' gs'
         | _, _ => false
         end) fs gs
  | _, _ => false
  end.

Definition type_Kind (t : type) : Kind :=
  match t with
  | TBool => KBool | TInt => KInt | TFloat64 => KFloat64 | TString => KString
  | TPtr _ => KPtr | TSlice _ => KSlice | TArray _ _ => KArray
  | TStruct _ _ => KStruct
  end.

(** [Type.Elem]: panics (here [None]) unless the type is a pointer, a slice
    or an array. *)
Definition type_Elem (t : type) : option type :=
  match t with
  | TPtr e | TSlice e | TArray _ e => Some e
  | _ => None
  end.

Definition ArrayOf (n : nat) (e : type) : type := TArray n e.

Fixpoint type_size (t : type) : nat :=
  match t with
  | TBool | TInt | TFloat64 | TString => 1
  | TPtr e | TSlice e | TArray _ e => S (type_size e)
  | TStruct _ fs =>
      S ((fix go (fs : list (StructField type)) : nat :=
            match fs with
            | [] => 0
            | f :: fs' => (type_size (FType f) + go fs')
            end) fs)
  end.

(** A field is exported when its name starts with an upper-case letter
    (ASCII here). *)
Definition is_exported (name : string) : bool :=
  match name with
  | EmptyString => false
  | String c _ =>
      let n := Ascii.nat_of_ascii c in (Nat.leb 65 n && Nat.leb n 90)%bool
  end.

(** ** reflect: values and the heap *)

Abbreviation loc := nat (only parsing).

(** Run-time values.  A struct or an array holds its components inline; a
    pointer holds the address of a heap cell; a non-nil slice holds the
    address of the cell of its backing array. *)
Inductive value : Type :=
  | VBool (b : bool)
  | VInt (n : Z)
  | VFloat64 (bits : Z)
  | VString (s : string)
  | VPtr (p : option loc)
  | VSlice (p : option loc)
  | VArray (elems : list value)
  | VStruct (fields : list value).

Fixpoint zero_value (t : type) : value :=
  match t with
  | TBool => VBool false
  | TInt => VInt 0%Z
  | TFloat64 => VFloat64 0%Z
  | TString => VString ""
  | TPtr _ => VPtr None
  | TSlice _ => VSlice None
  | TArray n e => VArray (replicate n (zero_value e))
  | TStruct _ fs => VStruct (List.map (fun f => zero_value (FType f)) fs)
  end.

(** [Value.IsZero] on the content of a value. *)
Fixpoint is_zero (v : value) : bool :=
  match v with
  | VBool b => negb b
  | VInt n => Z.eqb n 0%Z
  | VFloat64 b => Z.eqb b 0%Z
  | VString s => String.eqb s ""
  | VPtr p | VSlice p => match p with None => true | Some _ => false end
  | VArray es | VStruct es => forallb is_zero es
  end.

Definition children (v : value) : option (list value) :=
  match v with
  | VArray es | VStruct es => Some es
  | _ => None
  end.

Definition with_children (v : value) (es : list value) : value :=
  match v with
  | VArray _ => VArray es
  | VStruct _ => VStruct es
  | _ => v
  end.

(** A path selects a component of a value: field and element indices from
    the outside in. *)
Fixpoint get_path (v : value) (p : list nat) : option value :=
  match p with
  | [] => Some v
  | i :: p' =>
      match children v with
      | Some es => match es !! i with
                   | Some c => get_path c p'
                   | None => None
                   end
      | None => None
      end
  end.

Fixpoint set_path (v : value) (p : list nat) (x : value) : option value :=
  match p with
  | [] => Some x
  | i :: p' =>
      match children v with
      | Some es =>
          match es !! i with
          | Some c =>
              match set_path c p' x with
              | Some c' => Some (with_children v (<[i:=c']> es))
              | None => None
              end
          | None => None
          end
      | None => None
      end
  end.

Abbreviation heap := (list value) (only parsing).

Definition heap_load (h : heap) (l : loc) (p : list nat) : option value :=
  match h !! l with
  | Some v => get_path v p
  | None => None
  end.

Definition heap_store (h : heap) (l : loc) (p : list nat) (x : value)
  : option heap :=
  match h !! l with
  | Some v => match set_path v p x with
              | Some v' => Some (<[l:=v']> h)
              | None => None
              end
  | None => None
  end.

(** Where the content of a [reflect.Value] lives: in the heap (the value is
    addressable) or in the [Value] itself. *)
Inductive place : Type :=
  | Addr (l : loc) (p : list nat)
  | Imm (v : value).

(** [reflect.Value]: the zero [Value], or a type, a place and the read-only
    flag of values reached through an unexported field. *)
Inductive Value : Type :=
  | ZeroValue
  | Val (t : type) (w : place) (ro : bool).

(** ** Errors, converters and the mapper object *)

(** Go [error] values: the package's sentinels, an error made by a user's
    converter, and the results of the package's [fmt.Errorf] calls (one
    constructor per format string, holding its arguments; [%w] marks the
    argument [errors.Unwrap] returns). *)
Inductive error : Type :=
  | ErrNotAPtr
  | ErrNotAFn
  | ErrMissingConverter
  | ErrConverter
  | ErrConverterErrorUnknownType
  | ErrUser (msg : string)
  (* fmt.Errorf("%w '%s -> %s'", ErrMissingConverter, from, to) *)
  | Errorf_missing (from to : type)
  (* fmt.Errorf("%w: %v", ErrConverter, err) *)
  | Errorf_converter (err : error)
  (* fmt.Errorf("%w, field '%s': %v", ErrConverter, name, err) *)
  | Errorf_converter_field (name : string) (err : error)
  (* fmt.Errorf("error in setArrayValue: %w", err) *)
  | Errorf_setArrayValue (err : error).

Definition Unwrap (e : error) : option error :=
  match e with
  | Errorf_missing _ _ => Some ErrMissingConverter
  | Errorf_converter _ => Some ErrConverter
  | Errorf_converter_field _ _ => Some ErrConverter
  | Errorf_setArrayValue err => Some err
  | _ => None
  end.

Definition is_sentinel (e target : error) : bool :=
  match e, target with
  | ErrNotAPtr, ErrNotAPtr | ErrNotAFn, ErrNotAFn
  | ErrMissingConverter, ErrMissingConverter | ErrConverter, ErrConverter
  | ErrConverterErrorUnknownType, ErrConverterErrorUnknownType => true
  | _, _ => false
  end.

(** [errors.Is] against one of the package's sentinels. *)
Fixpoint errors_Is (e target : error) : bool :=
  is_sentinel e target ||
  match e with
  | Errorf_missing _ _ => is_sentinel ErrMissingConverter target
  | Errorf_converter _ => is_sentinel ErrConverter target
  | Errorf_converter_field _ _ => is_sentinel ErrConverter target
  | Errorf_setArrayValue err => errors_Is err target
  | _ => false
  end.

(** What [Value.Interface] gives for a result of a call: the nil interface,
    an error value, or a value of a type that does not implement [error]. *)
Inductive iface : Type :=
  | IfaceNil
  | IfaceErr (e : error)
  | IfaceVal (t : type) (v : value).

(** A converter: [func(in In) Out] when [fn_second] is [None], and
    [func(in In) (Out, X)] otherwise, where [fn_second] computes what
    [Interface] returns for the second result.  Converters are taken to be
    pure functions of their argument. *)
Record Func : Type := mkFunc {
  fn_In : type;
  fn_Out : type;
  fn_first : value -> value;
  fn_second : option (value -> iface)
}.

(** An [interface{}] argument holding data. *)
Record boxed : Type := Box { box_type : type; box_value : value }.

(** An [interface{}] argument of [Set]: data or a function. *)
Inductive any : Type :=
  | AnyVal (b : boxed)
  | AnyFunc (f : Func).

Record converterInfo : Type := mkConverterInfo { ci_from : type; ci_to : type }.
Record structMappingInfo : Type := mkStructMappingInfo { smi_from : type; smi_to : type }.

Inductive supportedType : Set :=
  | unsupported | structs | slices | arrays | sameTypes | converterFunc.

Definition supportedType_eqb (a b : supportedType) : bool :=
  match a, b with
  | unsupported, unsupported | structs, structs | slices, slices
  | arrays, arrays | sameTypes, sameTypes | converterFunc, converterFunc => true
  | _, _ => false
  end.

(** An entry of a cached plan.  The source stores the strategy function
    [m.strats[mappingType]]; the table [strats] is fixed by [New], so the
    entry keeps the key [mappingType] and replay looks the function up. *)
Record fieldMappingInfo : Type := mkFieldMappingInfo {
  fromIndex : nat;
  toIndex : nat;
  mapperFunc : supportedType
}.

(** Go maps with struct keys, never iterated by the package: association
    lists in which the first binding of a key is the current one. *)
Definition converters_lookup (k : converterInfo)
    (l : list (converterInfo * Func)) : option Func :=
  snd <$> List.find (fun e => type_eqb (ci_from (fst e)) (ci_from k)
                              && type_eqb (ci_to (fst e)) (ci_to k)) l.

Definition knownMappings_lookup (k : structMappingInfo)
    (l : list (structMappingInfo * list fieldMappingInfo))
  : option (list fieldMappingInfo) :=
  snd <$> List.find (fun e => type_eqb (smi_from (fst e)) (smi_from k)
                              && type_eqb (smi_to (fst e)) (smi_to k)) l.

(** The fields of [Mapper] that change or are consulted ([strats] is the
    constant table [strats] below).  [mu] is [true] while the mutex is
    held. *)
Record Mapper : Type := mkMapper {
  mu : bool;
  converters : list (converterInfo * Func);
  knownMappings : list (structMappingInfo * list fieldMappingInfo)
}.

(** [New]. *)
Definition New : Mapper :=
  {| mu := false; converters := []; knownMappings := [] |}.

(** ** The monad of the embedding *)

Record state : Type := mkState { s_heap : heap; s_mapper : Mapper }.

Inductive result (A : Type) : Type :=
  | Ok (a : A)
  | Panic (msg : string)
  | Deadlock
  | OutOfFuel.
Arguments Ok {A} _.
Arguments Panic {A} _.
Arguments Deadlock {A}.
Arguments OutOfFuel {A}.

Definition M (A : Type) : Type := state -> state * result A.

Definition ret {A} (a : A) : M A := fun s => (s, Ok a).

Definition bind {A B} (c : M A) (f : A -> M B) : M B :=
  fun s =>
    match c s with
    | (s', Ok a) => f a s'
    | (s', Panic msg) => (s', Panic msg)
    | (s', Deadlock) => (s', Deadlock)
    | (s', OutOfFuel) => (s', OutOfFuel)
    end.

Definition panic {A} (msg : string) : M A := fun s => (s, Panic msg).

Notation "'let*' x ':=' c1 'in' c2" := (bind c1 (fun x => c2))
  (at level 10, x name, c1 at level 100, c2 at level 200).
Notation "'do' c1 'then' c2" := (bind c1 (fun _ => c2))
  (at level 10, c1 at level 100, c2 at level 200).

Definition get_heap : M heap := fun s => (s, Ok (s_heap s)).
Definition put_heap (h : heap) : M unit :=
  fun s => ({| s_heap := h; s_mapper := s_mapper s |}, Ok tt).
Definition get_mapper : M Mapper := fun s => (s, Ok (s_mapper s)).
Definition put_mapper (m : Mapper) : M unit :=
  fun s => ({| s_heap := s_heap s; s_mapper := m |}, Ok tt).

Definition alloc (v : value) : M loc :=
  let* h := get_heap in
  do put_heap (h ++ [v]) then
  ret (length h).

(** [sync.Mutex]: [Lock] on a held mutex blocks; the package runs in the
    calling goroutine, so nothing can release it. *)
Definition Lock : M unit :=
  let* m := get_mapper in
  if mu m then (fun s => (s, Deadlock))
  else put_mapper {| mu := true; converters := converters m;
                     knownMappings := knownMappings m |}.

Definition Unlock : M unit :=
  let* m := get_mapper in
  if mu m then put_mapper {| mu := false; converters := converters m;
                             knownMappings := knownMappings m |}
  else panic "sync: unlock of unlocked mutex".

(** ** reflect: operations on [Value]

    Each operation panics where Go's does. *)

Definition lift_option {A} (msg : string) (o : option A) : M A :=
  match o with
  | Some a => ret a
  | None => panic msg
  end.

(** The content a [Value] denotes. *)
Definition load (v : Value) : M value :=
  match v with
  | ZeroValue => panic "reflect: call on zero Value"
  | Val _ (Imm x) _ => ret x
  | Val _ (Addr l p) _ =>
      let* h := get_heap in
      lift_option "invalid memory address" (heap_load h l p)
  end.

Definition Value_IsValid (v : Value) : bool :=
  match v with
  | ZeroValue => false
  | Val _ _ _ => true
  end.

Definition Value_Kind (v : Value) : Kind :=
  match v with
  | ZeroValue => KInvalid
  | Val t _ _ => type_Kind t
  end.

Definition Value_Type (v : Value) : M type :=
  match v with
  | ZeroValue => panic "reflect: call of reflect.Value.Type on zero Value"
  | Val t _ _ => ret t
  end.

Definition Type_Elem (t : type) : M type :=
  lift_option "reflect: Elem of invalid type" (type_Elem t).

Definition Value_CanSet (v : Value) : bool :=
  match v with
  | Val _ (Addr _ _) ro => negb ro
  | _ => false
  end.

Definition Value_NumField (v : Value) : M nat :=
  match v with
  | Val (TStruct _ fs) _ _ => ret (length fs)
  | _ => panic "reflect: call of reflect.Value.NumField on non-struct Value"
  end.

(** [Type.Field(i)]. *)
Definition Type_Field (t : type) (i : nat) : M (StructField type) :=
  match t with
  | TStruct _ fs => lift_option "reflect: Field index out of bounds" (fs !! i)
  | _ => panic "reflect: Field of non-struct type"
  end.

(** The component [i] of the place of an aggregate. *)
Definition sub_place (w : place) (i : nat) : M place :=
  match w with
  | Addr l p => ret (Addr l (p ++ [i]))
  | Imm x =>
      match children x with
      | Some es => let* c := lift_option "reflect: index out of range" (es !! i) in
                   ret (Imm c)
      | None => panic "reflect: index out of range"
      end
  end.

(** [Value.Field(i)]: the field inherits the place of the struct and is
    read-only if the struct is or the field is unexported. *)
Definition Value_Field (v : Value) (i : nat) : M Value :=
  match v with
  | Val (TStruct n fs) w ro =>
      let* f := Type_Field (TStruct n fs) i in
      let* w' := sub_place w i in
      ret (Val (FType f) w' (ro || negb (is_exported (Name f))))
  | _ => panic "reflect: call of reflect.Value.Field on non-struct Value"
  end.

(** [Value.Elem] of a pointer: the zero [Value] for nil, else the
    addressable pointee. *)
Definition Value_Elem (v : Value) : M Value :=
  match v with
  | Val (TPtr e) _ ro =>
      let* x := load v in
      match x with
      | VPtr None => ret ZeroValue
      | VPtr (Some l) => ret (Val e (Addr l []) ro)
      | _ => panic "invalid memory address"
      end
  | _ => panic "reflect: call of reflect.Value.Elem on non-pointer Value"
  end.

(** [Value.Len] of an array or a slice. *)
Definition Value_Len (v : Value) : M nat :=
  match v with
  | Val (TArray n _) _ _ => ret n
  | Val (TSlice _) _ _ =>
      let* x := load v in
      match x with
      | VSlice None => ret 0
      | VSlice (Some b) =>
          let* h := get_heap in
          match heap_load h b [] with
          | Some (VArray es) => ret (length es)
          | _ => panic "invalid memory address"
          end
      | _ => panic "invalid memory address"
      end
  | _ => panic "reflect: call of reflect.Value.Len on non-sequence Value"
  end.

(** [Value.Index(i)]: an element of an array shares the array's place; an
    element of a slice lives in the backing array and is addressable. *)
Definition Value_Index (v : Value) (i : nat) : M Value :=
  match v with
  | Val (TArray n e) w ro =>
      if Nat.ltb i n then
        let* w' := sub_place w i in
        ret (Val e w' ro)
      else panic "reflect: array index out of range"
  | Val (TSlice e) _ ro =>
      let* n := Value_Len v in
      if Nat.ltb i n then
        let* x := load v in
        match x with
        | VSlice (Some b) => ret (Val e (Addr b [i]) ro)
        | _ => panic "reflect: slice index out of range"
        end
      else panic "reflect: slice index out of range"
  | _ => panic "reflect: call of reflect.Value.Index on non-sequence Value"
  end.

Definition Value_IsZero (v : Value) : M bool :=
  let* x := load v in
  ret (is_zero x).

Definition Value_IsNil (v : Value) : M bool :=
  match Value_Kind v with
  | KPtr | KSlice =>
      let* x := load v in
      match x with
      | VPtr None | VSlice None => ret true
      | _ => ret false
      end
  | _ => panic "reflect: call of reflect.Value.IsNil on non-nilable Value"
  end.

(** [v.Set(x)]: [v] must be settable, [x] valid and not obtained through an
    unexported field, and the type of [x] assignable to (here: identical
    to) the type of [v].  The content of [x] is copied to the place of
    [v]. *)
Definition Value_Set (v x : Value) : M unit :=
  match v with
  | Val t (Addr l p) false =>
      match x with
      | ZeroValue => panic "reflect: call of reflect.Value.Set on zero Value"
      | Val tx _ true =>
          panic "reflect: reflect.Value.Set using value obtained using unexported field"
      | Val tx _ false =>
          if type_eqb tx t then
            let* xv := load x in
            let* h := get_heap in
            let* h' := lift_option "invalid memory address" (heap_store h l p xv) in
            put_heap h'
          else panic "reflect.Set: value is not assignable to type"
      end
  | _ => panic "reflect: reflect.Value.Set using unaddressable value"
  end.

(** [reflect.New(t)]: a pointer to a fresh zero value of [t]. *)
Definition reflect_New (t : type) : M Value :=
  let* l := alloc (zero_value t) in
  ret (Val (TPtr t) (Imm (VPtr (Some l))) false).

(** [reflect.MakeSlice(t, len, cap)] with [len = cap]: a slice over a fresh
    zeroed backing array. *)
Definition reflect_MakeSlice (t : type) (len cap : nat) : M Value :=
  match t with
  | TSlice e =>
      if Nat.leb len cap then
        let* l := alloc (VArray (replicate len (zero_value e))) in
        ret (Val t (Imm (VSlice (Some l))) false)
      else panic "reflect.MakeSlice: len > cap"
  | _ => panic "reflect.MakeSlice of non-slice type"
  end.

(** [fn.Call([]reflect.Value{x})]: [x] must be valid, of a type assignable
    to the parameter and not read-only.  The first result is a [Value]; the
    results after it are given as what [Interface] returns for them. *)
Definition Func_Call (fn : Func) (x : Value) : M (Value * list iface) :=
  match x with
  | ZeroValue => panic "reflect: Call using zero Value argument"
  | Val tx _ ro =>
      if type_eqb tx (fn_In fn) then
        if ro then
          panic "reflect: reflect.Value.Call using value obtained using unexported field"
        else
          let* xv := load x in
          ret (Val (fn_Out fn) (Imm (fn_first fn xv)) false,
               match fn_second fn with
               | None => []
               | Some g => [g xv]
               end)
      else panic "reflect: Call using value as wrong type"
  end.

Definition reflect_ValueOf (a : boxed) : Value :=
  Val (box_type a) (Imm (box_value a)) false.

Definition reflect_TypeOf (a : boxed) : type := box_type a.

(** ** The package, current revision *)

Module V2.

Record fieldInfo : Type := mkFieldInfo { index : nat; val : Value }.

(** The source's type [mapperFunc]. *)
Definition mapperFunc_type : Type := Value -> Value -> M (option error).

(** [m[k] = v] on the two maps of the mapper: the binding of [k] is
    replaced. *)
Definition knownMappings_insert (k : structMappingInfo)
    (v : list fieldMappingInfo)
    (l : list (structMappingInfo * list fieldMappingInfo))
  : list (structMappingInfo * list fieldMappingInfo) :=
  (k, v) :: List.filter
              (fun e => negb (type_eqb (smi_from (fst e)) (smi_from k)
                              && type_eqb (smi_to (fst e)) (smi_to k))) l.

Definition converters_insert (k : converterInfo) (f : Func)
    (l : list (converterInfo * Func)) : list (converterInfo * Func) :=
  (k, f) :: List.filter
              (fun e => negb (type_eqb (ci_from (fst e)) (ci_from k)
                              && type_eqb (ci_to (fst e)) (ci_to k))) l.

(** [Set]: registers [converter] for its parameter and first result type. *)
Definition Set_ (converter : any) : M (option error) :=
  match converter with
  | AnyVal _ => ret (Some ErrNotAFn)
  | AnyFunc fn =>
      let* m := get_mapper in
      do put_mapper
           {| mu := mu m;
              converters :=
                converters_insert {| ci_from := fn_In fn; ci_to := fn_Out fn |}
                                  fn (converters m);
              knownMappings := knownMappings m |} then
      ret None
  end.

Definition elem_Kind_is (k : Kind) (tp : type) : bool :=
  match type_Elem tp with
  | Some e => Kind_eqb (type_Kind e) k
  | None => false
  end.

Definition isStructOrPtrToStruct (tp : type) : bool :=
  Kind_eqb (type_Kind tp) KStruct
  || (Kind_eqb (type_Kind tp) KPtr && elem_Kind_is KStruct tp).

Definition elem_isStructOrPtrToStruct (tp : type) : bool :=
  match type_Elem tp with
  | Some e => isStructOrPtrToStruct e
  | None => false
  end.

Definition detectMappingType (fromVal toVal : fieldInfo) : M supportedType :=
  let* fromType := Value_Type (val fromVal) in
  let* toType := Value_Type (val toVal) in
  let* m := get_mapper in
  match converters_lookup {| ci_from := fromType; ci_to := toType |}
                          (converters m) with
  | Some _ => ret converterFunc
  | None =>
      if type_eqb toType fromType then ret sameTypes
      else if isStructOrPtrToStruct fromType && isStructOrPtrToStruct toType
      then ret structs
      else if (Kind_eqb (type_Kind fromType) KSlice
               && elem_isStructOrPtrToStruct fromType)
              && (Kind_eqb (type_Kind toType) KSlice
                  && elem_isStructOrPtrToStruct toType)
      then ret slices
      else if (Kind_eqb (type_Kind fromType) KArray
               && elem_isStructOrPtrToStruct fromType)
              && (Kind_eqb (type_Kind toType) KArray
                  && elem_isStructOrPtrToStruct toType)
      then ret arrays
      else ret unsupported
  end.

(** The type assertion [x.(error)] in its two-result form. *)
Definition assert_error (x : iface) : option error * bool :=
  match x with
  | IfaceErr e => (Some e, true)
  | _ => (None, false)
  end.

Section Strategies.

  (** The recursive call [m.mapStructs]. *)
  Variable mapStructs : Value -> Value -> M (option error).

Definition mapStructsFunc (fromVal toVal : Value) : M (option error) :=
    (* if from val is ptr - take Elem *)
    let* fromVal := (if Kind_eqb (Value_Kind fromVal) KPtr
                     then Value_Elem fromVal else ret fromVal) in
    let* err :=
      (if Kind_eqb (Value_Kind toVal) KPtr then
         let* tt := Value_Type toVal in
         let* te := Type_Elem tt in
         let* p := reflect_New te in
         do Value_Set toVal p then
         let* toElem := Value_Elem toVal in
         mapStructs fromVal toElem
       else mapStructs fromVal toVal) in
    match err with
    | Some e => ret (Some e)
    | None => ret None
    end.

  (** One turn of the loop of [setArrayValue]. *)
Definition setArrayValue_body (fromVal toVal array : Value) (i : nat)
    : M (option error) :=
    let* tt := Value_Type toVal in
    let* toElemType := Type_Elem tt in
    let* arrayElem :=
      (if Kind_eqb (type_Kind toElemType) KPtr then
         let* te := Type_Elem toElemType in reflect_New te
       else reflect_New toElemType) in
    let* ft := Value_Type fromVal in
    let* fromElemType := Type_Elem ft in
    let* err :=
      (if Kind_eqb (type_Kind fromElemType) KStruct then
         let* f := Value_Index fromVal i in
         let* t := Value_Elem arrayElem in
         mapStructs f t
       else ret None) in
    let* err :=
      (if Kind_eqb (type_Kind fromElemType) KPtr then
         let* f := Value_Index fromVal i in
         let* f := Value_Elem f in
         let* t := Value_Elem arrayElem in
         mapStructs f t
       else ret err) in
    match err with
    | Some e => ret (Some e)
    | None =>
        if Kind_eqb (type_Kind toElemType) KPtr then
          let* a := Value_Index array i in
          do Value_Set a arrayElem then
          ret None
        else
          let* a := Value_Index array i in
          let* e := Value_Elem arrayElem in
          do Value_Set a e then
          ret None
    end.

Fixpoint setArrayValue_loop (fromVal toVal array : Value) (ixs : list nat)
    : M (option error) :=
    match ixs with
    | [] => ret None
    | i :: ixs' =>
        let* err := setArrayValue_body fromVal toVal array i in
        match err with
        | Some e => ret (Some e)
        | None => setArrayValue_loop fromVal toVal array ixs'
        end
    end.

  (** [for i := 0; i < fromVal.Len(); i++]: nothing in the loop writes the
      header of the source sequence, so its length is read once. *)
Definition setArrayValue (fromVal toVal array : Value) : M (option error) :=
    let* n := Value_Len fromVal in
    setArrayValue_loop fromVal toVal array (seq 0 n).

Definition mapSlicesFunc (fromVal toVal : Value) : M (option error) :=
    let* tt := Value_Type toVal in
    let* n := Value_Len fromVal in
    let* slice := reflect_MakeSlice tt n n in
    let* err := setArrayValue fromVal toVal slice in
    match err with
    | Some e => ret (Some (Errorf_setArrayValue e))
    | None => do Value_Set toVal slice then ret None
    end.

Definition mapArraysFunc (fromVal toVal : Value) : M (option error) :=
    let* n := Value_Len fromVal in
    let* tt := Value_Type toVal in
    let* te := Type_Elem tt in
    let* p := reflect_New (ArrayOf n te) in
    let* array := Value_Elem p in
    let* err := setArrayValue fromVal toVal array in
    match err with
    | Some e => ret (Some (Errorf_setArrayValue e))
    | None => do Value_Set toVal array then ret None
    end.

Definition mapSameTypesFunc (fromVal toVal : Value) : M (option error) :=
    do Value_Set toVal fromVal then
    ret None.

Definition mapConverterFunc (fromVal toVal : Value) : M (option error) :=
    let* ft := Value_Type fromVal in
    let* tt := Value_Type toVal in
    let* m := get_mapper in
    match converters_lookup {| ci_from := ft; ci_to := tt |} (converters m) with
    | None => ret (Some ErrMissingConverter)
    | Some converter =>
        let* outArgs := Func_Call converter fromVal in
        do Value_Set toVal (fst outArgs) then
        match snd outArgs with
        | [] => ret None
        | out1 :: _ =>
            let (err, ok) := assert_error out1 in
            if negb ok then ret (Some ErrConverterErrorUnknownType)
            else match err with
                 | Some e => ret (Some (Errorf_converter e))
                 | None => ret None
                 end
        end
    end.

  (** [initStrategies]: the table [m.strats].  Looking up [unsupported]
      gives the nil function, whose call panics. *)
Definition strats (t : supportedType) : mapperFunc_type :=
    match t with
    | structs => mapStructsFunc
    | slices => mapSlicesFunc
    | arrays => mapArraysFunc
    | sameTypes => mapSameTypesFunc
    | converterFunc => mapConverterFunc
    | unsupported =>
        fun _ _ => panic "invalid memory address or nil pointer dereference"
    end.

Fixpoint mapKnownStruct (mappingInfo : list fieldMappingInfo)
      (from to : Value) : M (option error) :=
    match mappingInfo with
    | [] => ret None
    | fieldInfo :: rest =>
        let* f := Value_Field from (fromIndex fieldInfo) in
        let* t := Value_Field to (toIndex fieldInfo) in
        let* err := strats (mapperFunc fieldInfo) f t in
        match err with
        | Some e => ret (Some e)
        | None => mapKnownStruct rest from to
        end
    end.

End Strategies.

(** The key under which a field is matched: the [mapper] tag when present
    and non-empty, else the declared name. *)
Definition field_key (fieldType : StructField type) : string :=
  match Tag_mapper fieldType with
  | Some mapperTag =>
      if negb (String.eqb mapperTag "") then mapperTag else Name fieldType
  | None => Name fieldType
  end.

Fixpoint getFieldInfo_from (from : Value) (ixs : list nat)
    (fromFields : gmap string fieldInfo) : M (gmap string fieldInfo) :=
  match ixs with
  | [] => ret fromFields
  | i :: ixs' =>
      (* skip zero or nil values *)
      let* fieldVal := Value_Field from i in
      let* z := Value_IsZero fieldVal in
      let* skip := (if z then ret true
                    else if Kind_eqb (Value_Kind fieldVal) KPtr
                         then Value_IsNil fieldVal else ret false) in
      if skip then getFieldInfo_from from ixs' fromFields
      else
        let* ft := Value_Type from in
        let* fieldType := Type_Field ft i in
        getFieldInfo_from from ixs'
          (<[field_key fieldType := {| index := i; val := fieldVal |}]> fromFields)
  end.

Fixpoint getFieldInfo_to (to : Value) (ixs : list nat)
    (toFields : gmap string fieldInfo) : M (gmap string fieldInfo) :=
  match ixs with
  | [] => ret toFields
  | i :: ixs' =>
      let* fieldVal := Value_Field to i in
      if negb (Value_CanSet fieldVal) then getFieldInfo_to to ixs' toFields
      else
        let* tt := Value_Type to in
        let* fieldType := Type_Field tt i in
        getFieldInfo_to to ixs'
          (<[field_key fieldType := {| index := i; val := fieldVal |}]> toFields)
  end.

Definition getFieldInfo (from to : Value)
  : M (gmap string fieldInfo * gmap string fieldInfo) :=
  let* n := Value_NumField from in
  let* fromFields := getFieldInfo_from from (seq 0 n) ∅ in
  let* n' := Value_NumField to in
  let* toFields := getFieldInfo_to to (seq 0 n') ∅ in
  ret (fromFields, toFields).

(** [m.knownMappings[mappingInfo] = append(m.knownMappings[mappingInfo], e)] *)
Definition knownMappings_append (mappingInfo : structMappingInfo)
    (e : fieldMappingInfo) : M unit :=
  let* m := get_mapper in
  put_mapper
    {| mu := mu m; converters := converters m;
       knownMappings :=
         knownMappings_insert mappingInfo
           (default [] (knownMappings_lookup mappingInfo (knownMappings m))
              ++ [e])
           (knownMappings m) |}.

Definition knownMappings_reset (mappingInfo : structMappingInfo) : M unit :=
  let* m := get_mapper in
  put_mapper
    {| mu := mu m; converters := converters m;
       knownMappings := knownMappings_insert mappingInfo [] (knownMappings m) |}.

Section Range.

  (** The order in which [range] visits the entries of a Go map is not
      specified: it is a parameter of the embedding. *)
  Variable range_order :
    list (string * fieldInfo) -> list (string * fieldInfo).

  Section Loop.
    Variable mapStructs : Value -> Value -> M (option error).

    (** The loop [for name, fromVal := range fromFields] of [mapStructs]. *)
Fixpoint mapStructs_range (mappingInfo : structMappingInfo)
        (toFields : gmap string fieldInfo)
        (l : list (string * fieldInfo)) : M (option error) :=
      match l with
      | [] => ret None
      | (name, fromVal) :: rest =>
          match toFields !! name with
          | None => mapStructs_range mappingInfo toFields rest
          | Some toVal =>
              let* mappingType := detectMappingType fromVal toVal in
              if negb (supportedType_eqb mappingType unsupported) then
                let* err := strats mapStructs mappingType (val fromVal) (val toVal) in
                match err with
                | Some e => ret (Some e)
                | None =>
                    do Lock then
                    do knownMappings_append mappingInfo
                         {| fromIndex := index fromVal;
                            toIndex := index toVal;
                            mapperFunc := mappingType |} then
                    do Unlock then
                    mapStructs_range mappingInfo toFields rest
                end
              else
                let* ft := Value_Type (val fromVal) in
                let* tt := Value_Type (val toVal) in
                ret (Some (Errorf_missing ft tt))
          end
      end.
  End Loop.

  (** [mapStructs]; [fuel] bounds the depth of the recursion through the
      strategies. *)
Fixpoint mapStructs (fuel : nat) (from to : Value) : M (option error) :=
    match fuel with
    | 0 => fun s => (s, OutOfFuel)
    | S fuel' =>
        if negb (Value_IsValid from) then ret None
        else
          do Lock then
          let* tf := Value_Type from in
          let* tt := Value_Type to in
          let mappingInfo := {| smi_from := tf; smi_to := tt |} in
          let* m := get_mapper in
          let* err :=
            match knownMappings_lookup mappingInfo (knownMappings m) with
            | Some knownMapping =>
                mapKnownStruct (mapStructs fuel') knownMapping from to
            | None => ret None
            end in
          match err with
          | Some e => ret (Some e)
          | None =>
              do knownMappings_reset mappingInfo then
              do Unlock then
              let* fields := getFieldInfo from to in
              mapStructs_range (mapStructs fuel') mappingInfo (snd fields)
                (range_order (map_to_list (fst fields)))
          end
    end.

  (** The recursion descends through the type of [from]: its size bounds
      the depth. *)
Definition fuel_for (tp : type) : nat := S (type_size tp).

Definition ptr_to_slice_of_structs (tp : type) : bool :=
    Kind_eqb (type_Kind tp) KPtr && elem_Kind_is KSlice tp
    && match type_Elem tp with
       | Some e => elem_isStructOrPtrToStruct e
       | None => false
       end.

  (** [Map]. *)
Definition Map (from to : boxed) : M (option error) :=
    let typeFrom := reflect_TypeOf from in
    let typeTo := reflect_TypeOf to in
    let valFrom := reflect_ValueOf from in
    let valTo := reflect_ValueOf to in
    if ptr_to_slice_of_structs typeFrom && ptr_to_slice_of_structs typeTo then
      let* f := Value_Elem valFrom in
      let* t := Value_Elem valTo in
      mapSlicesFunc (mapStructs (fuel_for typeFrom)) f t
    else if isStructOrPtrToStruct typeFrom && isStructOrPtrToStruct typeTo then
      let* f := Value_Elem valFrom in
      let* t := Value_Elem valTo in
      mapStructs (fuel_for typeFrom) f t
    else ret None.

End Range.

End V2.

(** ** The package, earlier revision ([mapper.go])

    No plan cache and no mutex; [mapStructs] calls the converter itself;
    the strategies take [fieldInfo] pairs and there is no [converterFunc]
    strategy. *)

Module V1.

Record fieldInfo : Type := mkFieldInfo { tp : type; val : Value }.

Definition mapperFunc_type : Type := fieldInfo -> fieldInfo -> M (option error).

Definition Set_ (converter : any) : M (option error) := V2.Set_ converter.

Definition isStructOrPtrToStruct (tp : type) : bool :=
  Kind_eqb (type_Kind tp) KStruct
  || (Kind_eqb (type_Kind tp) KPtr && V2.elem_Kind_is KStruct tp).

Definition elem_isStructOrPtrToStruct (tp : type) : bool :=
  match type_Elem tp with
  | Some e => isStructOrPtrToStruct e
  | None => false
  end.

Definition detectMappingType (fromVal toVal : fieldInfo) : M supportedType :=
  let* tt := Value_Type (val toVal) in
  let* ft := Value_Type (val fromVal) in
  if type_eqb tt ft then ret sameTypes
  else if isStructOrPtrToStruct (tp fromVal) && isStructOrPtrToStruct (tp toVal)
  then ret structs
  else if (Kind_eqb (type_Kind (tp fromVal)) KSlice
           && elem_isStructOrPtrToStruct (tp fromVal))
          && (Kind_eqb (type_Kind (tp toVal)) KSlice
              && elem_isStructOrPtrToStruct (tp toVal))
  then ret slices
  else if (Kind_eqb (type_Kind (tp fromVal)) KArray
           && elem_isStructOrPtrToStruct (tp fromVal))
          && (Kind_eqb (type_Kind (tp toVal)) KArray
              && elem_isStructOrPtrToStruct (tp toVal))
  then ret arrays
  else ret unsupported.

(** The type assertion [x.(error)] in its one-result form: it panics
    unless [x] holds an error. *)
Definition assert_error (x : iface) : M (option error) :=
  match x with
  | IfaceErr e => ret (Some e)
  | IfaceNil => panic "interface conversion: interface is nil, not error"
  | IfaceVal _ _ =>
      panic "interface conversion: value is not error: missing method Error"
  end.

Section Strategies.

  Variable mapStructs : Value -> Value -> M (option error).

Definition mapStructsFunc (fromVal toVal : fieldInfo) : M (option error) :=
    let* fromVal_val := (if Kind_eqb (Value_Kind (val fromVal)) KPtr
                         then Value_Elem (val fromVal)
                         else ret (val fromVal)) in
    let* err :=
      (if Kind_eqb (Value_Kind (val toVal)) KPtr then
         let* te := Type_Elem (tp toVal) in
         let* p := reflect_New te in
         do Value_Set (val toVal) p then
         let* toElem := Value_Elem (val toVal) in
         mapStructs fromVal_val toElem
       else mapStructs fromVal_val (val toVal)) in
    match err with
    | Some e => ret (Some e)
    | None => ret None
    end.

Definition setArrayValue_body (fromVal toVal : fieldInfo) (array : Value)
      (i : nat) : M (option error) :=
    let* toElemType := Type_Elem (tp toVal) in
    let* arrayElem :=
      (if Kind_eqb (type_Kind toElemType) KPtr then
         let* te := Type_Elem toElemType in reflect_New te
       else reflect_New toElemType) in
    let* fromElemType := Type_Elem (tp fromVal) in
    let* err :=
      (if Kind_eqb (type_Kind fromElemType) KStruct then
         let* f := Value_Index (val fromVal) i in
         let* t := Value_Elem arrayElem in
         mapStructs f t
       else ret None) in
    let* err :=
      (if Kind_eqb (type_Kind fromElemType) KPtr then
         let* f := Value_Index (val fromVal) i in
         let* f := Value_Elem f in
         let* t := Value_Elem arrayElem in
         mapStructs f t
       else ret err) in
    match err with
    | Some e => ret (Some e)
    | None =>
        if Kind_eqb (type_Kind toElemType) KPtr then
          let* a := Value_Index array i in
          do Value_Set a arrayElem then
          ret None
        else
          let* a := Value_Index array i in
          let* e := Value_Elem arrayElem in
          do Value_Set a e then
          ret None
    end.

Fixpoint setArrayValue_loop (fromVal toVal : fieldInfo) (array : Value)
      (ixs : list nat) : M (option error) :=
    match ixs with
    | [] => ret None
    | i :: ixs' =>
        let* err := setArrayValue_body fromVal toVal array i in
        match err with
        | Some e => ret (Some e)
        | None => setArrayValue_loop fromVal toVal array ixs'
        end
    end.

Definition setArrayValue (fromVal toVal : fieldInfo) (array : Value)
    : M (option error) :=
    let* n := Value_Len (val fromVal) in
    setArrayValue_loop fromVal toVal array (seq 0 n).

Definition mapSlicesFunc (fromVal toVal : fieldInfo) : M (option error) :=
    let* n := Value_Len (val fromVal) in
    let* slice := reflect_MakeSlice (tp toVal) n n in
    let* err := setArrayValue fromVal toVal slice in
    match err with
    | Some e => ret (Some (Errorf_setArrayValue e))
    | None => do Value_Set (val toVal) slice then ret None
    end.

Definition mapArraysFunc (fromVal toVal : fieldInfo) : M (option error) :=
    let* n := Value_Len (val fromVal) in
    let* te := Type_Elem (tp toVal) in
    let* p := reflect_New (ArrayOf n te) in
    let* array := Value_Elem p in
    let* err := setArrayValue fromVal toVal array in
    match err with
    | Some e => ret (Some (Errorf_setArrayValue e))
    | None => do Value_Set (val toVal) array then ret None
    end.

Definition mapSameTypesFunc (fromVal toVal : fieldInfo) : M (option error) :=
    do Value_Set (val toVal) (val fromVal) then
    ret None.

Definition strats (t : supportedType) : mapperFunc_type :=
    match t with
    | structs => mapStructsFunc
    | slices => mapSlicesFunc
    | arrays => mapArraysFunc
    | sameTypes => mapSameTypesFunc
    | _ => fun _ _ => panic "invalid memory address or nil pointer dereference"
    end.

End Strategies.

Fixpoint fromFields_loop (from : Value) (ixs : list nat)
    (fromFields : gmap string fieldInfo) : M (gmap string fieldInfo) :=
  match ixs with
  | [] => ret fromFields
  | i :: ixs' =>
      (* skip zero or nil values *)
      let* f := Value_Field from i in
      let* z := Value_IsZero f in
      let* skip := (if z then ret true
                    else if Kind_eqb (Value_Kind f) KPtr
                         then Value_IsNil f else ret false) in
      if skip then fromFields_loop from ixs' fromFields
      else
        let* field := Value_Field from i in
        let* ft := Value_Type from in
        let* sf := Type_Field ft i in
        fromFields_loop from ixs'
          (<[Name sf := {| tp := FType sf; val := field |}]> fromFields)
  end.

Fixpoint toFields_loop (to : Value) (ixs : list nat)
    (toFields : gmap string fieldInfo) : M (gmap string fieldInfo) :=
  match ixs with
  | [] => ret toFields
  | i :: ixs' =>
      let* f := Value_Field to i in
      if negb (Value_CanSet f) then toFields_loop to ixs' toFields
      else
        let* field := Value_Field to i in
        let* tt := Value_Type to in
        let* sf := Type_Field tt i in
        toFields_loop to ixs'
          (<[Name sf := {| tp := FType sf; val := field |}]> toFields)
  end.

Section Range.

  Variable range_order :
    list (string * fieldInfo) -> list (string * fieldInfo).

  Section Loop.
    Variable mapStructs : Value -> Value -> M (option error).

    (** One turn of [for name, fromVal := range fromFields]: [inl r] when
        the turn returns [r] from [mapStructs], [inr tt] when the loop goes
        on. *)
Definition mapStructs_turn (toFields : gmap string fieldInfo)
        (name : string) (fromVal : fieldInfo)
      : M (option error + unit) :=
      match toFields !! name with
      | None => ret (inr tt)
      | Some toVal =>
          let* tt_ := Value_Type (val toVal) in
          let* m := get_mapper in
          let* early :=
            match converters_lookup {| ci_from := tp fromVal; ci_to := tt_ |}
                                    (converters m) with
            | Some converter =>
                let* outArgs := Func_Call converter (val fromVal) in
                match snd outArgs with
                | [] =>
                    do Value_Set (val toVal) (fst outArgs) then
                    ret (Some None)
                | out1 :: _ =>
                    let* err := assert_error out1 in
                    match err with
                    | Some e => ret (Some (Some (Errorf_converter_field name e)))
                    | None => ret None
                    end
                end
            | None => ret None
            end in
          match early with
          | Some r => ret (inl r)
          | None =>
              let* mappingType := detectMappingType fromVal toVal in
              if negb (supportedType_eqb mappingType unsupported) then
                let* err := strats mapStructs mappingType fromVal toVal in
                match err with
                | Some e => ret (inl (Some e))
                | None => ret (inr tt)
                end
              else
                let* ft := Value_Type (val fromVal) in
                let* tt' := Value_Type (val toVal) in
                ret (inl (Some (Errorf_missing ft tt')))
          end
      end.

Fixpoint mapStructs_range (toFields : gmap string fieldInfo)
        (l : list (string * fieldInfo)) : M (option error) :=
      match l with
      | [] => ret None
      | (name, fromVal) :: rest =>
          let* r := mapStructs_turn toFields name fromVal in
          match r with
          | inl out => ret out
          | inr _ => mapStructs_range toFields rest
          end
      end.
  End Loop.

Fixpoint mapStructs (fuel : nat) (from to : Value) : M (option error) :=
    match fuel with
    | 0 => fun s => (s, OutOfFuel)
    | S fuel' =>
        if negb (Value_IsValid from) then ret None
        else
          let* n := Value_NumField from in
          let* fromFields := fromFields_loop from (seq 0 n) ∅ in
          let* n' := Value_NumField to in
          let* toFields := toFields_loop to (seq 0 n') ∅ in
          mapStructs_range (mapStructs fuel') toFields
            (range_order (map_to_list fromFields))
    end.

  (** [Map]. *)
Definition Map (from to : boxed) : M (option error) :=
    let valFrom := reflect_ValueOf from in
    let valTo := reflect_ValueOf to in
    if negb (Kind_eqb (Value_Kind valFrom) KPtr)
       || negb (Kind_eqb (Value_Kind valTo) KPtr)
    then ret (Some ErrNotAPtr)
    else
      let* f := Value_Elem valFrom in
      let* t := Value_Elem valTo in
      mapStructs (S (type_size (box_type from))) f t.

End Range.

End V1.

(** * Properties *)

(** ** Equality of types *)

Section type_ind_nested.
  Variable P : type -> Prop.
  Hypothesis HBool : P TBool.
  Hypothesis HInt : P TInt.
  Hypothesis HFloat64 : P TFloat64.
  Hypothesis HString : P TString.
  Hypothesis HPtr : forall e, P e -> P (TPtr e).
  Hypothesis HSlice : forall e, P e -> P (TSlice e).
  Hypothesis HArray : forall n e, P e -> P (TArray n e).
  Hypothesis HStruct :
    forall n fs, Forall (fun f => P (FType f)) fs -> P (TStruct n fs).

Fixpoint type_ind_nested (t : type) : P t :=
    match t with
    | TBool => HBool
    | TInt => HInt
    | TFloat64 => HFloat64
    | TString => HString
    | TPtr e => HPtr e (type_ind_nested e)
    | TSlice e => HSlice e (type_ind_nested e)
    | TArray n e => HArray n e (type_ind_nested e)
    | TStruct n fs =>
        HStruct n fs
          ((fix go (fs : list (StructField type))
              : Forall (fun f => P (FType f)) fs :=
              match fs with
              | [] => List.Forall_nil _
              | f :: fs' =>
                  List.Forall_cons _ f fs' (type_ind_nested (FType f)) (go fs')
              end) fs)
    end.
End type_ind_nested.

Lemma option_string_eqb_eq a b : option_string_eqb a b = true <-> a = b.
Proof.
  destruct a, b; simpl; try (split; congruence).
  rewrite String.eqb_eq. split; congruence.
Qed.

Lemma type_eqb_eq a b : type_eqb a b = true <-> a = b.
Proof.
  revert b. induction a using type_ind_nested; intros b;
    destruct b; simpl; try (split; congruence).
  - rewrite IHa. split; congruence.
  - rewrite IHa. split; congruence.
  - rewrite andb_true_iff, Nat.eqb_eq, IHa. split; [intros []|intros [=]]; subst; auto.
  - rewrite andb_true_iff, String.eqb_eq.
    match goal with |- context [?g fs fields = true] => set (go := g) end.
    assert (Hgo : forall gs, go fs gs = true <-> fs = gs).
    { clear n name. induction H as [|f fs' Hf _ IH]; intros [|g gs]; simpl;
        try (split; congruence).
      rewrite !andb_true_iff, String.eqb_eq, option_string_eqb_eq, Hf, IH.
      destruct f, g; simpl. split.
      - intros [[[-> ->] ->] ->]. reflexivity.
      - intros [=]; subst. auto. }
    rewrite Hgo. split; [intros []|intros [=]]; subst; auto.
Qed.

Lemma type_eqb_refl t : type_eqb t t = true.
Proof. apply type_eqb_eq. reflexivity. Qed.

Lemma type_eqb_neq a b : a <> b -> type_eqb a b = false.
Proof.
  intros H. destruct (type_eqb a b) eqn:E; [|reflexivity].
  apply type_eqb_eq in E. contradiction.
Qed.

(** ** Paths and the heap *)

Lemma children_with_children v es es' :
  children v = Some es -> children (with_children v es') = Some es'.
Proof. destruct v; simpl; congruence. Qed.

Lemma get_set_path p : forall v x v',
  set_path v p x = Some v' -> get_path v' p = Some x.
Proof.
  induction p as [|i p IH]; intros v x v'; simpl.
  - congruence.
  - destruct (children v) as [es|] eqn:Hc; [|discriminate].
    destruct (es !! i) as [c|] eqn:Hi; [|discriminate].
    destruct (set_path c p x) as [c'|] eqn:Hs; [|discriminate].
    intros [= <-]. rewrite (children_with_children _ _ _ Hc).
    rewrite list_lookup_insert_eq by (eapply lookup_lt_Some; eauto).
    eauto.
Qed.

Lemma heap_store_length h l p x h' :
  heap_store h l p x = Some h' -> length h' = length h.
Proof.
  unfold heap_store. destruct (h !! l); [|discriminate].
  destruct (set_path v p x); [|discriminate].
  intros [= <-]. apply length_insert.
Qed.

Lemma heap_store_other h l p x h' l' :
  heap_store h l p x = Some h' -> l' <> l -> h' !! l' = h !! l'.
Proof.
  unfold heap_store. destruct (h !! l); [|discriminate].
  destruct (set_path v p x); [|discriminate].
  intros [= <-] Hne. apply list_lookup_insert_ne. congruence.
Qed.

Lemma heap_load_store h l p x h' :
  heap_store h l p x = Some h' -> heap_load h' l p = Some x.
Proof.
  unfold heap_store, heap_load. destruct (h !! l) eqn:Hl; [|discriminate].
  destruct (set_path v p x) eqn:Hs; [|discriminate].
  intros [= <-].
  rewrite list_lookup_insert_eq by (eapply lookup_lt_Some; eauto).
  eapply get_set_path; eauto.
Qed.

(** ** Running the monad *)

Lemma bind_Ok {A B} (c : M A) (f : A -> M B) s s1 a :
  c s = (s1, Ok a) -> bind c f s = f a s1.
Proof. unfold bind. intros ->. reflexivity. Qed.

(** An outcome other than [Ok], at another result type. *)
Definition abort {A B} (r : result A) : result B :=
  match r with
  | Ok _ => OutOfFuel
  | Panic m => Panic m
  | Deadlock => Deadlock
  | OutOfFuel => OutOfFuel
  end.

Lemma bind_inv {A B} (c : M A) (f : A -> M B) s s' r :
  bind c f s = (s', r) ->
  (exists s1 a, c s = (s1, Ok a) /\ f a s1 = (s', r))
  \/ (exists r1, c s = (s', r1) /\ (forall a, r1 <> Ok a) /\ r = abort r1).
Proof.
  unfold bind. destruct (c s) as [s1 [a|m| |]].
  - left. eauto.
  - intros [= <- <-]. right. eexists. split; [reflexivity|]. split; [discriminate|reflexivity].
  - intros [= <- <-]. right. eexists. split; [reflexivity|]. split; [discriminate|reflexivity].
  - intros [= <- <-]. right. eexists. split; [reflexivity|]. split; [discriminate|reflexivity].
Qed.

Lemma bind_Ok_inv {A B} (c : M A) (f : A -> M B) s s' b :
  bind c f s = (s', Ok b) ->
  exists s1 a, c s = (s1, Ok a) /\ f a s1 = (s', Ok b).
Proof.
  unfold bind. destruct (c s) as [s1 [a|m| |]]; try discriminate. eauto.
Qed.

(** ** Computations that leave the heap alone *)

Definition heap_ro {A} (c : M A) : Prop :=
  forall s, s_heap (fst (c s)) = s_heap s.

Lemma heap_ro_ret {A} (a : A) : heap_ro (ret a).
Proof. intros s. reflexivity. Qed.

Lemma heap_ro_panic {A} msg : heap_ro (@panic A msg).
Proof. intros s. reflexivity. Qed.

Lemma heap_ro_bind {A B} (c : M A) (f : A -> M B) :
  heap_ro c -> (forall a, heap_ro (f a)) -> heap_ro (bind c f).
Proof.
  intros Hc Hf s. unfold bind. specialize (Hc s).
  destruct (c s) as [s1 [a|m| |]]; simpl in *; try assumption.
  rewrite Hf. assumption.
Qed.

Lemma heap_ro_get_heap : heap_ro get_heap.
Proof. intros s. reflexivity. Qed.

Lemma heap_ro_get_mapper : heap_ro get_mapper.
Proof. intros s. reflexivity. Qed.

Lemma heap_ro_put_mapper m : heap_ro (put_mapper m).
Proof. intros s. reflexivity. Qed.

Lemma heap_ro_lift_option {A} msg (o : option A) : heap_ro (lift_option msg o).
Proof. destruct o; intros s; reflexivity. Qed.

Lemma heap_ro_stuck {A} (r : result A) : heap_ro (fun s => (s, r)).
Proof. intros s. reflexivity. Qed.

Create HintDb ro discriminated.
#[export] Hint Resolve @heap_ro_ret @heap_ro_panic @heap_ro_get_heap
  @heap_ro_get_mapper @heap_ro_put_mapper @heap_ro_lift_option
  @heap_ro_stuck : ro.

Ltac solve_ro :=
  repeat first
    [ solve [eauto with ro]
    | apply heap_ro_bind; [|intro]
    | match goal with
      | |- heap_ro (match ?x with _ => _ end) => destruct x
      | |- heap_ro (if ?b then _ else _) => destruct b
      end ].

Lemma heap_ro_Lock : heap_ro Lock.
Proof. unfold Lock. solve_ro. Qed.

Lemma heap_ro_Unlock : heap_ro Unlock.
Proof. unfold Unlock. solve_ro. Qed.

Lemma heap_ro_load v : heap_ro (load v).
Proof. unfold load. solve_ro. Qed.

Lemma heap_ro_Value_Type v : heap_ro (Value_Type v).
Proof. unfold Value_Type. solve_ro. Qed.

Lemma heap_ro_Type_Elem t : heap_ro (Type_Elem t).
Proof. unfold Type_Elem. solve_ro. Qed.

Lemma heap_ro_Value_NumField v : heap_ro (Value_NumField v).
Proof. unfold Value_NumField. solve_ro. Qed.

Lemma heap_ro_Type_Field t i : heap_ro (Type_Field t i).
Proof. unfold Type_Field. solve_ro. Qed.

Lemma heap_ro_sub_place w i : heap_ro (sub_place w i).
Proof. unfold sub_place. solve_ro. Qed.

#[export] Hint Resolve heap_ro_Lock heap_ro_Unlock heap_ro_load
  heap_ro_Value_Type heap_ro_Type_Elem heap_ro_Value_NumField
  heap_ro_Type_Field heap_ro_sub_place : ro.

Lemma heap_ro_Value_Field v i : heap_ro (Value_Field v i).
Proof. unfold Value_Field. solve_ro. Qed.

Lemma heap_ro_Value_Elem v : heap_ro (Value_Elem v).
Proof. unfold Value_Elem. solve_ro. Qed.

Lemma heap_ro_Value_Len v : heap_ro (Value_Len v).
Proof. unfold Value_Len. solve_ro. Qed.

#[export] Hint Resolve heap_ro_Value_Field heap_ro_Value_Elem
  heap_ro_Value_Len : ro.

Lemma heap_ro_Value_Index v i : heap_ro (Value_Index v i).
Proof. unfold Value_Index. solve_ro. Qed.

Lemma heap_ro_Value_IsZero v : heap_ro (Value_IsZero v).
Proof. unfold Value_IsZero. solve_ro. Qed.

Lemma heap_ro_Value_IsNil v : heap_ro (Value_IsNil v).
Proof. unfold Value_IsNil. solve_ro. Qed.

Lemma heap_ro_Func_Call fn x : heap_ro (Func_Call fn x).
Proof. unfold Func_Call. solve_ro. Qed.

#[export] Hint Resolve heap_ro_Value_Index heap_ro_Value_IsZero
  heap_ro_Value_IsNil heap_ro_Func_Call : ro.

(** ** Frames: which cells a computation may write *)

(** The heap cell a [Value] is rooted in, if it is addressable. *)
Definition root (v : Value) : option loc :=
  match v with
  | Val _ (Addr l _) _ => Some l
  | _ => None
  end.

(** [pres n P h h']: the heap only grew, and every cell below [n] outside
    [P] kept its content. *)
Definition pres (n : nat) (P : loc -> Prop) (h h' : list value) : Prop :=
  length h <= length h'
  /\ forall l : nat, l < n -> ~ P l -> h' !! l = h !! l.

Lemma pres_refl n P h : pres n P h h.
Proof. split; auto. Qed.

Lemma pres_trans n P h0 h1 h2 :
  pres n P h0 h1 -> pres n P h1 h2 -> pres n P h0 h2.
Proof.
  intros [L1 H1] [L2 H2]. split; [lia|].
  intros l Hl HP. rewrite H2, H1; auto.
Qed.

Lemma pres_ro {A} n P (c : M A) s :
  heap_ro c -> pres n P (s_heap s) (s_heap (fst (c s))).
Proof. intros H. rewrite H. apply pres_refl. Qed.

Lemma pres_bind {A B} n P (c : M A) (f : A -> M B) s :
  n <= length (s_heap s) ->
  pres n P (s_heap s) (s_heap (fst (c s))) ->
  (forall a s1, c s = (s1, Ok a) -> n <= length (s_heap s1) ->
                pres n P (s_heap s1) (s_heap (fst (f a s1)))) ->
  pres n P (s_heap s) (s_heap (fst (bind c f s))).
Proof.
  intros Hn Hc Hf. unfold bind.
  destruct (c s) as [s1 [a|m| |]] eqn:E; simpl in *; try assumption.
  eapply pres_trans; [exact Hc|]. apply Hf; [reflexivity|].
  destruct Hc. lia.
Qed.

Lemma run_ro {A} (c : M A) s s1 r :
  heap_ro c -> c s = (s1, r) -> s_heap s1 = s_heap s.
Proof. intros H E. specialize (H s). rewrite E in H. exact H. Qed.

Lemma pres_alloc n P v s :
  n <= length (s_heap s) -> pres n P (s_heap s) (s_heap (fst (alloc v s))).
Proof.
  intros Hn. unfold alloc, bind, get_heap, put_heap, ret; simpl. split.
  - rewrite length_app. lia.
  - intros l Hl _. apply lookup_app_l. lia.
Qed.

Lemma alloc_run v s :
  alloc v s = ({| s_heap := s_heap s ++ [v]; s_mapper := s_mapper s |},
               Ok (length (s_heap s))).
Proof. reflexivity. Qed.

Lemma reflect_New_run t s :
  reflect_New t s =
  ({| s_heap := s_heap s ++ [zero_value t]; s_mapper := s_mapper s |},
   Ok (Val (TPtr t) (Imm (VPtr (Some (length (s_heap s))))) false)).
Proof. reflexivity. Qed.

Lemma pres_reflect_New n P t s :
  n <= length (s_heap s) ->
  pres n P (s_heap s) (s_heap (fst (reflect_New t s))).
Proof.
  intros Hn. rewrite reflect_New_run. simpl. split.
  - rewrite length_app. lia.
  - intros l Hl _. apply lookup_app_l. lia.
Qed.

Lemma pres_reflect_MakeSlice n P t len cap s :
  n <= length (s_heap s) ->
  pres n P (s_heap s) (s_heap (fst (reflect_MakeSlice t len cap s))).
Proof.
  intros Hn. unfold reflect_MakeSlice.
  destruct t; try apply pres_refl.
  destruct (Nat.leb len cap); [|apply pres_refl].
  unfold bind. rewrite alloc_run. simpl. split.
  - rewrite length_app. lia.
  - intros l Hl _. apply lookup_app_l. lia.
Qed.

Lemma reflect_MakeSlice_inv t len cap s s1 v :
  reflect_MakeSlice t len cap s = (s1, Ok v) ->
  exists e, t = TSlice e
            /\ v = Val t (Imm (VSlice (Some (length (s_heap s))))) false.
Proof.
  unfold reflect_MakeSlice. destruct t; try discriminate.
  destruct (Nat.leb len cap); [|discriminate].
  unfold bind. rewrite alloc_run. simpl. intros [= <- <-]. eauto.
Qed.

Lemma load_run v s s1 r : load v s = (s1, r) -> s1 = s.
Proof.
  unfold load. destruct v as [|t [l p|x] ro]; simpl.
  - intros [= <- <-]. reflexivity.
  - unfold bind, get_heap, lift_option.
    destruct (heap_load (s_heap s) l p); intros [= <- <-]; reflexivity.
  - intros [= <- <-]. reflexivity.
Qed.

Lemma load_Addr t l p ro s x :
  load (Val t (Addr l p) ro) s = (s, Ok x) <-> heap_load (s_heap s) l p = Some x.
Proof.
  unfold load, bind, get_heap, lift_option, ret, panic.
  destruct (heap_load (s_heap s) l p); simpl; split; intros H;
    inversion H; reflexivity.
Qed.

(** [Set] writes the cell its receiver is rooted in, and afterwards the
    receiver holds the content of the argument. *)
Lemma pres_Value_Set n P v x s :
  (forall l, root v = Some l -> l < n -> P l) ->
  pres n P (s_heap s) (s_heap (fst (Value_Set v x s))).
Proof.
  intros HP. unfold Value_Set.
  destruct v as [|t [l p|?] [|]]; try apply pres_refl.
  destruct x as [|tx w [|]]; try apply pres_refl.
  destruct (type_eqb tx t); [|apply pres_refl].
  unfold bind.
  destruct (load (Val tx w false) s) as [s1 [xv|m| |]] eqn:E;
    apply load_run in E as ->; try apply pres_refl.
  unfold get_heap, lift_option.
  destruct (heap_store (s_heap s) l p xv) as [h'|] eqn:Hs;
    simpl; [|apply pres_refl].
  split.
  - rewrite (heap_store_length _ _ _ _ _ Hs). lia.
  - intros l' Hl' HnP. eapply heap_store_other; eauto.
    intros ->. apply HnP. apply HP; auto.
Qed.

Lemma Value_Set_inv v x s s1 u :
  Value_Set v x s = (s1, Ok u) ->
  exists t l p tx w xv,
    v = Val t (Addr l p) false /\ x = Val tx w false /\ tx = t
    /\ load x s = (s, Ok xv)
    /\ heap_store (s_heap s) l p xv = Some (s_heap s1)
    /\ s_mapper s1 = s_mapper s.
Proof.
  unfold Value_Set.
  destruct v as [|t [l p|?] [|]]; try discriminate.
  destruct x as [|tx w [|]]; try discriminate.
  destruct (type_eqb tx t) eqn:Et; [|discriminate].
  apply type_eqb_eq in Et. unfold bind.
  destruct (load (Val tx w false) s) as [s' [xv|m| |]] eqn:E;
    pose proof (load_run _ _ _ _ E); subst s'; try discriminate.
  unfold get_heap, lift_option.
  destruct (heap_store (s_heap s) l p xv) as [h'|] eqn:Hs; [|discriminate].
  simpl. intros [= <- <-]. simpl.
  exists t, l, p, tx, w, xv. auto 10.
Qed.

Lemma Value_Elem_run v s s1 r : Value_Elem v s = (s1, r) -> s1 = s.
Proof.
  unfold Value_Elem. destruct v as [|[] w ro]; try (intros [= <- <-]; reflexivity).
  unfold bind.
  destruct (load (Val (TPtr elem) w ro) s) as [s' [xv|m| |]] eqn:E;
    pose proof (load_run _ _ _ _ E); subst s';
    try (intros [= <- <-]; reflexivity).
  destruct xv as [| | | |[l|]| | |]; intros [= <- <-]; reflexivity.
Qed.

Lemma Value_Elem_inv v s s1 v' :
  Value_Elem v s = (s1, Ok v') ->
  exists e w ro,
    v = Val (TPtr e) w ro
    /\ ((load v s = (s, Ok (VPtr None)) /\ v' = ZeroValue)
        \/ exists l, load v s = (s, Ok (VPtr (Some l)))
                     /\ v' = Val e (Addr l []) ro).
Proof.
  unfold Value_Elem. destruct v as [|[] w ro]; try discriminate.
  unfold bind.
  destruct (load (Val (TPtr elem) w ro) s) as [s' [xv|m| |]] eqn:E;
    pose proof (load_run _ _ _ _ E); subst s'; try discriminate.
  destruct xv as [| | | |[l|]| | |]; try discriminate;
    intros [= <- <-]; exists elem, w, ro; split; eauto.
Qed.

(** A function of a source and a destination [Value] writes only the cell
    the destination is rooted in, and cells it allocated. *)
Definition frame_spec (f : Value -> Value -> M (option error)) : Prop :=
  forall n P from to s,
    n <= length (s_heap s) ->
    (forall l, root to = Some l -> l < n -> P l) ->
    pres n P (s_heap s) (s_heap (fst (f from to s))).

Tactic Notation "pstep_ro" "as" ident(a) ident(s1) ident(Hr) ident(Hn) :=
  eapply pres_bind; [assumption | apply pres_ro; solve_ro | intros a s1 Hr Hn].

Tactic Notation "pstep_ro" :=
  let a := fresh "a" in
  let s1 := fresh "s" in
  let Hr := fresh "Hrun" in
  let Hn := fresh "Hn" in
  pstep_ro as a s1 Hr Hn.

Tactic Notation "pstep" tactic3(tac) "as" ident(a) ident(s1) ident(Hr) ident(Hn) :=
  eapply pres_bind; [assumption | tac | intros a s1 Hr Hn].

Lemma pres_ret_err n P (err : option error) s :
  pres n P (s_heap s)
    (s_heap (fst (match err with Some e => ret (Some e) | None => ret None end s))).
Proof. destruct err; apply pres_refl. Qed.

Lemma mapSameTypesFunc_frame : frame_spec V2.mapSameTypesFunc.
Proof.
  intros n P from to s Hn HP. unfold V2.mapSameTypesFunc.
  pstep (apply pres_Value_Set; assumption) as u s1 Hr1 Hn1. apply pres_refl.
Qed.

Lemma mapConverterFunc_frame : frame_spec V2.mapConverterFunc.
Proof.
  intros n P from to s Hn HP. unfold V2.mapConverterFunc.
  do 3 pstep_ro.
  destruct (converters_lookup _ _); [|apply pres_refl].
  pstep_ro as outArgs s4 Hr4 Hn4.
  pstep (apply pres_Value_Set; assumption) as u s5 Hr5 Hn5.
  destruct (snd outArgs) as [|out1 ?]; [apply pres_refl|].
  destruct (V2.assert_error out1) as [[e|] [|]]; apply pres_refl.
Qed.

Section Strategies_frame.
  Variable rec : Value -> Value -> M (option error).
  Hypothesis Hrec : frame_spec rec.

Lemma mapStructsFunc_frame : frame_spec (V2.mapStructsFunc rec).
  Proof.
    intros n P from to s Hn HP. unfold V2.mapStructsFunc.
    pstep (destruct (Kind_eqb (Value_Kind from) KPtr);
           apply pres_ro; solve_ro) as from' s1 Hr1 Hn1.
    pstep idtac as err s2 Hr2 Hn2; [|apply pres_ret_err].
    destruct (Kind_eqb (Value_Kind to) KPtr); [|apply Hrec; assumption].
    pstep_ro as tt s2 Hr2 Hn2. pstep_ro as te s3 Hr3 Hn3.
    pstep (apply pres_reflect_New; assumption) as p s4 Hr4 Hn4.
    rewrite reflect_New_run in Hr4. injection Hr4 as <- <-.
    pstep (apply pres_Value_Set; assumption) as u s5 Hr5 Hn5.
    apply Value_Set_inv in Hr5
      as (t & l & p & tx & w & xv & -> & Hx & -> & Hload & Hstore & _).
    injection Hx as <- <-. simpl in Hload. injection Hload as <-.
    pstep_ro as toElem s6 Hr6 Hn6.
    pose proof (Value_Elem_run _ _ _ _ Hr6); subst.
    apply Value_Elem_inv in Hr6
      as (e & w' & ro & Hv & [[_ ->] | (l' & Hl & ->)]).
    - apply Hrec; [assumption|]. intros ? [=].
    - injection Hv as <- <- <-. apply load_Addr in Hl.
      apply heap_load_store in Hstore. simpl in Hstore, Hl.
      rewrite Hstore in Hl. injection Hl as <-.
      apply Hrec; [assumption|]. simpl. intros ? [= <-] Hlt.
      exfalso. lia.
  Qed.

Definition seq_root (v : Value) : option nat :=
    match v with
    | Val (TSlice _) (Imm (VSlice (Some b))) _ => Some b
    | Val (TSlice _) _ _ => None
    | _ => root v
    end.

Definition not_addr_slice (v : Value) : Prop :=
    match v with
    | Val (TSlice _) (Addr _ _) _ => False
    | _ => True
    end.

Lemma Value_Index_root array i s s1 a :
    not_addr_slice array ->
    Value_Index array i s = (s1, Ok a) ->
    forall l, root a = Some l -> seq_root array = Some l.
  Proof.
    unfold Value_Index. destruct array as [|t w ro]; [discriminate|].
    destruct t; try discriminate.
    - destruct w as [l0 p|x]; [intros []|intros _].
      unfold bind.
      destruct (Value_Len _ s) as [s' [k|m| |]]; try discriminate.
      destruct (Nat.ltb i k); [|discriminate]. simpl.
      destruct x as [| | | | |[b|]| |]; try discriminate.
      intros [= <- <-]. simpl. auto.
    - intros _. destruct (Nat.ltb i len); [|discriminate].
      unfold bind, sub_place. destruct w as [l0 p|x]; simpl.
      + intros [= <- <-]. simpl. auto.
      + destruct (children x) as [es|]; [|discriminate]. simpl.
        unfold bind, lift_option.
        destruct (es !! i); simpl; [|discriminate].
        intros [= <- <-]. discriminate.
  Qed.

Lemma Value_Elem_Imm t l ro s :
    Value_Elem (Val (TPtr t) (Imm (VPtr (Some l))) ro) s
    = (s, Ok (Val t (Addr l []) ro)).
  Proof. reflexivity. Qed.

Lemma new_elem_inv (b : bool) toElemType s s1 v :
    (if b then (let* te := Type_Elem toElemType in reflect_New te)
     else reflect_New toElemType) s = (s1, Ok v) ->
    exists t, v = Val (TPtr t) (Imm (VPtr (Some (length (s_heap s))))) false.
  Proof.
    destruct b.
    - unfold bind, Type_Elem, lift_option.
      destruct (type_Elem toElemType); simpl; [|discriminate].
      rewrite reflect_New_run. intros [= <- <-]. eauto.
    - rewrite reflect_New_run. intros [= <- <-]. eauto.
  Qed.

Lemma pres_new_elem n P (b : bool) toElemType s :
    n <= length (s_heap s) ->
    pres n P (s_heap s)
      (s_heap (fst ((if b then (let* te := Type_Elem toElemType in reflect_New te)
                      else reflect_New toElemType) s))).
  Proof.
    intros Hn. destruct b; [|apply pres_reflect_New; assumption].
    pstep_ro. apply pres_reflect_New; assumption.
  Qed.

Lemma pres_rec_fresh n P (c : M Value) l0 t s :
    n <= length (s_heap s) -> n <= l0 -> heap_ro c ->
    pres n P (s_heap s)
      (s_heap (fst ((let* f := c in
                     let* t0 := Value_Elem (Val (TPtr t) (Imm (VPtr (Some l0))) false) in
                     rec f t0) s))).
  Proof.
    intros Hn Hl Hc.
    pstep (apply pres_ro; assumption) as f s1 Hr1 Hn1.
    pstep_ro as t0 s2 Hr2 Hn2.
    rewrite Value_Elem_Imm in Hr2. injection Hr2 as <- <-.
    apply Hrec; [assumption|]. simpl. intros ? [= <-] ?. exfalso. lia.
  Qed.

Lemma setArrayValue_body_frame n P fromVal toVal array i s :
    n <= length (s_heap s) ->
    not_addr_slice array ->
    (forall l, seq_root array = Some l -> l < n -> P l) ->
    pres n P (s_heap s)
      (s_heap (fst (V2.setArrayValue_body rec fromVal toVal array i s))).
  Proof.
    intros Hn Hns HP. unfold V2.setArrayValue_body.
    pstep_ro as tt s1 Hr1 Hn1. pstep_ro as toElemType s2 Hr2 Hn2.
    pstep (apply pres_new_elem; assumption) as arrayElem s3 Hr3 Hn3.
    apply new_elem_inv in Hr3 as [t ->].
    pstep_ro as ft s4 Hr4 Hn4. pstep_ro as fromElemType s5 Hr5 Hn5.
    pstep (destruct (Kind_eqb (type_Kind fromElemType) KStruct);
           [apply pres_rec_fresh; [assumption|assumption|solve_ro]
           |apply pres_refl]) as err s6 Hr6 Hn6.
    pstep (destruct (Kind_eqb (type_Kind fromElemType) KPtr);
           [|apply pres_refl]) as err' s7 Hr7 Hn7.
    { pstep_ro as f s7 Hr7 Hn7. pstep_ro as f' s8 Hr8 Hn8.
      pstep_ro as t0 s9 Hr9 Hn9.
      rewrite Value_Elem_Imm in Hr9. injection Hr9 as <- <-.
      apply Hrec; [assumption|]. simpl. intros ? [= <-] ?. exfalso. lia. }
    destruct err' as [e|]; [apply pres_refl|].
    destruct (Kind_eqb (type_Kind toElemType) KPtr).
    - pstep_ro as a s8 Hr8 Hn8.
      pstep (apply pres_Value_Set; intros l Hl; apply HP;
             eapply Value_Index_root; eauto) as u s9 Hr9 Hn9.
      apply pres_refl.
    - pstep_ro as a s8 Hr8 Hn8. pstep_ro as e s9 Hr9 Hn9.
      pstep (apply pres_Value_Set; intros l Hl; apply HP;
             eapply Value_Index_root; eauto) as u s10 Hr10 Hn10.
      apply pres_refl.
  Qed.

Lemma setArrayValue_loop_frame n P fromVal toVal array ixs : forall s,
    n <= length (s_heap s) ->
    not_addr_slice array ->
    (forall l, seq_root array = Some l -> l < n -> P l) ->
    pres n P (s_heap s)
      (s_heap (fst (V2.setArrayValue_loop rec fromVal toVal array ixs s))).
  Proof.
    induction ixs as [|i ixs IH]; intros s Hn Hns HP; simpl.
    - apply pres_refl.
    - pstep (apply setArrayValue_body_frame; assumption) as err s1 Hr1 Hn1.
      destruct err; [apply pres_refl|]. apply IH; assumption.
  Qed.

Lemma setArrayValue_frame n P fromVal toVal array s :
    n <= length (s_heap s) ->
    not_addr_slice array ->
    (forall l, seq_root array = Some l -> l < n -> P l) ->
    pres n P (s_heap s)
      (s_heap (fst (V2.setArrayValue rec fromVal toVal array s))).
  Proof.
    intros Hn Hns HP. unfold V2.setArrayValue.
    pstep_ro as k s1 Hr1 Hn1. apply setArrayValue_loop_frame; assumption.
  Qed.

Lemma mapSlicesFunc_frame : frame_spec (V2.mapSlicesFunc rec).
  Proof.
    intros n P from to s Hn HP. unfold V2.mapSlicesFunc.
    pstep_ro as tt s1 Hr1 Hn1. pstep_ro as k s2 Hr2 Hn2.
    pstep (apply pres_reflect_MakeSlice; assumption) as slice s3 Hr3 Hn3.
    apply reflect_MakeSlice_inv in Hr3 as (e & -> & ->).
    pstep (apply setArrayValue_frame;
           [assumption | exact I
           | simpl; intros ? [= <-] ?; exfalso; lia]) as err s4 Hr4 Hn4.
    destruct err; [apply pres_refl|].
    pstep (apply pres_Value_Set; assumption) as u s5 Hr5 Hn5.
    apply pres_refl.
  Qed.

Lemma mapArraysFunc_frame : frame_spec (V2.mapArraysFunc rec).
  Proof.
    intros n P from to s Hn HP. unfold V2.mapArraysFunc.
    pstep_ro as k s1 Hr1 Hn1. pstep_ro as tt s2 Hr2 Hn2.
    pstep_ro as te s3 Hr3 Hn3.
    pstep (apply pres_reflect_New; assumption) as p s4 Hr4 Hn4.
    rewrite reflect_New_run in Hr4. injection Hr4 as <- <-.
    pstep_ro as array s5 Hr5 Hn5.
    rewrite Value_Elem_Imm in Hr5. injection Hr5 as <- <-.
    pstep (apply setArrayValue_frame;
           [assumption | exact I
           | simpl; intros ? [= <-] ?; exfalso; lia]) as err s6 Hr6 Hn6.
    destruct err; [apply pres_refl|].
    pstep (apply pres_Value_Set; assumption) as u s7 Hr7 Hn7.
    apply pres_refl.
  Qed.

Lemma strats_frame t : frame_spec (V2.strats rec t).
  Proof.
    destruct t; simpl.
    - intros n P from to s Hn HP. apply pres_refl.
    - apply mapStructsFunc_frame.
    - apply mapSlicesFunc_frame.
    - apply mapArraysFunc_frame.
    - apply mapSameTypesFunc_frame.
    - apply mapConverterFunc_frame.
  Qed.

Lemma Value_Field_root v i s s1 f :
    Value_Field v i s = (s1, Ok f) ->
    forall l, root f = Some l -> root v = Some l.
  Proof.
    unfold Value_Field. destruct v as [|[] w ro]; try discriminate.
    unfold bind.
    destruct (Type_Field _ i s) as [s' [sf|m| |]]; try discriminate.
    unfold sub_place. destruct w as [l0 p|x]; simpl.
    - intros [= <- <-]. simpl. auto.
    - destruct (children x) as [es|]; [|discriminate].
      unfold bind, lift_option. destruct (es !! i); simpl; [|discriminate].
      intros [= <- <-]. discriminate.
  Qed.

Lemma mapKnownStruct_frame mappingInfo : frame_spec (V2.mapKnownStruct rec mappingInfo).
  Proof.
    induction mappingInfo as [|fi rest IH]; intros n P from to s Hn HP; simpl.
    - apply pres_refl.
    - pstep_ro as f s1 Hr1 Hn1. pstep_ro as t s2 Hr2 Hn2.
      pstep (apply strats_frame; [assumption|];
             intros l Hl; apply HP; eapply Value_Field_root; eauto)
        as err s3 Hr3 Hn3.
      destruct err; [apply pres_refl|]. apply IH; assumption.
  Qed.
End Strategies_frame.

Lemma heap_ro_detectMappingType a b : heap_ro (V2.detectMappingType a b).
Proof. unfold V2.detectMappingType. solve_ro. Qed.

Lemma heap_ro_getFieldInfo_from from ixs : forall acc,
  heap_ro (V2.getFieldInfo_from from ixs acc).
Proof. induction ixs; intros acc; simpl; solve_ro. Qed.

Lemma heap_ro_getFieldInfo_to to ixs : forall acc,
  heap_ro (V2.getFieldInfo_to to ixs acc).
Proof. induction ixs; intros acc; simpl; solve_ro. Qed.

#[export] Hint Resolve heap_ro_detectMappingType heap_ro_getFieldInfo_from
  heap_ro_getFieldInfo_to : ro.

Lemma heap_ro_getFieldInfo from to : heap_ro (V2.getFieldInfo from to).
Proof. unfold V2.getFieldInfo. solve_ro. Qed.

Lemma heap_ro_knownMappings_append k e : heap_ro (V2.knownMappings_append k e).
Proof. unfold V2.knownMappings_append. solve_ro. Qed.

Lemma heap_ro_knownMappings_reset k : heap_ro (V2.knownMappings_reset k).
Proof. unfold V2.knownMappings_reset. solve_ro. Qed.

#[export] Hint Resolve heap_ro_getFieldInfo heap_ro_knownMappings_append
  heap_ro_knownMappings_reset : ro.

(** Every destination field collected by the matcher is rooted in the cell
    of the destination struct. *)
Definition rooted_in (to : Value) (toFields : gmap string V2.fieldInfo) : Prop :=
  forall k fi l, toFields !! k = Some fi ->
                 root (V2.val fi) = Some l -> root to = Some l.

Lemma getFieldInfo_to_rooted to ixs : forall acc s s1 m,
  rooted_in to acc ->
  V2.getFieldInfo_to to ixs acc s = (s1, Ok m) ->
  rooted_in to m.
Proof.
  induction ixs as [|i ixs IH]; intros acc s s1 m Hacc; simpl.
  - intros [= <- <-]. assumption.
  - intros H. apply bind_Ok_inv in H as (s2 & fv & Hf & H).
    destruct (negb (Value_CanSet fv)); [eapply IH; eauto|].
    apply bind_Ok_inv in H as (s3 & tt & _ & H).
    apply bind_Ok_inv in H as (s4 & sf & _ & H).
    eapply IH; [|exact H].
    intros k fi l Hk Hl. destruct (decide (V2.field_key sf = k)) as [<-|Hne].
    + rewrite lookup_insert_eq in Hk. injection Hk as <-. simpl in Hl.
      eapply Value_Field_root; eauto.
    + rewrite lookup_insert_ne in Hk by assumption. eapply Hacc; eauto.
Qed.

Lemma getFieldInfo_rooted from to s s1 fields :
  V2.getFieldInfo from to s = (s1, Ok fields) -> rooted_in to (snd fields).
Proof.
  unfold V2.getFieldInfo. intros H.
  apply bind_Ok_inv in H as (s2 & n & _ & H).
  apply bind_Ok_inv in H as (s3 & ff & _ & H).
  apply bind_Ok_inv in H as (s4 & n' & _ & H).
  apply bind_Ok_inv in H as (s5 & tf & Hto & H).
  injection H as <- <-. simpl.
  eapply getFieldInfo_to_rooted; [|exact Hto].
  intros k fi l Hk. rewrite lookup_empty in Hk. discriminate.
Qed.

Section Range_frame.
  Variable range_order :
    list (string * V2.fieldInfo) -> list (string * V2.fieldInfo).

Lemma mapStructs_range_frame rec mappingInfo to toFields l :
    frame_spec rec -> rooted_in to toFields ->
    forall n P s,
      n <= length (s_heap s) ->
      (forall l, root to = Some l -> l < n -> P l) ->
      pres n P (s_heap s)
        (s_heap (fst (V2.mapStructs_range rec mappingInfo toFields l s))).
  Proof.
    intros Hrec Hroot. induction l as [|[name fromVal] rest IH];
      intros n P s Hn HP; simpl.
    - apply pres_refl.
    - destruct (toFields !! name) as [toVal|] eqn:Hk; [|apply IH; assumption].
      pstep_ro as mt s1 Hr1 Hn1.
      destruct (negb (supportedType_eqb mt unsupported)).
      + pstep (apply strats_frame; [assumption|assumption|];
               intros l Hl; apply HP; eapply Hroot; eauto) as err s2 Hr2 Hn2.
        destruct err; [apply pres_refl|].
        do 3 pstep_ro. apply IH; assumption.
      + do 2 pstep_ro. apply pres_refl.
  Qed.

Lemma mapStructs_frame fuel : frame_spec (V2.mapStructs range_order fuel).
  Proof.
    induction fuel as [|fuel IH]; intros n P from to s Hn HP; simpl.
    - apply pres_refl.
    - destruct (negb (Value_IsValid from)); [apply pres_refl|].
      pstep_ro as u s1 Hr1 Hn1. pstep_ro as tf s2 Hr2 Hn2.
      pstep_ro as tt s3 Hr3 Hn3. pstep_ro as m s4 Hr4 Hn4.
      pstep (destruct (knownMappings_lookup _ _);
             [apply mapKnownStruct_frame; assumption|apply pres_refl])
        as err s5 Hr5 Hn5.
      destruct err; [apply pres_refl|].
      pstep_ro as u1 s6 Hr6 Hn6. pstep_ro as u2 s7 Hr7 Hn7.
      pstep_ro as fields s8 Hr8 Hn8.
      eapply mapStructs_range_frame; eauto.
      eapply getFieldInfo_rooted; eauto.
  Qed.

  (** The cell an argument of [Map] points to. *)
Definition pointee (a : boxed) : option nat :=
    match box_value a with
    | VPtr (Some l) => Some l
    | _ => None
    end.

Lemma Value_Elem_ValueOf_root a s s1 v :
    Value_Elem (reflect_ValueOf a) s = (s1, Ok v) ->
    forall l, root v = Some l -> pointee a = Some l.
  Proof.
    intros H. apply Value_Elem_inv in H
      as (e & w & ro & Hv & [[_ ->] | (l' & Hl & ->)]); [discriminate|].
    unfold reflect_ValueOf in Hv. injection Hv as ? <- ?.
    simpl in Hl. injection Hl as Hl. unfold pointee. rewrite Hl.
    simpl. auto.
  Qed.

Lemma Map_frame from to n P s :
    n <= length (s_heap s) ->
    (forall l, pointee to = Some l -> l < n -> P l) ->
    pres n P (s_heap s) (s_heap (fst (V2.Map range_order from to s))).
  Proof.
    intros Hn HP. unfold V2.Map.
    destruct (_ && _).
    - pstep_ro as f s1 Hr1 Hn1. pstep_ro as t s2 Hr2 Hn2.
      apply mapSlicesFunc_frame; [apply mapStructs_frame|assumption|].
      intros l Hl. apply HP. apply Value_Elem_run in Hr1 as ->.
      eapply Value_Elem_ValueOf_root; eauto.
    - destruct (_ && _); [|apply pres_refl].
      pstep_ro as f s1 Hr1 Hn1. pstep_ro as t s2 Hr2 Hn2.
      apply mapStructs_frame; [assumption|].
      intros l Hl. apply HP. 
      eapply Value_Elem_ValueOf_root; eauto.
  Qed.
End Range_frame.

(** ** Fixtures, after [mapper_test.go] *)

Definition field (name : string) (t : type) : StructField type :=
  mkField name None t.

Definition Converters1 : type := TStruct "Converters1" [field "Field1" TInt].
Definition Converters2 : type := TStruct "Converters2" [field "Field1" TString].

(** [&x] for the struct in cell [l]. *)
Definition ptr_to (t : type) (l : nat) : boxed := Box (TPtr t) (VPtr (Some l)).

(** [strconv.Itoa] and [strconv.Atoi] on decimal strings. *)
Definition Itoa : Func :=
  {| fn_In := TInt; fn_Out := TString;
     fn_first := fun v =>
       match v with
       | VInt n => VString (NilZero.string_of_int (Z.to_int n))
       | _ => VString ""
       end;
     fn_second := None |}.

Definition Atoi : Func :=
  {| fn_In := TString; fn_Out := TInt;
     fn_first := fun v =>
       match v with
       | VString s => match NilZero.int_of_string s with
                      | Some i => VInt (Z.of_int i)
                      | None => VInt 0
                      end
       | _ => VInt 0
       end;
     fn_second := Some (fun v =>
       match v with
       | VString s => match NilZero.int_of_string s with
                      | Some _ => IfaceNil
                      | None => IfaceErr (ErrUser "strconv.Atoi: invalid syntax")
                      end
       | _ => IfaceNil
       end) |}.

(** A fresh mapper with one converter registered, over the heap [h]. *)
Definition mapper_with (fn : Func) (h : list value) : state :=
  fst (V2.Set_ (AnyFunc fn) {| s_heap := h; s_mapper := New |}).

(** One admissible order for [range]: the order of [map_to_list]. *)
Definition range_in_order {A} (l : list (string * A)) : list (string * A) := l.


(** *** C10 *)

(** A converter [func(n int) int] that adds one. *)
Definition succ_conv : Func :=
  {| fn_In := TInt; fn_Out := TInt;
     fn_first := fun v => match v with VInt n => VInt (n + 1) | _ => v end;
     fn_second := None |}.

Definition Counter : type := TStruct "Counter" [field "N" TInt].

(** C10, counterexample: with a converter registered for [int -> int],
    [Map(&x, &x)] changes the struct it was given as the source. *)
Lemma C10_source_modified_when_aliased :
  s_heap (mapper_with succ_conv [VStruct [VInt 1]]) !! 0%nat
    = Some (VStruct [VInt 1])
  /\ s_heap (fst (V2.Map range_in_order (ptr_to Counter 0) (ptr_to Counter 0)
                    (mapper_with succ_conv [VStruct [VInt 1]]))) !! 0%nat
     = Some (VStruct [VInt 2]).
Proof. vm_compute. split; reflexivity. Qed.

(** C10, amended: whatever the outcome of [Map], every cell that existed
    before the call, other than the cell the destination argument points
    to, keeps its content; the call only adds cells.  The source is thus
    never modified unless the destination is the source or is reachable from it. *)
Theorem C10_Map_writes_only_the_destination
    (range_order : list (string * V2.fieldInfo) -> list (string * V2.fieldInfo))
    (from to : boxed) (s : state) (l : nat) :
  l < length (s_heap s) ->
  pointee to <> Some l ->
  s_heap (fst (V2.Map range_order from to s)) !! l = s_heap s !! l
  /\ length (s_heap s) <= length (s_heap (fst (V2.Map range_order from to s))).
Proof.
  intros Hl Hne.
  destruct (Map_frame range_order from to (length (s_heap s))
              (fun l => pointee to = Some l) s) as [Hlen Hpres]; auto.
Qed.

Definition Simple1 : type :=
  TStruct "Simple1" [field "Int" TInt; field "String" TString; field "Float64" TFloat64].
Definition Simple2 : type :=
  TStruct "Simple2" [field "Int" TInt; field "String" TString; field "Float64" TFloat64].
Definition Structs1 : type :=
  TStruct "Structs1" [field "Field1" Simple1; field "Field2" Simple1;
                      field "Field3" (TPtr Simple1); field "Field4" (TPtr Simple1)].
Definition Structs2 : type :=
  TStruct "Structs2" [field "Field1" Simple2; field "Field2" (TPtr Simple2);
                      field "Field3" Simple2; field "Field4" (TPtr Simple2)].
Definition simple1 : value := VStruct [VInt 1; VString "string"; VFloat64 1].

(** [TestMapper_Map_Structs]: cell 0 is [simple1], cell 1 the source, cell
    2 the destination. *)
Definition structs_heap : list value :=
  [simple1; VStruct [simple1; simple1; VPtr (Some 0%nat); VPtr (Some 0%nat)];
   zero_value Structs2].

Lemma C10_witness :
  (1 < length structs_heap)%nat
  /\ pointee (ptr_to Structs2 2) <> Some 1%nat
  /\ (s_heap (fst (V2.Map range_in_order (ptr_to Structs1 1) (ptr_to Structs2 2)
                     {| s_heap := structs_heap; s_mapper := New |})) !! 1%nat
        = structs_heap !! 1%nat
      /\ (length structs_heap
          <= length (s_heap (fst (V2.Map range_in_order (ptr_to Structs1 1)
                                    (ptr_to Structs2 2)
                                    {| s_heap := structs_heap; s_mapper := New |}))))%nat).
Proof.
  split; [simpl; lia|]. split; [discriminate|].
  apply (C10_Map_writes_only_the_destination range_in_order
           (ptr_to Structs1 1) (ptr_to Structs2 2)
           {| s_heap := structs_heap; s_mapper := New |} 1%nat);
    [simpl; lia | discriminate].
Defined.

(** *** C9 and C3: the second result of a converter *)

(** C9, the code at the failing input: [strconv.Atoi] is registered and the
    source field holds ["1"].  The converter returns [(1, nil)]; the field is
    set to [1], and [Map] returns [ErrConverterErrorUnknownType]: the nil
    interface fails the assertion [.(error)]. *)
Theorem C9_nil_error_reported_as_unknown_type :
  snd (V2.Map range_in_order (ptr_to Converters2 0) (ptr_to Converters1 1)
         (mapper_with Atoi [VStruct [VString "1"]; VStruct [VInt 0]]))
    = Ok (Some ErrConverterErrorUnknownType)
  /\ s_heap (fst (V2.Map range_in_order (ptr_to Converters2 0) (ptr_to Converters1 1)
                    (mapper_with Atoi [VStruct [VString "1"]; VStruct [VInt 0]])))
     = [VStruct [VString "1"]; VStruct [VInt 1]]
  /\ snd (V1.Map range_in_order (ptr_to Converters2 0) (ptr_to Converters1 1)
            (mapper_with Atoi [VStruct [VString "1"]; VStruct [VInt 0]]))
     = Panic "interface conversion: interface is nil, not error".
Proof. vm_compute. repeat split; reflexivity. Qed.

(** A converter [func(n int) (int, error)] that doubles and never fails. *)
Definition double_conv : Func :=
  {| fn_In := TInt; fn_Out := TInt;
     fn_first := fun v => match v with VInt n => VInt (2 * n) | _ => v end;
     fn_second := Some (fun _ => IfaceNil) |}.

(** C3, the code at the failing input: a converter registered for
    [int -> int] is chosen over the copy of identical types and the field
    receives its result [14], but the call reports an error although the
    converter succeeded (the defect of C9). *)
Theorem C3_converter_chosen_but_success_reported_as_error :
  snd (V2.detectMappingType
         {| V2.index := 0; V2.val := Val TInt (Addr 0 [0%nat]) false |}
         {| V2.index := 0; V2.val := Val TInt (Addr 1 [0%nat]) false |}
         (mapper_with double_conv [VStruct [VInt 7]; VStruct [VInt 0]]))
    = Ok converterFunc
  /\ s_heap (fst (V2.Map range_in_order (ptr_to Counter 0) (ptr_to Counter 1)
                    (mapper_with double_conv [VStruct [VInt 7]; VStruct [VInt 0]])))
     = [VStruct [VInt 7]; VStruct [VInt 14]]
  /\ snd (V2.Map range_in_order (ptr_to Counter 0) (ptr_to Counter 1)
            (mapper_with double_conv [VStruct [VInt 7]; VStruct [VInt 0]]))
     = Ok (Some ErrConverterErrorUnknownType).
Proof. vm_compute. repeat split; reflexivity. Qed.

(** *** C6 *)

(** C6, the code at the failing inputs: [Map(1, 2)] returns nil, and
    [Map(Converters1{1}, &to)] panics in [valFrom.Elem()]; the current
    [Map] never returns [ErrNotAPtr].  The earlier [Map] returns it for both
    calls. *)
Theorem C6_Map_does_not_report_non_pointers
    (range_order : list (string * V2.fieldInfo) -> list (string * V2.fieldInfo))
    (range_order1 : list (string * V1.fieldInfo) -> list (string * V1.fieldInfo))
    (s : state) :
  V2.Map range_order (Box TInt (VInt 1)) (Box TInt (VInt 2)) s = (s, Ok None)
  /\ V2.Map range_order (Box Converters1 (VStruct [VInt 1])) (ptr_to Converters2 1) s
     = (s, Panic "reflect: call of reflect.Value.Elem on non-pointer Value")
  /\ V1.Map range_order1 (Box TInt (VInt 1)) (Box TInt (VInt 2)) s
     = (s, Ok (Some ErrNotAPtr))
  /\ V1.Map range_order1 (Box Converters1 (VStruct [VInt 1])) (ptr_to Converters2 1) s
     = (s, Ok (Some ErrNotAPtr)).
Proof. repeat split; reflexivity. Qed.

(** *** C2 and C5: the second call for a pair of shapes *)

Definition Src : type := TStruct "Src" [field "Int" TInt].
Definition Dst : type := TStruct "Dst" [field "Int" TInt].

(** Cells 0 and 1: the first call's source [{Int: 1}] and destination;
    cells 2 and 3: the second call's source [{Int: 0}] and destination
    [{Int: 5}]. *)
Definition two_calls_heap : list value :=
  [VStruct [VInt 1]; VStruct [VInt 0]; VStruct [VInt 0]; VStruct [VInt 5]].

(** The state after the first call [Map(&src1, &dst1)] on a fresh mapper. *)
Definition after_first_call : state :=
  fst (V2.Map range_in_order (ptr_to Src 0) (ptr_to Dst 1)
         {| s_heap := two_calls_heap; s_mapper := New |}).

(** C2, the code at the failing input: on the second call for the pair
    [(Src, Dst)] the replayed plan copies the zero source field: the
    destination field [Int] goes from [5] to [0].  On a mapper without a
    plan the same call leaves it at [5]. *)
Theorem C2_replay_overwrites_with_zero :
  knownMappings_lookup {| smi_from := Src; smi_to := Dst |}
    (knownMappings (s_mapper after_first_call))
    = Some [{| fromIndex := 0; toIndex := 0; mapperFunc := sameTypes |}]
  /\ s_heap after_first_call !! 3%nat = Some (VStruct [VInt 5])
  /\ V2.Map range_in_order (ptr_to Src 2) (ptr_to Dst 3) after_first_call
     = ({| s_heap := [VStruct [VInt 1]; VStruct [VInt 1]; VStruct [VInt 0];
                      VStruct [VInt 0]];
           s_mapper := {| mu := false; converters := [];
                          knownMappings :=
                            [({| smi_from := Src; smi_to := Dst |}, [])] |} |},
        Ok None)
  /\ s_heap (fst (V2.Map range_in_order (ptr_to Src 2) (ptr_to Dst 3)
                    {| s_heap := two_calls_heap; s_mapper := New |})) !! 3%nat
     = Some (VStruct [VInt 5]).
Proof. vm_compute. repeat split; reflexivity. Qed.

(** The plan cache in the specification's words (section 4.4): when a plan
    exists for the pair of shapes, replay it and skip matching and
    classification; otherwise run the discovery pipeline. *)
Definition mapStructs_cached_spec
    (range_order : list (string * V2.fieldInfo) -> list (string * V2.fieldInfo))
    (fuel : nat) (from to : Value) : M (option error) :=
  if negb (Value_IsValid from) then ret None
  else
    let* tf := Value_Type from in
    let* tt := Value_Type to in
    let* m := get_mapper in
    match knownMappings_lookup {| smi_from := tf; smi_to := tt |}
                               (knownMappings m) with
    | Some plan =>
        V2.mapKnownStruct (V2.mapStructs range_order fuel) plan from to
    | None => V2.mapStructs range_order (S fuel) from to
    end.

Definition Pair1 : type := TStruct "Pair1" [field "A" TInt; field "B" TInt].
Definition Pair2 : type := TStruct "Pair2" [field "A" TInt; field "B" TString].

(** Cells 0, 1: the first call, source [{A: 1, B: 0}]; cells 2, 3: a call
    with source [{A: 0, B: 0}] into [{A: 5, B: "keep"}]; cells 4, 5: a call
    with source [{A: 2, B: 1}]. *)
Definition pair_heap : list value :=
  [VStruct [VInt 1; VInt 0]; VStruct [VInt 0; VString ""];
   VStruct [VInt 0; VInt 0]; VStruct [VInt 5; VString "keep"];
   VStruct [VInt 2; VInt 1]; VStruct [VInt 0; VString ""]].

Definition pair_cached : state :=
  fst (V2.Map range_in_order (ptr_to Pair1 0) (ptr_to Pair2 1)
         {| s_heap := pair_heap; s_mapper := New |}).

(** C5, the code at the failing inputs.  After one call for
    [(Pair1, Pair2)] the plan is [[A -> A, identical]].  A second call
    replays it and then matches and classifies again: with source
    [{A: 2, B: 1}] it fails with the classifier's [MissingConverter], where
    the replay of the plan alone returns nil; and with source [{A: 0, B: 0}]
    its destination [{A: 0}] differs from the [{A: 5}] the discovery pipeline
    leaves on a mapper without a plan. *)
Theorem C5_cached_call_rediscovers_and_differs :
  knownMappings_lookup {| smi_from := Pair1; smi_to := Pair2 |}
    (knownMappings (s_mapper pair_cached))
    = Some [{| fromIndex := 0; toIndex := 0; mapperFunc := sameTypes |}]
  /\ snd (V2.mapStructs range_in_order 3 (Val Pair1 (Addr 4 []) false)
            (Val Pair2 (Addr 5 []) false) pair_cached)
     = Ok (Some (Errorf_missing TInt TString))
  /\ snd (mapStructs_cached_spec range_in_order 3 (Val Pair1 (Addr 4 []) false)
            (Val Pair2 (Addr 5 []) false) pair_cached)
     = Ok None
  /\ s_heap (fst (V2.Map range_in_order (ptr_to Pair1 2) (ptr_to Pair2 3)
                    pair_cached)) !! 3%nat
     = Some (VStruct [VInt 0; VString "keep"])
  /\ s_heap (fst (V2.Map range_in_order (ptr_to Pair1 2) (ptr_to Pair2 3)
                    {| s_heap := pair_heap; s_mapper := New |})) !! 3%nat
     = Some (VStruct [VInt 5; VString "keep"]).
Proof. vm_compute. repeat split; reflexivity. Qed.

(** *** C8 *)

Lemma detectMappingType_converter fromVal toVal ft wf rof td wt rot conv s :
  V2.val fromVal = Val ft wf rof ->
  V2.val toVal = Val td wt rot ->
  converters_lookup {| ci_from := ft; ci_to := td |} (converters (s_mapper s))
    = Some conv ->
  V2.detectMappingType fromVal toVal s = (s, Ok converterFunc).
Proof.
  intros Hf Ht Hc. unfold V2.detectMappingType, bind.
  rewrite Hf, Ht. simpl. rewrite Hc. reflexivity.
Qed.

Lemma mapConverterFunc_failure ft wf rof td wt rot conv out0 e rest s s1 :
  converters_lookup {| ci_from := ft; ci_to := td |} (converters (s_mapper s))
    = Some conv ->
  Func_Call conv (Val ft wf rof) s = (s, Ok (out0, IfaceErr e :: rest)) ->
  Value_Set (Val td wt rot) out0 s = (s1, Ok ()) ->
  V2.mapConverterFunc (Val ft wf rof) (Val td wt rot) s
    = (s1, Ok (Some (Errorf_converter e))).
Proof.
  intros Hc Hcall Hset.
  unfold V2.mapConverterFunc, bind, Value_Type, get_mapper, ret.
  rewrite Hc, Hcall. cbn [fst snd]. rewrite Hset. reflexivity.
Qed.


(** ** The registry of converters is not changed by a mapping *)

Definition conv_ro {A} (c : M A) : Prop :=
  forall s, converters (s_mapper (fst (c s))) = converters (s_mapper s).

Lemma conv_ro_ret {A} (a : A) : conv_ro (ret a).
Proof. intros s. reflexivity. Qed.

Lemma conv_ro_stuck {A} (r : result A) : conv_ro (fun s => (s, r)).
Proof. intros s. reflexivity. Qed.

Lemma conv_ro_panic {A} msg : conv_ro (@panic A msg).
Proof. intros s. reflexivity. Qed.

Lemma conv_ro_bind {A B} (c : M A) (f : A -> M B) :
  conv_ro c -> (forall a, conv_ro (f a)) -> conv_ro (bind c f).
Proof.
  intros Hc Hf s. unfold bind. specialize (Hc s).
  destruct (c s) as [s1 [a|m| |]]; simpl in *; try assumption.
  rewrite Hf. assumption.
Qed.

Lemma conv_ro_get_heap : conv_ro get_heap.
Proof. intros s. reflexivity. Qed.

Lemma conv_ro_put_heap h : conv_ro (put_heap h).
Proof. intros s. reflexivity. Qed.

Lemma conv_ro_get_mapper : conv_ro get_mapper.
Proof. intros s. reflexivity. Qed.

Lemma conv_ro_lift_option {A} msg (o : option A) : conv_ro (lift_option msg o).
Proof. destruct o; intros s; reflexivity. Qed.

Lemma conv_ro_Lock : conv_ro Lock.
Proof. intros s. unfold Lock, bind, get_mapper. simpl. destruct (mu (s_mapper s)); reflexivity. Qed.

Lemma conv_ro_Unlock : conv_ro Unlock.
Proof. intros s. unfold Unlock, bind, get_mapper. simpl. destruct (mu (s_mapper s)); reflexivity. Qed.

Lemma conv_ro_knownMappings_append k e : conv_ro (V2.knownMappings_append k e).
Proof. intros s. reflexivity. Qed.

Lemma conv_ro_knownMappings_reset k : conv_ro (V2.knownMappings_reset k).
Proof. intros s. reflexivity. Qed.

Create HintDb cro discriminated.
#[export] Hint Resolve @conv_ro_ret @conv_ro_stuck @conv_ro_panic
  @conv_ro_get_heap @conv_ro_put_heap @conv_ro_get_mapper
  @conv_ro_lift_option conv_ro_Lock conv_ro_Unlock
  conv_ro_knownMappings_append conv_ro_knownMappings_reset : cro.

Ltac solve_cro :=
  repeat first
    [ solve [eauto with cro]
    | apply conv_ro_bind; [|intro]
    | match goal with
      | |- conv_ro (match ?x with _ => _ end) => destruct x
      | |- conv_ro (if ?b then _ else _) => destruct b
      | |- conv_ro (let (_, _) := ?x in _) => destruct x
      end ].

Lemma conv_ro_of_heap_ro_free {A} (c : M A) :
  (forall s, s_mapper (fst (c s)) = s_mapper s) -> conv_ro c.
Proof. intros H s. rewrite H. reflexivity. Qed.

Lemma conv_ro_alloc v : conv_ro (alloc v).
Proof. unfold alloc. solve_cro. Qed.
Lemma conv_ro_load v : conv_ro (load v).
Proof. unfold load. solve_cro. Qed.
Lemma conv_ro_Value_Type v : conv_ro (Value_Type v).
Proof. unfold Value_Type. solve_cro. Qed.
Lemma conv_ro_Type_Elem t : conv_ro (Type_Elem t).
Proof. unfold Type_Elem. solve_cro. Qed.
Lemma conv_ro_Value_NumField v : conv_ro (Value_NumField v).
Proof. unfold Value_NumField. solve_cro. Qed.
Lemma conv_ro_Type_Field t i : conv_ro (Type_Field t i).
Proof. unfold Type_Field. solve_cro. Qed.
Lemma conv_ro_sub_place w i : conv_ro (sub_place w i).
Proof. unfold sub_place. solve_cro. Qed.
#[export] Hint Resolve conv_ro_alloc conv_ro_load conv_ro_Value_Type
  conv_ro_Type_Elem conv_ro_Value_NumField conv_ro_Type_Field
  conv_ro_sub_place : cro.
Lemma conv_ro_Value_Field v i : conv_ro (Value_Field v i).
Proof. unfold Value_Field. solve_cro. Qed.
Lemma conv_ro_Value_Elem v : conv_ro (Value_Elem v).
Proof. unfold Value_Elem. solve_cro. Qed.
Lemma conv_ro_Value_Len v : conv_ro (Value_Len v).
Proof. unfold Value_Len. solve_cro. Qed.
#[export] Hint Resolve conv_ro_Value_Field conv_ro_Value_Elem
  conv_ro_Value_Len : cro.
Lemma conv_ro_Value_Index v i : conv_ro (Value_Index v i).
Proof. unfold Value_Index. solve_cro. Qed.
Lemma conv_ro_Value_IsZero v : conv_ro (Value_IsZero v).
Proof. unfold Value_IsZero. solve_cro. Qed.
Lemma conv_ro_Value_IsNil v : conv_ro (Value_IsNil v).
Proof. unfold Value_IsNil. solve_cro. Qed.
Lemma conv_ro_Func_Call fn x : conv_ro (Func_Call fn x).
Proof. unfold Func_Call. solve_cro. Qed.
Lemma conv_ro_Value_Set v x : conv_ro (Value_Set v x).
Proof. unfold Value_Set. solve_cro. Qed.
Lemma conv_ro_reflect_New t : conv_ro (reflect_New t).
Proof. unfold reflect_New. solve_cro. Qed.
Lemma conv_ro_reflect_MakeSlice t n c : conv_ro (reflect_MakeSlice t n c).
Proof. unfold reflect_MakeSlice. solve_cro. Qed.
#[export] Hint Resolve conv_ro_Value_Index conv_ro_Value_IsZero
  conv_ro_Value_IsNil conv_ro_Func_Call conv_ro_Value_Set conv_ro_reflect_New
  conv_ro_reflect_MakeSlice : cro.

Lemma conv_ro_detectMappingType a b : conv_ro (V2.detectMappingType a b).
Proof. unfold V2.detectMappingType. solve_cro. Qed.
Lemma conv_ro_getFieldInfo_from from ixs : forall acc,
  conv_ro (V2.getFieldInfo_from from ixs acc).
Proof. induction ixs; intros acc; simpl; solve_cro. Qed.
Lemma conv_ro_getFieldInfo_to to ixs : forall acc,
  conv_ro (V2.getFieldInfo_to to ixs acc).
Proof. induction ixs; intros acc; simpl; solve_cro. Qed.
#[export] Hint Resolve conv_ro_detectMappingType conv_ro_getFieldInfo_from
  conv_ro_getFieldInfo_to : cro.
Lemma conv_ro_getFieldInfo from to : conv_ro (V2.getFieldInfo from to).
Proof. unfold V2.getFieldInfo. solve_cro. Qed.
#[export] Hint Resolve conv_ro_getFieldInfo : cro.

Section Strategies_conv.
Variable rec : Value -> Value -> M (option error).
Hypothesis Hrec : forall from to, conv_ro (rec from to).
#[local] Hint Resolve Hrec : cro.

Lemma conv_ro_mapStructsFunc a b : conv_ro (V2.mapStructsFunc rec a b).
Proof. unfold V2.mapStructsFunc. solve_cro. Qed.
Lemma conv_ro_setArrayValue_body a b c i : conv_ro (V2.setArrayValue_body rec a b c i).
Proof. unfold V2.setArrayValue_body. solve_cro. Qed.
#[local] Hint Resolve conv_ro_setArrayValue_body : cro.
Lemma conv_ro_setArrayValue_loop a b c ixs : conv_ro (V2.setArrayValue_loop rec a b c ixs).
Proof. induction ixs; simpl; solve_cro. Qed.
#[local] Hint Resolve conv_ro_setArrayValue_loop : cro.
Lemma conv_ro_setArrayValue a b c : conv_ro (V2.setArrayValue rec a b c).
Proof. unfold V2.setArrayValue. solve_cro. Qed.
#[local] Hint Resolve conv_ro_setArrayValue : cro.
Lemma conv_ro_mapSlicesFunc a b : conv_ro (V2.mapSlicesFunc rec a b).
Proof. unfold V2.mapSlicesFunc. solve_cro. Qed.
Lemma conv_ro_mapArraysFunc a b : conv_ro (V2.mapArraysFunc rec a b).
Proof. unfold V2.mapArraysFunc. solve_cro. Qed.
Lemma conv_ro_mapSameTypesFunc a b : conv_ro (V2.mapSameTypesFunc a b).
Proof. unfold V2.mapSameTypesFunc. solve_cro. Qed.
Lemma conv_ro_mapConverterFunc a b : conv_ro (V2.mapConverterFunc a b).
Proof. unfold V2.mapConverterFunc. solve_cro. Qed.
Lemma conv_ro_strats t a b : conv_ro (V2.strats rec t a b).
Proof.
  destruct t; simpl; auto using conv_ro_mapStructsFunc, conv_ro_mapSlicesFunc,
    conv_ro_mapArraysFunc, conv_ro_mapSameTypesFunc, conv_ro_mapConverterFunc
    with cro.
Qed.
#[local] Hint Resolve conv_ro_strats : cro.
Lemma conv_ro_mapKnownStruct plan a b : conv_ro (V2.mapKnownStruct rec plan a b).
Proof. induction plan; simpl; solve_cro. Qed.
Lemma conv_ro_mapStructs_range mi toFields l :
  conv_ro (V2.mapStructs_range rec mi toFields l).
Proof. induction l as [|[name fromVal] rest IH]; simpl; solve_cro. Qed.
End Strategies_conv.

Lemma conv_ro_mapStructs range_order fuel : forall from to,
  conv_ro (V2.mapStructs range_order fuel from to).
Proof.
  induction fuel as [|fuel IH]; intros from to; simpl.
  - solve_cro.
  - pose proof (conv_ro_mapKnownStruct _ IH).
    pose proof (conv_ro_mapStructs_range _ IH).
    solve_cro.
Qed.

(** *** C4 *)

(** No strategy applies to a pair of field types: the conditions of
    [detectMappingType], all false. *)
Definition no_strategy (convs : list (converterInfo * Func)) (ft td : type)
  : Prop :=
  converters_lookup {| ci_from := ft; ci_to := td |} convs = None
  /\ td <> ft
  /\ V2.isStructOrPtrToStruct ft && V2.isStructOrPtrToStruct td = false
  /\ (Kind_eqb (type_Kind ft) KSlice && V2.elem_isStructOrPtrToStruct ft)
     && (Kind_eqb (type_Kind td) KSlice && V2.elem_isStructOrPtrToStruct td)
     = false
  /\ (Kind_eqb (type_Kind ft) KArray && V2.elem_isStructOrPtrToStruct ft)
     && (Kind_eqb (type_Kind td) KArray && V2.elem_isStructOrPtrToStruct td)
     = false.

Lemma detectMappingType_unsupported fromVal toVal ft wf rof td wt rot s :
  V2.val fromVal = Val ft wf rof ->
  V2.val toVal = Val td wt rot ->
  no_strategy (converters (s_mapper s)) ft td ->
  V2.detectMappingType fromVal toVal s = (s, Ok unsupported).
Proof.
  intros Hf Ht (Hc & Hne & Hs & Hsl & Har).
  unfold V2.detectMappingType, bind, Value_Type, get_mapper, ret.
  rewrite Hf, Ht, Hc, (type_eqb_neq _ _ Hne), Hs, Hsl, Har. reflexivity.
Qed.

Lemma mapStructs_range_unsupported rec mi toFields name fromVal toVal
    ft wf rof td wt rot rest s :
  V2.val fromVal = Val ft wf rof ->
  V2.val toVal = Val td wt rot ->
  toFields !! name = Some toVal ->
  no_strategy (converters (s_mapper s)) ft td ->
  V2.mapStructs_range rec mi toFields ((name, fromVal) :: rest) s
    = (s, Ok (Some (Errorf_missing ft td))).
Proof.
  intros Hf Ht Hto Hno. cbn [V2.mapStructs_range]. rewrite Hto.
  erewrite bind_Ok by (eapply detectMappingType_unsupported; eauto).
  cbn [supportedType_eqb negb]. rewrite Hf, Ht. reflexivity.
Qed.

Lemma run_conv_ro {A} (c : M A) s s1 r :
  conv_ro c -> c s = (s1, r) ->
  converters (s_mapper s1) = converters (s_mapper s).
Proof. intros H E. specialize (H s). rewrite E in H. exact H. Qed.

(** The loop of [mapStructs] visits every entry unless it returns early:
    when the turn for [(name, fromVal)] cannot end with nil, whatever the
    registry of converters satisfying [Q] and the entries after it, no loop
    over a list that holds the entry ends with nil. *)
Lemma mapStructs_range_reaches rec mi toFields name fromVal
    (Q : list (converterInfo * Func) -> Prop) :
  (forall a b, conv_ro (rec a b)) ->
  (forall rest s, Q (converters (s_mapper s)) ->
     snd (V2.mapStructs_range rec mi toFields ((name, fromVal) :: rest) s)
     <> Ok None) ->
  forall l s,
    (name, fromVal) ∈ l ->
    Q (converters (s_mapper s)) ->
    snd (V2.mapStructs_range rec mi toFields l s) <> Ok None.
Proof.
  intros Hrec Hhead. induction l as [|[k fv] rest IH]; intros s Hin HQ.
  - apply elem_of_nil in Hin. contradiction.
  - apply elem_of_cons in Hin as [[= <- <-]|Hin].
    { apply Hhead. assumption. }
    cbn [V2.mapStructs_range].
    destruct (toFields !! k) as [tv|]; [|apply IH; assumption].
    unfold bind at 1.
    destruct (V2.detectMappingType fv tv s) as [s1 [mt|m| |]] eqn:E1;
      try discriminate.
    pose proof (run_conv_ro _ _ _ _ (conv_ro_detectMappingType _ _) E1) as C1.
    destruct (negb (supportedType_eqb mt unsupported)).
    + unfold bind at 1.
      destruct (V2.strats rec mt (V2.val fv) (V2.val tv) s1)
        as [s2 [[e|]|m| |]] eqn:E2; try discriminate.
      pose proof (run_conv_ro _ _ _ _ (conv_ro_strats _ Hrec _ _ _) E2) as C2.
      unfold bind at 1.
      destruct (Lock s2) as [s3 [u|m| |]] eqn:E3; try discriminate.
      pose proof (run_conv_ro _ _ _ _ conv_ro_Lock E3) as C3.
      unfold bind at 1.
      destruct (V2.knownMappings_append _ _ s3) as [s4 [u'|m| |]] eqn:E4;
        try discriminate.
      pose proof (run_conv_ro _ _ _ _ (conv_ro_knownMappings_append _ _) E4) as C4.
      unfold bind at 1.
      destruct (Unlock s4) as [s5 [u''|m| |]] eqn:E5; try discriminate.
      pose proof (run_conv_ro _ _ _ _ conv_ro_Unlock E5) as C5.
      apply IH; [assumption|].
      replace (converters (s_mapper s5)) with (converters (s_mapper s))
        by congruence.
      assumption.
    + unfold bind at 1.
      destruct (Value_Type (V2.val fv) s1) as [s2 [t1|m| |]]; try discriminate.
      unfold bind at 1.
      destruct (Value_Type (V2.val tv) s2) as [s3 [t2|m| |]]; discriminate.
Qed.

Lemma mapStructs_range_never_skips rec mi toFields name fromVal toVal
    ft wf rof td wt rot :
  (forall a b, conv_ro (rec a b)) ->
  V2.val fromVal = Val ft wf rof ->
  V2.val toVal = Val td wt rot ->
  toFields !! name = Some toVal ->
  forall l s,
    (name, fromVal) ∈ l ->
    no_strategy (converters (s_mapper s)) ft td ->
    snd (V2.mapStructs_range rec mi toFields l s) <> Ok None.
Proof.
  intros Hrec Hf Ht Hto l s Hin Hno.
  apply (mapStructs_range_reaches rec mi toFields name fromVal
           (fun c => no_strategy c ft td) Hrec); [|assumption|assumption].
  intros rest s0 H0.
  erewrite mapStructs_range_unsupported by eauto. discriminate.
Qed.

Definition Mixed1 : type := TStruct "Mixed1" [field "A" TString; field "B" TInt].
Definition Mixed2 : type := TStruct "Mixed2" [field "A" TInt; field "B" TString].

(** Source [{A: "x", B: 1}], destination of type [Mixed2]; [strconv.Atoi]
    is registered: the pair [A] has a converter, which fails on ["x"], and no
    strategy applies to the pair [B]. *)
Definition mixed_state : state :=
  mapper_with Atoi [VStruct [VString "x"; VInt 1]; VStruct [VInt 0; VString ""]].

Definition Skipped1 : type :=
  TStruct "Skipped1" [field "A" TInt; field "B" TFloat64].
Definition Skipped2 : type :=
  TStruct "Skipped2" [field "A" TString; field "B" TInt].

(** Source [{A: 1, B: 5.0}], destination of type [Skipped2];
    [strconv.Itoa] is registered: the pair [A] has a converter with one
    result, and no strategy applies to the pair [B]. *)
Definition skipped_state : state :=
  mapper_with Itoa
    [VStruct [VInt 1; VFloat64 5]; VStruct [VString EmptyString; VInt 0]].


(** [TestMapper_Map_Converter_WithError]: source [{Field1: "string"}]. *)
Definition atoi_fails_state : state :=
  mapper_with Atoi [VStruct [VString "string"]; VStruct [VInt 0]].



(** *** C7 *)

(** [mapArraysFunc] up to its last statement: the fresh array and the
    result of [setArrayValue]. *)
Definition mapArraysFunc_elements (rec : Value -> Value -> M (option error))
    (fromVal toVal : Value) : M (Value * option error) :=
  let* n := Value_Len fromVal in
  let* tt := Value_Type toVal in
  let* te := Type_Elem tt in
  let* p := reflect_New (ArrayOf n te) in
  let* array := Value_Elem p in
  let* err := V2.setArrayValue rec fromVal toVal array in
  ret (array, err).

Lemma Value_Set_type_mismatch t l p tx wx s :
  tx <> t ->
  Value_Set (Val t (Addr l p) false) (Val tx wx false) s
  = (s, Panic "reflect.Set: value is not assignable to type").
Proof.
  intros Hne. unfold Value_Set. rewrite (type_eqb_neq _ _ Hne). reflexivity.
Qed.

Section Arrays_mismatch.
Variable rec : Value -> Value -> M (option error).
Hypothesis Hrec : frame_spec rec.
Variables (n m : nat) (ef et : type) (wf : place) (rof : bool).
Variables (l : nat) (p : list nat).
Hypothesis Hnm : n <> m.

Local Abbreviation fromVal := (Val (TArray n ef) wf rof).
Local Abbreviation toVal := (Val (TArray m et) (Addr l p) false).

Lemma mapArraysFunc_mismatch_run s :
  V2.mapArraysFunc rec fromVal toVal s =
  match mapArraysFunc_elements rec fromVal toVal s with
  | (s', Ok (_, None)) =>
      (s', Panic "reflect.Set: value is not assignable to type")
  | (s', Ok (_, Some e)) => (s', Ok (Some (Errorf_setArrayValue e)))
  | (s', r) => (s', abort r)
  end.
Proof.
  unfold V2.mapArraysFunc, mapArraysFunc_elements, bind.
  cbn [Value_Len Value_Type ret]. unfold Type_Elem.
  cbn [type_Elem lift_option ret].
  rewrite !reflect_New_run. cbv beta iota. rewrite !Value_Elem_Imm.
  cbv beta iota.
  destruct (V2.setArrayValue rec _ _ _ _) as [s2 [[e|]|msg| |]]; try reflexivity.
  cbn [ret]. rewrite Value_Set_type_mismatch; [reflexivity|].
  unfold ArrayOf. intros [= E]. contradiction.
Qed.

Lemma mapArraysFunc_elements_pres s :
  pres (length (s_heap s)) (fun _ => False) (s_heap s)
    (s_heap (fst (mapArraysFunc_elements rec fromVal toVal s))).
Proof.
  unfold mapArraysFunc_elements.
  assert (Hn : length (s_heap s) <= length (s_heap s)) by lia.
  revert Hn. generalize (length (s_heap s)) at 1 3 as k. intros k Hn.
  pstep_ro as k0 s1 Hr1 Hn1. pstep_ro as tt s2 Hr2 Hn2.
  pstep_ro as te s3 Hr3 Hn3.
  pstep (apply pres_reflect_New; assumption) as q s4 Hr4 Hn4.
  rewrite reflect_New_run in Hr4. injection Hr4 as <- <-.
  pstep_ro as array s5 Hr5 Hn5.
  rewrite Value_Elem_Imm in Hr5. injection Hr5 as <- <-.
  pstep (apply setArrayValue_frame;
         [assumption | assumption | exact I
         | simpl; intros ? [= <-] ?; exfalso; lia]) as err s6 Hr6 Hn6.
  apply pres_refl.
Qed.

Lemma mapArraysFunc_mismatch s :
  snd (V2.mapArraysFunc rec fromVal toVal s) <> Ok None
  /\ (forall l', l' < length (s_heap s) ->
        s_heap (fst (V2.mapArraysFunc rec fromVal toVal s)) !! l'
        = s_heap s !! l')
  /\ (forall s' array,
        mapArraysFunc_elements rec fromVal toVal s = (s', Ok (array, None)) ->
        V2.mapArraysFunc rec fromVal toVal s
        = (s', Panic "reflect.Set: value is not assignable to type")).
Proof.
  pose proof (mapArraysFunc_elements_pres s) as [_ Hp].
  rewrite mapArraysFunc_mismatch_run.
  destruct (mapArraysFunc_elements rec fromVal toVal s)
    as [s' [[array [e|]]|msg| |]]; simpl in *;
    (split; [discriminate|]); (split; [intros l' Hl'; apply Hp; auto|]);
    intros s'' array' [=]; subst; reflexivity.
Qed.

Lemma detectMappingType_arrays i j s :
  converters_lookup {| ci_from := TArray n ef; ci_to := TArray m et |}
    (converters (s_mapper s)) = None ->
  V2.isStructOrPtrToStruct ef = true ->
  V2.isStructOrPtrToStruct et = true ->
  V2.detectMappingType {| V2.index := i; V2.val := fromVal |}
    {| V2.index := j; V2.val := toVal |} s = (s, Ok arrays).
Proof.
  intros Hc Hef Het.
  unfold V2.detectMappingType, bind, Value_Type, get_mapper, ret.
  cbn [V2.val]. rewrite Hc.
  rewrite type_eqb_neq by (intros [= E]; congruence).
  unfold V2.elem_isStructOrPtrToStruct. cbn [type_Elem type_Kind Kind_eqb].
  rewrite Hef, Het. reflexivity.
Qed.

Lemma mapStructs_range_arrays_mismatch mi toFields name i j rest s :
  toFields !! name = Some {| V2.index := j; V2.val := toVal |} ->
  converters_lookup {| ci_from := TArray n ef; ci_to := TArray m et |}
    (converters (s_mapper s)) = None ->
  V2.isStructOrPtrToStruct ef = true ->
  V2.isStructOrPtrToStruct et = true ->
  snd (V2.mapStructs_range rec mi toFields
         ((name, {| V2.index := i; V2.val := fromVal |}) :: rest) s)
  <> Ok None.
Proof.
  intros Hto Hc Hef Het. cbn [V2.mapStructs_range]. rewrite Hto.
  erewrite bind_Ok by (apply detectMappingType_arrays; assumption).
  cbn [supportedType_eqb negb V2.strats V2.val].
  destruct (mapArraysFunc_mismatch s) as (Hne & _ & _).
  unfold bind at 1.
  destruct (V2.mapArraysFunc rec fromVal toVal s) as [s1 [[e|]|msg| |]];
    simpl in *; try discriminate. contradiction.
Qed.
End Arrays_mismatch.

(** Two array types of different lengths and no converter for the pair:
    either both element types are structs or pointers to structs and the
    strategy is [arrays], or no strategy applies. *)
Lemma mapStructs_range_arrays_never_nil rec mi toFields name i j
    n m ef et wf rof l p :
  frame_spec rec ->
  (forall a b, conv_ro (rec a b)) ->
  n <> m ->
  toFields !! name
    = Some {| V2.index := j; V2.val := Val (TArray m et) (Addr l p) false |} ->
  forall entries s,
    (name, {| V2.index := i; V2.val := Val (TArray n ef) wf rof |}) ∈ entries ->
    converters_lookup {| ci_from := TArray n ef; ci_to := TArray m et |}
      (converters (s_mapper s)) = None ->
    snd (V2.mapStructs_range rec mi toFields entries s) <> Ok None.
Proof.
  intros Hfr Hrec Hnm Hto entries s Hin Hc.
  apply (mapStructs_range_reaches rec mi toFields name
           {| V2.index := i; V2.val := Val (TArray n ef) wf rof |}
           (fun c => converters_lookup
                       {| ci_from := TArray n ef; ci_to := TArray m et |} c
                     = None) Hrec); [|assumption|assumption].
  intros rest s0 H0.
  assert (Hne : TArray m et <> TArray n ef) by (intros [= E _]; congruence).
  destruct (V2.isStructOrPtrToStruct ef) eqn:Hef;
    [destruct (V2.isStructOrPtrToStruct et) eqn:Het|].
  - exact (mapStructs_range_arrays_mismatch rec Hfr n m ef et wf rof l p Hnm
             mi toFields name i j rest s0 Hto H0 Hef Het).
  - rewrite (mapStructs_range_unsupported rec mi toFields name
               {| V2.index := i; V2.val := Val (TArray n ef) wf rof |}
               {| V2.index := j; V2.val := Val (TArray m et) (Addr l p) false |}
               (TArray n ef) wf rof (TArray m et) (Addr l p) false rest s0
               eq_refl eq_refl Hto); [discriminate|].
    unfold no_strategy, V2.elem_isStructOrPtrToStruct.
    cbn [type_Elem type_Kind Kind_eqb]. rewrite Hef, Het.
    repeat split; try reflexivity; assumption.
  - rewrite (mapStructs_range_unsupported rec mi toFields name
               {| V2.index := i; V2.val := Val (TArray n ef) wf rof |}
               {| V2.index := j; V2.val := Val (TArray m et) (Addr l p) false |}
               (TArray n ef) wf rof (TArray m et) (Addr l p) false rest s0
               eq_refl eq_refl Hto); [discriminate|].
    unfold no_strategy, V2.elem_isStructOrPtrToStruct.
    cbn [type_Elem type_Kind Kind_eqb]. rewrite Hef.
    repeat split; try reflexivity; assumption.
Qed.

Definition Arrays1 : type := TStruct "Arrays1" [field "Field1" (TArray 2 Simple1)].
Definition Arrays2 : type := TStruct "Arrays2" [field "Field1" (TArray 1 Simple2)].
Definition arrays_state : state :=
  {| s_heap := [VStruct [VArray [simple1; simple1]];
                VStruct [VArray [zero_value Simple2]]];
     s_mapper := New |}.

(** *** C1: records with the same fields *)

(** A name that begins with a lower-case ASCII letter or an underscore:
    such a name is not exported. *)
Definition starts_lower (name : string) : bool :=
  match name with
  | EmptyString => false
  | String c _ =>
      let n := Ascii.nat_of_ascii c in
      ((Nat.leb 97 n && Nat.leb n 122) || Nat.eqb n 95)%bool
  end.

Lemma starts_lower_unexported name :
  starts_lower name = true -> is_exported name = false.
Proof.
  destruct name as [|c name]; [discriminate|]. unfold starts_lower, is_exported.
  generalize (Ascii.nat_of_ascii c) as n. intros n H.
  apply orb_true_iff in H as [H|H].
  - apply andb_true_iff in H as [H1 H2]. apply Nat.leb_le in H1.
    apply andb_false_iff. right. apply Nat.leb_gt. lia.
  - apply Nat.eqb_eq in H. subst n. reflexivity.
Qed.

Section Same_shape.
Variables fs1 fs2 : list (StructField type).
Variables n1 n2 : string.
Variables lf lt : nat.
Variable vsf : list value.
Variable convs : list (converterInfo * Func).

Hypothesis Hne : lf <> lt.
Hypothesis Hlenf : length vsf = length fs1.
Hypothesis Hkeys1 : NoDup (V2.field_key <$> fs1).
Hypothesis Hkeys2 : NoDup (V2.field_key <$> fs2).
Hypothesis Hshape : forall i j f1 f2,
  fs1 !! i = Some f1 -> fs2 !! j = Some f2 ->
  V2.field_key f1 = V2.field_key f2 ->
  FType f1 = FType f2
  /\ (is_exported (Name f2) = true -> is_exported (Name f1) = true).
Hypothesis Hconv : forall f, f ∈ fs1 ->
  converters_lookup {| ci_from := FType f; ci_to := FType f |} convs = None.

Local Abbreviation from := (Val (TStruct n1 fs1) (Addr lf []) false).
Local Abbreviation to := (Val (TStruct n2 fs2) (Addr lt []) false).

(** The source struct is in place, the destination holds the fields [vs],
    the mutex is in state [b] and the registry is [convs]. *)
Definition good (b : bool) (s : state) (vs : list value) : Prop :=
  s_heap s !! lf = Some (VStruct vsf)
  /\ s_heap s !! lt = Some (VStruct vs)
  /\ length vs = length fs2
  /\ mu (s_mapper s) = b
  /\ converters (s_mapper s) = convs.

Definition from_entry (i : nat) (f : StructField type) : V2.fieldInfo :=
  {| V2.index := i;
     V2.val := Val (FType f) (Addr lf [i]) (negb (is_exported (Name f))) |}.

Definition to_entry (j : nat) (f : StructField type) : V2.fieldInfo :=
  {| V2.index := j;
     V2.val := Val (FType f) (Addr lt [j]) (negb (is_exported (Name f))) |}.

(** The source field [i] and the destination field [j] have the same
    key. *)
Definition matched (i j : nat) : Prop :=
  exists f1 f2, fs1 !! i = Some f1 /\ fs2 !! j = Some f2
                /\ V2.field_key f1 = V2.field_key f2.

Lemma Field_from_run s i f :
  fs1 !! i = Some f ->
  Value_Field from i s = (s, Ok (V2.val (from_entry i f))).
Proof.
  intros Hf. unfold Value_Field, bind, Type_Field, lift_option, sub_place, ret.
  rewrite Hf. reflexivity.
Qed.

Lemma Field_to_run s j f :
  fs2 !! j = Some f ->
  Value_Field to j s = (s, Ok (V2.val (to_entry j f))).
Proof.
  intros Hf. unfold Value_Field, bind, Type_Field, lift_option, sub_place, ret.
  rewrite Hf. reflexivity.
Qed.

Lemma load_from_field b s vs t i ro v :
  good b s vs -> vsf !! i = Some v ->
  load (Val t (Addr lf [i]) ro) s = (s, Ok v).
Proof.
  intros (Hf & _) Hv. apply load_Addr. unfold heap_load. rewrite Hf.
  simpl. rewrite Hv. reflexivity.
Qed.

Lemma is_zero_not_nil v :
  is_zero v = false ->
  match v with
  | VPtr None | VSlice None => @ret bool true
  | _ => ret false
  end = ret false.
Proof. destruct v as [| | | |[|]|[|]| |]; simpl; congruence. Qed.

Lemma IsZero_from_run b s vs i f v :
  good b s vs -> vsf !! i = Some v ->
  Value_IsZero (V2.val (from_entry i f)) s = (s, Ok (is_zero v)).
Proof.
  intros Hg Hv. unfold Value_IsZero, bind. cbn [from_entry V2.val].
  rewrite (load_from_field b s vs (FType f) i
             (negb (is_exported (Name f))) v Hg Hv).
  reflexivity.
Qed.

Lemma IsNil_from_run b s vs i f v :
  good b s vs -> vsf !! i = Some v -> is_zero v = false ->
  Kind_eqb (Value_Kind (V2.val (from_entry i f))) KPtr = true ->
  Value_IsNil (V2.val (from_entry i f)) s = (s, Ok false).
Proof.
  intros Hg Hv Hz Hk. unfold Value_IsNil, bind. cbn [from_entry V2.val] in *.
  destruct (Value_Kind _); try discriminate.
  rewrite (load_from_field b s vs (FType f) i
             (negb (is_exported (Name f))) v Hg Hv).
  rewrite (is_zero_not_nil _ Hz). reflexivity.
Qed.

(** The two maps [getFieldInfo] builds. *)
Definition from_step (acc : gmap string V2.fieldInfo) (i : nat)
  : gmap string V2.fieldInfo :=
  match fs1 !! i, vsf !! i with
  | Some f, Some v =>
      if is_zero v then acc else <[V2.field_key f := from_entry i f]> acc
  | _, _ => acc
  end.

Definition to_step (acc : gmap string V2.fieldInfo) (j : nat)
  : gmap string V2.fieldInfo :=
  match fs2 !! j with
  | Some f =>
      if is_exported (Name f) then <[V2.field_key f := to_entry j f]> acc
      else acc
  | None => acc
  end.

Lemma getFieldInfo_from_run b s vs :
  good b s vs ->
  forall ixs acc,
    (forall i, i ∈ ixs -> i < length fs1) ->
    V2.getFieldInfo_from from ixs acc s = (s, Ok (foldl from_step acc ixs)).
Proof.
  intros Hg. induction ixs as [|i ixs IH]; intros acc Hix; [reflexivity|].
  assert (Hi : i < length fs1) by (apply Hix; apply elem_of_cons; auto).
  destruct (lookup_lt_is_Some_2 fs1 i Hi) as [f Hf].
  destruct (lookup_lt_is_Some_2 vsf i ltac:(lia)) as [v Hv].
  cbn [V2.getFieldInfo_from foldl].
  rewrite (bind_Ok _ _ _ _ _ (Field_from_run s i f Hf)).
  rewrite (bind_Ok _ _ _ _ _ (IsZero_from_run b s vs i f v Hg Hv)).
  unfold from_step at 2. rewrite Hf, Hv.
  destruct (is_zero v) eqn:Hz.
  - unfold bind at 1. cbn [ret].
    apply IH. intros j Hj. apply Hix. apply elem_of_cons. auto.
  - destruct (Kind_eqb (Value_Kind (V2.val (from_entry i f))) KPtr) eqn:Hk.
    + rewrite (bind_Ok _ _ _ _ _ (IsNil_from_run b s vs i f v Hg Hv Hz Hk)).
      unfold bind at 1. cbn [Value_Type ret].
      unfold bind at 1. unfold Type_Field, lift_option. rewrite Hf. cbn [ret].
      apply IH. intros j Hj. apply Hix. apply elem_of_cons. auto.
    + unfold bind at 1. cbn [ret].
      unfold bind at 1. cbn [Value_Type ret].
      unfold bind at 1. unfold Type_Field, lift_option. rewrite Hf. cbn [ret].
      apply IH. intros j Hj. apply Hix. apply elem_of_cons. auto.
Qed.

Lemma getFieldInfo_to_run s :
  forall ixs acc,
    (forall j, j ∈ ixs -> j < length fs2) ->
    V2.getFieldInfo_to to ixs acc s = (s, Ok (foldl to_step acc ixs)).
Proof.
  induction ixs as [|i ixs IH]; intros acc Hix; [reflexivity|].
  assert (Hi : i < length fs2) by (apply Hix; apply elem_of_cons; auto).
  destruct (lookup_lt_is_Some_2 fs2 i Hi) as [f Hf].
  cbn [V2.getFieldInfo_to foldl].
  rewrite (bind_Ok _ _ _ _ _ (Field_to_run s i f Hf)).
  unfold to_step at 2. rewrite Hf. unfold to_entry.
  cbn [V2.val Value_CanSet]. rewrite negb_involutive.
  destruct (is_exported (Name f)); cbn [negb].
  - unfold bind at 1. cbn [Value_Type ret].
    unfold bind at 1. unfold Type_Field, lift_option. rewrite Hf. cbn [ret].
    apply IH. intros j Hj. apply Hix. apply elem_of_cons. auto.
  - apply IH. intros j Hj. apply Hix. apply elem_of_cons. auto.
Qed.

Lemma key_inj (fs : list (StructField type)) i j f g :
  NoDup (V2.field_key <$> fs) ->
  fs !! i = Some f -> fs !! j = Some g ->
  V2.field_key f = V2.field_key g -> i = j /\ f = g.
Proof.
  intros Hkeys Hi Hj Hk.
  assert (i = j).
  { eapply (NoDup_lookup _ i j (V2.field_key f) Hkeys);
      rewrite list_lookup_fmap; [rewrite Hi|rewrite Hj, Hk]; reflexivity. }
  subst j. split; [reflexivity|congruence].
Qed.

Lemma matched_source i i' j : matched i j -> matched i' j -> i = i'.
Proof.
  intros (f1 & f2 & H1 & H2 & Hk) (g1 & g2 & G1 & G2 & Gk).
  assert (g2 = f2) by congruence. subst g2.
  exact (proj1 (key_inj fs1 _ _ _ _ Hkeys1 H1 G1 (eq_trans Hk (eq_sym Gk)))).
Qed.

Lemma from_sound ixs : forall acc k fi,
  foldl from_step acc ixs !! k = Some fi ->
  acc !! k = Some fi
  \/ exists i f v, fs1 !! i = Some f /\ vsf !! i = Some v
                   /\ is_zero v = false /\ k = V2.field_key f
                   /\ fi = from_entry i f.
Proof.
  induction ixs as [|j ixs IH]; intros acc k fi H; [left; exact H|].
  cbn [foldl] in H. apply IH in H as [H|H]; [|right; exact H].
  unfold from_step in H.
  destruct (fs1 !! j) as [f|] eqn:Hf; [|left; exact H].
  destruct (vsf !! j) as [v|] eqn:Hv; [|left; exact H].
  destruct (is_zero v) eqn:Hz; [left; exact H|].
  destruct (decide (V2.field_key f = k)) as [<-|Hk].
  - rewrite lookup_insert_eq in H. injection H as <-.
    right. exists j, f, v. auto.
  - rewrite lookup_insert_ne in H by assumption. left. exact H.
Qed.

Lemma from_stable ixs : forall acc i f,
  fs1 !! i = Some f ->
  acc !! V2.field_key f = Some (from_entry i f) ->
  foldl from_step acc ixs !! V2.field_key f = Some (from_entry i f).
Proof.
  induction ixs as [|j ixs IH]; intros acc i f Hf H; [exact H|].
  cbn [foldl]. apply IH; [assumption|]. unfold from_step.
  destruct (fs1 !! j) as [g|] eqn:Hg; [|exact H].
  destruct (vsf !! j) as [v|] eqn:Hv; [|exact H].
  destruct (is_zero v) eqn:Hz; [exact H|].
  destruct (decide (V2.field_key g = V2.field_key f)) as [Hk|Hk].
  - destruct (key_inj fs1 _ _ _ _ Hkeys1 Hg Hf Hk) as [-> ->].
    rewrite lookup_insert_eq. reflexivity.
  - rewrite lookup_insert_ne by assumption. exact H.
Qed.

Lemma from_complete ixs : forall acc i f v,
  i ∈ ixs -> fs1 !! i = Some f -> vsf !! i = Some v -> is_zero v = false ->
  foldl from_step acc ixs !! V2.field_key f = Some (from_entry i f).
Proof.
  induction ixs as [|j ixs IH]; intros acc i f v Hin Hf Hv Hz.
  - apply elem_of_nil in Hin. contradiction.
  - cbn [foldl]. apply elem_of_cons in Hin as [->|Hin]; [|eapply IH; eauto].
    apply from_stable; [assumption|]. unfold from_step.
    rewrite Hf, Hv, Hz. apply lookup_insert_eq.
Qed.

Lemma to_sound ixs : forall acc k ti,
  foldl to_step acc ixs !! k = Some ti ->
  acc !! k = Some ti
  \/ exists j f, fs2 !! j = Some f /\ is_exported (Name f) = true
                 /\ k = V2.field_key f /\ ti = to_entry j f.
Proof.
  induction ixs as [|j ixs IH]; intros acc k ti H; [left; exact H|].
  cbn [foldl] in H. apply IH in H as [H|H]; [|right; exact H].
  unfold to_step in H.
  destruct (fs2 !! j) as [f|] eqn:Hf; [|left; exact H].
  destruct (is_exported (Name f)) eqn:He; [|left; exact H].
  destruct (decide (V2.field_key f = k)) as [<-|Hk].
  - rewrite lookup_insert_eq in H. injection H as <-.
    right. exists j, f. auto.
  - rewrite lookup_insert_ne in H by assumption. left. exact H.
Qed.

Lemma to_stable ixs : forall acc j f,
  fs2 !! j = Some f ->
  acc !! V2.field_key f = Some (to_entry j f) ->
  foldl to_step acc ixs !! V2.field_key f = Some (to_entry j f).
Proof.
  induction ixs as [|k ixs IH]; intros acc j f Hf H; [exact H|].
  cbn [foldl]. apply IH; [assumption|]. unfold to_step.
  destruct (fs2 !! k) as [g|] eqn:Hg; [|exact H].
  destruct (is_exported (Name g)) eqn:He; [|exact H].
  destruct (decide (V2.field_key g = V2.field_key f)) as [Hk|Hk].
  - destruct (key_inj fs2 _ _ _ _ Hkeys2 Hg Hf Hk) as [-> ->].
    rewrite lookup_insert_eq. reflexivity.
  - rewrite lookup_insert_ne by assumption. exact H.
Qed.

Lemma to_complete ixs : forall acc j f,
  j ∈ ixs -> fs2 !! j = Some f -> is_exported (Name f) = true ->
  foldl to_step acc ixs !! V2.field_key f = Some (to_entry j f).
Proof.
  induction ixs as [|k ixs IH]; intros acc j f Hin Hf He.
  - apply elem_of_nil in Hin. contradiction.
  - cbn [foldl]. apply elem_of_cons in Hin as [->|Hin]; [|eapply IH; eauto].
    apply to_stable; [assumption|]. unfold to_step.
    rewrite Hf, He. apply lookup_insert_eq.
Qed.

(** The maps of one call. *)
Definition fromFields : gmap string V2.fieldInfo :=
  foldl from_step ∅ (seq 0 (length fs1)).
Definition toFields : gmap string V2.fieldInfo :=
  foldl to_step ∅ (seq 0 (length fs2)).

Lemma getFieldInfo_run b s vs :
  good b s vs ->
  V2.getFieldInfo from to s = (s, Ok (fromFields, toFields)).
Proof.
  intros Hg. unfold V2.getFieldInfo.
  unfold bind at 1. cbn [Value_NumField ret].
  rewrite (bind_Ok _ _ _ _ _
             (getFieldInfo_from_run b s vs Hg (seq 0 (length fs1)) ∅
                ltac:(intros i Hi; apply elem_of_seq in Hi; lia))).
  unfold bind at 1. cbn [Value_NumField ret].
  rewrite (bind_Ok _ _ _ _ _
             (getFieldInfo_to_run s (seq 0 (length fs2)) ∅
                ltac:(intros i Hi; apply elem_of_seq in Hi; lia))).
  reflexivity.
Qed.

Lemma toFields_lookup k ti :
  toFields !! k = Some ti ->
  exists j f, fs2 !! j = Some f /\ is_exported (Name f) = true
              /\ k = V2.field_key f /\ ti = to_entry j f.
Proof.
  intros H. apply to_sound in H as [H|H]; [|exact H].
  rewrite lookup_empty in H. discriminate.
Qed.

Lemma toFields_exported j f :
  fs2 !! j = Some f -> is_exported (Name f) = true ->
  toFields !! V2.field_key f = Some (to_entry j f).
Proof.
  intros Hf He. eapply to_complete; eauto.
  apply elem_of_seq. apply lookup_lt_Some in Hf. lia.
Qed.

Lemma fromFields_lookup k fi :
  fromFields !! k = Some fi ->
  exists i f v, fs1 !! i = Some f /\ vsf !! i = Some v
                /\ is_zero v = false /\ k = V2.field_key f
                /\ fi = from_entry i f.
Proof.
  intros H. apply from_sound in H as [H|H]; [|exact H].
  rewrite lookup_empty in H. discriminate.
Qed.

Lemma fromFields_nonzero i f v :
  fs1 !! i = Some f -> vsf !! i = Some v -> is_zero v = false ->
  fromFields !! V2.field_key f = Some (from_entry i f).
Proof.
  intros Hf Hv Hz. eapply from_complete; eauto.
  apply elem_of_seq. apply lookup_lt_Some in Hf. lia.
Qed.

(** The state after [to.Field(j).Set(v)]. *)
Definition set_field (s : state) (vs : list value) (j : nat) (v : value)
  : state :=
  {| s_heap := <[lt := VStruct (<[j := v]> vs)]> (s_heap s);
     s_mapper := s_mapper s |}.

Lemma good_set_field b s vs j v :
  good b s vs -> good b (set_field s vs j v) (<[j := v]> vs).
Proof.
  intros (Hf & Ht & Hl & Hm & Hc). unfold good, set_field. cbn [s_heap s_mapper].
  repeat split; try assumption.
  - rewrite list_lookup_insert_ne by congruence. exact Hf.
  - apply list_lookup_insert_eq. eapply lookup_lt_Some; eauto.
  - rewrite length_insert. exact Hl.
Qed.

Lemma copy_vals_run b s vs i j f1 f2 v :
  good b s vs -> fs2 !! j = Some f2 ->
  is_exported (Name f1) = true -> is_exported (Name f2) = true ->
  FType f1 = FType f2 ->
  vsf !! i = Some v ->
  V2.mapSameTypesFunc (V2.val (from_entry i f1)) (V2.val (to_entry j f2)) s
  = (set_field s vs j v, Ok None).
Proof.
  intros Hg Hf2 He1 He Htype Hv.
  assert (Hj : j < length vs).
  { destruct Hg as (_ & _ & Hl & _). apply lookup_lt_Some in Hf2. lia. }
  destruct (lookup_lt_is_Some_2 vs j Hj) as [c Hc].
  unfold V2.mapSameTypesFunc, from_entry, to_entry. cbn [V2.val].
  rewrite He1, Htype, He. cbn [negb]. unfold Value_Set.
  rewrite type_eqb_refl.
  unfold bind at 1.
  rewrite (bind_Ok _ _ _ _ _
             (load_from_field b s vs (FType f2) i false v Hg Hv)).
  unfold bind at 1. cbn [get_heap]. unfold heap_store.
  destruct Hg as (_ & Ht & _). rewrite Ht. cbn [set_path children].
  rewrite Hc. cbn [with_children lift_option]. reflexivity.
Qed.

Lemma copy_run b s vs i j f1 f2 v :
  good b s vs -> fs1 !! i = Some f1 -> fs2 !! j = Some f2 ->
  V2.field_key f1 = V2.field_key f2 ->
  is_exported (Name f2) = true ->
  vsf !! i = Some v ->
  V2.mapSameTypesFunc (V2.val (from_entry i f1)) (V2.val (to_entry j f2)) s
  = (set_field s vs j v, Ok None).
Proof.
  intros Hg Hf1 Hf2 Hk He Hv.
  destruct (Hshape i j f1 f2 Hf1 Hf2 Hk) as [Htype Hexp].
  apply (copy_vals_run b s vs i j f1 f2 v); try assumption.
  exact (Hexp He).
Qed.

Lemma detect_same_run b s vs i j f1 f2 :
  good b s vs -> fs1 !! i = Some f1 -> fs2 !! j = Some f2 ->
  V2.field_key f1 = V2.field_key f2 ->
  V2.detectMappingType (from_entry i f1) (to_entry j f2) s
  = (s, Ok sameTypes).
Proof.
  intros (_ & _ & _ & _ & Hc) Hf1 Hf2 Hk.
  destruct (Hshape i j f1 f2 Hf1 Hf2 Hk) as [Htype _].
  unfold V2.detectMappingType, bind, Value_Type, get_mapper, ret.
  cbn [from_entry to_entry V2.val]. rewrite Hc, <- Htype.
  rewrite (Hconv f1 (list_elem_of_lookup_2 _ _ _ Hf1)).
  rewrite type_eqb_refl. reflexivity.
Qed.

(** The state after [Lock], the append to the plan and [Unlock]. *)
Definition record_plan (mi : structMappingInfo) (e : fieldMappingInfo)
    (s : state) : state :=
  {| s_heap := s_heap s;
     s_mapper :=
       {| mu := false; converters := converters (s_mapper s);
          knownMappings :=
            V2.knownMappings_insert mi
              (default [] (knownMappings_lookup mi (knownMappings (s_mapper s)))
                 ++ [e])
              (knownMappings (s_mapper s)) |} |}.

Lemma record_plan_run {A} mi e (k : M A) s :
  mu (s_mapper s) = false ->
  (do Lock then do V2.knownMappings_append mi e then do Unlock then k) s
  = k (record_plan mi e s).
Proof.
  intros Hm. unfold Lock, V2.knownMappings_append, Unlock, bind, get_mapper,
    put_mapper. cbn [s_mapper]. rewrite Hm. reflexivity.
Qed.

Lemma good_record_plan mi e s vs :
  good false s vs -> good false (record_plan mi e s) vs.
Proof. intros (Hf & Ht & Hl & Hm & Hc). repeat split; assumption. Qed.

(** A plan for the pair of structs made of copies of a source field into
    the exported destination field with the same key. *)
Definition plan_ok (plan : list fieldMappingInfo) : Prop :=
  Forall (fun e => mapperFunc e = sameTypes
                   /\ exists f1 f2,
                        fs1 !! fromIndex e = Some f1
                        /\ fs2 !! toIndex e = Some f2
                        /\ V2.field_key f1 = V2.field_key f2
                        /\ is_exported (Name f2) = true) plan.

Definition planned (mi : structMappingInfo) (s : state) : Prop :=
  exists plan, knownMappings_lookup mi (knownMappings (s_mapper s)) = Some plan
               /\ plan_ok plan.

Lemma knownMappings_lookup_insert mi v l :
  knownMappings_lookup mi (V2.knownMappings_insert mi v l) = Some v.
Proof.
  unfold knownMappings_lookup, V2.knownMappings_insert. cbn [find fst].
  rewrite !type_eqb_refl. reflexivity.
Qed.

Lemma planned_record_plan mi i j f1 f2 s :
  fs1 !! i = Some f1 -> fs2 !! j = Some f2 ->
  V2.field_key f1 = V2.field_key f2 -> is_exported (Name f2) = true ->
  planned mi s ->
  planned mi (record_plan mi {| fromIndex := i; toIndex := j;
                                mapperFunc := sameTypes |} s).
Proof.
  intros Hf1 Hf2 Hk He (plan & Hl & Hp). unfold planned, record_plan.
  cbn [s_mapper knownMappings]. rewrite knownMappings_lookup_insert, Hl.
  eexists. split; [reflexivity|]. cbn [default].
  apply Forall_app. split; [exact Hp|].
  apply Forall_singleton. cbn. eauto 10.
Qed.

(** What the loop of [mapStructs] visits: the non-zero source fields. *)
Definition source_entries (L : list (string * V2.fieldInfo)) : Prop :=
  forall k fi, (k, fi) ∈ L ->
    exists i f v, fs1 !! i = Some f /\ vsf !! i = Some v
                  /\ is_zero v = false /\ k = V2.field_key f
                  /\ fi = from_entry i f.

Lemma range_run rec mi : forall L s vs,
  good false s vs -> planned mi s -> source_entries L ->
  exists s' vs',
    V2.mapStructs_range rec mi toFields L s = (s', Ok None)
    /\ good false s' vs' /\ planned mi s'
    /\ (forall j, vs' !! j = vs !! j
                  \/ exists i, matched i j /\ vs' !! j = vsf !! i)
    /\ (forall i j f1 f2,
          fs1 !! i = Some f1 -> fs2 !! j = Some f2 ->
          V2.field_key f1 = V2.field_key f2 ->
          is_exported (Name f2) = true ->
          (V2.field_key f1, from_entry i f1) ∈ L -> vs' !! j = vsf !! i)
    /\ (forall j,
          (forall i f1 f2,
             fs1 !! i = Some f1 -> fs2 !! j = Some f2 ->
             V2.field_key f1 = V2.field_key f2 ->
             is_exported (Name f2) = true ->
             (V2.field_key f1, from_entry i f1) ∉ L) ->
          vs' !! j = vs !! j)
    /\ (forall i j, matched i j -> vs !! j = vsf !! i -> vs' !! j = vsf !! i).
Proof.
  induction L as [|[k fi] rest IH]; intros s vs Hg Hp HL.
  - exists s, vs. cbn [V2.mapStructs_range].
    split; [reflexivity|]. split; [exact Hg|]. split; [exact Hp|].
    split; [auto|]. split; [|auto].
    intros i j f1 f2 _ _ _ _ Hin. apply elem_of_nil in Hin. contradiction.
  - destruct (HL k fi ltac:(apply elem_of_cons; auto))
      as (i & f1 & v & Hf1 & Hv & Hz & -> & ->).
    assert (HLrest : source_entries rest).
    { intros k' fi' Hin. apply HL. apply elem_of_cons. auto. }
    cbn [V2.mapStructs_range].
    destruct (toFields !! V2.field_key f1) as [ti|] eqn:Hto.
    + apply toFields_lookup in Hto as Hto'.
      destruct Hto' as (j & f2 & Hf2 & He & Hk & ->).
      rewrite (bind_Ok _ _ _ _ _ (detect_same_run false s vs i j f1 f2
                                    Hg Hf1 Hf2 Hk)).
      cbn [supportedType_eqb negb V2.strats].
      rewrite (bind_Ok _ _ _ _ _ (copy_run false s vs i j f1 f2 v
                                    Hg Hf1 Hf2 Hk He Hv)).
      cbn iota.
      rewrite record_plan_run
        by (apply (good_set_field false s vs j v) in Hg;
            destruct Hg as (_ & _ & _ & Hm & _); exact Hm).
      cbn [from_entry to_entry V2.index].
      set (s2 := record_plan mi _ (set_field s vs j v)).
      assert (Hg2 : good false s2 (<[j := v]> vs)).
      { apply good_record_plan. apply good_set_field. exact Hg. }
      assert (Hp2 : planned mi s2).
      { apply planned_record_plan with (f1 := f1) (f2 := f2); assumption. }
      destruct (IH s2 _ Hg2 Hp2 HLrest)
        as (s' & vs' & Hrun & Hg' & Hp' & Hor & Hcp & Hkeep & Hst).
      assert (Hj : j < length vs).
      { destruct Hg as (_ & _ & Hl & _). apply lookup_lt_Some in Hf2. lia. }
      assert (Hvj : <[j := v]> vs !! j = vsf !! i).
      { rewrite list_lookup_insert_eq by assumption. congruence. }
      assert (Hm : matched i j) by (exists f1, f2; auto).
      exists s', vs'. split; [exact Hrun|]. split; [exact Hg'|].
      split; [exact Hp'|]. repeat split.
      * intros j0. destruct (Hor j0) as [H|H]; [|auto].
        destruct (decide (j0 = j)) as [->|Hji].
        -- right. exists i. split; [exact Hm|]. rewrite H. exact Hvj.
        -- left. rewrite H. apply list_lookup_insert_ne. congruence.
      * intros i0 j0 g1 g2 Hg1 Hg2' Hgk Heg Hin.
        apply elem_of_cons in Hin as [Heq|Hin].
        -- injection Heq as _ Hidx _. subst i0.
           assert (g1 = f1) by congruence. subst g1.
           destruct (key_inj fs2 _ _ _ _ Hkeys2 Hg2' Hf2
                       (eq_trans (eq_sym Hgk) Hk)) as [-> _].
           apply (Hst i j Hm). exact Hvj.
        -- eapply Hcp; eauto.
      * intros j0 Hnot.
        assert (Hji : j0 <> j).
        { intros ->. apply (Hnot i f1 f2 Hf1 Hf2 Hk He).
          apply elem_of_cons. auto. }
        rewrite Hkeep.
        -- apply list_lookup_insert_ne. congruence.
        -- intros i0 g1 g2 Hg1 Hg2' Hgk Heg Hin.
           apply (Hnot i0 g1 g2 Hg1 Hg2' Hgk Heg).
           apply elem_of_cons. auto.
      * intros i0 j0 Hm0 Hj0. apply (Hst i0 j0 Hm0).
        destruct (decide (j0 = j)) as [->|Hji].
        -- rewrite (matched_source i0 i j Hm0 Hm). exact Hvj.
        -- rewrite list_lookup_insert_ne by congruence. exact Hj0.
    + destruct (IH s vs Hg Hp HLrest)
        as (s' & vs' & Hrun & Hg' & Hp' & Hor & Hcp & Hkeep & Hst).
      exists s', vs'. split; [exact Hrun|]. split; [exact Hg'|].
      split; [exact Hp'|]. repeat split; try assumption.
      * intros i0 j0 g1 g2 Hg1 Hg2' Hgk Heg Hin.
        apply elem_of_cons in Hin as [Heq|Hin].
        -- injection Heq as Hkk _ _. exfalso.
           rewrite <- Hkk, Hgk, (toFields_exported j0 g2 Hg2' Heg) in Hto.
           discriminate.
        -- eapply Hcp; eauto.
      * intros j0 Hnot. apply Hkeep. intros i0 g1 g2 Hg1 Hg2' Hgk Heg Hin.
        apply (Hnot i0 g1 g2 Hg1 Hg2' Hgk Heg). apply elem_of_cons. auto.
Qed.

Lemma replay_run rec b : forall plan s vs,
  good b s vs -> plan_ok plan ->
  exists s' vs',
    V2.mapKnownStruct rec plan from to s = (s', Ok None)
    /\ good b s' vs' /\ s_mapper s' = s_mapper s
    /\ (forall j, vs' !! j = vs !! j
                  \/ exists i, matched i j /\ vs' !! j = vsf !! i).
Proof.
  induction plan as [|e plan IH]; intros s vs Hg Hp.
  - exists s, vs. cbn [V2.mapKnownStruct]. auto.
  - apply Forall_cons in Hp as [(Hm & f1 & f2 & Hf1 & Hf2 & Hk & He) Hp].
    assert (Hi : fromIndex e < length vsf).
    { apply lookup_lt_Some in Hf1. lia. }
    destruct (lookup_lt_is_Some_2 vsf _ Hi) as [v Hv].
    cbn [V2.mapKnownStruct]. rewrite Hm.
    rewrite (bind_Ok _ _ _ _ _ (Field_from_run s _ f1 Hf1)).
    rewrite (bind_Ok _ _ _ _ _ (Field_to_run s _ f2 Hf2)).
    cbn [V2.strats].
    rewrite (bind_Ok _ _ _ _ _ (copy_run b s vs _ _ f1 f2 v
                                  Hg Hf1 Hf2 Hk He Hv)).
    cbn iota.
    destruct (IH _ _ (good_set_field b s vs (toIndex e) v Hg) Hp)
      as (s' & vs' & Hrun & Hg' & Hmap & Hor).
    exists s', vs'. split; [exact Hrun|]. split; [exact Hg'|].
    split; [exact Hmap|]. intros j. destruct (Hor j) as [H|H]; [|auto].
    destruct (decide (j = toIndex e)) as [->|Hj].
    + right. exists (fromIndex e). split; [exists f1, f2; auto|].
      rewrite H, list_lookup_insert_eq; [congruence|].
      destruct Hg as (_ & _ & Hl & _). apply lookup_lt_Some in Hf2. lia.
    + left. rewrite H. apply list_lookup_insert_ne. congruence.
Qed.

Local Abbreviation shapes :=
  {| smi_from := TStruct n1 fs1; smi_to := TStruct n2 fs2 |}.

Section With_range.
Variable range_order :
  list (string * V2.fieldInfo) -> list (string * V2.fieldInfo).
Hypothesis Hperm : forall l, range_order l ≡ₚ l.

Lemma mapStructs_same_shape fuel s vst :
  good false s vst ->
  (forall plan,
      knownMappings_lookup shapes (knownMappings (s_mapper s)) = Some plan ->
      plan_ok plan) ->
  exists s' vs',
    V2.mapStructs range_order (S fuel) from to s = (s', Ok None)
    /\ good false s' vs' /\ planned shapes s'
    /\ (forall i j f1 f2 v,
          fs1 !! i = Some f1 -> fs2 !! j = Some f2 ->
          V2.field_key f1 = V2.field_key f2 ->
          vsf !! i = Some v -> is_zero v = false ->
          is_exported (Name f2) = true ->
          vs' !! j = Some v)
    /\ (forall j, vs' !! j = vst !! j
                  \/ exists i, matched i j /\ vs' !! j = vsf !! i)
    /\ (knownMappings_lookup shapes (knownMappings (s_mapper s)) = None ->
        forall j f2, fs2 !! j = Some f2 ->
          (forall i f1 v, fs1 !! i = Some f1 ->
             V2.field_key f1 = V2.field_key f2 ->
             vsf !! i = Some v -> is_zero v = true)
          \/ is_exported (Name f2) = false ->
          vs' !! j = vst !! j).
Proof.
  intros Hg Hplans.
  pose (s1 := {| s_heap := s_heap s;
                 s_mapper := {| mu := true;
                                converters := converters (s_mapper s);
                                knownMappings := knownMappings (s_mapper s) |} |}).
  assert (Hg1 : good true s1 vst).
  { destruct Hg as (Hf & Ht & Hl & Hm & Hc). repeat split; assumption. }
  assert (Hlock : Lock s = (s1, Ok ())).
  { unfold Lock, bind, get_mapper, put_mapper.
    destruct Hg as (_ & _ & _ & Hm & _). rewrite Hm. reflexivity. }
  assert (Hreplay : exists s2 vs2,
    (match knownMappings_lookup shapes (knownMappings (s_mapper s1)) with
     | Some knownMapping =>
         V2.mapKnownStruct (V2.mapStructs range_order fuel) knownMapping from to
     | None => ret None
     end) s1 = (s2, Ok None)
    /\ good true s2 vs2 /\ s_mapper s2 = s_mapper s1
    /\ (forall j, vs2 !! j = vst !! j
                  \/ exists i, matched i j /\ vs2 !! j = vsf !! i)
    /\ (knownMappings_lookup shapes (knownMappings (s_mapper s)) = None ->
        vs2 = vst)).
  { cbn [s1 s_mapper knownMappings].
    destruct (knownMappings_lookup shapes (knownMappings (s_mapper s)))
      as [plan|] eqn:Hl.
    - destruct (replay_run (V2.mapStructs range_order fuel) true plan s1 vst
                  Hg1 (Hplans plan eq_refl))
        as (s2 & vs2 & Hrun & Hg2 & Hm2 & Hor).
      exists s2, vs2. split; [exact Hrun|]. split; [exact Hg2|].
      split; [exact Hm2|]. split; [exact Hor|]. intros [=].
    - exists s1, vst. split; [reflexivity|]. split; [exact Hg1|].
      split; [reflexivity|]. split; [auto|]. reflexivity. }
  destruct Hreplay as (s2 & vs2 & Hrun2 & Hg2 & Hm2 & Hor2 & Hnone).
  pose (s4 := {| s_heap := s_heap s2;
                 s_mapper :=
                   {| mu := false; converters := converters (s_mapper s2);
                      knownMappings :=
                        V2.knownMappings_insert shapes []
                          (knownMappings (s_mapper s2)) |} |}).
  assert (Hg4 : good false s4 vs2).
  { destruct Hg2 as (Hf & Ht & Hl & Hm & Hc). repeat split; assumption. }
  assert (Hp4 : planned shapes s4).
  { exists []. split; [apply knownMappings_lookup_insert|constructor]. }
  assert (Hunlock :
    (do V2.knownMappings_reset shapes then Unlock) s2 = (s4, Ok ())).
  { unfold V2.knownMappings_reset, Unlock, bind, get_mapper, put_mapper.
    cbn [s_mapper mu]. destruct Hg2 as (_ & _ & _ & Hm & _). rewrite Hm.
    reflexivity. }
  assert (HL : source_entries (range_order (map_to_list fromFields))).
  { intros k fi Hin. rewrite Hperm in Hin.
    apply elem_of_map_to_list in Hin. apply fromFields_lookup. exact Hin. }
  destruct (range_run (V2.mapStructs range_order fuel) shapes _ s4 vs2
              Hg4 Hp4 HL)
    as (s' & vs' & Hrun & Hg' & Hp' & Hor & Hcp & Hkeep & Hst).
  exists s', vs'. split.
  - cbn [V2.mapStructs Value_IsValid negb].
    rewrite (bind_Ok _ _ _ _ _ Hlock).
    unfold bind at 1. cbn [Value_Type ret].
    unfold bind at 1. cbn [Value_Type ret].
    unfold bind at 1. cbn [get_mapper].
    rewrite (bind_Ok _ _ _ _ _ Hrun2). cbn iota.
    unfold bind in Hunlock. unfold bind at 1 2.
    destruct (V2.knownMappings_reset shapes s2) as [s3 [u| | |]];
      try discriminate.
    rewrite Hunlock.
    rewrite (bind_Ok _ _ _ _ _ (getFieldInfo_run false s4 vs2 Hg4)).
    exact Hrun.
  - split; [exact Hg'|]. split; [exact Hp'|]. repeat split.
    + intros i j f1 f2 v Hf1 Hf2 Hk Hv Hz He. rewrite <- Hv.
      apply (Hcp i j f1 f2 Hf1 Hf2 Hk He).
      rewrite Hperm. apply elem_of_map_to_list.
      eapply fromFields_nonzero; eauto.
    + intros j. destruct (Hor j) as [H|H]; [|auto].
      rewrite H. apply Hor2.
    + intros Hno j f2 Hf2 Hzu. rewrite (Hnone Hno) in *.
      apply Hkeep. intros i g1 g2 Hgf1 Hgf2 Hgk Heg Hin.
      assert (g2 = f2) by congruence. subst g2.
      rewrite Hperm in Hin. apply elem_of_map_to_list in Hin.
      apply fromFields_lookup in Hin
        as (i' & g' & w & Hgi & Hw & Hzw & Hk' & Hentry).
      injection Hentry as Hidx _ _. subst i'.
      assert (g' = g1) by congruence. subst g'.
      destruct Hzu as [Hzero|Hunexp]; [|congruence].
      rewrite (Hzero i g1 w Hgf1 Hgk Hw) in Hzw. discriminate.
Qed.
End With_range.

(** **** The earlier revision: fields are matched by name *)

Hypothesis Hnames1 : NoDup (Name <$> fs1).
Hypothesis Hnames2 : NoDup (Name <$> fs2).
Hypothesis Hshape1 : forall i j f1 f2,
  fs1 !! i = Some f1 -> fs2 !! j = Some f2 ->
  Name f1 = Name f2 -> FType f1 = FType f2.

Definition from_entry1 (i : nat) (f : StructField type) : V1.fieldInfo :=
  {| V1.tp := FType f; V1.val := V2.val (from_entry i f) |}.

Definition to_entry1 (j : nat) (f : StructField type) : V1.fieldInfo :=
  {| V1.tp := FType f; V1.val := V2.val (to_entry j f) |}.

(** The source field [i] and the destination field [j] have the same
    name. *)
Definition matched1 (i j : nat) : Prop :=
  exists f1 f2, fs1 !! i = Some f1 /\ fs2 !! j = Some f2
                /\ Name f1 = Name f2.

Definition from_step1 (acc : gmap string V1.fieldInfo) (i : nat)
  : gmap string V1.fieldInfo :=
  match fs1 !! i, vsf !! i with
  | Some f, Some v =>
      if is_zero v then acc else <[Name f := from_entry1 i f]> acc
  | _, _ => acc
  end.

Definition to_step1 (acc : gmap string V1.fieldInfo) (j : nat)
  : gmap string V1.fieldInfo :=
  match fs2 !! j with
  | Some f =>
      if is_exported (Name f) then <[Name f := to_entry1 j f]> acc else acc
  | None => acc
  end.

Lemma fromFields_loop_run b s vs :
  good b s vs ->
  forall ixs acc,
    (forall i, i ∈ ixs -> i < length fs1) ->
    V1.fromFields_loop from ixs acc s = (s, Ok (foldl from_step1 acc ixs)).
Proof.
  intros Hg. induction ixs as [|i ixs IH]; intros acc Hix; [reflexivity|].
  assert (Hi : i < length fs1) by (apply Hix; apply elem_of_cons; auto).
  destruct (lookup_lt_is_Some_2 fs1 i Hi) as [f Hf].
  destruct (lookup_lt_is_Some_2 vsf i ltac:(lia)) as [v Hv].
  cbn [V1.fromFields_loop foldl].
  rewrite (bind_Ok _ _ _ _ _ (Field_from_run s i f Hf)).
  rewrite (bind_Ok _ _ _ _ _ (IsZero_from_run b s vs i f v Hg Hv)).
  unfold from_step1 at 2. rewrite Hf, Hv.
  destruct (is_zero v) eqn:Hz.
  - unfold bind at 1. cbn [ret].
    apply IH. intros j Hj. apply Hix. apply elem_of_cons. auto.
  - destruct (Kind_eqb (Value_Kind (V2.val (from_entry i f))) KPtr) eqn:Hk.
    + rewrite (bind_Ok _ _ _ _ _ (IsNil_from_run b s vs i f v Hg Hv Hz Hk)).
      rewrite (bind_Ok _ _ _ _ _ (Field_from_run s i f Hf)).
      unfold bind at 1. cbn [Value_Type ret].
      unfold bind at 1. unfold Type_Field, lift_option. rewrite Hf. cbn [ret].
      apply IH. intros j Hj. apply Hix. apply elem_of_cons. auto.
    + unfold bind at 1. cbn [ret].
      rewrite (bind_Ok _ _ _ _ _ (Field_from_run s i f Hf)).
      unfold bind at 1. cbn [Value_Type ret].
      unfold bind at 1. unfold Type_Field, lift_option. rewrite Hf. cbn [ret].
      apply IH. intros j Hj. apply Hix. apply elem_of_cons. auto.
Qed.

Lemma toFields_loop_run s :
  forall ixs acc,
    (forall j, j ∈ ixs -> j < length fs2) ->
    V1.toFields_loop to ixs acc s = (s, Ok (foldl to_step1 acc ixs)).
Proof.
  induction ixs as [|i ixs IH]; intros acc Hix; [reflexivity|].
  assert (Hi : i < length fs2) by (apply Hix; apply elem_of_cons; auto).
  destruct (lookup_lt_is_Some_2 fs2 i Hi) as [f Hf].
  cbn [V1.toFields_loop foldl].
  rewrite (bind_Ok _ _ _ _ _ (Field_to_run s i f Hf)).
  unfold to_step1 at 2. rewrite Hf. unfold to_entry at 1.
  cbn [V2.val Value_CanSet]. rewrite negb_involutive.
  destruct (is_exported (Name f)) eqn:He; cbn [negb].
  - rewrite (bind_Ok _ _ _ _ _ (Field_to_run s i f Hf)).
    unfold bind at 1. cbn [Value_Type ret].
    unfold bind at 1. unfold Type_Field, lift_option. rewrite Hf. cbn [ret].
    apply IH. intros j Hj. apply Hix. apply elem_of_cons. auto.
  - apply IH. intros j Hj. apply Hix. apply elem_of_cons. auto.
Qed.

Lemma name_inj (fs : list (StructField type)) i j f g :
  NoDup (Name <$> fs) ->
  fs !! i = Some f -> fs !! j = Some g ->
  Name f = Name g -> i = j /\ f = g.
Proof.
  intros Hnames Hi Hj Hk.
  assert (i = j).
  { eapply (NoDup_lookup _ i j (Name f) Hnames);
      rewrite list_lookup_fmap; [rewrite Hi|rewrite Hj, Hk]; reflexivity. }
  subst j. split; [reflexivity|congruence].
Qed.

Lemma matched1_source i i' j : matched1 i j -> matched1 i' j -> i = i'.
Proof.
  intros (f1 & f2 & H1 & H2 & Hk) (g1 & g2 & G1 & G2 & Gk).
  assert (g2 = f2) by congruence. subst g2.
  exact (proj1 (name_inj fs1 _ _ _ _ Hnames1 H1 G1
                  (eq_trans Hk (eq_sym Gk)))).
Qed.

Lemma from_sound1 ixs : forall acc k fi,
  foldl from_step1 acc ixs !! k = Some fi ->
  acc !! k = Some fi
  \/ exists i f v, fs1 !! i = Some f /\ vsf !! i = Some v
                   /\ is_zero v = false /\ k = Name f
                   /\ fi = from_entry1 i f.
Proof.
  induction ixs as [|j ixs IH]; intros acc k fi H; [left; exact H|].
  cbn [foldl] in H. apply IH in H as [H|H]; [|right; exact H].
  unfold from_step1 in H.
  destruct (fs1 !! j) as [f|] eqn:Hf; [|left; exact H].
  destruct (vsf !! j) as [v|] eqn:Hv; [|left; exact H].
  destruct (is_zero v) eqn:Hz; [left; exact H|].
  destruct (decide (Name f = k)) as [<-|Hk].
  - rewrite lookup_insert_eq in H. injection H as <-.
    right. exists j, f, v. auto.
  - rewrite lookup_insert_ne in H by assumption. left. exact H.
Qed.

Lemma from_stable1 ixs : forall acc i f,
  fs1 !! i = Some f ->
  acc !! Name f = Some (from_entry1 i f) ->
  foldl from_step1 acc ixs !! Name f = Some (from_entry1 i f).
Proof.
  induction ixs as [|j ixs IH]; intros acc i f Hf H; [exact H|].
  cbn [foldl]. apply IH; [assumption|]. unfold from_step1.
  destruct (fs1 !! j) as [g|] eqn:Hg; [|exact H].
  destruct (vsf !! j) as [v|] eqn:Hv; [|exact H].
  destruct (is_zero v) eqn:Hz; [exact H|].
  destruct (decide (Name g = Name f)) as [Hk|Hk].
  - destruct (name_inj fs1 _ _ _ _ Hnames1 Hg Hf Hk) as [-> ->].
    rewrite lookup_insert_eq. reflexivity.
  - rewrite lookup_insert_ne by assumption. exact H.
Qed.

Lemma from_complete1 ixs : forall acc i f v,
  i ∈ ixs -> fs1 !! i = Some f -> vsf !! i = Some v -> is_zero v = false ->
  foldl from_step1 acc ixs !! Name f = Some (from_entry1 i f).
Proof.
  induction ixs as [|j ixs IH]; intros acc i f v Hin Hf Hv Hz.
  - apply elem_of_nil in Hin. contradiction.
  - cbn [foldl]. apply elem_of_cons in Hin as [->|Hin]; [|eapply IH; eauto].
    apply from_stable1; [assumption|]. unfold from_step1.
    rewrite Hf, Hv, Hz. apply lookup_insert_eq.
Qed.

Lemma to_sound1 ixs : forall acc k ti,
  foldl to_step1 acc ixs !! k = Some ti ->
  acc !! k = Some ti
  \/ exists j f, fs2 !! j = Some f /\ is_exported (Name f) = true
                 /\ k = Name f /\ ti = to_entry1 j f.
Proof.
  induction ixs as [|j ixs IH]; intros acc k ti H; [left; exact H|].
  cbn [foldl] in H. apply IH in H as [H|H]; [|right; exact H].
  unfold to_step1 in H.
  destruct (fs2 !! j) as [f|] eqn:Hf; [|left; exact H].
  destruct (is_exported (Name f)) eqn:He; [|left; exact H].
  destruct (decide (Name f = k)) as [<-|Hk].
  - rewrite lookup_insert_eq in H. injection H as <-.
    right. exists j, f. auto.
  - rewrite lookup_insert_ne in H by assumption. left. exact H.
Qed.

Lemma to_stable1 ixs : forall acc j f,
  fs2 !! j = Some f ->
  acc !! Name f = Some (to_entry1 j f) ->
  foldl to_step1 acc ixs !! Name f = Some (to_entry1 j f).
Proof.
  induction ixs as [|k ixs IH]; intros acc j f Hf H; [exact H|].
  cbn [foldl]. apply IH; [assumption|]. unfold to_step1.
  destruct (fs2 !! k) as [g|] eqn:Hg; [|exact H].
  destruct (is_exported (Name g)) eqn:He; [|exact H].
  destruct (decide (Name g = Name f)) as [Hk|Hk].
  - destruct (name_inj fs2 _ _ _ _ Hnames2 Hg Hf Hk) as [-> ->].
    rewrite lookup_insert_eq. reflexivity.
  - rewrite lookup_insert_ne by assumption. exact H.
Qed.

Lemma to_complete1 ixs : forall acc j f,
  j ∈ ixs -> fs2 !! j = Some f -> is_exported (Name f) = true ->
  foldl to_step1 acc ixs !! Name f = Some (to_entry1 j f).
Proof.
  induction ixs as [|k ixs IH]; intros acc j f Hin Hf He.
  - apply elem_of_nil in Hin. contradiction.
  - cbn [foldl]. apply elem_of_cons in Hin as [->|Hin]; [|eapply IH; eauto].
    apply to_stable1; [assumption|]. unfold to_step1.
    rewrite Hf, He. apply lookup_insert_eq.
Qed.

Definition fromFields1 : gmap string V1.fieldInfo :=
  foldl from_step1 ∅ (seq 0 (length fs1)).
Definition toFields1 : gmap string V1.fieldInfo :=
  foldl to_step1 ∅ (seq 0 (length fs2)).

Lemma toFields1_lookup k ti :
  toFields1 !! k = Some ti ->
  exists j f, fs2 !! j = Some f /\ is_exported (Name f) = true
              /\ k = Name f /\ ti = to_entry1 j f.
Proof.
  intros H. apply to_sound1 in H as [H|H]; [|exact H].
  rewrite lookup_empty in H. discriminate.
Qed.

Lemma toFields1_exported j f :
  fs2 !! j = Some f -> is_exported (Name f) = true ->
  toFields1 !! Name f = Some (to_entry1 j f).
Proof.
  intros Hf He. eapply to_complete1; eauto.
  apply elem_of_seq. apply lookup_lt_Some in Hf. lia.
Qed.

Lemma fromFields1_lookup k fi :
  fromFields1 !! k = Some fi ->
  exists i f v, fs1 !! i = Some f /\ vsf !! i = Some v
                /\ is_zero v = false /\ k = Name f
                /\ fi = from_entry1 i f.
Proof.
  intros H. apply from_sound1 in H as [H|H]; [|exact H].
  rewrite lookup_empty in H. discriminate.
Qed.

Lemma fromFields1_nonzero i f v :
  fs1 !! i = Some f -> vsf !! i = Some v -> is_zero v = false ->
  fromFields1 !! Name f = Some (from_entry1 i f).
Proof.
  intros Hf Hv Hz. eapply from_complete1; eauto.
  apply elem_of_seq. apply lookup_lt_Some in Hf. lia.
Qed.

(** One turn of the loop for a pair of fields with the same name: the
    value is copied and the loop goes on. *)
Lemma turn_run1 rec b s vs i j f1 f2 v :
  good b s vs -> fs1 !! i = Some f1 -> fs2 !! j = Some f2 ->
  Name f1 = Name f2 -> is_exported (Name f2) = true ->
  vsf !! i = Some v ->
  V1.mapStructs_turn rec toFields1 (Name f1) (from_entry1 i f1) s
  = (set_field s vs j v, Ok (inr tt)).
Proof.
  intros Hg Hf1 Hf2 Hname He Hv.
  pose proof (Hshape1 i j f1 f2 Hf1 Hf2 Hname) as Htype.
  unfold V1.mapStructs_turn. rewrite Hname, (toFields1_exported j f2 Hf2 He).
  unfold bind at 1. cbn [to_entry1 to_entry V1.val V2.val Value_Type ret].
  unfold bind at 1. cbn [get_mapper].
  destruct Hg as (Hgf & Hgt & Hgl & Hgm & Hgc). rewrite Hgc.
  cbn [from_entry1 V1.tp]. rewrite Htype.
  rewrite (Hconv f1 (list_elem_of_lookup_2 _ _ _ Hf1)) || idtac.
  assert (Hc : converters_lookup
                 {| ci_from := FType f2; ci_to := FType f2 |} convs = None).
  { rewrite <- Htype. exact (Hconv f1 (list_elem_of_lookup_2 _ _ _ Hf1)). }
  rewrite Hc. unfold bind at 1. cbn [ret].
  assert (Hdet : V1.detectMappingType (from_entry1 i f1) (to_entry1 j f2) s
                 = (s, Ok sameTypes)).
  { unfold V1.detectMappingType, bind, Value_Type, ret.
    cbn [from_entry1 to_entry1 from_entry to_entry V1.val V2.val].
    rewrite Htype, type_eqb_refl. reflexivity. }
  rewrite (bind_Ok _ _ _ _ _ Hdet).
  cbn [supportedType_eqb negb V1.strats].
  assert (Hcopy : V1.mapSameTypesFunc (from_entry1 i f1) (to_entry1 j f2) s
                  = (set_field s vs j v, Ok None)).
  { exact (copy_vals_run b s vs i j f1 f2 v
             (conj Hgf (conj Hgt (conj Hgl (conj Hgm Hgc)))) Hf2
             ltac:(rewrite Hname; exact He) He Htype Hv). }
  rewrite (bind_Ok _ _ _ _ _ Hcopy). reflexivity.
Qed.

Definition source_entries1 (L : list (string * V1.fieldInfo)) : Prop :=
  forall k fi, (k, fi) ∈ L ->
    exists i f v, fs1 !! i = Some f /\ vsf !! i = Some v
                  /\ is_zero v = false /\ k = Name f
                  /\ fi = from_entry1 i f.

Lemma from_entry1_index i i' f f' :
  from_entry1 i f = from_entry1 i' f' -> i = i'.
Proof.
  intros H.
  apply (f_equal (fun e => match V1.val e with
                           | Val _ (Addr _ [k]) _ => k
                           | _ => 0
                           end)) in H.
  exact H.
Qed.

Lemma range_run1 rec b : forall L s vs,
  good b s vs -> source_entries1 L ->
  exists s' vs',
    V1.mapStructs_range rec toFields1 L s = (s', Ok None)
    /\ good b s' vs' /\ s_mapper s' = s_mapper s
    /\ (forall j, vs' !! j = vs !! j
                  \/ exists i, matched1 i j /\ vs' !! j = vsf !! i)
    /\ (forall i j f1 f2,
          fs1 !! i = Some f1 -> fs2 !! j = Some f2 ->
          Name f1 = Name f2 -> is_exported (Name f2) = true ->
          (Name f1, from_entry1 i f1) ∈ L -> vs' !! j = vsf !! i)
    /\ (forall j,
          (forall i f1 f2,
             fs1 !! i = Some f1 -> fs2 !! j = Some f2 ->
             Name f1 = Name f2 -> is_exported (Name f2) = true ->
             (Name f1, from_entry1 i f1) ∉ L) ->
          vs' !! j = vs !! j)
    /\ (forall i j, matched1 i j -> vs !! j = vsf !! i -> vs' !! j = vsf !! i).
Proof.
  induction L as [|[k fi] rest IH]; intros s vs Hg HL.
  - exists s, vs. cbn [V1.mapStructs_range].
    split; [reflexivity|]. split; [exact Hg|]. split; [reflexivity|].
    split; [auto|]. split; [|auto].
    intros i j f1 f2 _ _ _ _ Hin. apply elem_of_nil in Hin. contradiction.
  - destruct (HL k fi ltac:(apply elem_of_cons; auto))
      as (i & f1 & v & Hf1 & Hv & Hz & -> & ->).
    assert (HLrest : source_entries1 rest).
    { intros k' fi' Hin. apply HL. apply elem_of_cons. auto. }
    cbn [V1.mapStructs_range].
    destruct (toFields1 !! Name f1) as [ti|] eqn:Hto.
    + apply toFields1_lookup in Hto as Hto'.
      destruct Hto' as (j & f2 & Hf2 & He & Hk & ->).
      rewrite (bind_Ok _ _ _ _ _ (turn_run1 rec b s vs i j f1 f2 v
                                    Hg Hf1 Hf2 Hk He Hv)).
      cbn iota.
      assert (Hg2 : good b (set_field s vs j v) (<[j := v]> vs)).
      { apply good_set_field. exact Hg. }
      destruct (IH _ _ Hg2 HLrest)
        as (s' & vs' & Hrun & Hg' & Hm' & Hor & Hcp & Hkeep & Hst).
      assert (Hj : j < length vs).
      { destruct Hg as (_ & _ & Hl & _). apply lookup_lt_Some in Hf2. lia. }
      assert (Hvj : <[j := v]> vs !! j = vsf !! i).
      { rewrite list_lookup_insert_eq by assumption. congruence. }
      assert (Hm : matched1 i j) by (exists f1, f2; auto).
      exists s', vs'. split; [exact Hrun|]. split; [exact Hg'|].
      split; [exact Hm'|]. repeat split.
      * intros j0. destruct (Hor j0) as [H|H]; [|auto].
        destruct (decide (j0 = j)) as [->|Hji].
        -- right. exists i. split; [exact Hm|]. rewrite H. exact Hvj.
        -- left. rewrite H. apply list_lookup_insert_ne. congruence.
      * intros i0 j0 g1 g2 Hg1 Hg2' Hgk Heg Hin.
        apply elem_of_cons in Hin as [Heq|Hin].
        -- apply (f_equal snd) in Heq. cbn [snd] in Heq.
           apply from_entry1_index in Heq.
           subst i0. assert (g1 = f1) by congruence. subst g1.
           destruct (name_inj fs2 _ _ _ _ Hnames2 Hg2' Hf2
                       (eq_trans (eq_sym Hgk) Hk)) as [-> _].
           apply (Hst i j Hm). exact Hvj.
        -- eapply Hcp; eauto.
      * intros j0 Hnot.
        assert (Hji : j0 <> j).
        { intros ->. apply (Hnot i f1 f2 Hf1 Hf2 Hk He).
          apply elem_of_cons. auto. }
        rewrite Hkeep.
        -- apply list_lookup_insert_ne. congruence.
        -- intros i0 g1 g2 Hg1 Hg2' Hgk Heg Hin.
           apply (Hnot i0 g1 g2 Hg1 Hg2' Hgk Heg).
           apply elem_of_cons. auto.
      * intros i0 j0 Hm0 Hj0. apply (Hst i0 j0 Hm0).
        destruct (decide (j0 = j)) as [->|Hji].
        -- rewrite (matched1_source i0 i j Hm0 Hm). exact Hvj.
        -- rewrite list_lookup_insert_ne by congruence. exact Hj0.
    + assert (Hturn : V1.mapStructs_turn rec toFields1 (Name f1)
                        (from_entry1 i f1) s = (s, Ok (inr tt))).
      { unfold V1.mapStructs_turn. rewrite Hto. reflexivity. }
      rewrite (bind_Ok _ _ _ _ _ Hturn). cbn iota.
      destruct (IH s vs Hg HLrest)
        as (s' & vs' & Hrun & Hg' & Hm' & Hor & Hcp & Hkeep & Hst).
      exists s', vs'. split; [exact Hrun|]. split; [exact Hg'|].
      split; [exact Hm'|]. repeat split; try assumption.
      * intros i0 j0 g1 g2 Hg1 Hg2' Hgk Heg Hin.
        apply elem_of_cons in Hin as [Heq|Hin].
        -- apply (f_equal fst) in Heq. cbn [fst] in Heq. exfalso.
           rewrite <- Heq, Hgk, (toFields1_exported j0 g2 Hg2' Heg) in Hto.
           discriminate.
        -- eapply Hcp; eauto.
      * intros j0 Hnot. apply Hkeep. intros i0 g1 g2 Hg1 Hg2' Hgk Heg Hin.
        apply (Hnot i0 g1 g2 Hg1 Hg2' Hgk Heg). apply elem_of_cons. auto.
Qed.

Section With_range1.
Variable range_order1 :
  list (string * V1.fieldInfo) -> list (string * V1.fieldInfo).
Hypothesis Hperm1 : forall l, range_order1 l ≡ₚ l.

Lemma V1_mapStructs_same_shape fuel b s vst :
  good b s vst ->
  exists s' vs',
    V1.mapStructs range_order1 (S fuel) from to s = (s', Ok None)
    /\ good b s' vs' /\ s_mapper s' = s_mapper s
    /\ (forall i j f1 f2 v,
          fs1 !! i = Some f1 -> fs2 !! j = Some f2 ->
          Name f1 = Name f2 ->
          vsf !! i = Some v -> is_zero v = false ->
          is_exported (Name f2) = true ->
          vs' !! j = Some v)
    /\ (forall j, vs' !! j = vst !! j
                  \/ exists i, matched1 i j /\ vs' !! j = vsf !! i)
    /\ (forall j f2, fs2 !! j = Some f2 ->
          (forall i f1 v, fs1 !! i = Some f1 -> Name f1 = Name f2 ->
             vsf !! i = Some v -> is_zero v = true)
          \/ is_exported (Name f2) = false ->
          vs' !! j = vst !! j).
Proof.
  intros Hg.
  assert (HL : source_entries1 (range_order1 (map_to_list fromFields1))).
  { intros k fi Hin. rewrite Hperm1 in Hin.
    apply elem_of_map_to_list in Hin. apply fromFields1_lookup. exact Hin. }
  destruct (range_run1 (V1.mapStructs range_order1 fuel) b _ s vst Hg HL)
    as (s' & vs' & Hrun & Hg' & Hm' & Hor & Hcp & Hkeep & Hst).
  exists s', vs'. split.
  - cbn [V1.mapStructs Value_IsValid negb].
    unfold bind at 1. cbn [Value_NumField ret].
    rewrite (bind_Ok _ _ _ _ _
               (fromFields_loop_run b s vst Hg (seq 0 (length fs1)) ∅
                  ltac:(intros i Hi; apply elem_of_seq in Hi; lia))).
    unfold bind at 1. cbn [Value_NumField ret].
    rewrite (bind_Ok _ _ _ _ _
               (toFields_loop_run s (seq 0 (length fs2)) ∅
                  ltac:(intros i Hi; apply elem_of_seq in Hi; lia))).
    exact Hrun.
  - split; [exact Hg'|]. split; [exact Hm'|]. repeat split.
    + intros i j f1 f2 v Hf1 Hf2 Hk Hv Hz He. rewrite <- Hv.
      apply (Hcp i j f1 f2 Hf1 Hf2 Hk He).
      rewrite Hperm1. apply elem_of_map_to_list.
      eapply fromFields1_nonzero; eauto.
    + exact Hor.
    + intros j f2 Hf2 Hzu.
      apply Hkeep. intros i g1 g2 Hgf1 Hgf2 Hgk Heg Hin.
      assert (g2 = f2) by congruence. subst g2.
      rewrite Hperm1 in Hin. apply elem_of_map_to_list in Hin.
      apply fromFields1_lookup in Hin
        as (i' & g' & w & Hgi & Hw & Hzw & Hk' & Hentry).
      apply from_entry1_index in Hentry. subst i'.
      assert (g' = g1) by congruence. subst g'.
      destruct Hzu as [Hzero|Hunexp]; [|congruence].
      rewrite (Hzero i g1 w Hgf1 Hgk Hw) in Hzw. discriminate.
Qed.
End With_range1.
End Same_shape.

(** Two structs with the same fields, in any order, and distinct keys
    are of the shape required below. *)
Lemma same_fields_shape (fs1 fs2 : list (StructField type)) :
  fs2 ≡ₚ fs1 ->
  NoDup (V2.field_key <$> fs1) ->
  NoDup (V2.field_key <$> fs2)
  /\ (forall i j f1 f2,
        fs1 !! i = Some f1 -> fs2 !! j = Some f2 ->
        V2.field_key f1 = V2.field_key f2 ->
        FType f1 = FType f2
        /\ (is_exported (Name f2) = true -> is_exported (Name f1) = true)).
Proof.
  intros Hp Hnd. split; [rewrite Hp; exact Hnd|].
  intros i j f1 f2 Hf1 Hf2 Hk.
  apply list_elem_of_lookup_2 in Hf2. rewrite Hp in Hf2.
  apply list_elem_of_lookup_1 in Hf2 as [i' Hf2].
  destruct (key_inj fs1 _ _ _ _ Hnd Hf1 Hf2 Hk) as [_ ->]. auto.
Qed.

(** C1, counterexample: two records with the field [secret int], which is
    not exported.  [Map] returns nil and does not copy the non-zero source
    field: the destination's field cannot be set and is left out by the
    matcher. *)
Lemma C1_unexported_field_not_copied :
  V2.Map range_in_order
    (ptr_to (TStruct "Hidden1" [field "secret" TInt]) 0)
    (ptr_to (TStruct "Hidden2" [field "secret" TInt]) 1)
    {| s_heap := [VStruct [VInt 7]; VStruct [VInt 0]]; s_mapper := New |}
  = ({| s_heap := [VStruct [VInt 7]; VStruct [VInt 0]];
        s_mapper :=
          {| mu := false; converters := [];
             knownMappings :=
               [({| smi_from := TStruct "Hidden1" [field "secret" TInt];
                    smi_to := TStruct "Hidden2" [field "secret" TInt] |},
                 [])] |} |},
     Ok None).
Proof. vm_compute. reflexivity. Qed.

(** C1, amended.  Two struct types are given whose match keys (the
    [mapper] tag, else the name) are distinct within each struct, in which
    a source field and a destination field with the same key have the same
    type, the source field being exported when the destination field is, as
    when both structs have the same fields in any order, and whose
    destination field names begin with an ASCII letter or an underscore
    (for such names [is_exported] is Go's rule).
    The mutex of the mapper is free, no converter is registered from the
    type of a source field to itself, and the plan held for the pair, if
    any, is made of copies of a source field into the exported destination
    field with the same key.  Then, in the current revision, [Map] of a
    source struct into another struct returns nil; every source field that
    is not zero is found in the destination field with the same key when
    that field is exported; every destination field holds its former value
    or the value of the source field with its key; the source is unchanged;
    and the plan left behind is again of that form.  When there was no
    plan, a destination field keeps its former value if every source field
    with its key is zero, or there is none, or if it is not exported.  The
    earlier revision, which matches by name and has neither plans nor a
    mutex, does the same for structs whose names are distinct within each
    and whose fields of the same name have the same type. *)
Theorem C1_same_shape_copies_nonzero_exported_fields
    (range_order : list (string * V2.fieldInfo) -> list (string * V2.fieldInfo))
    (fs1 fs2 : list (StructField type)) (n1 n2 : string) (lf lt : nat)
    (vsf vst : list value) (s : state) :
  (forall l, range_order l ≡ₚ l) ->
  lf <> lt ->
  s_heap s !! lf = Some (VStruct vsf) ->
  s_heap s !! lt = Some (VStruct vst) ->
  length vsf = length fs1 ->
  length vst = length fs2 ->
  NoDup (V2.field_key <$> fs1) ->
  NoDup (V2.field_key <$> fs2) ->
  (forall i j f1 f2,
     fs1 !! i = Some f1 -> fs2 !! j = Some f2 ->
     V2.field_key f1 = V2.field_key f2 ->
     FType f1 = FType f2
     /\ (is_exported (Name f2) = true -> is_exported (Name f1) = true)) ->
  (forall f, f ∈ fs2 ->
     is_exported (Name f) = true \/ starts_lower (Name f) = true) ->
  mu (s_mapper s) = false ->
  (forall f, f ∈ fs1 ->
     converters_lookup {| ci_from := FType f; ci_to := FType f |}
       (converters (s_mapper s)) = None) ->
  (forall plan,
     knownMappings_lookup
       {| smi_from := TStruct n1 fs1; smi_to := TStruct n2 fs2 |}
       (knownMappings (s_mapper s)) = Some plan ->
     plan_ok fs1 fs2 plan) ->
  (exists s' vs',
     V2.Map range_order (ptr_to (TStruct n1 fs1) lf)
       (ptr_to (TStruct n2 fs2) lt) s
       = (s', Ok None)
     /\ s_heap s' !! lf = Some (VStruct vsf)
     /\ s_heap s' !! lt = Some (VStruct vs')
     /\ (forall i j f1 f2 v,
           fs1 !! i = Some f1 -> fs2 !! j = Some f2 ->
           V2.field_key f1 = V2.field_key f2 ->
           vsf !! i = Some v -> is_zero v = false ->
           is_exported (Name f2) = true ->
           vs' !! j = Some v)
     /\ (forall j, vs' !! j = vst !! j
                   \/ exists i, matched fs1 fs2 i j /\ vs' !! j = vsf !! i)
     /\ (knownMappings_lookup
           {| smi_from := TStruct n1 fs1; smi_to := TStruct n2 fs2 |}
           (knownMappings (s_mapper s)) = None ->
         forall j f2, fs2 !! j = Some f2 ->
           (forall i f1 v, fs1 !! i = Some f1 ->
              V2.field_key f1 = V2.field_key f2 ->
              vsf !! i = Some v -> is_zero v = true)
           \/ is_exported (Name f2) = false ->
           vs' !! j = vst !! j)
     /\ (exists plan,
           knownMappings_lookup
             {| smi_from := TStruct n1 fs1; smi_to := TStruct n2 fs2 |}
             (knownMappings (s_mapper s')) = Some plan
           /\ plan_ok fs1 fs2 plan))
  /\ (NoDup (Name <$> fs1) ->
      NoDup (Name <$> fs2) ->
      (forall i j f1 f2,
         fs1 !! i = Some f1 -> fs2 !! j = Some f2 ->
         Name f1 = Name f2 -> FType f1 = FType f2) ->
      forall range_order1 : list (string * V1.fieldInfo)
                            -> list (string * V1.fieldInfo),
        (forall l, range_order1 l ≡ₚ l) ->
        exists s1 vs1,
          V1.Map range_order1 (ptr_to (TStruct n1 fs1) lf)
            (ptr_to (TStruct n2 fs2) lt) s
            = (s1, Ok None)
          /\ s_heap s1 !! lf = Some (VStruct vsf)
          /\ s_heap s1 !! lt = Some (VStruct vs1)
          /\ (forall i j f1 f2 v,
                fs1 !! i = Some f1 -> fs2 !! j = Some f2 ->
                Name f1 = Name f2 ->
                vsf !! i = Some v -> is_zero v = false ->
                is_exported (Name f2) = true ->
                vs1 !! j = Some v)
          /\ (forall j, vs1 !! j = vst !! j
                        \/ exists i, matched1 fs1 fs2 i j
                                     /\ vs1 !! j = vsf !! i)
          /\ (forall j f2, fs2 !! j = Some f2 ->
                (forall i f1 v, fs1 !! i = Some f1 ->
                   Name f1 = Name f2 ->
                   vsf !! i = Some v -> is_zero v = true)
                \/ is_exported (Name f2) = false ->
                vs1 !! j = vst !! j)).
Proof.
  intros Hperm Hne Hf Ht Hlf Hlt Hk1 Hk2 Hshape _ Hmu Hconv Hplans.
  assert (Hg : good fs2 lf lt vsf (converters (s_mapper s)) false s vst).
  { repeat split; assumption. }
  split.
  - destruct (mapStructs_same_shape fs1 fs2 n1 n2 lf lt vsf
                (converters (s_mapper s)) Hne Hlf Hk1 Hk2 Hshape Hconv
                range_order Hperm (type_size (TPtr (TStruct n1 fs1))) s vst
                Hg Hplans)
      as (s' & vs' & Hrun & (Hf' & Ht' & _) & Hp' & Ha & Hb & Hc).
    exists s', vs'. split; [|repeat split; assumption].
    unfold V2.Map. cbn -[V2.mapStructs]. exact Hrun.
  - intros Hn1 Hn2 Hshape1 range_order1 Hperm1.
    destruct (V1_mapStructs_same_shape fs1 fs2 n1 n2 lf lt vsf
                (converters (s_mapper s)) Hne Hlf Hconv Hn1 Hn2 Hshape1
                range_order1 Hperm1 (type_size (TPtr (TStruct n1 fs1)))
                false s vst Hg)
      as (s1 & vs1 & Hrun & (Hf' & Ht' & _) & _ & Ha & Hb & Hc).
    exists s1, vs1. split; [|repeat split; assumption].
    unfold V1.Map. cbn -[V1.mapStructs]. exact Hrun.
Qed.

Definition Ordered1 : type :=
  TStruct "Ordered1" [field "A" TInt; field "B" TString].
Definition Ordered2 : type :=
  TStruct "Ordered2" [field "B" TString; field "A" TInt].

(** The same two fields in another order: [Map] of [Ordered1{A: 1, B: "b"}]
    into a zero [Ordered2] copies both, in either revision. *)
Lemma C1_witness :
  (exists s' vs',
     V2.Map range_in_order (ptr_to Ordered1 0) (ptr_to Ordered2 1)
       {| s_heap := [VStruct [VInt 1; VString "b"];
                     VStruct [VString EmptyString; VInt 0]];
          s_mapper := New |}
       = (s', Ok None)
     /\ s_heap s' !! 0%nat = Some (VStruct [VInt 1; VString "b"])
     /\ s_heap s' !! 1%nat = Some (VStruct vs')
     /\ vs' !! 0%nat = Some (VString "b")
     /\ vs' !! 1%nat = Some (VInt 1))
  /\ (exists s1 vs1,
        V1.Map range_in_order (ptr_to Ordered1 0) (ptr_to Ordered2 1)
          {| s_heap := [VStruct [VInt 1; VString "b"];
                        VStruct [VString EmptyString; VInt 0]];
             s_mapper := New |}
          = (s1, Ok None)
        /\ s_heap s1 !! 1%nat = Some (VStruct vs1)
        /\ vs1 !! 0%nat = Some (VString "b")
        /\ vs1 !! 1%nat = Some (VInt 1)).
Proof.
  assert (Hnd : NoDup (V2.field_key <$> [field "A" TInt; field "B" TString])).
  { apply (bool_decide_unpack _). vm_compute. exact I. }
  assert (Hn1 : NoDup (Name <$> [field "A" TInt; field "B" TString])).
  { apply (bool_decide_unpack _). vm_compute. exact I. }
  assert (Hn2 : NoDup (Name <$> [field "B" TString; field "A" TInt])).
  { apply (bool_decide_unpack _). vm_compute. exact I. }
  destruct (same_fields_shape [field "A" TInt; field "B" TString]
              [field "B" TString; field "A" TInt] (perm_swap _ _ _) Hnd)
    as [Hnd2 Hshape].
  destruct (C1_same_shape_copies_nonzero_exported_fields range_in_order
              [field "A" TInt; field "B" TString]
              [field "B" TString; field "A" TInt]
              "Ordered1" "Ordered2" 0 1
              [VInt 1; VString "b"] [VString EmptyString; VInt 0]
              {| s_heap := [VStruct [VInt 1; VString "b"];
                            VStruct [VString EmptyString; VInt 0]];
                 s_mapper := New |})
    as [(s' & vs' & Hrun & Hsrc & Hdst & Hcopy & _) H1].
  - intros l. reflexivity.
  - discriminate.
  - reflexivity.
  - reflexivity.
  - reflexivity.
  - reflexivity.
  - exact Hnd.
  - exact Hnd2.
  - exact Hshape.
  - intros f Hin. left.
    apply elem_of_cons in Hin as [->|Hin]; [reflexivity|].
    apply elem_of_cons in Hin as [->|Hin]; [reflexivity|].
    apply elem_of_nil in Hin. contradiction.
  - reflexivity.
  - intros f _. reflexivity.
  - intros plan Hplan. discriminate Hplan.
  - split.
    + exists s', vs'. split; [exact Hrun|]. split; [exact Hsrc|].
      split; [exact Hdst|]. split.
      * exact (Hcopy 1%nat 0%nat (field "B" TString) (field "B" TString)
                 (VString "b") eq_refl eq_refl eq_refl eq_refl eq_refl
                 eq_refl).
      * exact (Hcopy 0%nat 1%nat (field "A" TInt) (field "A" TInt)
                 (VInt 1) eq_refl eq_refl eq_refl eq_refl eq_refl eq_refl).
    + destruct (H1 Hn1 Hn2) with (range_order1 := @range_in_order V1.fieldInfo)
        as (s1 & vs1 & Hrun1 & _ & Hdst1 & Hcopy1 & _).
      * intros [|[|i]] [|[|j]] f1 f2 Hf1 Hf2 Hname;
          try discriminate Hf1; try discriminate Hf2;
          injection Hf1 as <-; injection Hf2 as <-;
          try reflexivity; discriminate Hname.
      * intros l. reflexivity.
      * exists s1, vs1. split; [exact Hrun1|]. split; [exact Hdst1|]. split.
        -- exact (Hcopy1 1%nat 0%nat (field "B" TString) (field "B" TString)
                    (VString "b") eq_refl eq_refl eq_refl eq_refl eq_refl
                    eq_refl).
        -- exact (Hcopy1 0%nat 1%nat (field "A" TInt) (field "A" TInt)
                    (VInt 1) eq_refl eq_refl eq_refl eq_refl eq_refl eq_refl).
Defined.

(** * Further properties of the package *)

(** ** What a computation returns *)

(** Every value [c] returns satisfies [Q]. *)
Definition yields {A} (c : M A) (Q : A -> Prop) : Prop :=
  forall s s' a, c s = (s', Ok a) -> Q a.

Lemma yields_ret {A} (a : A) (Q : A -> Prop) : Q a -> yields (ret a) Q.
Proof. intros H s s' x [= _ <-]. exact H. Qed.

Lemma yields_panic {A} msg (Q : A -> Prop) : yields (panic msg) Q.
Proof. intros s s' x [=]. Qed.

Lemma yields_Deadlock {A} (Q : A -> Prop) : yields (fun s => (s, Deadlock)) Q.
Proof. intros s s' x [=]. Qed.

Lemma yields_OutOfFuel {A} (Q : A -> Prop) : yields (fun s => (s, OutOfFuel)) Q.
Proof. intros s s' x [=]. Qed.

Lemma yields_bind {A B} (c : M A) (f : A -> M B) (Q : B -> Prop) :
  (forall a, yields (f a) Q) -> yields (bind c f) Q.
Proof.
  intros H s s' b E. apply bind_Ok_inv in E as (s1 & a & _ & E).
  exact (H a _ _ _ E).
Qed.

Lemma yields_bind_post {A B} (c : M A) (f : A -> M B) (P : A -> Prop)
    (Q : B -> Prop) :
  yields c P -> (forall a, P a -> yields (f a) Q) -> yields (bind c f) Q.
Proof.
  intros Hc H s s' b E. apply bind_Ok_inv in E as (s1 & a & Ea & E).
  exact (H a (Hc _ _ _ Ea) _ _ _ E).
Qed.

(** ** The errors [Map] returns *)

(** An error a caller can recognise with [errors.Is] and one of the three
    sentinels of the mapping itself. *)
Definition mapping_error (e : error) : Prop :=
  (errors_Is e ErrMissingConverter = true
   \/ errors_Is e ErrConverter = true
   \/ errors_Is e ErrConverterErrorUnknownType = true)
  /\ errors_Is e ErrNotAPtr = false
  /\ errors_Is e ErrNotAFn = false.

Ltac solve_mapping_error :=
  let e := fresh "e" in
  intros e [= <-]; unfold mapping_error; cbn [errors_Is is_sentinel orb];
  intuition.

Definition errs_ok (r : option error) : Prop :=
  forall e, r = Some e -> mapping_error e.

Lemma errs_ok_None : errs_ok None.
Proof. intros e [=]. Qed.

Lemma errs_ok_setArrayValue e :
  errs_ok (Some e) -> errs_ok (Some (Errorf_setArrayValue e)).
Proof.
  intros H e' [= <-]. specialize (H e eq_refl).
  unfold mapping_error in *. cbn [errors_Is is_sentinel orb]. exact H.
Qed.

Create HintDb ylds discriminated.
#[export] Hint Resolve @yields_panic @yields_Deadlock @yields_OutOfFuel
  errs_ok_None : ylds.

Ltac solve_errs :=
  repeat first
    [ solve [eauto with ylds]
    | apply yields_ret
    | apply yields_bind; intro
    | match goal with
      | |- yields (match ?x with _ => _ end) _ => destruct x eqn:?
      | |- yields (if ?b then _ else _) _ => destruct b eqn:?
      end ].

Section Strategies_errors.
Variable rec : Value -> Value -> M (option error).
Hypothesis Hrec : forall from to, yields (rec from to) errs_ok.
#[local] Hint Resolve Hrec : ylds.

Lemma errs_mapStructsFunc a b : yields (V2.mapStructsFunc rec a b) errs_ok.
Proof.
  unfold V2.mapStructsFunc. apply yields_bind. intros a'.
  apply (yields_bind_post _ _ errs_ok).
  - solve_errs.
  - intros [e|] He; apply yields_ret; [exact He|apply errs_ok_None].
Qed.

Lemma errs_setArrayValue_body a b c i :
  yields (V2.setArrayValue_body rec a b c i) errs_ok.
Proof.
  unfold V2.setArrayValue_body.
  do 5 (apply yields_bind; intro).
  apply (yields_bind_post _ _ errs_ok); [solve_errs|].
  intros e1 He1.
  apply (yields_bind_post _ _ errs_ok).
  { destruct (Kind_eqb _ _); [solve_errs|apply yields_ret; exact He1]. }
  intros [e|] He; [apply yields_ret; exact He|solve_errs].
Qed.

Lemma errs_setArrayValue_loop a b c ixs :
  yields (V2.setArrayValue_loop rec a b c ixs) errs_ok.
Proof.
  induction ixs as [|i ixs IH]; simpl; [solve_errs|].
  apply (yields_bind_post _ _ errs_ok); [apply errs_setArrayValue_body|].
  intros [e|] He; [apply yields_ret; exact He|exact IH].
Qed.

Lemma errs_setArrayValue a b c : yields (V2.setArrayValue rec a b c) errs_ok.
Proof.
  unfold V2.setArrayValue. apply yields_bind. intros n.
  apply errs_setArrayValue_loop.
Qed.

Lemma errs_mapSlicesFunc a b : yields (V2.mapSlicesFunc rec a b) errs_ok.
Proof.
  unfold V2.mapSlicesFunc. do 3 (apply yields_bind; intro).
  apply (yields_bind_post _ _ errs_ok); [apply errs_setArrayValue|].
  intros [e|] He; [apply yields_ret, errs_ok_setArrayValue; exact He|solve_errs].
Qed.

Lemma errs_mapArraysFunc a b : yields (V2.mapArraysFunc rec a b) errs_ok.
Proof.
  unfold V2.mapArraysFunc. do 5 (apply yields_bind; intro).
  apply (yields_bind_post _ _ errs_ok); [apply errs_setArrayValue|].
  intros [e|] He; [apply yields_ret, errs_ok_setArrayValue; exact He|solve_errs].
Qed.

Lemma errs_mapSameTypesFunc a b : yields (V2.mapSameTypesFunc a b) errs_ok.
Proof. unfold V2.mapSameTypesFunc. solve_errs. Qed.

Lemma errs_mapConverterFunc a b : yields (V2.mapConverterFunc a b) errs_ok.
Proof.
  unfold V2.mapConverterFunc. do 3 (apply yields_bind; intro).
  destruct (converters_lookup _ _).
  - do 2 (apply yields_bind; intro).
    destruct (snd _) as [|out1 outs]; [solve_errs|].
    destruct (V2.assert_error out1) as [err ok].
    destruct (negb ok).
    + apply yields_ret. solve_mapping_error.
    + destruct err as [e0|]; [|solve_errs].
      apply yields_ret. solve_mapping_error.
  - apply yields_ret. solve_mapping_error.
Qed.

Lemma errs_strats t a b : yields (V2.strats rec t a b) errs_ok.
Proof.
  destruct t; simpl;
    auto using errs_mapStructsFunc, errs_mapSlicesFunc, errs_mapArraysFunc,
      errs_mapSameTypesFunc, errs_mapConverterFunc with ylds.
Qed.

Lemma errs_mapKnownStruct plan a b :
  yields (V2.mapKnownStruct rec plan a b) errs_ok.
Proof.
  induction plan as [|e plan IH]; simpl; [solve_errs|].
  do 2 (apply yields_bind; intro).
  apply (yields_bind_post _ _ errs_ok); [apply errs_strats|].
  intros [e'|] He; [apply yields_ret; exact He|exact IH].
Qed.

Lemma errs_mapStructs_range mi toFields l :
  yields (V2.mapStructs_range rec mi toFields l) errs_ok.
Proof.
  induction l as [|[name fromVal] rest IH]; simpl; [solve_errs|].
  destruct (toFields !! name) as [toVal|]; [|exact IH].
  apply yields_bind. intros mt. destruct (negb _).
  - apply (yields_bind_post _ _ errs_ok); [apply errs_strats|].
    intros [e'|] He; [apply yields_ret; exact He|].
    do 3 (apply yields_bind; intro). exact IH.
  - do 2 (apply yields_bind; intro).
    apply yields_ret. solve_mapping_error.
Qed.
End Strategies_errors.

Lemma errs_mapStructs range_order fuel : forall from to,
  yields (V2.mapStructs range_order fuel from to) errs_ok.
Proof.
  induction fuel as [|fuel IH]; intros from to; simpl.
  - apply yields_OutOfFuel.
  - destruct (negb _); [solve_errs|].
    do 4 (apply yields_bind; intro).
    apply (yields_bind_post _ _ errs_ok).
    { destruct (knownMappings_lookup _ _);
        [apply errs_mapKnownStruct; exact IH|solve_errs]. }
    intros [e'|] He; [apply yields_ret; exact He|].
    do 3 (apply yields_bind; intro).
    apply errs_mapStructs_range. exact IH.
Qed.

(** Every error the current [Map] returns is one of the mapping's own: it
    is, or wraps, [ErrMissingConverter], [ErrConverter] or
    [ErrConverterErrorUnknownType].  In particular [Map] returns neither
    [ErrNotAPtr] nor [ErrNotAFn], whatever its arguments. *)
Theorem Map_returns_only_mapping_errors
    (range_order : list (string * V2.fieldInfo) -> list (string * V2.fieldInfo))
    (from to : boxed) (s : state) (e : error) :
  snd (V2.Map range_order from to s) = Ok (Some e) ->
  (errors_Is e ErrMissingConverter = true
   \/ errors_Is e ErrConverter = true
   \/ errors_Is e ErrConverterErrorUnknownType = true)
  /\ errors_Is e ErrNotAPtr = false
  /\ errors_Is e ErrNotAFn = false.
Proof.
  intros H. destruct (V2.Map range_order from to s) as [s' r] eqn:E.
  simpl in H. subst r.
  assert (Hy : yields (V2.Map range_order from to) errs_ok).
  { unfold V2.Map. destruct (_ && _).
    - do 2 (apply yields_bind; intro).
      apply errs_mapSlicesFunc, errs_mapStructs.
    - destruct (_ && _); [|solve_errs].
      do 2 (apply yields_bind; intro). apply errs_mapStructs. }
  exact (Hy _ _ _ E e eq_refl).
Qed.

Lemma Map_returns_only_mapping_errors_witness :
  snd (V2.Map range_in_order (ptr_to Converters2 0) (ptr_to Converters1 1)
         atoi_fails_state)
    = Ok (Some (Errorf_converter (ErrUser "strconv.Atoi: invalid syntax")))
  /\ (errors_Is (Errorf_converter (ErrUser "strconv.Atoi: invalid syntax"))
        ErrMissingConverter = true
      \/ errors_Is (Errorf_converter (ErrUser "strconv.Atoi: invalid syntax"))
           ErrConverter = true
      \/ errors_Is (Errorf_converter (ErrUser "strconv.Atoi: invalid syntax"))
           ErrConverterErrorUnknownType = true)
  /\ errors_Is (Errorf_converter (ErrUser "strconv.Atoi: invalid syntax"))
       ErrNotAPtr = false
  /\ errors_Is (Errorf_converter (ErrUser "strconv.Atoi: invalid syntax"))
       ErrNotAFn = false.
Proof.
  assert (H : snd (V2.Map range_in_order (ptr_to Converters2 0)
                     (ptr_to Converters1 1) atoi_fails_state)
              = Ok (Some (Errorf_converter
                            (ErrUser "strconv.Atoi: invalid syntax"))))
    by (vm_compute; reflexivity).
  split; [exact H|].
  exact (Map_returns_only_mapping_errors range_in_order
           (ptr_to Converters2 0) (ptr_to Converters1 1) atoi_fails_state
           _ H).
Defined.

(** ** Termination: the recursion follows the type of the source *)

(** The size of the type of a [Value]; the zero [Value] has none. *)
Definition Value_size (v : Value) : nat :=
  match v with
  | ZeroValue => 0
  | Val t _ _ => type_size t
  end.

(** [c] never runs out of fuel. *)
Definition fuel_ok {A} (c : M A) : Prop :=
  forall s, snd (c s) <> OutOfFuel.

Lemma fuel_ok_ret {A} (a : A) : fuel_ok (ret a).
Proof. intros s. discriminate. Qed.

Lemma fuel_ok_panic {A} msg : fuel_ok (@panic A msg).
Proof. intros s. discriminate. Qed.

Lemma fuel_ok_Deadlock {A} : fuel_ok (fun s => (s, @Deadlock A)).
Proof. intros s. discriminate. Qed.

Lemma fuel_ok_bind_post {A B} (c : M A) (f : A -> M B) (P : A -> Prop) :
  fuel_ok c -> yields c P -> (forall a, P a -> fuel_ok (f a)) ->
  fuel_ok (bind c f).
Proof.
  intros Hc Hy Hf s. unfold bind. specialize (Hc s).
  destruct (c s) as [s1 [a|m| |]] eqn:E; simpl in *;
    try discriminate; try congruence.
  apply Hf. exact (Hy _ _ _ E).
Qed.

Lemma fuel_ok_bind {A B} (c : M A) (f : A -> M B) :
  fuel_ok c -> (forall a, fuel_ok (f a)) -> fuel_ok (bind c f).
Proof.
  intros Hc Hf. apply (fuel_ok_bind_post c f (fun _ => True)); auto.
  intros s s' a _. exact I.
Qed.

Lemma fuel_ok_get_heap : fuel_ok get_heap.
Proof. intros s. discriminate. Qed.
Lemma fuel_ok_put_heap h : fuel_ok (put_heap h).
Proof. intros s. discriminate. Qed.
Lemma fuel_ok_get_mapper : fuel_ok get_mapper.
Proof. intros s. discriminate. Qed.
Lemma fuel_ok_put_mapper m : fuel_ok (put_mapper m).
Proof. intros s. discriminate. Qed.
Lemma fuel_ok_lift_option {A} msg (o : option A) : fuel_ok (lift_option msg o).
Proof. destruct o; intros s; discriminate. Qed.

Create HintDb fok discriminated.
#[export] Hint Resolve @fuel_ok_ret @fuel_ok_panic @fuel_ok_Deadlock
  fuel_ok_get_heap fuel_ok_put_heap fuel_ok_get_mapper fuel_ok_put_mapper
  @fuel_ok_lift_option : fok.

Ltac solve_fok :=
  repeat first
    [ solve [eauto with fok]
    | apply fuel_ok_bind; [|intro]
    | match goal with
      | |- fuel_ok (match ?x with _ => _ end) => destruct x
      | |- fuel_ok (if ?b then _ else _) => destruct b
      end ].

Lemma fuel_ok_Lock : fuel_ok Lock.
Proof. unfold Lock. solve_fok. Qed.
Lemma fuel_ok_Unlock : fuel_ok Unlock.
Proof. unfold Unlock. solve_fok. Qed.
Lemma fuel_ok_alloc v : fuel_ok (alloc v).
Proof. unfold alloc. solve_fok. Qed.
Lemma fuel_ok_load v : fuel_ok (load v).
Proof. unfold load. solve_fok. Qed.
Lemma fuel_ok_Value_Type v : fuel_ok (Value_Type v).
Proof. unfold Value_Type. solve_fok. Qed.
Lemma fuel_ok_Type_Elem t : fuel_ok (Type_Elem t).
Proof. unfold Type_Elem. solve_fok. Qed.
Lemma fuel_ok_Value_NumField v : fuel_ok (Value_NumField v).
Proof. unfold Value_NumField. solve_fok. Qed.
Lemma fuel_ok_Type_Field t i : fuel_ok (Type_Field t i).
Proof. unfold Type_Field. solve_fok. Qed.
Lemma fuel_ok_sub_place w i : fuel_ok (sub_place w i).
Proof. unfold sub_place. solve_fok. Qed.
#[export] Hint Resolve fuel_ok_Lock fuel_ok_Unlock fuel_ok_alloc fuel_ok_load
  fuel_ok_Value_Type fuel_ok_Type_Elem fuel_ok_Value_NumField
  fuel_ok_Type_Field fuel_ok_sub_place : fok.
Lemma fuel_ok_Value_Field v i : fuel_ok (Value_Field v i).
Proof. unfold Value_Field. solve_fok. Qed.
Lemma fuel_ok_Value_Elem v : fuel_ok (Value_Elem v).
Proof. unfold Value_Elem. solve_fok. Qed.
Lemma fuel_ok_Value_Len v : fuel_ok (Value_Len v).
Proof. unfold Value_Len. solve_fok. Qed.
#[export] Hint Resolve fuel_ok_Value_Field fuel_ok_Value_Elem
  fuel_ok_Value_Len : fok.
Lemma fuel_ok_Value_Index v i : fuel_ok (Value_Index v i).
Proof. unfold Value_Index. solve_fok. Qed.
Lemma fuel_ok_Value_IsZero v : fuel_ok (Value_IsZero v).
Proof. unfold Value_IsZero. solve_fok. Qed.
Lemma fuel_ok_Value_IsNil v : fuel_ok (Value_IsNil v).
Proof. unfold Value_IsNil. solve_fok. Qed.
Lemma fuel_ok_Func_Call fn x : fuel_ok (Func_Call fn x).
Proof. unfold Func_Call. solve_fok. Qed.
Lemma fuel_ok_Value_Set v x : fuel_ok (Value_Set v x).
Proof. unfold Value_Set. solve_fok. Qed.
Lemma fuel_ok_reflect_New t : fuel_ok (reflect_New t).
Proof. unfold reflect_New. solve_fok. Qed.
Lemma fuel_ok_reflect_MakeSlice t n c : fuel_ok (reflect_MakeSlice t n c).
Proof. unfold reflect_MakeSlice. solve_fok. Qed.
Lemma fuel_ok_knownMappings_append k e : fuel_ok (V2.knownMappings_append k e).
Proof. unfold V2.knownMappings_append. solve_fok. Qed.
Lemma fuel_ok_knownMappings_reset k : fuel_ok (V2.knownMappings_reset k).
Proof. unfold V2.knownMappings_reset. solve_fok. Qed.
#[export] Hint Resolve fuel_ok_Value_Index fuel_ok_Value_IsZero
  fuel_ok_Value_IsNil fuel_ok_Func_Call fuel_ok_Value_Set fuel_ok_reflect_New
  fuel_ok_reflect_MakeSlice fuel_ok_knownMappings_append
  fuel_ok_knownMappings_reset : fok.

Lemma fuel_ok_detectMappingType a b : fuel_ok (V2.detectMappingType a b).
Proof. unfold V2.detectMappingType. solve_fok. Qed.
Lemma fuel_ok_getFieldInfo_from from ixs : forall acc,
  fuel_ok (V2.getFieldInfo_from from ixs acc).
Proof. induction ixs; intros acc; simpl; solve_fok. Qed.
Lemma fuel_ok_getFieldInfo_to to ixs : forall acc,
  fuel_ok (V2.getFieldInfo_to to ixs acc).
Proof. induction ixs; intros acc; simpl; solve_fok. Qed.
#[export] Hint Resolve fuel_ok_detectMappingType fuel_ok_getFieldInfo_from
  fuel_ok_getFieldInfo_to : fok.
Lemma fuel_ok_getFieldInfo from to : fuel_ok (V2.getFieldInfo from to).
Proof. unfold V2.getFieldInfo. solve_fok. Qed.
#[export] Hint Resolve fuel_ok_getFieldInfo : fok.

(** The type of a field is smaller than the type of its struct. *)
Lemma type_size_field n fs i f :
  fs !! i = Some f -> type_size (FType f) < type_size (TStruct n fs).
Proof.
  cbn [type_size]. revert i.
  induction fs as [|g fs IH]; intros [|i] H; simpl in H; try discriminate.
  - injection H as ->. lia.
  - specialize (IH i H). lia.
Qed.

Lemma yields_Value_Elem v :
  yields (Value_Elem v) (fun v' => Value_size v' < Value_size v).
Proof.
  intros s s' v' H.
  apply Value_Elem_inv in H as (e & w & ro & -> & [[_ ->] | (l & _ & ->)]);
    simpl; lia.
Qed.

Lemma yields_Value_Index v i :
  yields (Value_Index v i) (fun v' => Value_size v' < Value_size v).
Proof.
  intros s s' v' H. destruct v as [|t w ro]; [discriminate|].
  destruct t; try discriminate; simpl in H.
  - (* slice *)
    apply bind_Ok_inv in H as (s1 & n & _ & H).
    destruct (Nat.ltb i n); [|discriminate].
    apply bind_Ok_inv in H as (s2 & x & _ & H).
    destruct x as [| | | | |[b|]| |]; try discriminate.
    injection H as _ <-. simpl. lia.
  - (* array *)
    destruct (Nat.ltb i len); [|discriminate].
    apply bind_Ok_inv in H as (s1 & w' & _ & H).
    injection H as _ <-. simpl. lia.
Qed.

Lemma yields_Value_Field v i :
  yields (Value_Field v i) (fun v' => Value_size v' < Value_size v).
Proof.
  intros s s' v' H. destruct v as [|t w ro]; [discriminate|].
  destruct t; try discriminate; simpl in H.
  apply bind_Ok_inv in H as (s1 & f & Hf & H).
  apply bind_Ok_inv in H as (s2 & w' & _ & H).
  injection H as _ <-.
  unfold lift_option in Hf. destruct (_ !! i) as [g|] eqn:Hi; [|discriminate].
  injection Hf as _ <-. simpl Value_size at 1.
  eapply type_size_field. exact Hi.
Qed.

Ltac fok_step :=
  first
    [ solve [eauto with fok]
    | match goal with
      | |- fuel_ok (bind (Value_Elem ?v) _) =>
          apply (fuel_ok_bind_post _ _ _ (fuel_ok_Value_Elem v)
                   (yields_Value_Elem v)); intros ? ?
      | |- fuel_ok (bind (Value_Index ?v ?i) _) =>
          apply (fuel_ok_bind_post _ _ _ (fuel_ok_Value_Index v i)
                   (yields_Value_Index v i)); intros ? ?
      | |- fuel_ok (bind (Value_Field ?v ?i) _) =>
          apply (fuel_ok_bind_post _ _ _ (fuel_ok_Value_Field v i)
                   (yields_Value_Field v i)); intros ? ?
      end
    | apply fuel_ok_bind; [|intro]
    | match goal with
      | |- fuel_ok (match ?x with _ => _ end) => destruct x
      | |- fuel_ok (if ?b then _ else _) => destruct b
      end ].

Section Strategies_fuel.
Variable rec : Value -> Value -> M (option error).
Variable n : nat.
Hypothesis Hrec : forall a b, Value_size a < n -> fuel_ok (rec a b).

Ltac fok_rec := repeat first [ solve [apply Hrec; simpl in *; lia] | fok_step ].

Lemma fuel_ok_mapStructsFunc a b :
  Value_size a < n -> fuel_ok (V2.mapStructsFunc rec a b).
Proof.
  intros Ha. unfold V2.mapStructsFunc.
  apply (fuel_ok_bind_post _ _ (fun a' => Value_size a' <= Value_size a)).
  - destruct (Kind_eqb _ _); solve_fok.
  - destruct (Kind_eqb _ _).
    + intros s s' x H. apply yields_Value_Elem in H. lia.
    + intros s s' x [= _ <-]. lia.
  - intros a' Ha'. fok_rec.
Qed.

Lemma fuel_ok_setArrayValue_body a b c i :
  Value_size a <= n -> fuel_ok (V2.setArrayValue_body rec a b c i).
Proof. intros Ha. unfold V2.setArrayValue_body. fok_rec. Qed.

Lemma fuel_ok_setArrayValue_loop a b c ixs :
  Value_size a <= n -> fuel_ok (V2.setArrayValue_loop rec a b c ixs).
Proof.
  intros Ha. induction ixs as [|i ixs IH]; simpl; [solve_fok|].
  apply fuel_ok_bind; [apply fuel_ok_setArrayValue_body; assumption|].
  intros [e|]; [solve_fok|exact IH].
Qed.

Lemma fuel_ok_setArrayValue a b c :
  Value_size a <= n -> fuel_ok (V2.setArrayValue rec a b c).
Proof.
  intros Ha. unfold V2.setArrayValue. apply fuel_ok_bind; [solve_fok|].
  intros k. apply fuel_ok_setArrayValue_loop. assumption.
Qed.

Lemma fuel_ok_mapSlicesFunc a b :
  Value_size a <= n -> fuel_ok (V2.mapSlicesFunc rec a b).
Proof.
  intros Ha. unfold V2.mapSlicesFunc.
  do 3 (apply fuel_ok_bind; [solve_fok|intro]).
  apply fuel_ok_bind; [apply fuel_ok_setArrayValue; assumption|].
  intros [e|]; solve_fok.
Qed.

Lemma fuel_ok_mapArraysFunc a b :
  Value_size a <= n -> fuel_ok (V2.mapArraysFunc rec a b).
Proof.
  intros Ha. unfold V2.mapArraysFunc.
  do 5 (apply fuel_ok_bind; [solve_fok|intro]).
  apply fuel_ok_bind; [apply fuel_ok_setArrayValue; assumption|].
  intros [e|]; solve_fok.
Qed.

Lemma fuel_ok_mapSameTypesFunc a b : fuel_ok (V2.mapSameTypesFunc a b).
Proof. unfold V2.mapSameTypesFunc. solve_fok. Qed.

Lemma fuel_ok_mapConverterFunc a b : fuel_ok (V2.mapConverterFunc a b).
Proof. unfold V2.mapConverterFunc. solve_fok. Qed.

Lemma fuel_ok_strats t a b :
  Value_size a < n -> fuel_ok (V2.strats rec t a b).
Proof.
  intros Ha. destruct t; simpl.
  - apply fuel_ok_panic.
  - apply fuel_ok_mapStructsFunc. assumption.
  - apply fuel_ok_mapSlicesFunc. lia.
  - apply fuel_ok_mapArraysFunc. lia.
  - apply fuel_ok_mapSameTypesFunc.
  - apply fuel_ok_mapConverterFunc.
Qed.

Lemma fuel_ok_mapKnownStruct plan a b :
  Value_size a <= n -> fuel_ok (V2.mapKnownStruct rec plan a b).
Proof.
  intros Ha. induction plan as [|e plan IH]; simpl; [solve_fok|].
  fok_step. fok_step.
  apply fuel_ok_bind; [apply fuel_ok_strats; lia|].
  intros [e'|]; [solve_fok|exact IH].
Qed.

Lemma fuel_ok_mapStructs_range mi toFields l :
  Forall (fun e => Value_size (V2.val (snd e)) < n) l ->
  fuel_ok (V2.mapStructs_range rec mi toFields l).
Proof.
  induction 1 as [|[name fromVal] rest Hx Hrest IH]; simpl; [solve_fok|].
  destruct (toFields !! name) as [toVal|]; [|exact IH].
  apply fuel_ok_bind; [solve_fok|]. intros mt. destruct (negb _).
  - apply fuel_ok_bind; [apply fuel_ok_strats; exact Hx|].
    intros [e|]; [solve_fok|].
    do 3 (apply fuel_ok_bind; [solve_fok|intro]). exact IH.
  - solve_fok.
Qed.
End Strategies_fuel.

(** The source fields the matcher collects are fields of [from]. *)
Definition fields_below (k : nat) (m : gmap string V2.fieldInfo) : Prop :=
  forall key e, m !! key = Some e -> Value_size (V2.val e) < k.

Lemma getFieldInfo_from_below from ixs : forall acc,
  fields_below (Value_size from) acc ->
  yields (V2.getFieldInfo_from from ixs acc) (fields_below (Value_size from)).
Proof.
  induction ixs as [|i ixs IH]; intros acc Hacc s s1 m; simpl.
  - intros [= _ <-]. assumption.
  - intros H. apply bind_Ok_inv in H as (s2 & fv & Hf & H).
    apply bind_Ok_inv in H as (s3 & z & _ & H).
    apply bind_Ok_inv in H as (s4 & skip & _ & H).
    destruct skip; [exact (IH _ Hacc _ _ _ H)|].
    apply bind_Ok_inv in H as (s5 & ft & _ & H).
    apply bind_Ok_inv in H as (s6 & sf & _ & H).
    refine (IH _ _ _ _ _ H).
    intros k e Hk. destruct (decide (V2.field_key sf = k)) as [<-|Hne].
    + rewrite lookup_insert_eq in Hk. injection Hk as <-. simpl.
      exact (yields_Value_Field _ _ _ _ _ Hf).
    + rewrite lookup_insert_ne in Hk by assumption. exact (Hacc _ _ Hk).
Qed.

Lemma getFieldInfo_below from to :
  yields (V2.getFieldInfo from to)
    (fun fields => fields_below (Value_size from) (fst fields)).
Proof.
  unfold V2.getFieldInfo. intros s s1 fields H.
  apply bind_Ok_inv in H as (s2 & k & _ & H).
  apply bind_Ok_inv in H as (s3 & ff & Hff & H).
  apply bind_Ok_inv in H as (s4 & k' & _ & H).
  apply bind_Ok_inv in H as (s5 & tf & _ & H).
  injection H as _ <-. simpl.
  refine (getFieldInfo_from_below _ _ _ _ _ _ _ Hff).
  intros key e Hk. rewrite lookup_empty in Hk. discriminate.
Qed.

Section Range_fuel.
Variable range_order :
  list (string * V2.fieldInfo) -> list (string * V2.fieldInfo).
Hypothesis Hperm : forall l, range_order l ≡ₚ l.

Lemma fuel_ok_mapStructs fuel : forall from to,
  Value_size from < fuel -> fuel_ok (V2.mapStructs range_order fuel from to).
Proof.
  induction fuel as [|fuel IH]; intros from to Hsz; [lia|]. simpl.
  destruct (negb _); [solve_fok|].
  do 4 (apply fuel_ok_bind; [solve_fok|intro]).
  apply fuel_ok_bind.
  { destruct (knownMappings_lookup _ _); [|solve_fok].
    apply (fuel_ok_mapKnownStruct _ fuel IH). lia. }
  intros [e|]; [solve_fok|].
  do 2 (apply fuel_ok_bind; [solve_fok|intro]).
  apply (fuel_ok_bind_post _ _ _ (fuel_ok_getFieldInfo from to)
           (getFieldInfo_below from to)).
  intros fields Hbelow.
  apply (fuel_ok_mapStructs_range _ fuel IH).
  apply Forall_forall. intros [name fv] Hin.
  rewrite Hperm in Hin. apply elem_of_map_to_list in Hin.
  specialize (Hbelow _ _ Hin). simpl. lia.
Qed.

Lemma fuel_ok_Map from to : fuel_ok (V2.Map range_order from to).
Proof.
  unfold V2.Map, V2.fuel_for, reflect_TypeOf.
  destruct (_ && _).
  - fok_step. fok_step.
    apply (fuel_ok_mapSlicesFunc _ _ (fuel_ok_mapStructs _)).
    simpl in *. lia.
  - destruct (_ && _); [|solve_fok].
    fok_step. fok_step. apply fuel_ok_mapStructs. simpl in *. lia.
Qed.
End Range_fuel.

(** ** [Set]: the registry of converters *)

Definition ci_matches (k : converterInfo) (e : converterInfo * Func) : bool :=
  type_eqb (ci_from (fst e)) (ci_from k) && type_eqb (ci_to (fst e)) (ci_to k).

Lemma ci_matches_eq k e : ci_matches k e = true <-> fst e = k.
Proof.
  unfold ci_matches. rewrite andb_true_iff, !type_eqb_eq.
  destruct e as [[a b] f], k as [c d]; simpl. split.
  - intros [-> ->]. reflexivity.
  - intros [= -> ->]. auto.
Qed.

Lemma converters_lookup_insert_eq k fn l :
  converters_lookup k (V2.converters_insert k fn l) = Some fn.
Proof.
  unfold converters_lookup, V2.converters_insert. cbn [find fst].
  rewrite !type_eqb_refl. reflexivity.
Qed.

Lemma converters_lookup_insert_ne k k' fn l :
  k' <> k ->
  converters_lookup k' (V2.converters_insert k fn l) = converters_lookup k' l.
Proof.
  intros Hne. unfold converters_lookup, V2.converters_insert.
  change (fun e : converterInfo * Func =>
            type_eqb (ci_from (fst e)) (ci_from k')
            && type_eqb (ci_to (fst e)) (ci_to k')) with (ci_matches k').
  change (fun e : converterInfo * Func =>
            negb (type_eqb (ci_from (fst e)) (ci_from k)
                  && type_eqb (ci_to (fst e)) (ci_to k)))
    with (fun e => negb (ci_matches k e)).
  cbn [find].
  destruct (ci_matches k' (k, fn)) eqn:E.
  { apply ci_matches_eq in E. simpl in E. congruence. }
  f_equal. induction l as [|e l IH]; [reflexivity|]. cbn [List.filter find].
  destruct (ci_matches k e) eqn:Ek; cbn [negb].
  - destruct (ci_matches k' e) eqn:Ek'; [|exact IH].
    apply ci_matches_eq in Ek, Ek'. congruence.
  - cbn [find]. destruct (ci_matches k' e); [reflexivity|exact IH].
Qed.

(** [Set] and lookup.  [Set] of a function returns nil and registers it
    for the pair of its parameter and first result type, replacing the
    function registered for that pair before; the converters of all other
    pairs, the plans, the mutex and the heap are as before.  [Set] of
    anything else returns [ErrNotAFn] and changes nothing. *)
Theorem Set_registers_converter_for_its_types (fn : Func) (b : boxed)
    (s : state) :
  snd (V2.Set_ (AnyFunc fn) s) = Ok None
  /\ converters_lookup {| ci_from := fn_In fn; ci_to := fn_Out fn |}
       (converters (s_mapper (fst (V2.Set_ (AnyFunc fn) s)))) = Some fn
  /\ (forall k, k <> {| ci_from := fn_In fn; ci_to := fn_Out fn |} ->
        converters_lookup k
          (converters (s_mapper (fst (V2.Set_ (AnyFunc fn) s))))
        = converters_lookup k (converters (s_mapper s)))
  /\ knownMappings (s_mapper (fst (V2.Set_ (AnyFunc fn) s)))
     = knownMappings (s_mapper s)
  /\ mu (s_mapper (fst (V2.Set_ (AnyFunc fn) s))) = mu (s_mapper s)
  /\ s_heap (fst (V2.Set_ (AnyFunc fn) s)) = s_heap s
  /\ V2.Set_ (AnyVal b) s = (s, Ok (Some ErrNotAFn)).
Proof.
  repeat split.
  - apply converters_lookup_insert_eq.
  - intros k Hk. apply converters_lookup_insert_ne. exact Hk.
Qed.

(** ** The field matcher: [getFieldInfo] *)

(** [c] leaves the whole state as it is. *)
Definition state_ro {A} (c : M A) : Prop := forall s, fst (c s) = s.

Lemma state_ro_ret {A} (a : A) : state_ro (ret a).
Proof. intros s. reflexivity. Qed.
Lemma state_ro_panic {A} msg : state_ro (@panic A msg).
Proof. intros s. reflexivity. Qed.
Lemma state_ro_bind {A B} (c : M A) (f : A -> M B) :
  state_ro c -> (forall a, state_ro (f a)) -> state_ro (bind c f).
Proof.
  intros Hc Hf s. unfold bind. specialize (Hc s).
  destruct (c s) as [s1 [a|m| |]]; simpl in *; try assumption.
  rewrite Hf. assumption.
Qed.
Lemma state_ro_get_heap : state_ro get_heap.
Proof. intros s. reflexivity. Qed.
Lemma state_ro_get_mapper : state_ro get_mapper.
Proof. intros s. reflexivity. Qed.
Lemma state_ro_lift_option {A} msg (o : option A) : state_ro (lift_option msg o).
Proof. destruct o; intros s; reflexivity. Qed.

Create HintDb sro discriminated.
#[export] Hint Resolve @state_ro_ret @state_ro_panic state_ro_get_heap
  state_ro_get_mapper @state_ro_lift_option : sro.

Ltac solve_sro :=
  repeat first
    [ solve [eauto with sro]
    | apply state_ro_bind; [|intro]
    | match goal with
      | |- state_ro (match ?x with _ => _ end) => destruct x
      | |- state_ro (if ?b then _ else _) => destruct b
      end ].

Lemma state_ro_load v : state_ro (load v).
Proof. unfold load. solve_sro. Qed.
Lemma state_ro_Value_Type v : state_ro (Value_Type v).
Proof. unfold Value_Type. solve_sro. Qed.
Lemma state_ro_Value_NumField v : state_ro (Value_NumField v).
Proof. unfold Value_NumField. solve_sro. Qed.
Lemma state_ro_Type_Field t i : state_ro (Type_Field t i).
Proof. unfold Type_Field. solve_sro. Qed.
Lemma state_ro_sub_place w i : state_ro (sub_place w i).
Proof. unfold sub_place. solve_sro. Qed.
#[export] Hint Resolve state_ro_load state_ro_Value_Type
  state_ro_Value_NumField state_ro_Type_Field state_ro_sub_place : sro.
Lemma state_ro_Value_Field v i : state_ro (Value_Field v i).
Proof. unfold Value_Field. solve_sro. Qed.
Lemma state_ro_Value_IsZero v : state_ro (Value_IsZero v).
Proof. unfold Value_IsZero. solve_sro. Qed.
Lemma state_ro_Value_IsNil v : state_ro (Value_IsNil v).
Proof. unfold Value_IsNil. solve_sro. Qed.
#[export] Hint Resolve state_ro_Value_Field state_ro_Value_IsZero
  state_ro_Value_IsNil : sro.
Lemma state_ro_getFieldInfo_from from ixs : forall acc,
  state_ro (V2.getFieldInfo_from from ixs acc).
Proof. induction ixs; intros acc; simpl; solve_sro. Qed.
Lemma state_ro_getFieldInfo_to to ixs : forall acc,
  state_ro (V2.getFieldInfo_to to ixs acc).
Proof. induction ixs; intros acc; simpl; solve_sro. Qed.
#[export] Hint Resolve state_ro_getFieldInfo_from
  state_ro_getFieldInfo_to : sro.
Lemma state_ro_getFieldInfo from to : state_ro (V2.getFieldInfo from to).
Proof. unfold V2.getFieldInfo. solve_sro. Qed.
Lemma state_ro_detectMappingType a b : state_ro (V2.detectMappingType a b).
Proof. unfold V2.detectMappingType. solve_sro. Qed.

Lemma run_state_ro {A} (c : M A) s s1 r :
  state_ro c -> c s = (s1, r) -> s1 = s.
Proof. intros H E. specialize (H s). rewrite E in H. exact H. Qed.

(** Field [i] of the struct [v] is entered under the key [k] as [e]. *)
Definition entry_of (s : state) (v : Value) (k : string) (e : V2.fieldInfo)
  : Prop :=
  exists t f,
    Value_Type v s = (s, Ok t)
    /\ Type_Field t (V2.index e) s = (s, Ok f)
    /\ V2.field_key f = k
    /\ Value_Field v (V2.index e) s = (s, Ok (V2.val e)).

(** The test of [getFieldInfo] on a source field: not skipped. *)
Definition kept (s : state) (fieldVal : Value) : Prop :=
  Value_IsZero fieldVal s = (s, Ok false)
  /\ (Kind_eqb (Value_Kind fieldVal) KPtr = true ->
      Value_IsNil fieldVal s = (s, Ok false)).

Lemma getFieldInfo_from_spec from s : forall ixs acc s1 m,
  V2.getFieldInfo_from from ixs acc s = (s1, Ok m) ->
  (forall k e, m !! k = Some e ->
     acc !! k = Some e
     \/ (V2.index e ∈ ixs /\ entry_of s from k e /\ kept s (V2.val e)))
  /\ (forall k, is_Some (acc !! k) -> is_Some (m !! k))
  /\ (forall i e k, i ∈ ixs -> V2.index e = i -> entry_of s from k e ->
        kept s (V2.val e) -> is_Some (m !! k)).
Proof.
  induction ixs as [|i ixs IH]; intros acc s1 m; simpl.
  - intros [= _ <-]. split; [auto|]. split; [auto|].
    intros i e k Hi. apply elem_of_nil in Hi. contradiction.
  - intros H. apply bind_Ok_inv in H as (s2 & fv & Hf & H).
    pose proof (run_state_ro _ _ _ _ (state_ro_Value_Field _ _) Hf). subst s2.
    apply bind_Ok_inv in H as (s3 & z & Hz & H).
    pose proof (run_state_ro _ _ _ _ (state_ro_Value_IsZero _) Hz). subst s3.
    apply bind_Ok_inv in H as (s4 & skip & Hskip & H).
    assert (s4 = s).
    { destruct z; [injection Hskip as -> _; reflexivity|].
      destruct (Kind_eqb _ _);
        [exact (run_state_ro _ _ _ _ (state_ro_Value_IsNil _) Hskip)
        |injection Hskip as -> _; reflexivity]. }
    subst s4.
    destruct skip.
    + destruct (IH _ _ _ H) as (Hs & Hd & Hc).
      split; [|split; [exact Hd|]].
      * intros k e Hk. destruct (Hs k e Hk) as [?|(Hin & ?)]; [auto|].
        right. split; [apply elem_of_cons; auto|assumption].
      * intros j e k Hj Hje He Hkept. apply elem_of_cons in Hj as [->|Hj];
          [|exact (Hc _ _ _ Hj Hje He Hkept)].
        exfalso. destruct He as (t & f & _ & _ & _ & Hfe).
        rewrite Hje in Hfe. rewrite Hf in Hfe. injection Hfe as E.
        rewrite <- E in Hkept.
        destruct Hkept as [Hz' Hn']. rewrite Hz in Hz'. injection Hz' as ->.
        destruct (Kind_eqb _ _); [|discriminate].
        rewrite (Hn' eq_refl) in Hskip. discriminate.
    + apply bind_Ok_inv in H as (s5 & ft & Hft & H).
      pose proof (run_state_ro _ _ _ _ (state_ro_Value_Type _) Hft). subst s5.
      apply bind_Ok_inv in H as (s6 & sf & Hsf & H).
      pose proof (run_state_ro _ _ _ _ (state_ro_Type_Field _ _) Hsf). subst s6.
      destruct (IH _ _ _ H) as (Hs & Hd & Hc).
      assert (Hkept : kept s fv).
      { destruct z.
        - discriminate Hskip.
        - split; [exact Hz|]. intros Hk. rewrite Hk in Hskip. exact Hskip. }
      split; [|split].
      * intros k e Hk. destruct (Hs k e Hk) as [Hacc|(Hin & ?)].
        -- destruct (decide (V2.field_key sf = k)) as [<-|Hne].
           ++ rewrite lookup_insert_eq in Hacc. injection Hacc as <-.
              right. split; [apply elem_of_cons; auto|].
              split; [|exact Hkept].
              exists ft, sf. auto.
           ++ rewrite lookup_insert_ne in Hacc by assumption. auto.
        -- right. split; [apply elem_of_cons; auto|assumption].
      * intros k Hk. apply Hd.
        destruct (decide (V2.field_key sf = k)) as [<-|Hne].
        -- rewrite lookup_insert_eq. eauto.
        -- rewrite lookup_insert_ne by assumption. exact Hk.
      * intros j e k Hj Hje He Hkept'. apply elem_of_cons in Hj as [->|Hj];
          [|exact (Hc _ _ _ Hj Hje He Hkept')].
        apply Hd. destruct He as (t & f & Ht & Htf & Hkey & Hfe).
        rewrite Hft in Ht. injection Ht as <-.
        rewrite Hje in Htf. rewrite Hsf in Htf. injection Htf as <-.
        rewrite Hkey. rewrite lookup_insert_eq. eauto.
Qed.

Lemma getFieldInfo_to_spec to s : forall ixs acc s1 m,
  V2.getFieldInfo_to to ixs acc s = (s1, Ok m) ->
  (forall k e, m !! k = Some e ->
     acc !! k = Some e
     \/ (V2.index e ∈ ixs /\ entry_of s to k e
         /\ Value_CanSet (V2.val e) = true))
  /\ (forall k, is_Some (acc !! k) -> is_Some (m !! k))
  /\ (forall i e k, i ∈ ixs -> V2.index e = i -> entry_of s to k e ->
        Value_CanSet (V2.val e) = true -> is_Some (m !! k)).
Proof.
  induction ixs as [|i ixs IH]; intros acc s1 m; simpl.
  - intros [= _ <-]. split; [auto|]. split; [auto|].
    intros i e k Hi. apply elem_of_nil in Hi. contradiction.
  - intros H. apply bind_Ok_inv in H as (s2 & fv & Hf & H).
    pose proof (run_state_ro _ _ _ _ (state_ro_Value_Field _ _) Hf). subst s2.
    destruct (Value_CanSet fv) eqn:Hcs; cbn [negb] in H.
    + apply bind_Ok_inv in H as (s5 & ft & Hft & H).
      pose proof (run_state_ro _ _ _ _ (state_ro_Value_Type _) Hft). subst s5.
      apply bind_Ok_inv in H as (s6 & sf & Hsf & H).
      pose proof (run_state_ro _ _ _ _ (state_ro_Type_Field _ _) Hsf). subst s6.
      destruct (IH _ _ _ H) as (Hs & Hd & Hc).
      split; [|split].
      * intros k e Hk. destruct (Hs k e Hk) as [Hacc|(Hin & ?)].
        -- destruct (decide (V2.field_key sf = k)) as [<-|Hne].
           ++ rewrite lookup_insert_eq in Hacc. injection Hacc as <-.
              right. split; [apply elem_of_cons; auto|].
              split; [|exact Hcs].
              exists ft, sf. auto.
           ++ rewrite lookup_insert_ne in Hacc by assumption. auto.
        -- right. split; [apply elem_of_cons; auto|assumption].
      * intros k Hk. apply Hd.
        destruct (decide (V2.field_key sf = k)) as [<-|Hne].
        -- rewrite lookup_insert_eq. eauto.
        -- rewrite lookup_insert_ne by assumption. exact Hk.
      * intros j e k Hj Hje He Hcs'. apply elem_of_cons in Hj as [->|Hj];
          [|exact (Hc _ _ _ Hj Hje He Hcs')].
        apply Hd. destruct He as (t & f & Ht & Htf & Hkey & Hfe).
        rewrite Hft in Ht. injection Ht as <-.
        rewrite Hje in Htf. rewrite Hsf in Htf. injection Htf as <-.
        rewrite Hkey. rewrite lookup_insert_eq. eauto.
    + destruct (IH _ _ _ H) as (Hs & Hd & Hc).
      split; [|split; [exact Hd|]].
      * intros k e Hk. destruct (Hs k e Hk) as [?|(Hin & ?)]; [auto|].
        right. split; [apply elem_of_cons; auto|assumption].
      * intros j e k Hj Hje He Hcs'. apply elem_of_cons in Hj as [->|Hj];
          [|exact (Hc _ _ _ Hj Hje He Hcs')].
        exfalso. destruct He as (t & f & _ & _ & _ & Hfe).
        rewrite Hje in Hfe. rewrite Hf in Hfe. injection Hfe as E.
        rewrite <- E in Hcs'. congruence.
Qed.

Lemma entry_of_index s v k e n s1 :
  entry_of s v k e -> Value_NumField v s = (s1, Ok n) -> V2.index e ∈ seq 0 n.
Proof.
  intros (t & f & Ht & Hf & _ & _) Hn.
  destruct v as [|t' w ro]; [discriminate|]. injection Ht as <-.
  destruct t'; try discriminate. simpl in Hn. injection Hn as _ <-.
  simpl in Hf. unfold lift_option in Hf.
  destruct (fields !! V2.index e) eqn:E; [|discriminate].
  apply elem_of_seq. apply lookup_lt_Some in E. lia.
Qed.

(** The matcher.  [getFieldInfo] leaves the state as it is.  When it
    returns, every entry of [fromFields] is a field of [from], entered under
    its [mapper] tag or else its name, that is neither zero nor a nil
    pointer, and every entry of [toFields] is a field of [to] that can be
    set, entered the same way; conversely the key of every field of [from]
    that is neither zero nor nil is in [fromFields], and the key of every
    field of [to] that can be set is in [toFields]. *)
Theorem getFieldInfo_collects_nonzero_and_settable (from to : Value)
    (s : state) :
  fst (V2.getFieldInfo from to s) = s
  /\ forall fromFields toFields,
       snd (V2.getFieldInfo from to s) = Ok (fromFields, toFields) ->
       (forall k e, fromFields !! k = Some e ->
          entry_of s from k e /\ kept s (V2.val e))
       /\ (forall k e, toFields !! k = Some e ->
             entry_of s to k e /\ Value_CanSet (V2.val e) = true)
       /\ (forall k e, entry_of s from k e -> kept s (V2.val e) ->
             is_Some (fromFields !! k))
       /\ (forall k e, entry_of s to k e -> Value_CanSet (V2.val e) = true ->
             is_Some (toFields !! k)).
Proof.
  split; [apply state_ro_getFieldInfo|].
  intros ff tf H.
  destruct (V2.getFieldInfo from to s) as [s' r] eqn:E. simpl in H. subst r.
  unfold V2.getFieldInfo in E.
  apply bind_Ok_inv in E as (s2 & n & Hn & E).
  pose proof (run_state_ro _ _ _ _ (state_ro_Value_NumField _) Hn). subst s2.
  apply bind_Ok_inv in E as (s3 & ff' & Hff & E).
  pose proof (run_state_ro _ _ _ _ (state_ro_getFieldInfo_from _ _ _) Hff).
  subst s3.
  apply bind_Ok_inv in E as (s4 & n' & Hn' & E).
  pose proof (run_state_ro _ _ _ _ (state_ro_Value_NumField _) Hn'). subst s4.
  apply bind_Ok_inv in E as (s5 & tf' & Htf & E).
  pose proof (run_state_ro _ _ _ _ (state_ro_getFieldInfo_to _ _ _) Htf).
  subst s5.
  injection E as _ <- <-.
  destruct (getFieldInfo_from_spec _ _ _ _ _ _ Hff) as (Hs & _ & Hc).
  destruct (getFieldInfo_to_spec _ _ _ _ _ _ Htf) as (Hs' & _ & Hc').
  repeat split.
  - destruct (Hs k e H) as [Hk|(_ & ? & _)]; [|assumption].
    rewrite lookup_empty in Hk. discriminate.
  - destruct (Hs k e H) as [Hk|(_ & _ & [? _])]; [|assumption].
    rewrite lookup_empty in Hk. discriminate.
  - destruct (Hs k e H) as [Hk|(_ & _ & [_ ?])]; [|assumption].
    rewrite lookup_empty in Hk. discriminate.
  - destruct (Hs' k e H) as [Hk|(_ & ? & _)]; [|assumption].
    rewrite lookup_empty in Hk. discriminate.
  - destruct (Hs' k e H) as [Hk|(_ & _ & ?)]; [|assumption].
    rewrite lookup_empty in Hk. discriminate.
  - intros k e He Hkept.
    exact (Hc _ e k (entry_of_index _ _ _ _ _ _ He Hn) eq_refl He Hkept).
  - intros k e He Hcs.
    exact (Hc' _ e k (entry_of_index _ _ _ _ _ _ He Hn') eq_refl He Hcs).
Qed.

(** ** Converters with one result *)

(** A matched pair for which a converter with a single result is
    registered: the destination receives the converter's result for the
    source value, the pair enters the plan as a converter step and the loop
    goes on with the entries left, even when both fields have the same
    type. *)
Theorem converter_result_is_stored_and_planned
    (rec : Value -> Value -> M (option error))
    (mappingInfo : structMappingInfo) (toFields : gmap string V2.fieldInfo)
    (name : string) (i j : nat) (ft td : type) (wf : place)
    (l : nat) (p : list nat) (rest : list (string * V2.fieldInfo))
    (conv : Func) (xv : value) (h' : list value) (s : state) :
  mu (s_mapper s) = false ->
  converters_lookup {| ci_from := ft; ci_to := td |} (converters (s_mapper s))
    = Some conv ->
  fn_In conv = ft ->
  fn_Out conv = td ->
  fn_second conv = None ->
  toFields !! name
    = Some {| V2.index := j; V2.val := Val td (Addr l p) false |} ->
  load (Val ft wf false) s = (s, Ok xv) ->
  heap_store (s_heap s) l p (fn_first conv xv) = Some h' ->
  V2.mapStructs_range rec mappingInfo toFields
      ((name, {| V2.index := i; V2.val := Val ft wf false |}) :: rest) s
    = V2.mapStructs_range rec mappingInfo toFields rest
        (record_plan mappingInfo
           {| fromIndex := i; toIndex := j; mapperFunc := converterFunc |}
           {| s_heap := h'; s_mapper := s_mapper s |})
  /\ heap_load h' l p = Some (fn_first conv xv).
Proof.
  intros Hmu Hc Hin Hout Hsnd Hto Hload Hstore.
  split; [|exact (heap_load_store _ _ _ _ _ Hstore)].
  cbn [V2.mapStructs_range]. rewrite Hto.
  erewrite bind_Ok by (eapply detectMappingType_converter; simpl; eauto).
  cbn [supportedType_eqb negb V2.strats V2.val].
  assert (Hrun : V2.mapConverterFunc (Val ft wf false)
                   (Val td (Addr l p) false) s
                 = ({| s_heap := h'; s_mapper := s_mapper s |}, Ok None)).
  { assert (Hcall : Func_Call conv (Val ft wf false) s
                    = (s, Ok (Val td (Imm (fn_first conv xv)) false, []))).
    { unfold Func_Call. rewrite Hin, type_eqb_refl.
      rewrite (bind_Ok _ _ _ _ _ Hload). rewrite Hsnd, Hout. reflexivity. }
    assert (Hset : Value_Set (Val td (Addr l p) false)
                     (Val td (Imm (fn_first conv xv)) false) s
                   = ({| s_heap := h'; s_mapper := s_mapper s |}, Ok ())).
    { unfold Value_Set. rewrite type_eqb_refl.
      unfold bind, load, ret, get_heap. rewrite Hstore. reflexivity. }
    unfold V2.mapConverterFunc, bind at 1 2 3, Value_Type, get_mapper, ret.
    rewrite Hc. rewrite (bind_Ok _ _ _ _ _ Hcall). cbn [fst snd].
    rewrite (bind_Ok _ _ _ _ _ Hset). reflexivity. }
  rewrite (bind_Ok _ _ _ _ _ Hrun).
  apply (record_plan_run mappingInfo). exact Hmu.
Qed.

Lemma converter_result_is_stored_and_planned_witness :
  V2.mapStructs_range (V2.mapStructs range_in_order 1)
      {| smi_from := Converters1; smi_to := Converters2 |}
      {[ "Field1" := {| V2.index := 0;
                        V2.val := Val TString (Addr 1 [0%nat]) false |} ]}
      [("Field1", {| V2.index := 0; V2.val := Val TInt (Addr 0 [0%nat]) false |})]
      (mapper_with Itoa [VStruct [VInt 1]; VStruct [VString EmptyString]])
    = V2.mapStructs_range (V2.mapStructs range_in_order 1)
        {| smi_from := Converters1; smi_to := Converters2 |}
        {[ "Field1" := {| V2.index := 0;
                          V2.val := Val TString (Addr 1 [0%nat]) false |} ]}
        []
        (record_plan {| smi_from := Converters1; smi_to := Converters2 |}
           {| fromIndex := 0; toIndex := 0; mapperFunc := converterFunc |}
           {| s_heap := [VStruct [VInt 1]; VStruct [VString "1"]];
              s_mapper :=
                s_mapper (mapper_with Itoa
                            [VStruct [VInt 1]; VStruct [VString EmptyString]]) |})
  /\ heap_load [VStruct [VInt 1]; VStruct [VString "1"]] 1 [0%nat]
     = Some (fn_first Itoa (VInt 1)).
Proof.
  apply (converter_result_is_stored_and_planned
           (V2.mapStructs range_in_order 1)
           {| smi_from := Converters1; smi_to := Converters2 |}
           {[ "Field1" := {| V2.index := 0;
                             V2.val := Val TString (Addr 1 [0%nat]) false |} ]}
           "Field1" 0%nat 0%nat TInt TString (Addr 0 [0%nat]) 1%nat [0%nat] []
           Itoa (VInt 1) [VStruct [VInt 1]; VStruct [VString "1"]]
           (mapper_with Itoa [VStruct [VInt 1]; VStruct [VString EmptyString]]));
    vm_compute; reflexivity.
Defined.

(** ** The mutex *)

(** The state in which the mutex is held. *)
Definition locked (s : state) : state :=
  {| s_heap := s_heap s;
     s_mapper := {| mu := true; converters := converters (s_mapper s);
                    knownMappings := knownMappings (s_mapper s) |} |}.

Lemma Lock_run s : mu (s_mapper s) = false -> Lock s = (locked s, Ok ()).
Proof. intros H. unfold Lock, bind, get_mapper. rewrite H. reflexivity. Qed.

(** [mapStructs] on a valid source blocks when the mutex is held. *)
Lemma mapStructs_blocks range_order fuel from to s :
  mu (s_mapper s) = true -> Value_IsValid from = true ->
  V2.mapStructs range_order (S fuel) from to s = (s, Deadlock).
Proof.
  intros Hmu Hv. cbn [V2.mapStructs]. rewrite Hv. cbn [negb].
  unfold bind at 1. unfold Lock, bind, get_mapper. rewrite Hmu. reflexivity.
Qed.

(** [mapStructs] with fuel left, unfolded once. *)
Lemma mapStructs_S range_order fuel from to :
  V2.mapStructs range_order (S fuel) from to
  = if negb (Value_IsValid from) then ret None
    else
      do Lock then
      let* tf := Value_Type from in
      let* tt := Value_Type to in
      let mappingInfo := {| smi_from := tf; smi_to := tt |} in
      let* m := get_mapper in
      let* err :=
        match knownMappings_lookup mappingInfo (knownMappings m) with
        | Some knownMapping =>
            V2.mapKnownStruct (V2.mapStructs range_order fuel) knownMapping
              from to
        | None => ret None
        end in
      match err with
      | Some e => ret (Some e)
      | None =>
          do V2.knownMappings_reset mappingInfo then
          do Unlock then
          let* fields := V2.getFieldInfo from to in
          V2.mapStructs_range (V2.mapStructs range_order fuel) mappingInfo
            (snd fields) (range_order (map_to_list (fst fields)))
      end.
Proof. reflexivity. Qed.

Lemma Value_Field_run n fs w ro i f s :
  fs !! i = Some f ->
  Value_Field (Val (TStruct n fs) (Addr w []) ro) i s
  = (s, Ok (Val (FType f) (Addr w [i]) (ro || negb (is_exported (Name f))))).
Proof.
  intros Hf. unfold Value_Field, bind, Type_Field, lift_option, sub_place, ret.
  rewrite Hf. reflexivity.
Qed.

Lemma bind_Deadlock {A B} (c : M A) (f : A -> M B) s s1 :
  c s = (s1, Deadlock) -> bind c f s = (s1, Deadlock).
Proof. unfold bind. intros ->. reflexivity. Qed.

Lemma mapKnownStruct_nested_blocks range_order fuel n1 n2 fs1 fs2 lf lt i j
    f1 f2 rest s :
  mu (s_mapper s) = true ->
  fs1 !! i = Some f1 ->
  fs2 !! j = Some f2 ->
  type_Kind (FType f1) = KStruct ->
  type_Kind (FType f2) = KStruct ->
  V2.mapKnownStruct (V2.mapStructs range_order (S fuel))
    ({| fromIndex := i; toIndex := j; mapperFunc := structs |} :: rest)
    (Val (TStruct n1 fs1) (Addr lf []) false)
    (Val (TStruct n2 fs2) (Addr lt []) false) s
  = (s, Deadlock).
Proof.
  intros Hmu Hf1 Hf2 Hk1 Hk2.
  cbn [V2.mapKnownStruct fromIndex toIndex mapperFunc V2.strats].
  rewrite (bind_Ok _ _ _ _ _ (Value_Field_run _ _ _ _ _ _ _ Hf1)).
  rewrite (bind_Ok _ _ _ _ _ (Value_Field_run _ _ _ _ _ _ _ Hf2)).
  apply bind_Deadlock.
  unfold V2.mapStructsFunc. cbn [Value_Kind]. rewrite Hk1, Hk2.
  cbn [Kind_eqb].
  rewrite (bind_Ok _ _ _ _ _ eq_refl).
  apply bind_Deadlock. apply mapStructs_blocks; [assumption|reflexivity].
Qed.

Lemma mapStructs_replay_nested range_order fuel n1 n2 fs1 fs2 lf lt i j
    f1 f2 rest s :
  mu (s_mapper s) = false ->
  knownMappings_lookup
    {| smi_from := TStruct n1 fs1; smi_to := TStruct n2 fs2 |}
    (knownMappings (s_mapper s))
    = Some ({| fromIndex := i; toIndex := j; mapperFunc := structs |} :: rest) ->
  fs1 !! i = Some f1 ->
  fs2 !! j = Some f2 ->
  type_Kind (FType f1) = KStruct ->
  type_Kind (FType f2) = KStruct ->
  V2.mapStructs range_order (S (S fuel))
    (Val (TStruct n1 fs1) (Addr lf []) false)
    (Val (TStruct n2 fs2) (Addr lt []) false) s
  = (locked s, Deadlock).
Proof.
  intros Hmu Hplan Hf1 Hf2 Hk1 Hk2.
  rewrite mapStructs_S. cbn [Value_IsValid negb].
  rewrite (bind_Ok _ _ _ _ _ (Lock_run s Hmu)).
  rewrite (bind_Ok _ _ _ _ _ eq_refl).
  rewrite (bind_Ok _ _ _ _ _ eq_refl).
  cbv zeta.
  rewrite (bind_Ok _ _ _ _ _ eq_refl).
  cbn [locked s_mapper knownMappings]. rewrite Hplan.
  apply bind_Deadlock.
  exact (mapKnownStruct_nested_blocks range_order fuel n1 n2 fs1 fs2 lf lt
           i j f1 f2 rest (locked s) eq_refl Hf1 Hf2 Hk1 Hk2).
Qed.

(** A plan that starts with a nested-record step, for a source field and a
    destination field that hold structs: the next [Map] for the pair of
    shapes replays the step with the mutex held, the step calls
    [mapStructs], and the call blocks in [Lock]. *)
Theorem replay_of_nested_struct_step_deadlocks
    (range_order : list (string * V2.fieldInfo) -> list (string * V2.fieldInfo))
    (n1 n2 : string) (fs1 fs2 : list (StructField type)) (lf lt i j : nat)
    (f1 f2 : StructField type) (rest : list fieldMappingInfo) (s : state) :
  mu (s_mapper s) = false ->
  knownMappings_lookup
    {| smi_from := TStruct n1 fs1; smi_to := TStruct n2 fs2 |}
    (knownMappings (s_mapper s))
    = Some ({| fromIndex := i; toIndex := j; mapperFunc := structs |} :: rest) ->
  fs1 !! i = Some f1 ->
  fs2 !! j = Some f2 ->
  type_Kind (FType f1) = KStruct ->
  type_Kind (FType f2) = KStruct ->
  V2.Map range_order (ptr_to (TStruct n1 fs1) lf) (ptr_to (TStruct n2 fs2) lt) s
    = (locked s, Deadlock).
Proof.
  intros Hmu Hplan Hf1 Hf2 Hk1 Hk2.
  unfold V2.Map, ptr_to, reflect_TypeOf, reflect_ValueOf, V2.fuel_for.
  cbn [box_type box_value V2.ptr_to_slice_of_structs V2.isStructOrPtrToStruct
       V2.elem_Kind_is type_Kind type_Elem Kind_eqb andb orb type_size].
  rewrite (bind_Ok _ _ _ _ _ (Value_Elem_Imm _ _ _ _)).
  rewrite (bind_Ok _ _ _ _ _ (Value_Elem_Imm _ _ _ _)).
  eapply mapStructs_replay_nested; eassumption.
Qed.

Definition Outer1 : type := TStruct "Outer1" [field "In" Simple1].
Definition Outer2 : type := TStruct "Outer2" [field "In" Simple2].

(** The state after [Map(&Outer1{In: simple1}, &Outer2{})] on a fresh
    mapper. *)
Definition after_nested_call : state :=
  fst (V2.Map range_in_order (ptr_to Outer1 0) (ptr_to Outer2 1)
         {| s_heap := [VStruct [simple1]; zero_value Outer2];
            s_mapper := New |}).

Lemma replay_of_nested_struct_step_deadlocks_witness :
  V2.Map range_in_order (ptr_to Outer1 0) (ptr_to Outer2 1) after_nested_call
  = (locked after_nested_call, Deadlock).
Proof.
  apply (replay_of_nested_struct_step_deadlocks range_in_order
           "Outer1" "Outer2" [field "In" Simple1] [field "In" Simple2]
           0 1 0 0 (field "In" Simple1) (field "In" Simple2) []
           after_nested_call);
    vm_compute; reflexivity.
Defined.

(** ** Nil pointers and empty slices given to [Map] *)

Lemma Value_Elem_nil t ro s :
  Value_Elem (Val (TPtr t) (Imm (VPtr None)) ro) s = (s, Ok ZeroValue).
Proof. reflexivity. Qed.

(** [Map] with a nil pointer to a struct as its source returns nil and
    changes nothing, whatever pointer to a struct the destination is; with a
    pointer to a struct as its source and a nil destination it panics in
    [to.Type()], after it has taken the mutex. *)
Theorem Map_nil_pointer_arguments
    (range_order : list (string * V2.fieldInfo) -> list (string * V2.fieldInfo))
    (n1 n2 : string) (fs1 fs2 : list (StructField type))
    (dst : option nat) (lf : nat) (s : state) :
  V2.Map range_order (Box (TPtr (TStruct n1 fs1)) (VPtr None))
    (Box (TPtr (TStruct n2 fs2)) (VPtr dst)) s
    = (s, Ok None)
  /\ (mu (s_mapper s) = false ->
      V2.Map range_order (ptr_to (TStruct n1 fs1) lf)
        (Box (TPtr (TStruct n2 fs2)) (VPtr None)) s
      = (locked s,
         Panic "reflect: call of reflect.Value.Type on zero Value")).
Proof.
  split.
  - unfold V2.Map, reflect_TypeOf, reflect_ValueOf, V2.fuel_for.
    cbn [box_type box_value V2.ptr_to_slice_of_structs
         V2.isStructOrPtrToStruct V2.elem_Kind_is type_Kind type_Elem
         Kind_eqb andb orb type_size].
    rewrite (bind_Ok _ _ _ _ _ (Value_Elem_nil _ _ _)).
    destruct dst as [l|].
    + rewrite (bind_Ok _ _ _ _ _ (Value_Elem_Imm _ _ _ _)).
      rewrite mapStructs_S. reflexivity.
    + rewrite (bind_Ok _ _ _ _ _ (Value_Elem_nil _ _ _)).
      rewrite mapStructs_S. reflexivity.
  - intros Hmu.
    unfold V2.Map, ptr_to, reflect_TypeOf, reflect_ValueOf, V2.fuel_for.
    cbn [box_type box_value V2.ptr_to_slice_of_structs
         V2.isStructOrPtrToStruct V2.elem_Kind_is type_Kind type_Elem
         Kind_eqb andb orb type_size].
    rewrite (bind_Ok _ _ _ _ _ (Value_Elem_Imm _ _ _ _)).
    rewrite (bind_Ok _ _ _ _ _
               (Value_Elem_nil _ _ _)).
    rewrite mapStructs_S. cbn [Value_IsValid negb].
    rewrite (bind_Ok _ _ _ _ _ (Lock_run s Hmu)).
    reflexivity.
Qed.

(** The cell [lf] holds a slice of length zero: nil, or over an empty
    array. *)
Definition empty_slice_at (h : list value) (lf : nat) : Prop :=
  h !! lf = Some (VSlice None)
  \/ exists b, h !! lf = Some (VSlice (Some b)) /\ h !! b = Some (VArray []).

Lemma empty_slice_at_app h lf x : empty_slice_at h lf -> empty_slice_at (h ++ x) lf.
Proof.
  intros [H|(b & H & Hb)]; [left|right; exists b; split];
    apply lookup_app_l_Some; assumption.
Qed.

Lemma Value_Len_empty e lf ro s :
  empty_slice_at (s_heap s) lf ->
  Value_Len (Val (TSlice e) (Addr lf []) ro) s = (s, Ok 0).
Proof.
  intros [H|(b & H & Hb)];
    unfold Value_Len, load, bind, get_heap, lift_option, heap_load;
    rewrite H; cbn [get_path ret]; [reflexivity|].
  rewrite Hb. reflexivity.
Qed.

(** [Map] of a pointer to a slice of length zero (nil or empty) into a
    pointer to a slice: the destination becomes a new slice of length zero
    that is not nil, whatever it held, and [Map] returns nil; nothing else
    changes and the mutex is not touched. *)
Theorem Map_of_empty_slice_replaces_destination
    (range_order : list (string * V2.fieldInfo) -> list (string * V2.fieldInfo))
    (e1 e2 : type) (lf lt : nat) (s : state) :
  V2.isStructOrPtrToStruct e1 = true ->
  V2.isStructOrPtrToStruct e2 = true ->
  empty_slice_at (s_heap s) lf ->
  lt < length (s_heap s) ->
  V2.Map range_order (ptr_to (TSlice e1) lf) (ptr_to (TSlice e2) lt) s
  = ({| s_heap := <[lt := VSlice (Some (length (s_heap s)))]>
                    (s_heap s ++ [VArray []]);
        s_mapper := s_mapper s |},
     Ok None).
Proof.
  intros H1 H2 Hsrc Hlt.
  unfold V2.Map, ptr_to, reflect_TypeOf, reflect_ValueOf.
  cbn [box_type box_value V2.ptr_to_slice_of_structs V2.elem_Kind_is
       V2.elem_isStructOrPtrToStruct type_Kind type_Elem Kind_eqb andb].
  rewrite H1, H2. cbn [andb].
  rewrite (bind_Ok _ _ _ _ _ (Value_Elem_Imm _ _ _ _)).
  rewrite (bind_Ok _ _ _ _ _ (Value_Elem_Imm _ _ _ _)).
  unfold V2.mapSlicesFunc.
  rewrite (bind_Ok _ _ _ _ _ eq_refl).
  rewrite (bind_Ok _ _ _ _ _ (Value_Len_empty _ _ _ _ Hsrc)).
  rewrite (bind_Ok _ _ _ _ _ eq_refl).
  unfold V2.setArrayValue.
  set (s' := {| s_heap := s_heap s ++ [VArray (replicate 0 (zero_value e2))];
                s_mapper := s_mapper s |}).
  assert (Hsrc' : empty_slice_at (s_heap s') lf)
    by (apply empty_slice_at_app; exact Hsrc).
  rewrite (bind_Ok _ _ _ _ _
             (bind_Ok _ _ _ _ _ (Value_Len_empty e1 lf false s' Hsrc'))).
  cbn [seq V2.setArrayValue_loop ret].
  unfold Value_Set. rewrite type_eqb_refl.
  unfold bind, load, ret, get_heap, lift_option, heap_store.
  cbn [s_heap s']. 
  destruct (lookup_lt_is_Some_2 (s_heap s) lt Hlt) as [v Hv].
  rewrite (lookup_app_l_Some _ _ _ _ Hv). reflexivity.
Qed.

Lemma Map_of_empty_slice_replaces_destination_witness :
  V2.Map range_in_order (ptr_to (TSlice Simple1) 0) (ptr_to (TSlice Simple2) 1)
    {| s_heap := [VSlice None; VSlice (Some 2%nat); VArray [zero_value Simple2]];
       s_mapper := New |}
  = ({| s_heap := [VSlice None; VSlice (Some 3%nat);
                   VArray [zero_value Simple2]; VArray []];
        s_mapper := New |},
     Ok None).
Proof.
  exact (Map_of_empty_slice_replaces_destination range_in_order
           Simple1 Simple2 0 1
           {| s_heap := [VSlice None; VSlice (Some 2%nat);
                         VArray [zero_value Simple2]];
              s_mapper := New |}
           eq_refl eq_refl (or_introl eq_refl)
           (le_S 2 2 (le_n 2))).
Defined.

(** ** The earlier revision: a converter with one result *)

(** In [mapper.go] the loop of [mapStructs] returns nil as soon as a
    converter with a single result has been applied: the destination field
    receives the result and the entries left are not visited. *)
Theorem V1_one_result_converter_ends_the_loop
    (rec : Value -> Value -> M (option error))
    (toFields : gmap string V1.fieldInfo)
    (name : string) (ft td tp' : type) (wf : place)
    (l : nat) (p : list nat) (rest : list (string * V1.fieldInfo))
    (conv : Func) (xv : value) (h' : list value) (s : state) :
  converters_lookup {| ci_from := ft; ci_to := td |} (converters (s_mapper s))
    = Some conv ->
  fn_In conv = ft ->
  fn_Out conv = td ->
  fn_second conv = None ->
  toFields !! name
    = Some {| V1.tp := tp'; V1.val := Val td (Addr l p) false |} ->
  load (Val ft wf false) s = (s, Ok xv) ->
  heap_store (s_heap s) l p (fn_first conv xv) = Some h' ->
  V1.mapStructs_range rec toFields
      ((name, {| V1.tp := ft; V1.val := Val ft wf false |}) :: rest) s
    = ({| s_heap := h'; s_mapper := s_mapper s |}, Ok None).
Proof.
  intros Hc Hin Hout Hsnd Hto Hload Hstore.
  assert (Hcall : Func_Call conv (Val ft wf false) s
                  = (s, Ok (Val td (Imm (fn_first conv xv)) false, []))).
  { unfold Func_Call. rewrite Hin, type_eqb_refl.
    rewrite (bind_Ok _ _ _ _ _ Hload). rewrite Hsnd, Hout. reflexivity. }
  assert (Hset : Value_Set (Val td (Addr l p) false)
                   (Val td (Imm (fn_first conv xv)) false) s
                 = ({| s_heap := h'; s_mapper := s_mapper s |}, Ok ())).
  { unfold Value_Set. rewrite type_eqb_refl.
    unfold bind, load, ret, get_heap. rewrite Hstore. reflexivity. }
  assert (Hturn : V1.mapStructs_turn rec toFields name
                    {| V1.tp := ft; V1.val := Val ft wf false |} s
                  = ({| s_heap := h'; s_mapper := s_mapper s |},
                     Ok (inl None))).
  { unfold V1.mapStructs_turn. rewrite Hto. cbn [V1.val V1.tp].
    rewrite (bind_Ok _ _ _ _ _ eq_refl).
    rewrite (bind_Ok _ _ _ _ _ eq_refl).
    rewrite Hc.
    erewrite bind_Ok
      by (rewrite (bind_Ok _ _ _ _ _ Hcall); cbn [fst snd];
          rewrite (bind_Ok _ _ _ _ _ Hset); reflexivity).
    reflexivity. }
  cbn [V1.mapStructs_range].
  rewrite (bind_Ok _ _ _ _ _ Hturn). reflexivity.
Qed.

Lemma V1_one_result_converter_ends_the_loop_witness :
  V1.mapStructs_range (V1.mapStructs range_in_order 1)
      {[ "Field1" := {| V1.tp := TString;
                        V1.val := Val TString (Addr 1 [0%nat]) false |};
         "Field2" := {| V1.tp := TInt;
                        V1.val := Val TInt (Addr 1 [1%nat]) false |} ]}
      [("Field1", {| V1.tp := TInt; V1.val := Val TInt (Addr 0 [0%nat]) false |});
       ("Field2", {| V1.tp := TInt; V1.val := Val TInt (Addr 0 [1%nat]) false |})]
      (mapper_with Itoa [VStruct [VInt 1; VInt 2];
                         VStruct [VString EmptyString; VInt 0]])
    = ({| s_heap := [VStruct [VInt 1; VInt 2]; VStruct [VString "1"; VInt 0]];
          s_mapper :=
            s_mapper (mapper_with Itoa
                        [VStruct [VInt 1; VInt 2];
                         VStruct [VString EmptyString; VInt 0]]) |},
       Ok None).
Proof.
  apply (V1_one_result_converter_ends_the_loop
           (V1.mapStructs range_in_order 1)
           {[ "Field1" := {| V1.tp := TString;
                             V1.val := Val TString (Addr 1 [0%nat]) false |};
              "Field2" := {| V1.tp := TInt;
                             V1.val := Val TInt (Addr 1 [1%nat]) false |} ]}
           "Field1" TInt TString TString (Addr 0 [0%nat]) 1%nat [0%nat]
           [("Field2", {| V1.tp := TInt;
                          V1.val := Val TInt (Addr 0 [1%nat]) false |})]
           Itoa (VInt 1)
           [VStruct [VInt 1; VInt 2]; VStruct [VString "1"; VInt 0]]
           (mapper_with Itoa [VStruct [VInt 1; VInt 2];
                              VStruct [VString EmptyString; VInt 0]]));
    vm_compute; reflexivity.
Defined.

(** ** What a mapping does to the mapper *)

Definition smi_matches (k : structMappingInfo)
    (e : structMappingInfo * list fieldMappingInfo) : bool :=
  type_eqb (smi_from (fst e)) (smi_from k) && type_eqb (smi_to (fst e)) (smi_to k).

Lemma smi_matches_eq k e : smi_matches k e = true <-> fst e = k.
Proof.
  unfold smi_matches. rewrite andb_true_iff, !type_eqb_eq.
  destruct e as [[a b] f], k as [c d]; simpl. split.
  - intros [-> ->]. reflexivity.
  - intros [= -> ->]. auto.
Qed.

Lemma knownMappings_lookup_insert_ne k k' v l :
  k' <> k ->
  knownMappings_lookup k' (V2.knownMappings_insert k v l)
  = knownMappings_lookup k' l.
Proof.
  intros Hne. unfold knownMappings_lookup, V2.knownMappings_insert.
  change (fun e : structMappingInfo * list fieldMappingInfo =>
            type_eqb (smi_from (fst e)) (smi_from k')
            && type_eqb (smi_to (fst e)) (smi_to k')) with (smi_matches k').
  change (fun e : structMappingInfo * list fieldMappingInfo =>
            negb (type_eqb (smi_from (fst e)) (smi_from k)
                  && type_eqb (smi_to (fst e)) (smi_to k)))
    with (fun e => negb (smi_matches k e)).
  cbn [find].
  destruct (smi_matches k' (k, v)) eqn:E.
  { apply smi_matches_eq in E. simpl in E. congruence. }
  f_equal. induction l as [|e l IH]; [reflexivity|]. cbn [List.filter find].
  destruct (smi_matches k e) eqn:Ek; cbn [negb].
  - destruct (smi_matches k' e) eqn:Ek'; [|exact IH].
    apply smi_matches_eq in Ek, Ek'. congruence.
  - cbn [find]. destruct (smi_matches k' e); [reflexivity|exact IH].
Qed.

Lemma structMappingInfo_eq_dec (a b : structMappingInfo) : {a = b} + {a <> b}.
Proof.
  destruct a as [a1 a2], b as [b1 b2].
  destruct (type_eqb a1 b1) eqn:E1; [apply type_eqb_eq in E1; subst|].
  - destruct (type_eqb a2 b2) eqn:E2; [apply type_eqb_eq in E2; subst; auto|].
    right. intros [= ->]. rewrite type_eqb_refl in E2. discriminate.
  - right. intros [= -> _]. rewrite type_eqb_refl in E1. discriminate.
Qed.

Create HintDb kp discriminated.

Section Keeps.
Variable Rm : Mapper -> Mapper -> Prop.
Hypothesis Rm_refl : forall m, Rm m m.
Hypothesis Rm_trans : forall a b c, Rm a b -> Rm b c -> Rm a c.
Hypothesis Rm_mu : forall m b,
  Rm m {| mu := b; converters := converters m;
          knownMappings := knownMappings m |}.
Hypothesis Rm_plan : forall m k v,
  Rm m {| mu := mu m; converters := converters m;
          knownMappings := V2.knownMappings_insert k v (knownMappings m) |}.

(** [c] takes the mapper to one related to it by [Rm]. *)
Definition keeps {A} (c : M A) : Prop :=
  forall s, Rm (s_mapper s) (s_mapper (fst (c s))).

Lemma keeps_stuck {A} (r : result A) : keeps (fun s => (s, r)).
Proof. intros s. apply Rm_refl. Qed.
Lemma keeps_ret {A} (a : A) : keeps (ret a).
Proof. apply keeps_stuck. Qed.
Lemma keeps_panic {A} msg : keeps (@panic A msg).
Proof. apply keeps_stuck. Qed.
Lemma keeps_bind {A B} (c : M A) (f : A -> M B) :
  keeps c -> (forall a, keeps (f a)) -> keeps (bind c f).
Proof.
  intros Hc Hf s. unfold bind. specialize (Hc s).
  destruct (c s) as [s1 [a|m| |]]; simpl in *; try assumption.
  eapply Rm_trans; [exact Hc|apply Hf].
Qed.
Lemma keeps_get_heap : keeps get_heap.
Proof. intros s. apply Rm_refl. Qed.
Lemma keeps_put_heap h : keeps (put_heap h).
Proof. intros s. apply Rm_refl. Qed.
Lemma keeps_get_mapper : keeps get_mapper.
Proof. intros s. apply Rm_refl. Qed.
Lemma keeps_lift_option {A} msg (o : option A) : keeps (lift_option msg o).
Proof. destruct o; intros s; apply Rm_refl. Qed.
Lemma keeps_Lock : keeps Lock.
Proof.
  intros s. unfold Lock, bind, get_mapper. simpl.
  destruct (mu (s_mapper s)); simpl; [apply Rm_refl|apply Rm_mu].
Qed.
Lemma keeps_Unlock : keeps Unlock.
Proof.
  intros s. unfold Unlock, bind, get_mapper. simpl.
  destruct (mu (s_mapper s)); simpl; [apply Rm_mu|apply Rm_refl].
Qed.
Lemma keeps_knownMappings_append k e : keeps (V2.knownMappings_append k e).
Proof. intros s. apply Rm_plan. Qed.
Lemma keeps_knownMappings_reset k : keeps (V2.knownMappings_reset k).
Proof. intros s. apply Rm_plan. Qed.

#[local] Hint Resolve keeps_stuck keeps_ret keeps_panic keeps_get_heap
  keeps_put_heap keeps_get_mapper keeps_lift_option keeps_Lock keeps_Unlock
  keeps_knownMappings_append keeps_knownMappings_reset : kp.

Ltac solve_kp :=
  repeat first
    [ solve [eauto with kp]
    | apply keeps_bind; [|intro]
    | match goal with
      | |- keeps (match ?x with _ => _ end) => destruct x
      | |- keeps (if ?b then _ else _) => destruct b
      | |- keeps (let (_, _) := ?x in _) => destruct x
      end ].

Lemma keeps_alloc v : keeps (alloc v).
Proof. unfold alloc. solve_kp. Qed.
Lemma keeps_load v : keeps (load v).
Proof. unfold load. solve_kp. Qed.
Lemma keeps_Value_Type v : keeps (Value_Type v).
Proof. unfold Value_Type. solve_kp. Qed.
Lemma keeps_Type_Elem t : keeps (Type_Elem t).
Proof. unfold Type_Elem. solve_kp. Qed.
Lemma keeps_Value_NumField v : keeps (Value_NumField v).
Proof. unfold Value_NumField. solve_kp. Qed.
Lemma keeps_Type_Field t i : keeps (Type_Field t i).
Proof. unfold Type_Field. solve_kp. Qed.
Lemma keeps_sub_place w i : keeps (sub_place w i).
Proof. unfold sub_place. solve_kp. Qed.
#[local] Hint Resolve keeps_alloc keeps_load keeps_Value_Type keeps_Type_Elem
  keeps_Value_NumField keeps_Type_Field keeps_sub_place : kp.
Lemma keeps_Value_Field v i : keeps (Value_Field v i).
Proof. unfold Value_Field. solve_kp. Qed.
Lemma keeps_Value_Elem v : keeps (Value_Elem v).
Proof. unfold Value_Elem. solve_kp. Qed.
Lemma keeps_Value_Len v : keeps (Value_Len v).
Proof. unfold Value_Len. solve_kp. Qed.
#[local] Hint Resolve keeps_Value_Field keeps_Value_Elem keeps_Value_Len : kp.
Lemma keeps_Value_Index v i : keeps (Value_Index v i).
Proof. unfold Value_Index. solve_kp. Qed.
Lemma keeps_Value_IsZero v : keeps (Value_IsZero v).
Proof. unfold Value_IsZero. solve_kp. Qed.
Lemma keeps_Value_IsNil v : keeps (Value_IsNil v).
Proof. unfold Value_IsNil. solve_kp. Qed.
Lemma keeps_Func_Call fn x : keeps (Func_Call fn x).
Proof. unfold Func_Call. solve_kp. Qed.
Lemma keeps_Value_Set v x : keeps (Value_Set v x).
Proof. unfold Value_Set. solve_kp. Qed.
Lemma keeps_reflect_New t : keeps (reflect_New t).
Proof. unfold reflect_New. solve_kp. Qed.
Lemma keeps_reflect_MakeSlice t n c : keeps (reflect_MakeSlice t n c).
Proof. unfold reflect_MakeSlice. solve_kp. Qed.
#[local] Hint Resolve keeps_Value_Index keeps_Value_IsZero keeps_Value_IsNil
  keeps_Func_Call keeps_Value_Set keeps_reflect_New
  keeps_reflect_MakeSlice : kp.
Lemma keeps_detectMappingType a b : keeps (V2.detectMappingType a b).
Proof. unfold V2.detectMappingType. solve_kp. Qed.
Lemma keeps_getFieldInfo_from from ixs : forall acc,
  keeps (V2.getFieldInfo_from from ixs acc).
Proof. induction ixs; intros acc; simpl; solve_kp. Qed.
Lemma keeps_getFieldInfo_to to ixs : forall acc,
  keeps (V2.getFieldInfo_to to ixs acc).
Proof. induction ixs; intros acc; simpl; solve_kp. Qed.
#[local] Hint Resolve keeps_detectMappingType keeps_getFieldInfo_from
  keeps_getFieldInfo_to : kp.
Lemma keeps_getFieldInfo from to : keeps (V2.getFieldInfo from to).
Proof. unfold V2.getFieldInfo. solve_kp. Qed.
#[local] Hint Resolve keeps_getFieldInfo : kp.

Section Strategies_keep.
Variable rec : Value -> Value -> M (option error).
Hypothesis Hrec : forall from to, keeps (rec from to).
#[local] Hint Resolve Hrec : kp.

Lemma keeps_mapStructsFunc a b : keeps (V2.mapStructsFunc rec a b).
Proof. unfold V2.mapStructsFunc. solve_kp. Qed.
Lemma keeps_setArrayValue_body a b c i :
  keeps (V2.setArrayValue_body rec a b c i).
Proof. unfold V2.setArrayValue_body. solve_kp. Qed.
#[local] Hint Resolve keeps_setArrayValue_body : kp.
Lemma keeps_setArrayValue_loop a b c ixs :
  keeps (V2.setArrayValue_loop rec a b c ixs).
Proof. induction ixs; simpl; solve_kp. Qed.
#[local] Hint Resolve keeps_setArrayValue_loop : kp.
Lemma keeps_setArrayValue a b c : keeps (V2.setArrayValue rec a b c).
Proof. unfold V2.setArrayValue. solve_kp. Qed.
#[local] Hint Resolve keeps_setArrayValue : kp.
Lemma keeps_mapSlicesFunc a b : keeps (V2.mapSlicesFunc rec a b).
Proof. unfold V2.mapSlicesFunc. solve_kp. Qed.
Lemma keeps_mapArraysFunc a b : keeps (V2.mapArraysFunc rec a b).
Proof. unfold V2.mapArraysFunc. solve_kp. Qed.
Lemma keeps_mapSameTypesFunc a b : keeps (V2.mapSameTypesFunc a b).
Proof. unfold V2.mapSameTypesFunc. solve_kp. Qed.
Lemma keeps_mapConverterFunc a b : keeps (V2.mapConverterFunc a b).
Proof. unfold V2.mapConverterFunc. solve_kp. Qed.
Lemma keeps_strats t a b : keeps (V2.strats rec t a b).
Proof.
  destruct t; simpl;
    auto using keeps_mapStructsFunc, keeps_mapSlicesFunc, keeps_mapArraysFunc,
      keeps_mapSameTypesFunc, keeps_mapConverterFunc with kp.
Qed.
#[local] Hint Resolve keeps_strats : kp.
Lemma keeps_mapKnownStruct plan a b : keeps (V2.mapKnownStruct rec plan a b).
Proof. induction plan; simpl; solve_kp. Qed.
Lemma keeps_mapStructs_range mi toFields l :
  keeps (V2.mapStructs_range rec mi toFields l).
Proof. induction l as [|[name fromVal] rest IH]; simpl; solve_kp. Qed.
End Strategies_keep.

Lemma keeps_mapStructs range_order fuel : forall from to,
  keeps (V2.mapStructs range_order fuel from to).
Proof.
  induction fuel as [|fuel IH]; intros from to; simpl.
  - solve_kp.
  - pose proof (keeps_mapKnownStruct _ IH).
    pose proof (keeps_mapStructs_range _ IH).
    solve_kp.
Qed.

Lemma keeps_Map range_order from to : keeps (V2.Map range_order from to).
Proof.
  unfold V2.Map.
  pose proof (keeps_mapSlicesFunc _ (keeps_mapStructs range_order
                                       (V2.fuel_for (reflect_TypeOf from)))).
  pose proof (keeps_mapStructs range_order (V2.fuel_for (reflect_TypeOf from))).
  solve_kp.
Qed.
End Keeps.

(** The registry and the keys of the plan cache after a mapping. *)
Definition grows (m m' : Mapper) : Prop :=
  converters m' = converters m
  /\ forall mi, is_Some (knownMappings_lookup mi (knownMappings m)) ->
                is_Some (knownMappings_lookup mi (knownMappings m')).

Lemma grows_refl m : grows m m.
Proof. split; auto. Qed.
Lemma grows_trans a b c : grows a b -> grows b c -> grows a c.
Proof. intros [H1 H2] [H3 H4]. split; [congruence|auto]. Qed.
Lemma grows_mu m b :
  grows m {| mu := b; converters := converters m;
             knownMappings := knownMappings m |}.
Proof. split; auto. Qed.
Lemma grows_plan m k v :
  grows m {| mu := mu m; converters := converters m;
             knownMappings := V2.knownMappings_insert k v (knownMappings m) |}.
Proof.
  split; [reflexivity|]. intros mi H. cbn [knownMappings].
  destruct (structMappingInfo_eq_dec mi k) as [->|Hne].
  - rewrite knownMappings_lookup_insert. eauto.
  - rewrite knownMappings_lookup_insert_ne by assumption. exact H.
Qed.

(** [Map] never touches the registry of converters and never removes a
    pair of shapes from the plan cache: what [Set] registered before the
    call is registered after it, and every pair that had a plan has one,
    whatever the outcome of the call. *)
Theorem Map_keeps_converters_and_plan_keys
    (range_order : list (string * V2.fieldInfo) -> list (string * V2.fieldInfo))
    (from to : boxed) (s : state) :
  converters (s_mapper (fst (V2.Map range_order from to s)))
    = converters (s_mapper s)
  /\ forall mi,
       is_Some (knownMappings_lookup mi (knownMappings (s_mapper s))) ->
       is_Some (knownMappings_lookup mi
                  (knownMappings (s_mapper (fst (V2.Map range_order from to s))))).
Proof.
  exact (keeps_Map grows grows_refl grows_trans grows_mu grows_plan
           range_order from to s).
Qed.

(** ** Slices: the destination has the length of the source *)

(** The cell [b] holds an array of [n] elements. *)
Definition array_of_length (b n : nat) (h : list value) : Prop :=
  exists es, h !! b = Some (VArray es) /\ length es = n.

Lemma array_of_length_lt b n h : array_of_length b n h -> b < length h.
Proof. intros (es & H & _). apply lookup_lt_Some in H. exact H. Qed.

Lemma array_of_length_pres k b n h h' :
  b < k -> pres k (fun _ => False) h h' ->
  array_of_length b n h -> array_of_length b n h'.
Proof.
  intros Hb [_ Hp] (es & H & Hn). exists es. split; [|exact Hn].
  rewrite Hp; auto.
Qed.

Lemma array_of_length_store b n i x h h' :
  heap_store h b [i] x = Some h' ->
  array_of_length b n h -> array_of_length b n h'.
Proof.
  unfold heap_store. intros Hs (es & H & Hn). rewrite H in Hs.
  cbn [set_path children] in Hs.
  destruct (es !! i) as [c|]; [|discriminate].
  injection Hs as <-. exists (<[i := x]> es). split.
  - apply list_lookup_insert_eq. apply lookup_lt_Some in H. exact H.
  - rewrite length_insert. exact Hn.
Qed.

Lemma Value_Index_slice_inv e b ro i s s1 a :
  Value_Index (Val (TSlice e) (Imm (VSlice (Some b))) ro) i s = (s1, Ok a) ->
  a = Val e (Addr b [i]) ro.
Proof.
  unfold Value_Index. intros H.
  apply bind_Ok_inv in H as (s2 & k & _ & H).
  destruct (Nat.ltb i k); [|discriminate].
  apply bind_Ok_inv in H as (s3 & x & Hx & H).
  cbn [load] in Hx. injection Hx as _ <-. injection H as _ <-. reflexivity.
Qed.

Section Slices_length.
Variable rec : Value -> Value -> M (option error).
Hypothesis Hrec : frame_spec rec.
Variables (e : type) (b n : nat).

Local Abbreviation slice := (Val (TSlice e) (Imm (VSlice (Some b))) false).

Lemma store_at_index_keeps_length i x s s1 s2 a u :
  Value_Index slice i s = (s1, Ok a) ->
  Value_Set a x s1 = (s2, Ok u) ->
  array_of_length b n (s_heap s) -> array_of_length b n (s_heap s2).
Proof.
  intros Hi Hset Hlen.
  pose proof (run_ro _ _ _ _ (heap_ro_Value_Index _ _) Hi) as E.
  apply Value_Index_slice_inv in Hi. subst a.
  apply Value_Set_inv in Hset
    as (t & l & p & tx & w & xv & Hv & _ & _ & _ & Hstore & _).
  injection Hv as <- <- <-. rewrite E in Hstore.
  exact (array_of_length_store _ _ _ _ _ _ Hstore Hlen).
Qed.

Lemma setArrayValue_body_keeps_length fromVal toVal i s s' r :
  V2.setArrayValue_body rec fromVal toVal slice i s = (s', Ok r) ->
  array_of_length b n (s_heap s) -> array_of_length b n (s_heap s').
Proof.
  intros H Hlen. pose proof (array_of_length_lt _ _ _ Hlen) as Hb.
  unfold V2.setArrayValue_body in H.
  apply bind_Ok_inv in H as (s1 & tt & H1 & H).
  pose proof (run_ro _ _ _ _ (heap_ro_Value_Type _) H1) as E1.
  apply bind_Ok_inv in H as (s2 & toElemType & H2 & H).
  pose proof (run_ro _ _ _ _ (heap_ro_Type_Elem _) H2) as E2.
  apply bind_Ok_inv in H as (s3 & arrayElem & H3 & H).
  assert (P3 : pres (length (s_heap s)) (fun _ => False)
                 (s_heap s2) (s_heap s3)).
  { pose proof (pres_new_elem (length (s_heap s)) (fun _ => False)
                  (Kind_eqb (type_Kind toElemType) KPtr) toElemType s2) as P.
    rewrite H3 in P. apply P. rewrite E2, E1. lia. }
  apply new_elem_inv in H3 as [t ->].
  apply bind_Ok_inv in H as (s4 & ft & H4 & H).
  pose proof (run_ro _ _ _ _ (heap_ro_Value_Type _) H4) as E4.
  apply bind_Ok_inv in H as (s5 & fromElemType & H5 & H).
  pose proof (run_ro _ _ _ _ (heap_ro_Type_Elem _) H5) as E5.
  apply bind_Ok_inv in H as (s6 & err & H6 & H).
  assert (L5 : length (s_heap s) <= length (s_heap s5)).
  { rewrite E5, E4. destruct P3 as [L _]. rewrite E2, E1 in L. exact L. }
  assert (P6 : pres (length (s_heap s)) (fun _ => False)
                 (s_heap s5) (s_heap s6)).
  { destruct (Kind_eqb (type_Kind fromElemType) KStruct).
    - pose proof (pres_rec_fresh rec Hrec (length (s_heap s)) (fun _ => False)
                    (Value_Index fromVal i) (length (s_heap s2)) t s5 L5) as P.
      rewrite H6 in P. apply P; [rewrite E2, E1; lia|apply heap_ro_Value_Index].
    - injection H6 as <- _. apply pres_refl. }
  apply bind_Ok_inv in H as (s7 & err' & H7 & H).
  assert (L6 : length (s_heap s) <= length (s_heap s6)).
  { destruct P6 as [L _]. lia. }
  assert (P7 : pres (length (s_heap s)) (fun _ => False)
                 (s_heap s6) (s_heap s7)).
  { destruct (Kind_eqb (type_Kind fromElemType) KPtr).
    - apply bind_Ok_inv in H7 as (s8 & f & H8 & H7).
      pose proof (run_ro _ _ _ _ (heap_ro_Value_Index _ _) H8) as E8.
      apply bind_Ok_inv in H7 as (s9 & f' & H9 & H7).
      pose proof (run_ro _ _ _ _ (heap_ro_Value_Elem _) H9) as E9.
      apply bind_Ok_inv in H7 as (s10 & t0 & H10 & H7).
      rewrite Value_Elem_Imm in H10. injection H10 as <- <-.
      pose proof (Hrec (length (s_heap s)) (fun _ => False) f'
                    (Val t (Addr (length (s_heap s2)) []) false) s9) as P.
      rewrite H7 in P. rewrite <- E8, <- E9. apply P.
      + rewrite E9, E8. exact L6.
      + simpl. intros l [= <-] Hl. rewrite E2, E1 in Hl. lia.
    - injection H7 as <- _. apply pres_refl. }
  assert (Hlen7 : array_of_length b n (s_heap s7)).
  { apply (array_of_length_pres _ _ _ _ _ Hb P7).
    apply (array_of_length_pres _ _ _ _ _ Hb P6).
    rewrite E5, E4.
    apply (array_of_length_pres _ _ _ _ _ Hb P3).
    rewrite E2, E1. exact Hlen. }
  destruct err' as [e'|]; [injection H as <- _; exact Hlen7|].
  destruct (Kind_eqb (type_Kind toElemType) KPtr).
  - apply bind_Ok_inv in H as (s8 & a & H8 & H).
    apply bind_Ok_inv in H as (s9 & u & H9 & H).
    injection H as <- _.
    exact (store_at_index_keeps_length _ _ _ _ _ _ _ H8 H9 Hlen7).
  - apply bind_Ok_inv in H as (s8 & a & H8 & H).
    apply bind_Ok_inv in H as (s9 & x & H9 & H).
    apply bind_Ok_inv in H as (s10 & u & H10 & H).
    injection H as <- _.
    pose proof (run_ro _ _ _ _ (heap_ro_Value_Index _ _) H8) as E8.
    pose proof (run_ro _ _ _ _ (heap_ro_Value_Elem _) H9) as E9.
    apply Value_Index_slice_inv in H8. subst a.
    apply Value_Set_inv in H10
      as (t' & l & p & tx & w & xv & Hv & _ & _ & _ & Hstore & _).
    injection Hv as <- <- <-. rewrite E9, E8 in Hstore.
    exact (array_of_length_store _ _ _ _ _ _ Hstore Hlen7).
Qed.

Lemma setArrayValue_loop_keeps_length fromVal toVal ixs : forall s s' r,
  V2.setArrayValue_loop rec fromVal toVal slice ixs s = (s', Ok r) ->
  array_of_length b n (s_heap s) -> array_of_length b n (s_heap s').
Proof.
  induction ixs as [|i ixs IH]; intros s s' r H Hlen; simpl in H.
  - injection H as <- _. exact Hlen.
  - apply bind_Ok_inv in H as (s1 & err & H1 & H).
    pose proof (setArrayValue_body_keeps_length _ _ _ _ _ _ H1 Hlen) as Hlen1.
    destruct err; [injection H as <- _; exact Hlen1|].
    exact (IH _ _ _ H Hlen1).
Qed.
End Slices_length.

(** The strategy for slices.  When [mapSlicesFunc] returns nil, the
    destination is a slice of as many elements as the source has: the slice
    it made with the source's length and filled index by index. *)
Theorem mapSlicesFunc_destination_has_source_length
    (range_order : list (string * V2.fieldInfo) -> list (string * V2.fieldInfo))
    (fuel : nat) (from : Value) (e2 : type) (l : nat) (p : list nat)
    (n : nat) (s s' : state) :
  l < length (s_heap s) ->
  Value_Len from s = (s, Ok n) ->
  V2.mapSlicesFunc (V2.mapStructs range_order fuel) from
    (Val (TSlice e2) (Addr l p) false) s = (s', Ok None) ->
  Value_Len (Val (TSlice e2) (Addr l p) false) s' = (s', Ok n).
Proof.
  intros Hl Hn H. unfold V2.mapSlicesFunc in H.
  apply bind_Ok_inv in H as (s1 & tt & H1 & H).
  injection H1 as <- <-.
  rewrite (bind_Ok _ _ _ _ _ Hn) in H.
  apply bind_Ok_inv in H as (s3 & sl & H3 & H).
  cbn [reflect_MakeSlice] in H3. rewrite Nat.leb_refl in H3.
  unfold bind in H3. rewrite alloc_run in H3. cbn [ret] in H3.
  injection H3 as <- <-.
  apply bind_Ok_inv in H as (s4 & err & H4 & H).
  set (b := length (s_heap s)) in *.
  assert (Hlen3 : array_of_length b n
                    (s_heap s ++ [VArray (replicate n (zero_value e2))])).
  { exists (replicate n (zero_value e2)). split.
    - unfold b. rewrite lookup_app_r by lia. rewrite Nat.sub_diag. reflexivity.
    - apply length_replicate. }
  unfold V2.setArrayValue in H4.
  apply bind_Ok_inv in H4 as (s5 & k & H5 & H4).
  pose proof (run_ro _ _ _ _ (heap_ro_Value_Len _) H5) as E5.
  assert (Hlen5 : array_of_length b n (s_heap s5))
    by (rewrite E5; exact Hlen3).
  pose proof (setArrayValue_loop_keeps_length _
                (mapStructs_frame range_order fuel) e2 b n _ _ _ _ _ _
                H4 Hlen5) as Hlen4.
  destruct err as [e|]; [discriminate|].
  apply bind_Ok_inv in H as (s6 & u & H6 & H). injection H as <-.
  apply Value_Set_inv in H6
    as (t & l0 & p0 & tx & w & xv & Hv & Hx & _ & Hload & Hstore & _).
  injection Hv as <- <- <-. injection Hx as <- <-.
  cbn [load] in Hload. injection Hload as <-.
  destruct Hlen4 as (es & Hes & Hlen).
  unfold Value_Len.
  rewrite (bind_Ok _ _ _ _ _
             (proj2 (load_Addr _ _ _ _ _ _)
                (heap_load_store _ _ _ _ _ Hstore))).
  unfold bind, get_heap, heap_load.
  rewrite (heap_store_other _ _ _ _ _ b Hstore) by (unfold b; lia).
  rewrite Hes. cbn [get_path ret]. rewrite Hlen. reflexivity.
Qed.

(** [TestMapper_Map_Slices_Fields], one field: cell 0 is the source slice
    over the array in cell 1, cell 2 the destination, a nil slice. *)
Definition slices_state : state :=
  {| s_heap := [VSlice (Some 1%nat); VArray [simple1; simple1]; VSlice None];
     s_mapper := New |}.

Lemma mapSlicesFunc_destination_has_source_length_witness :
  Value_Len (Val (TSlice Simple2) (Addr 2 []) false)
    (fst (V2.mapSlicesFunc (V2.mapStructs range_in_order 2)
            (Val (TSlice Simple1) (Addr 0 []) false)
            (Val (TSlice Simple2) (Addr 2 []) false) slices_state))
  = (fst (V2.mapSlicesFunc (V2.mapStructs range_in_order 2)
            (Val (TSlice Simple1) (Addr 0 []) false)
            (Val (TSlice Simple2) (Addr 2 []) false) slices_state),
     Ok 2%nat).
Proof.
  apply (mapSlicesFunc_destination_has_source_length range_in_order 2
           (Val (TSlice Simple1) (Addr 0 []) false) Simple2 2 [] 2
           slices_state).
  - exact (le_n 3).
  - reflexivity.
  - vm_compute. reflexivity.
Defined.

(** Termination.  Every call of [mapStructs] made by a strategy is on a
    field, an element or a pointee of the caller's source, whose type is a
    strict part of the type of that source: with more fuel than the size of
    the type of its source [mapStructs] never runs out of it, for any order
    of iteration, and [Map], which starts with the size of the type of its
    first argument, returns, panics or blocks. *)
Theorem Map_terminates
    (range_order : list (string * V2.fieldInfo) -> list (string * V2.fieldInfo)) :
  (forall l, range_order l ≡ₚ l) ->
  (forall fuel from to s,
     Value_size from < fuel ->
     snd (V2.mapStructs range_order fuel from to s) <> OutOfFuel)
  /\ (forall from to s, snd (V2.Map range_order from to s) <> OutOfFuel).
Proof.
  intros Hperm. split.
  - intros fuel from to s Hsz.
    exact (fuel_ok_mapStructs range_order Hperm fuel from to Hsz s).
  - intros from to s. exact (fuel_ok_Map range_order Hperm from to s).
Qed.

Lemma Map_terminates_witness :
  (forall l : list (string * V2.fieldInfo), range_in_order l ≡ₚ l)
  /\ snd (V2.Map range_in_order (ptr_to Structs1 1) (ptr_to Structs2 2)
            {| s_heap := structs_heap; s_mapper := New |}) <> OutOfFuel.
Proof.
  assert (Hp : forall l : list (string * V2.fieldInfo), range_in_order l ≡ₚ l)
    by (intros l; reflexivity).
  split; [exact Hp|].
  exact (proj2 (Map_terminates range_in_order Hp)
           (ptr_to Structs1 1) (ptr_to Structs2 2)
           {| s_heap := structs_heap; s_mapper := New |}).
Defined.

(** ** The earlier revision: the errors of [Map] *)

(** An error of the mapping in [mapper.go]: it wraps [ErrMissingConverter]
    or [ErrConverter]. *)
Definition mapping_error1 (e : error) : Prop :=
  (errors_Is e ErrMissingConverter = true \/ errors_Is e ErrConverter = true)
  /\ errors_Is e ErrNotAPtr = false.

Definition errs_ok1 (r : option error) : Prop :=
  forall e, r = Some e -> mapping_error1 e.

Lemma errs_ok1_None : errs_ok1 None.
Proof. intros e [=]. Qed.

Lemma errs_ok1_setArrayValue e :
  errs_ok1 (Some e) -> errs_ok1 (Some (Errorf_setArrayValue e)).
Proof.
  intros H e' [= <-]. specialize (H e eq_refl).
  unfold mapping_error1 in *. cbn [errors_Is is_sentinel orb]. exact H.
Qed.

#[export] Hint Resolve errs_ok1_None : ylds.

Ltac solve_mapping_error1 :=
  let e := fresh "e" in
  intros e [= <-]; unfold mapping_error1; cbn [errors_Is is_sentinel orb];
  intuition.

Section Strategies_errors1.
Variable rec : Value -> Value -> M (option error).
Hypothesis Hrec : forall from to, yields (rec from to) errs_ok1.
#[local] Hint Resolve Hrec : ylds.

Lemma errs1_mapStructsFunc a b : yields (V1.mapStructsFunc rec a b) errs_ok1.
Proof.
  unfold V1.mapStructsFunc. apply yields_bind. intros a'.
  apply (yields_bind_post _ _ errs_ok1).
  - solve_errs.
  - intros [e|] He; apply yields_ret; [exact He|apply errs_ok1_None].
Qed.

Lemma errs1_setArrayValue_body a b c i :
  yields (V1.setArrayValue_body rec a b c i) errs_ok1.
Proof.
  unfold V1.setArrayValue_body.
  do 3 (apply yields_bind; intro).
  apply (yields_bind_post _ _ errs_ok1); [solve_errs|].
  intros e1 He1.
  apply (yields_bind_post _ _ errs_ok1).
  { destruct (Kind_eqb _ _); [solve_errs|apply yields_ret; exact He1]. }
  intros [e|] He; [apply yields_ret; exact He|solve_errs].
Qed.

Lemma errs1_setArrayValue a b c : yields (V1.setArrayValue rec a b c) errs_ok1.
Proof.
  unfold V1.setArrayValue. apply yields_bind. intros n.
  generalize (seq 0 n) as ixs. induction ixs as [|i ixs IH]; simpl;
    [solve_errs|].
  apply (yields_bind_post _ _ errs_ok1); [apply errs1_setArrayValue_body|].
  intros [e|] He; [apply yields_ret; exact He|exact IH].
Qed.

Lemma errs1_mapSlicesFunc a b : yields (V1.mapSlicesFunc rec a b) errs_ok1.
Proof.
  unfold V1.mapSlicesFunc. do 2 (apply yields_bind; intro).
  apply (yields_bind_post _ _ errs_ok1); [apply errs1_setArrayValue|].
  intros [e|] He; [apply yields_ret, errs_ok1_setArrayValue; exact He|solve_errs].
Qed.

Lemma errs1_mapArraysFunc a b : yields (V1.mapArraysFunc rec a b) errs_ok1.
Proof.
  unfold V1.mapArraysFunc. do 4 (apply yields_bind; intro).
  apply (yields_bind_post _ _ errs_ok1); [apply errs1_setArrayValue|].
  intros [e|] He; [apply yields_ret, errs_ok1_setArrayValue; exact He|solve_errs].
Qed.

Lemma errs1_mapSameTypesFunc a b : yields (V1.mapSameTypesFunc a b) errs_ok1.
Proof. unfold V1.mapSameTypesFunc. solve_errs. Qed.

Lemma errs1_strats t a b : yields (V1.strats rec t a b) errs_ok1.
Proof.
  destruct t; simpl;
    auto using errs1_mapStructsFunc, errs1_mapSlicesFunc, errs1_mapArraysFunc,
      errs1_mapSameTypesFunc with ylds.
Qed.

(** What a turn of the loop returns when it ends the loop. *)
Definition turn_ok1 (r : option error + unit) : Prop :=
  match r with
  | inl out => errs_ok1 out
  | inr _ => True
  end.

Lemma errs1_mapStructs_turn toFields name fromVal :
  yields (V1.mapStructs_turn rec toFields name fromVal) turn_ok1.
Proof.
  unfold V1.mapStructs_turn.
  destruct (toFields !! name) as [toVal|]; [|apply yields_ret; exact I].
  do 2 (apply yields_bind; intro).
  apply (yields_bind_post _ _
           (fun early => forall r, early = Some r -> errs_ok1 r)).
  - destruct (converters_lookup _ _); [|apply yields_ret; intros r [=]].
    apply yields_bind. intros outArgs.
    destruct (snd outArgs) as [|out1 outs].
    + apply yields_bind. intros _. apply yields_ret.
      intros r [= <-]. apply errs_ok1_None.
    + apply yields_bind. intros [e|]; apply yields_ret.
      * intros r [= <-]. solve_mapping_error1.
      * intros r [=].
  - intros [r|] Hear; [apply yields_ret; exact (Hear r eq_refl)|].
    apply yields_bind. intros mt. destruct (negb _).
    + apply (yields_bind_post _ _ errs_ok1); [apply errs1_strats|].
      intros [e|] He; apply yields_ret; [exact He|exact I].
    + do 2 (apply yields_bind; intro). apply yields_ret.
      solve_mapping_error1.
Qed.

Lemma errs1_mapStructs_range toFields l :
  yields (V1.mapStructs_range rec toFields l) errs_ok1.
Proof.
  induction l as [|[name fromVal] rest IH]; simpl; [solve_errs|].
  apply (yields_bind_post _ _ turn_ok1); [apply errs1_mapStructs_turn|].
  intros [out|u] Hr; [apply yields_ret; exact Hr|exact IH].
Qed.
End Strategies_errors1.

Lemma errs1_mapStructs range_order fuel : forall from to,
  yields (V1.mapStructs range_order fuel from to) errs_ok1.
Proof.
  induction fuel as [|fuel IH]; intros from to; simpl.
  - apply yields_OutOfFuel.
  - destruct (negb _); [solve_errs|].
    do 4 (apply yields_bind; intro).
    apply errs1_mapStructs_range. exact IH.
Qed.

Lemma Kind_eqb_eq a b : Kind_eqb a b = true <-> a = b.
Proof. destruct a, b; simpl; split; intros H; congruence. Qed.

(** [Map] of [mapper.go] returns [ErrNotAPtr], and does nothing else,
    when one of its arguments is not a pointer; when both are pointers,
    every error it returns wraps [ErrMissingConverter] or [ErrConverter]
    and is not [ErrNotAPtr].  So it returns [ErrNotAPtr] exactly for
    arguments that are not pointers. *)
Theorem V1_Map_reports_exactly_the_non_pointers
    (range_order : list (string * V1.fieldInfo) -> list (string * V1.fieldInfo))
    (from to : boxed) (s : state) :
  (type_Kind (box_type from) <> KPtr \/ type_Kind (box_type to) <> KPtr ->
   V1.Map range_order from to s = (s, Ok (Some ErrNotAPtr)))
  /\ (type_Kind (box_type from) = KPtr ->
      type_Kind (box_type to) = KPtr ->
      forall e, snd (V1.Map range_order from to s) = Ok (Some e) ->
        (errors_Is e ErrMissingConverter = true
         \/ errors_Is e ErrConverter = true)
        /\ errors_Is e ErrNotAPtr = false).
Proof.
  unfold V1.Map, reflect_ValueOf. cbn [Value_Kind]. split.
  - intros H.
    destruct (Kind_eqb (type_Kind (box_type from)) KPtr) eqn:E1;
      [|reflexivity].
    destruct (Kind_eqb (type_Kind (box_type to)) KPtr) eqn:E2;
      [|reflexivity].
    apply Kind_eqb_eq in E1, E2. tauto.
  - intros H1 H2 e H.
    apply Kind_eqb_eq in H1, H2. rewrite H1, H2 in H. cbn [negb orb] in H.
    match type of H with
    | snd (?c s) = _ => assert (Hy : yields c errs_ok1)
    end.
    { do 2 (apply yields_bind; intro). apply errs1_mapStructs. }
    match type of H with
    | snd (?c s) = _ => destruct (c s) as [s' r] eqn:E
    end.
    simpl in H. subst r. exact (Hy _ _ _ E e eq_refl).
Qed.

(** ** Nested records behind a pointer *)

(** The strategy for nested records with a destination field that is a
    pointer.  Whenever [mapStructsFunc] returns, be it nil or an error, the
    destination field holds a pointer to a struct allocated by the call,
    never the pointer it held before, and no other cell that existed before
    the call has changed: the struct the field pointed to is left as it
    was. *)
Theorem mapStructsFunc_installs_a_new_struct
    (range_order : list (string * V2.fieldInfo) -> list (string * V2.fieldInfo))
    (fuel : nat) (fromVal : Value) (te : type) (l : nat) (p : list nat)
    (s s' : state) (r : option error) :
  l < length (s_heap s) ->
  V2.mapStructsFunc (V2.mapStructs range_order fuel) fromVal
    (Val (TPtr te) (Addr l p) false) s = (s', Ok r) ->
  heap_load (s_heap s') l p = Some (VPtr (Some (length (s_heap s))))
  /\ forall l', l' < length (s_heap s) -> l' <> l ->
                s_heap s' !! l' = s_heap s !! l'.
Proof.
  intros Hl H. split.
  - unfold V2.mapStructsFunc in H.
    apply bind_Ok_inv in H as (s1 & fromVal' & H1 & H).
    assert (E1 : s_heap s1 = s_heap s).
    { destruct (Kind_eqb _ _);
        [exact (run_ro _ _ _ _ (heap_ro_Value_Elem _) H1)
        |injection H1 as <- _; reflexivity]. }
    apply bind_Ok_inv in H as (s2 & err & H2 & H).
    assert (s' = s2) by (destruct err; injection H as <- _; reflexivity).
    subst s'. clear H.
    cbn [Value_Kind type_Kind Kind_eqb] in H2.
    apply bind_Ok_inv in H2 as (s3 & tt & H3 & H2). injection H3 as <- <-.
    apply bind_Ok_inv in H2 as (s4 & te' & H4 & H2). injection H4 as <- <-.
    rewrite (bind_Ok _ _ _ _ _ (reflect_New_run _ _)) in H2.
    apply bind_Ok_inv in H2 as (s5 & u & H5 & H2).
    apply Value_Set_inv in H5
      as (t & l0 & p0 & tx & w & xv & Hv & Hx & _ & Hload & Hstore & _).
    injection Hv as <- <- <-. injection Hx as <- <-.
    cbn [load ret] in Hload. injection Hload as <-.
    cbn [s_heap] in Hstore. rewrite E1 in Hstore.
    pose proof (heap_load_store _ _ _ _ _ Hstore) as Hld.
    apply bind_Ok_inv in H2 as (s6 & toElem & H6 & H2).
    pose proof (Value_Elem_run _ _ _ _ H6). subst s6.
    apply Value_Elem_inv in H6
      as (e & w' & ro & Hv & [[Hnil _] | (l' & Hl' & ->)]).
    + injection Hv as <- <- <-. apply load_Addr in Hnil.
      rewrite Hld in Hnil. discriminate.
    + injection Hv as <- <- <-. apply load_Addr in Hl'.
      rewrite Hld in Hl'. injection Hl' as <-.
      pose proof (mapStructs_frame range_order fuel (length (s_heap s))
                    (fun _ => False) fromVal'
                    (Val te (Addr (length (s_heap s)) []) false) s5) as P.
      rewrite H2 in P. cbn [fst] in P.
      destruct P as [_ P].
      * rewrite (heap_store_length _ _ _ _ _ Hstore), length_app. lia.
      * simpl. intros ? [= <-] ?. lia.
      * unfold heap_load. rewrite (P l Hl (fun F => F)).
        exact Hld.
  - intros l' Hl' Hne.
    pose proof (mapStructsFunc_frame _ (mapStructs_frame range_order fuel)
                  (length (s_heap s)) (fun x => x = l) fromVal
                  (Val (TPtr te) (Addr l p) false) s (le_n _)) as P.
    rewrite H in P. destruct P as [_ P].
    + simpl. intros ? [= <-] _. reflexivity.
    + apply P; assumption.
Qed.

Lemma mapStructsFunc_installs_a_new_struct_witness :
  heap_load
    (s_heap (fst (V2.mapStructsFunc (V2.mapStructs range_in_order 2)
                    (Val Simple1 (Addr 0 []) false)
                    (Val (TPtr Simple2) (Addr 1 []) false)
                    {| s_heap := [simple1; VPtr (Some 2%nat);
                                  VStruct [VInt 9; VString "old"; VFloat64 0]];
                       s_mapper := New |})))
    1 []
  = Some (VPtr (Some 3%nat)).
Proof.
  refine (proj1 (mapStructsFunc_installs_a_new_struct range_in_order 2
                   (Val Simple1 (Addr 0 []) false) Simple2 1 []
                   {| s_heap := [simple1; VPtr (Some 2%nat);
                                 VStruct [VInt 9; VString "old"; VFloat64 0]];
                      s_mapper := New |}
                   _ None (le_S 2 2 (le_n 2)) _)).
  vm_compute. reflexivity.
Defined.

(** ** The earlier revision: which cells [Map] writes *)

(** A strategy of [mapper.go] writes only the cell its destination is
    rooted in, and cells it allocated. *)
Definition frame_spec1 (f : V1.fieldInfo -> V1.fieldInfo -> M (option error))
  : Prop :=
  forall n P from to s,
    n <= length (s_heap s) ->
    (forall l, root (V1.val to) = Some l -> l < n -> P l) ->
    pres n P (s_heap s) (s_heap (fst (f from to s))).

Lemma heap_ro_assert_error1 x : heap_ro (V1.assert_error x).
Proof. unfold V1.assert_error. solve_ro. Qed.
Lemma heap_ro_detectMappingType1 a b : heap_ro (V1.detectMappingType a b).
Proof. unfold V1.detectMappingType. solve_ro. Qed.
Lemma heap_ro_fromFields_loop from ixs : forall acc,
  heap_ro (V1.fromFields_loop from ixs acc).
Proof. induction ixs; intros acc; simpl; solve_ro. Qed.
Lemma heap_ro_toFields_loop to ixs : forall acc,
  heap_ro (V1.toFields_loop to ixs acc).
Proof. induction ixs; intros acc; simpl; solve_ro. Qed.
#[export] Hint Resolve heap_ro_assert_error1 heap_ro_detectMappingType1
  heap_ro_fromFields_loop heap_ro_toFields_loop : ro.

Lemma mapSameTypesFunc_frame1 : frame_spec1 V1.mapSameTypesFunc.
Proof.
  intros n P from to s Hn HP. unfold V1.mapSameTypesFunc.
  pstep (apply pres_Value_Set; assumption) as u s1 Hr1 Hn1. apply pres_refl.
Qed.

Section Strategies_frame1.
Variable rec : Value -> Value -> M (option error).
Hypothesis Hrec : frame_spec rec.

Lemma mapStructsFunc_frame1 : frame_spec1 (V1.mapStructsFunc rec).
Proof.
  intros n P from to s Hn HP. unfold V1.mapStructsFunc.
  pstep (destruct (Kind_eqb (Value_Kind (V1.val from)) KPtr);
         apply pres_ro; solve_ro) as from' s1 Hr1 Hn1.
  pstep idtac as err s2 Hr2 Hn2; [|apply pres_ret_err].
  destruct (Kind_eqb (Value_Kind (V1.val to)) KPtr); [|apply Hrec; assumption].
  pstep_ro as te s3 Hr3 Hn3.
  pstep (apply pres_reflect_New; assumption) as p s4 Hr4 Hn4.
  rewrite reflect_New_run in Hr4. injection Hr4 as <- <-.
  pstep (apply pres_Value_Set; assumption) as u s5 Hr5 Hn5.
  apply Value_Set_inv in Hr5
    as (t & l & p & tx & w & xv & Hto & Hx & -> & Hload & Hstore & _).
  injection Hx as <- <-. simpl in Hload. injection Hload as <-.
  pstep_ro as toElem s6 Hr6 Hn6.
  pose proof (Value_Elem_run _ _ _ _ Hr6); subst.
  rewrite Hto in Hr6.
  apply Value_Elem_inv in Hr6
    as (e & w' & ro & Hv & [[_ ->] | (l' & Hl & ->)]).
  - apply Hrec; [assumption|]. intros ? [=].
  - injection Hv as <- <- <-. apply load_Addr in Hl.
    apply heap_load_store in Hstore. simpl in Hstore, Hl.
    rewrite Hstore in Hl. injection Hl as <-.
    apply Hrec; [assumption|]. simpl. intros ? [= <-] Hlt.
    exfalso. lia.
Qed.

Lemma setArrayValue_body_frame1 n P fromVal toVal array i s :
  n <= length (s_heap s) ->
  not_addr_slice array ->
  (forall l, seq_root array = Some l -> l < n -> P l) ->
  pres n P (s_heap s)
    (s_heap (fst (V1.setArrayValue_body rec fromVal toVal array i s))).
Proof.
  intros Hn Hns HP. unfold V1.setArrayValue_body.
  pstep_ro as toElemType s2 Hr2 Hn2.
  pstep (apply pres_new_elem; assumption) as arrayElem s3 Hr3 Hn3.
  apply new_elem_inv in Hr3 as [t ->].
  pstep_ro as fromElemType s5 Hr5 Hn5.
  pstep (destruct (Kind_eqb (type_Kind fromElemType) KStruct);
         [apply pres_rec_fresh; [assumption|assumption|assumption|solve_ro]
         |apply pres_refl]) as err s6 Hr6 Hn6.
  pstep (destruct (Kind_eqb (type_Kind fromElemType) KPtr);
         [|apply pres_refl]) as err' s7 Hr7 Hn7.
  { pstep_ro as f s7 Hr7 Hn7. pstep_ro as f' s8 Hr8 Hn8.
    pstep_ro as t0 s9 Hr9 Hn9.
    rewrite Value_Elem_Imm in Hr9. injection Hr9 as <- <-.
    apply Hrec; [assumption|]. simpl. intros ? [= <-] ?. exfalso. lia. }
  destruct err' as [e|]; [apply pres_refl|].
  destruct (Kind_eqb (type_Kind toElemType) KPtr).
  - pstep_ro as a s8 Hr8 Hn8.
    pstep (apply pres_Value_Set; intros l Hl; apply HP;
           eapply Value_Index_root; eauto) as u s9 Hr9 Hn9.
    apply pres_refl.
  - pstep_ro as a s8 Hr8 Hn8. pstep_ro as e s9 Hr9 Hn9.
    pstep (apply pres_Value_Set; intros l Hl; apply HP;
           eapply Value_Index_root; eauto) as u s10 Hr10 Hn10.
    apply pres_refl.
Qed.

Lemma setArrayValue_frame1 n P fromVal toVal array s :
  n <= length (s_heap s) ->
  not_addr_slice array ->
  (forall l, seq_root array = Some l -> l < n -> P l) ->
  pres n P (s_heap s)
    (s_heap (fst (V1.setArrayValue rec fromVal toVal array s))).
Proof.
  intros Hn Hns HP. unfold V1.setArrayValue.
  pstep_ro as k s1 Hr1 Hn1. clear Hr1.
  revert s1 Hn1. generalize (seq 0 k) as ixs.
  induction ixs as [|i ixs IH]; intros s1 Hn1; simpl.
  - apply pres_refl.
  - pstep (apply setArrayValue_body_frame1; assumption) as err s2 Hr2 Hn2.
    destruct err; [apply pres_refl|]. apply IH; assumption.
Qed.

Lemma mapSlicesFunc_frame1 : frame_spec1 (V1.mapSlicesFunc rec).
Proof.
  intros n P from to s Hn HP. unfold V1.mapSlicesFunc.
  pstep_ro as k s2 Hr2 Hn2.
  pstep (apply pres_reflect_MakeSlice; assumption) as slice s3 Hr3 Hn3.
  apply reflect_MakeSlice_inv in Hr3 as (e & Ht & ->). rewrite Ht.
  pstep (apply setArrayValue_frame1;
         [assumption | exact I
         | simpl; intros ? [= <-] ?; exfalso; lia]) as err s4 Hr4 Hn4.
  destruct err; [apply pres_refl|].
  pstep (apply pres_Value_Set; assumption) as u s5 Hr5 Hn5.
  apply pres_refl.
Qed.

Lemma mapArraysFunc_frame1 : frame_spec1 (V1.mapArraysFunc rec).
Proof.
  intros n P from to s Hn HP. unfold V1.mapArraysFunc.
  pstep_ro as k s1 Hr1 Hn1. pstep_ro as te s3 Hr3 Hn3.
  pstep (apply pres_reflect_New; assumption) as p s4 Hr4 Hn4.
  rewrite reflect_New_run in Hr4. injection Hr4 as <- <-.
  pstep_ro as array s5 Hr5 Hn5.
  rewrite Value_Elem_Imm in Hr5. injection Hr5 as <- <-.
  pstep (apply setArrayValue_frame1;
         [assumption | exact I
         | simpl; intros ? [= <-] ?; exfalso; lia]) as err s6 Hr6 Hn6.
  destruct err; [apply pres_refl|].
  pstep (apply pres_Value_Set; assumption) as u s7 Hr7 Hn7.
  apply pres_refl.
Qed.

Lemma strats_frame1 t : frame_spec1 (V1.strats rec t).
Proof.
  destruct t; simpl;
    try (intros n P from to s Hn HP; apply pres_refl).
  - apply mapStructsFunc_frame1.
  - apply mapSlicesFunc_frame1.
  - apply mapArraysFunc_frame1.
  - apply mapSameTypesFunc_frame1.
Qed.

(** Every destination field collected by the loop over [to] is rooted in
    the cell of [to]. *)
Definition rooted_in1 (to : Value) (toFields : gmap string V1.fieldInfo)
  : Prop :=
  forall k fi l, toFields !! k = Some fi ->
                 root (V1.val fi) = Some l -> root to = Some l.

Lemma mapStructs_turn_frame1 to toFields name fromVal n P s :
  rooted_in1 to toFields ->
  n <= length (s_heap s) ->
  (forall l, root to = Some l -> l < n -> P l) ->
  pres n P (s_heap s)
    (s_heap (fst (V1.mapStructs_turn rec toFields name fromVal s))).
Proof.
  intros Hroot Hn HP. unfold V1.mapStructs_turn.
  destruct (toFields !! name) as [toVal|] eqn:Hk; [|apply pres_refl].
  assert (HP' : forall l, root (V1.val toVal) = Some l -> l < n -> P l).
  { intros l Hl. apply HP. eapply Hroot; eauto. }
  pstep_ro as tt s1 Hr1 Hn1. pstep_ro as m s2 Hr2 Hn2.
  pstep idtac as early s3 Hr3 Hn3.
  { destruct (converters_lookup _ _); [|apply pres_refl].
    pstep_ro as outArgs s3 Hr3 Hn3.
    destruct (snd outArgs) as [|out1 outs].
    - pstep (apply pres_Value_Set; assumption) as u s4 Hr4 Hn4.
      apply pres_refl.
    - pstep_ro as err s4 Hr4 Hn4. destruct err; apply pres_refl. }
  destruct early as [r|]; [apply pres_refl|].
  pstep_ro as mt s4 Hr4 Hn4.
  destruct (negb _).
  - pstep (apply strats_frame1; assumption) as err s5 Hr5 Hn5.
    destruct err; apply pres_refl.
  - do 2 pstep_ro. apply pres_refl.
Qed.

Lemma mapStructs_range_frame1 to toFields l :
  rooted_in1 to toFields ->
  forall n P s,
    n <= length (s_heap s) ->
    (forall l, root to = Some l -> l < n -> P l) ->
    pres n P (s_heap s)
      (s_heap (fst (V1.mapStructs_range rec toFields l s))).
Proof.
  intros Hroot. induction l as [|[name fromVal] rest IH];
    intros n P s Hn HP; simpl.
  - apply pres_refl.
  - pstep (apply (mapStructs_turn_frame1 to); assumption) as r s1 Hr1 Hn1.
    destruct r as [out|u]; [apply pres_refl|]. apply IH; assumption.
Qed.
End Strategies_frame1.

Lemma toFields_loop_rooted to ixs : forall acc s s1 m,
  rooted_in1 to acc ->
  V1.toFields_loop to ixs acc s = (s1, Ok m) ->
  rooted_in1 to m.
Proof.
  induction ixs as [|i ixs IH]; intros acc s s1 m Hacc; simpl.
  - intros [= <- <-]. assumption.
  - intros H. apply bind_Ok_inv in H as (s2 & fv & _ & H).
    destruct (negb (Value_CanSet fv)); [eapply IH; eauto|].
    apply bind_Ok_inv in H as (s3 & fld & Hf & H).
    apply bind_Ok_inv in H as (s4 & tt & _ & H).
    apply bind_Ok_inv in H as (s5 & sf & _ & H).
    eapply IH; [|exact H].
    intros k fi l Hk Hl. destruct (decide (Name sf = k)) as [<-|Hne].
    + rewrite lookup_insert_eq in Hk. injection Hk as <-. simpl in Hl.
      eapply Value_Field_root; eauto.
    + rewrite lookup_insert_ne in Hk by assumption. eapply Hacc; eauto.
Qed.

Section Range_frame1.
Variable range_order :
  list (string * V1.fieldInfo) -> list (string * V1.fieldInfo).

Lemma mapStructs_frame1 fuel : frame_spec (V1.mapStructs range_order fuel).
Proof.
  induction fuel as [|fuel IH]; intros n P from to s Hn HP; simpl.
  - apply pres_refl.
  - destruct (negb (Value_IsValid from)); [apply pres_refl|].
    pstep_ro as k s1 Hr1 Hn1. pstep_ro as ff s2 Hr2 Hn2.
    pstep_ro as k' s3 Hr3 Hn3. pstep_ro as tf s4 Hr4 Hn4.
    apply (mapStructs_range_frame1 _ IH to); [|assumption|assumption].
    eapply toFields_loop_rooted; [|exact Hr4].
    intros key fi l Hk. rewrite lookup_empty in Hk. discriminate.
Qed.

Lemma Map_frame1 from to n P s :
  n <= length (s_heap s) ->
  (forall l, pointee to = Some l -> l < n -> P l) ->
  pres n P (s_heap s) (s_heap (fst (V1.Map range_order from to s))).
Proof.
  intros Hn HP. unfold V1.Map.
  destruct (_ || _); [apply pres_refl|].
  pstep_ro as f s1 Hr1 Hn1. pstep_ro as t s2 Hr2 Hn2.
  apply mapStructs_frame1; [assumption|].
  intros l Hl. apply HP.
  eapply Value_Elem_ValueOf_root; eauto.
Qed.
End Range_frame1.

(** In [mapper.go] too, whatever the outcome of [Map], every cell that
    existed before the call, other than the cell the destination argument
    points to, keeps its content, and the call only adds cells. *)
Theorem V1_Map_writes_only_the_destination
    (range_order : list (string * V1.fieldInfo) -> list (string * V1.fieldInfo))
    (from to : boxed) (s : state) (l : nat) :
  l < length (s_heap s) ->
  pointee to <> Some l ->
  s_heap (fst (V1.Map range_order from to s)) !! l = s_heap s !! l
  /\ length (s_heap s) <= length (s_heap (fst (V1.Map range_order from to s))).
Proof.
  intros Hl Hne.
  destruct (Map_frame1 range_order from to (length (s_heap s))
              (fun l => pointee to = Some l) s) as [Hlen Hpres]; auto.
Qed.

Lemma V1_Map_writes_only_the_destination_witness :
  s_heap (fst (V1.Map range_in_order (ptr_to Structs1 1) (ptr_to Structs2 2)
                 {| s_heap := structs_heap; s_mapper := New |})) !! 1%nat
    = structs_heap !! 1%nat
  /\ (length structs_heap
      <= length (s_heap (fst (V1.Map range_in_order (ptr_to Structs1 1)
                                (ptr_to Structs2 2)
                                {| s_heap := structs_heap;
                                   s_mapper := New |}))))%nat.
Proof.
  assert (Hne : pointee (ptr_to Structs2 2) <> Some 1%nat) by discriminate.
  exact (V1_Map_writes_only_the_destination range_in_order
           (ptr_to Structs1 1) (ptr_to Structs2 2)
           {| s_heap := structs_heap; s_mapper := New |} 1%nat
           (le_S 2 2 (le_n 2)) Hne).
Defined.

(** ** Frames inside a cell: which fields a mapping writes *)

(** The place of an addressable [Value]: its cell and the path in it. *)
Definition place_of (v : Value) : option (nat * list nat) :=
  match v with
  | Val _ (Addr l p) _ => Some (l, p)
  | _ => None
  end.

(** [v], if it lives in the cell [l], lives at the path [p] or below. *)
Definition within (l : nat) (p : list nat) (v : Value) : Prop :=
  forall p0, place_of v = Some (l, p0) -> exists ext, p0 = p ++ ext.

(** The paths [p] and [q] part ways: neither leads into the other. *)
Definition diverge (p q : list nat) : Prop :=
  exists r i j p' q', i <> j /\ p = r ++ i :: p' /\ q = r ++ j :: q'.

Lemma diverge_app p ext q : diverge p q -> diverge (p ++ ext) q.
Proof.
  intros (r & i & j & p' & q' & Hij & -> & ->).
  exists r, i, j, (p' ++ ext), q'. split; [exact Hij|].
  split; [|reflexivity]. rewrite <- app_assoc. reflexivity.
Qed.

Lemma set_path_diverge x p q : diverge p q ->
  forall v v', set_path v p x = Some v' -> get_path v' q = get_path v q.
Proof.
  intros (r & i & j & p' & q' & Hij & -> & ->).
  induction r as [|a r IH]; intros v v'; cbn [app set_path get_path].
  - destruct (children v) as [es|] eqn:Hc; [|discriminate].
    destruct (es !! i) as [c|] eqn:Hi; [|discriminate].
    destruct (set_path c p' x) as [c'|]; [|discriminate].
    intros [= <-]. rewrite (children_with_children _ _ _ Hc).
    rewrite list_lookup_insert_ne by exact Hij. reflexivity.
  - destruct (children v) as [es|] eqn:Hc; [|discriminate].
    destruct (es !! a) as [c|] eqn:Hi; [|discriminate].
    destruct (set_path c (r ++ i :: p') x) as [c'|] eqn:Hs; [|discriminate].
    intros [= <-]. rewrite (children_with_children _ _ _ Hc).
    rewrite list_lookup_insert_eq by (eapply lookup_lt_Some; eauto).
    exact (IH _ _ Hs).
Qed.

(** [pres_in l p h h']: the heap only grew, and in the cell [l] every path
    that parts ways with [p] leads to what it led to. *)
Definition pres_in (l : nat) (p : list nat) (h h' : list value) : Prop :=
  length h <= length h'
  /\ forall q, diverge p q -> heap_load h' l q = heap_load h l q.

Lemma pres_in_refl l p h : pres_in l p h h.
Proof. split; auto. Qed.

Lemma pres_in_trans l p h0 h1 h2 :
  pres_in l p h0 h1 -> pres_in l p h1 h2 -> pres_in l p h0 h2.
Proof.
  intros [L1 H1] [L2 H2]. split; [lia|].
  intros q Hq. rewrite H2, H1; auto.
Qed.

Lemma pres_in_cell l p h h' :
  length h <= length h' -> h' !! l = h !! l -> pres_in l p h h'.
Proof.
  intros L H. split; [exact L|]. intros q _. unfold heap_load. rewrite H.
  reflexivity.
Qed.

Lemma pres_in_of_pres l p n P h h' :
  l < n -> ~ P l -> pres n P h h' -> pres_in l p h h'.
Proof. intros Hl HP [L H]. apply pres_in_cell; auto. Qed.

Lemma pres_in_ro {A} l p (c : M A) s :
  heap_ro c -> pres_in l p (s_heap s) (s_heap (fst (c s))).
Proof. intros H. rewrite H. apply pres_in_refl. Qed.

Lemma pres_in_bind {A B} l p (c : M A) (f : A -> M B) s :
  l < length (s_heap s) ->
  pres_in l p (s_heap s) (s_heap (fst (c s))) ->
  (forall a s1, c s = (s1, Ok a) -> l < length (s_heap s1) ->
                pres_in l p (s_heap s1) (s_heap (fst (f a s1)))) ->
  pres_in l p (s_heap s) (s_heap (fst (bind c f s))).
Proof.
  intros Hl Hc Hf. unfold bind.
  destruct (c s) as [s1 [a|m| |]] eqn:E; simpl in *; try assumption.
  eapply pres_in_trans; [exact Hc|]. apply Hf; [reflexivity|].
  destruct Hc. lia.
Qed.

Lemma pres_in_fresh {A} l p (c : M A) s :
  l < length (s_heap s) ->
  (forall n P, n <= length (s_heap s) ->
               pres n P (s_heap s) (s_heap (fst (c s)))) ->
  pres_in l p (s_heap s) (s_heap (fst (c s))).
Proof.
  intros Hl H.
  apply (pres_in_of_pres l p (length (s_heap s)) (fun _ => False));
    [exact Hl | tauto | apply H; lia].
Qed.

Lemma pres_in_Value_Set l p v x s :
  within l p v ->
  pres_in l p (s_heap s) (s_heap (fst (Value_Set v x s))).
Proof.
  intros Hw. unfold Value_Set.
  destruct v as [|t [l0 p0|?] [|]]; try apply pres_in_refl.
  destruct x as [|tx w [|]]; try apply pres_in_refl.
  destruct (type_eqb tx t); [|apply pres_in_refl].
  unfold bind.
  destruct (load (Val tx w false) s) as [s1 [xv|m| |]] eqn:E;
    apply load_run in E as ->; try apply pres_in_refl.
  unfold get_heap, lift_option.
  destruct (heap_store (s_heap s) l0 p0 xv) as [h'|] eqn:Hs;
    simpl; [|apply pres_in_refl].
  pose proof (heap_store_length _ _ _ _ _ Hs) as L.
  destruct (decide (l0 = l)) as [->|Hne].
  - destruct (Hw p0 eq_refl) as [ext ->].
    split; [lia|]. intros q Hq. apply (diverge_app _ ext) in Hq.
    unfold heap_store in Hs. unfold heap_load.
    destruct (s_heap s !! l) as [v|] eqn:Hv; [|discriminate].
    destruct (set_path v (p ++ ext) xv) as [v'|] eqn:Hsp; [|discriminate].
    injection Hs as <-.
    rewrite list_lookup_insert_eq by (eapply lookup_lt_Some; eauto).
    exact (set_path_diverge _ _ _ Hq _ _ Hsp).
  - apply pres_in_cell; [lia|].
    apply (heap_store_other _ _ _ _ _ l Hs). congruence.
Qed.

(** A function of a source and a destination writes, in a cell that
    existed before, only at the path of its destination and below. *)
Definition path_frame (f : Value -> Value -> M (option error)) : Prop :=
  forall l p from to s,
    l < length (s_heap s) ->
    within l p to ->
    pres_in l p (s_heap s) (s_heap (fst (f from to s))).

Tactic Notation "qstep_ro" "as" ident(a) ident(s1) ident(Hr) ident(Hn) :=
  eapply pres_in_bind; [assumption | apply pres_in_ro; solve_ro | intros a s1 Hr Hn].

Tactic Notation "qstep_ro" :=
  let a := fresh "a" in
  let s1 := fresh "s" in
  let Hr := fresh "Hrun" in
  let Hn := fresh "Hn" in
  qstep_ro as a s1 Hr Hn.

Tactic Notation "qstep" tactic3(tac) "as" ident(a) ident(s1) ident(Hr) ident(Hn) :=
  eapply pres_in_bind; [assumption | tac | intros a s1 Hr Hn].

Lemma pres_in_ret_err l p (err : option error) s :
  pres_in l p (s_heap s)
    (s_heap (fst (match err with Some e => ret (Some e) | None => ret None end s))).
Proof. destruct err; apply pres_in_refl. Qed.

Lemma within_other l p t c q ro : c <> l -> within l p (Val t (Addr c q) ro).
Proof. intros Hne p0 [= -> _]. contradiction. Qed.

Lemma within_Imm l p t x ro : within l p (Val t (Imm x) ro).
Proof. intros p0 [=]. Qed.

Lemma within_Value_Field l p v i s s1 f :
  within l p v -> Value_Field v i s = (s1, Ok f) -> within l p f.
Proof.
  intros Hw. unfold Value_Field. destruct v as [|[] w ro]; try discriminate.
  unfold bind.
  destruct (Type_Field _ i s) as [s' [sf|m| |]]; try discriminate.
  unfold sub_place. destruct w as [l0 p1|x]; simpl.
  - intros [= <- <-] p0 [= -> <-].
    destruct (Hw p1 eq_refl) as [ext ->]. exists (ext ++ [i]).
    rewrite app_assoc. reflexivity.
  - destruct (children x) as [es|]; [|discriminate].
    unfold bind, lift_option. destruct (es !! i); simpl; [|discriminate].
    intros [= <- <-]. apply within_Imm.
Qed.

Lemma path_frame_mapSameTypesFunc : path_frame V2.mapSameTypesFunc.
Proof.
  intros l p from to s Hl Hw. unfold V2.mapSameTypesFunc.
  qstep (apply pres_in_Value_Set; assumption) as u s1 Hr1 Hn1.
  apply pres_in_refl.
Qed.

Lemma path_frame_mapConverterFunc : path_frame V2.mapConverterFunc.
Proof.
  intros l p from to s Hl Hw. unfold V2.mapConverterFunc.
  do 3 qstep_ro.
  destruct (converters_lookup _ _); [|apply pres_in_refl].
  qstep_ro as outArgs s4 Hr4 Hn4.
  qstep (apply pres_in_Value_Set; assumption) as u s5 Hr5 Hn5.
  destruct (snd outArgs) as [|out1 ?]; [apply pres_in_refl|].
  destruct (V2.assert_error out1) as [[e|] [|]]; apply pres_in_refl.
Qed.

(** The array or slice a sequence strategy fills is not in the cell [l]. *)
Definition away (l : nat) (array : Value) : Prop :=
  not_addr_slice array /\ forall c, seq_root array = Some c -> c <> l.

Lemma within_Value_Index l p array i s s1 a :
  away l array -> Value_Index array i s = (s1, Ok a) -> within l p a.
Proof.
  intros [Hns Hc] Hi p0 Hp0.
  assert (Hroot : root a = Some l).
  { destruct a as [|t [l0 q|x] ro]; try discriminate.
    injection Hp0 as -> _. reflexivity. }
  exfalso. exact (Hc _ (Value_Index_root _ _ _ _ _ Hns Hi _ Hroot) eq_refl).
Qed.

Section Strategies_path.
Variable rec : Value -> Value -> M (option error).
Hypothesis Hrec : path_frame rec.

Lemma path_frame_mapStructsFunc : path_frame (V2.mapStructsFunc rec).
Proof.
  intros l p from to s Hl Hw. unfold V2.mapStructsFunc.
  qstep (destruct (Kind_eqb (Value_Kind from) KPtr);
         apply pres_in_ro; solve_ro) as from' s1 Hr1 Hn1.
  qstep idtac as err s2 Hr2 Hn2; [|apply pres_in_ret_err].
  destruct (Kind_eqb (Value_Kind to) KPtr); [|apply Hrec; assumption].
  qstep_ro as tt s2 Hr2 Hn2. qstep_ro as te s3 Hr3 Hn3.
  qstep (apply pres_in_fresh; [assumption|];
         intros; apply pres_reflect_New; assumption) as q s4 Hr4 Hn4.
  rewrite reflect_New_run in Hr4. injection Hr4 as <- <-.
  qstep (apply pres_in_Value_Set; assumption) as u s5 Hr5 Hn5.
  apply Value_Set_inv in Hr5
    as (t & l0 & p0 & tx & w & xv & -> & Hx & -> & Hload & Hstore & _).
  injection Hx as <- <-. simpl in Hload. injection Hload as <-.
  qstep_ro as toElem s6 Hr6 Hn6.
  pose proof (Value_Elem_run _ _ _ _ Hr6); subst.
  apply Value_Elem_inv in Hr6
    as (e & w' & ro & Hv & [[_ ->] | (l' & Hl' & ->)]).
  - apply Hrec; [assumption|]. intros ? [=].
  - injection Hv as <- <- <-. apply load_Addr in Hl'.
    apply heap_load_store in Hstore. simpl in Hstore, Hl'.
    rewrite Hstore in Hl'. injection Hl' as <-.
    apply Hrec; [assumption|]. apply within_other. lia.
Qed.

Lemma path_setArrayValue_body l p fromVal toVal array i s :
  l < length (s_heap s) ->
  away l array ->
  pres_in l p (s_heap s)
    (s_heap (fst (V2.setArrayValue_body rec fromVal toVal array i s))).
Proof.
  intros Hl Haway. unfold V2.setArrayValue_body.
  qstep_ro as tt s1 Hr1 Hn1. qstep_ro as toElemType s2 Hr2 Hn2.
  qstep (apply pres_in_fresh; [assumption|];
         intros; apply pres_new_elem; assumption) as arrayElem s3 Hr3 Hn3.
  apply new_elem_inv in Hr3 as [t ->].
  qstep_ro as ft s4 Hr4 Hn4. qstep_ro as fromElemType s5 Hr5 Hn5.
  qstep (destruct (Kind_eqb (type_Kind fromElemType) KStruct);
         [|apply pres_in_refl]) as err s6 Hr6 Hn6.
  { qstep_ro as f s6 Hr6 Hn6. qstep_ro as t0 s7 Hr7 Hn7.
    rewrite Value_Elem_Imm in Hr7. injection Hr7 as <- <-.
    apply Hrec; [assumption|]. apply within_other. lia. }
  qstep (destruct (Kind_eqb (type_Kind fromElemType) KPtr);
         [|apply pres_in_refl]) as err' s7 Hr7 Hn7.
  { qstep_ro as f s7 Hr7 Hn7. qstep_ro as f' s8 Hr8 Hn8.
    qstep_ro as t0 s9 Hr9 Hn9.
    rewrite Value_Elem_Imm in Hr9. injection Hr9 as <- <-.
    apply Hrec; [assumption|]. apply within_other. lia. }
  destruct err' as [e|]; [apply pres_in_refl|].
  destruct (Kind_eqb (type_Kind toElemType) KPtr).
  - qstep_ro as a s8 Hr8 Hn8.
    qstep (apply pres_in_Value_Set; eapply within_Value_Index; eauto)
      as u s9 Hr9 Hn9.
    apply pres_in_refl.
  - qstep_ro as a s8 Hr8 Hn8. qstep_ro as e s9 Hr9 Hn9.
    qstep (apply pres_in_Value_Set; eapply within_Value_Index; eauto)
      as u s10 Hr10 Hn10.
    apply pres_in_refl.
Qed.

Lemma path_setArrayValue_loop l p fromVal toVal array ixs : forall s,
  l < length (s_heap s) ->
  away l array ->
  pres_in l p (s_heap s)
    (s_heap (fst (V2.setArrayValue_loop rec fromVal toVal array ixs s))).
Proof.
  induction ixs as [|i ixs IH]; intros s Hl Haway; simpl.
  - apply pres_in_refl.
  - qstep (apply path_setArrayValue_body; assumption) as err s1 Hr1 Hn1.
    destruct err; [apply pres_in_refl|]. apply IH; assumption.
Qed.

Lemma path_setArrayValue l p fromVal toVal array s :
  l < length (s_heap s) ->
  away l array ->
  pres_in l p (s_heap s)
    (s_heap (fst (V2.setArrayValue rec fromVal toVal array s))).
Proof.
  intros Hl Haway. unfold V2.setArrayValue.
  qstep_ro as k s1 Hr1 Hn1. apply path_setArrayValue_loop; assumption.
Qed.

Lemma path_frame_mapSlicesFunc : path_frame (V2.mapSlicesFunc rec).
Proof.
  intros l p from to s Hl Hw. unfold V2.mapSlicesFunc.
  qstep_ro as tt s1 Hr1 Hn1. qstep_ro as k s2 Hr2 Hn2.
  qstep (apply pres_in_fresh; [assumption|];
         intros; apply pres_reflect_MakeSlice; assumption)
    as slice s3 Hr3 Hn3.
  apply reflect_MakeSlice_inv in Hr3 as (e & -> & ->).
  qstep (apply path_setArrayValue;
         [assumption
         |split; [exact I|simpl; intros ? [= <-]; lia]]) as err s4 Hr4 Hn4.
  destruct err; [apply pres_in_refl|].
  qstep (apply pres_in_Value_Set; assumption) as u s5 Hr5 Hn5.
  apply pres_in_refl.
Qed.

Lemma path_frame_mapArraysFunc : path_frame (V2.mapArraysFunc rec).
Proof.
  intros l p from to s Hl Hw. unfold V2.mapArraysFunc.
  qstep_ro as k s1 Hr1 Hn1. qstep_ro as tt s2 Hr2 Hn2.
  qstep_ro as te s3 Hr3 Hn3.
  qstep (apply pres_in_fresh; [assumption|];
         intros; apply pres_reflect_New; assumption) as q s4 Hr4 Hn4.
  rewrite reflect_New_run in Hr4. injection Hr4 as <- <-.
  qstep_ro as array s5 Hr5 Hn5.
  rewrite Value_Elem_Imm in Hr5. injection Hr5 as <- <-.
  qstep (apply path_setArrayValue;
         [assumption
         |split; [exact I|simpl; intros ? [= <-]; lia]]) as err s6 Hr6 Hn6.
  destruct err; [apply pres_in_refl|].
  qstep (apply pres_in_Value_Set; assumption) as u s7 Hr7 Hn7.
  apply pres_in_refl.
Qed.

Lemma path_frame_strats t : path_frame (V2.strats rec t).
Proof.
  destruct t; simpl.
  - intros l p from to s Hl Hw. apply pres_in_refl.
  - apply path_frame_mapStructsFunc.
  - apply path_frame_mapSlicesFunc.
  - apply path_frame_mapArraysFunc.
  - apply path_frame_mapSameTypesFunc.
  - apply path_frame_mapConverterFunc.
Qed.

Lemma path_frame_mapKnownStruct mappingInfo :
  path_frame (V2.mapKnownStruct rec mappingInfo).
Proof.
  induction mappingInfo as [|fi rest IH]; intros l p from to s Hl Hw; simpl.
  - apply pres_in_refl.
  - qstep_ro as f s1 Hr1 Hn1. qstep_ro as t s2 Hr2 Hn2.
    qstep (apply path_frame_strats; [assumption|];
           eapply within_Value_Field; eauto) as err s3 Hr3 Hn3.
    destruct err; [apply pres_in_refl|]. apply IH; assumption.
Qed.

(** Every destination field of the matcher lives at [p] or below. *)
Definition fields_within (l : nat) (p : list nat)
    (toFields : gmap string V2.fieldInfo) : Prop :=
  forall k fi, toFields !! k = Some fi -> within l p (V2.val fi).

Lemma path_mapStructs_range l p mappingInfo toFields entries :
  fields_within l p toFields ->
  forall s,
    l < length (s_heap s) ->
    pres_in l p (s_heap s)
      (s_heap (fst (V2.mapStructs_range rec mappingInfo toFields entries s))).
Proof.
  intros Hf. induction entries as [|[name fromVal] rest IH];
    intros s Hl; simpl.
  - apply pres_in_refl.
  - destruct (toFields !! name) as [toVal|] eqn:Hk; [|apply IH; assumption].
    qstep_ro as mt s1 Hr1 Hn1.
    destruct (negb (supportedType_eqb mt unsupported)).
    + qstep (apply path_frame_strats; [assumption|];
             eapply Hf; eauto) as err s2 Hr2 Hn2.
      destruct err; [apply pres_in_refl|].
      do 3 qstep_ro. apply IH; assumption.
    + do 2 qstep_ro. apply pres_in_refl.
Qed.
End Strategies_path.

Lemma getFieldInfo_to_within l p to ixs : forall acc s s1 m,
  within l p to ->
  fields_within l p acc ->
  V2.getFieldInfo_to to ixs acc s = (s1, Ok m) ->
  fields_within l p m.
Proof.
  induction ixs as [|i ixs IH]; intros acc s s1 m Hw Hacc; simpl.
  - intros [= <- <-]. assumption.
  - intros H. apply bind_Ok_inv in H as (s2 & fv & Hf & H).
    destruct (negb (Value_CanSet fv)); [eapply IH; eauto|].
    apply bind_Ok_inv in H as (s3 & tt & _ & H).
    apply bind_Ok_inv in H as (s4 & sf & _ & H).
    eapply IH; [exact Hw| |exact H].
    intros k fi Hk. destruct (decide (V2.field_key sf = k)) as [<-|Hne].
    + rewrite lookup_insert_eq in Hk. injection Hk as <-. simpl.
      eapply within_Value_Field; eauto.
    + rewrite lookup_insert_ne in Hk by assumption. eapply Hacc; eauto.
Qed.

Lemma getFieldInfo_within l p from to s s1 fields :
  within l p to ->
  V2.getFieldInfo from to s = (s1, Ok fields) ->
  fields_within l p (snd fields).
Proof.
  unfold V2.getFieldInfo. intros Hw H.
  apply bind_Ok_inv in H as (s2 & n & _ & H).
  apply bind_Ok_inv in H as (s3 & ff & _ & H).
  apply bind_Ok_inv in H as (s4 & n' & _ & H).
  apply bind_Ok_inv in H as (s5 & tf & Hto & H).
  injection H as <- <-. simpl.
  eapply getFieldInfo_to_within; [exact Hw| |exact Hto].
  intros k fi Hk. rewrite lookup_empty in Hk. discriminate.
Qed.

Lemma path_frame_mapStructs range_order fuel :
  path_frame (V2.mapStructs range_order fuel).
Proof.
  induction fuel as [|fuel IH]; intros l p from to s Hl Hw; simpl.
  - apply pres_in_refl.
  - destruct (negb (Value_IsValid from)); [apply pres_in_refl|].
    qstep_ro as u s1 Hr1 Hn1. qstep_ro as tf s2 Hr2 Hn2.
    qstep_ro as tt s3 Hr3 Hn3. qstep_ro as m s4 Hr4 Hn4.
    qstep (destruct (knownMappings_lookup _ _);
           [apply path_frame_mapKnownStruct; assumption|apply pres_in_refl])
      as err s5 Hr5 Hn5.
    destruct err; [apply pres_in_refl|].
    qstep_ro as u1 s6 Hr6 Hn6. qstep_ro as u2 s7 Hr7 Hn7.
    qstep_ro as fields s8 Hr8 Hn8.
    apply path_mapStructs_range; [assumption| |assumption].
    eapply getFieldInfo_within; eauto.
Qed.

(** [keeps_path l q h h']: the heap only grew and the path [q] of the cell
    [l] leads to what it led to. *)
Definition keeps_path (l : nat) (q : list nat) (h h' : list value) : Prop :=
  length h <= length h' /\ heap_load h' l q = heap_load h l q.

Lemma keeps_path_refl l q h : keeps_path l q h h.
Proof. split; auto. Qed.

Lemma keeps_path_trans l q h0 h1 h2 :
  keeps_path l q h0 h1 -> keeps_path l q h1 h2 -> keeps_path l q h0 h2.
Proof. intros [L1 H1] [L2 H2]. split; [lia|]. rewrite H2, H1. reflexivity. Qed.

Lemma keeps_path_of_pres_in l p q h h' :
  diverge p q -> pres_in l p h h' -> keeps_path l q h h'.
Proof. intros Hd [L H]. split; auto. Qed.

Lemma keeps_path_ro {A} l q (c : M A) s :
  heap_ro c -> keeps_path l q (s_heap s) (s_heap (fst (c s))).
Proof. intros H. rewrite H. apply keeps_path_refl. Qed.

Lemma keeps_path_bind {A B} l q (c : M A) (f : A -> M B) s :
  l < length (s_heap s) ->
  keeps_path l q (s_heap s) (s_heap (fst (c s))) ->
  (forall a s1, c s = (s1, Ok a) -> l < length (s_heap s1) ->
                keeps_path l q (s_heap s1) (s_heap (fst (f a s1)))) ->
  keeps_path l q (s_heap s) (s_heap (fst (bind c f s))).
Proof.
  intros Hl Hc Hf. unfold bind.
  destruct (c s) as [s1 [a|m| |]] eqn:E; simpl in *; try assumption.
  eapply keeps_path_trans; [exact Hc|]. apply Hf; [reflexivity|].
  destruct Hc. lia.
Qed.

Tactic Notation "kstep_ro" "as" ident(a) ident(s1) ident(Hr) ident(Hn) :=
  eapply keeps_path_bind;
    [assumption | apply keeps_path_ro; solve_ro | intros a s1 Hr Hn].

Tactic Notation "kstep_ro" :=
  let a := fresh "a" in
  let s1 := fresh "s" in
  let Hr := fresh "Hrun" in
  let Hn := fresh "Hn" in
  kstep_ro as a s1 Hr Hn.

(** The destination [v] is off the path [q] of the cell [l]: what is
    written through [v] does not reach [q]. *)
Definition off_path (l : nat) (q : list nat) (v : Value) : Prop :=
  exists p, within l p v /\ diverge p q.

(** The discovery loop keeps the path [q] when the destination of every
    pair it matches is off [q]. *)
Lemma mapStructs_range_keeps_path rec l q mappingInfo toFields entries :
  path_frame rec ->
  (forall name fromVal toVal,
     (name, fromVal) ∈ entries -> toFields !! name = Some toVal ->
     off_path l q (V2.val toVal)) ->
  forall s,
    l < length (s_heap s) ->
    keeps_path l q (s_heap s)
      (s_heap (fst (V2.mapStructs_range rec mappingInfo toFields entries s))).
Proof.
  intros Hrec. induction entries as [|[name fromVal] rest IH];
    intros Hoff s Hl; simpl.
  - apply keeps_path_refl.
  - assert (Hrest : forall name fromVal toVal,
              (name, fromVal) ∈ rest -> toFields !! name = Some toVal ->
              off_path l q (V2.val toVal)).
    { intros k a b Hin. apply (Hoff k a b). apply elem_of_cons. auto. }
    destruct (toFields !! name) as [toVal|] eqn:Hk; [|apply IH; assumption].
    destruct (Hoff name fromVal toVal) as (p & Hw & Hd);
      [apply elem_of_cons; auto|assumption|].
    kstep_ro as mt s1 Hr1 Hn1.
    destruct (negb (supportedType_eqb mt unsupported)).
    + eapply keeps_path_bind; [assumption| |intros err s2 Hr2 Hn2].
      { apply (keeps_path_of_pres_in l p q); [exact Hd|].
        apply path_frame_strats; assumption. }
      destruct err; [apply keeps_path_refl|].
      do 3 kstep_ro. apply IH; assumption.
    + do 2 kstep_ro. apply keeps_path_refl.
Qed.

(** What the matcher returns, read off one run. *)
Lemma getFieldInfo_sound from to s s1 fromFields toFields :
  V2.getFieldInfo from to s = (s1, Ok (fromFields, toFields)) ->
  s1 = s
  /\ (forall k e, fromFields !! k = Some e ->
        entry_of s from k e /\ kept s (V2.val e))
  /\ (forall k e, toFields !! k = Some e -> entry_of s to k e).
Proof.
  intros E.
  pose proof (run_state_ro _ _ _ _ (state_ro_getFieldInfo _ _) E). subst s1.
  split; [reflexivity|].
  unfold V2.getFieldInfo in E.
  apply bind_Ok_inv in E as (s2 & n & Hn & E).
  pose proof (run_state_ro _ _ _ _ (state_ro_Value_NumField _) Hn). subst s2.
  apply bind_Ok_inv in E as (s3 & ff' & Hff & E).
  pose proof (run_state_ro _ _ _ _ (state_ro_getFieldInfo_from _ _ _) Hff).
  subst s3.
  apply bind_Ok_inv in E as (s4 & n' & Hn' & E).
  pose proof (run_state_ro _ _ _ _ (state_ro_Value_NumField _) Hn'). subst s4.
  apply bind_Ok_inv in E as (s5 & tf' & Htf & E).
  injection E as _ <- <-.
  pose proof (run_state_ro _ _ _ _ (state_ro_getFieldInfo_to _ _ _) Htf).
  subst s5.
  destruct (getFieldInfo_from_spec _ _ _ _ _ _ Hff) as (Hs & _ & _).
  destruct (getFieldInfo_to_spec _ _ _ _ _ _ Htf) as (Hs' & _ & _).
  split.
  - intros k e H. destruct (Hs k e H) as [Hk|(_ & ? & ?)]; [|auto].
    rewrite lookup_empty in Hk. discriminate.
  - intros k e H. destruct (Hs' k e H) as [Hk|(_ & ? & _)]; [|auto].
    rewrite lookup_empty in Hk. discriminate.
Qed.

(** A field entered by the matcher for a struct in the heap: its index,
    its declaration and its place. *)
Lemma entry_of_struct s n fs l ro k e :
  entry_of s (Val (TStruct n fs) (Addr l []) ro) k e ->
  exists f,
    fs !! V2.index e = Some f
    /\ V2.field_key f = k
    /\ V2.val e
       = Val (FType f) (Addr l [V2.index e])
           (ro || negb (is_exported (Name f))).
Proof.
  intros (t & f & Ht & Hf & Hk & Hv).
  injection Ht as <-.
  simpl in Hf. unfold lift_option in Hf.
  destruct (fs !! V2.index e) as [f'|] eqn:E; [|discriminate].
  injection Hf as <-. exists f'. split; [reflexivity|]. split; [exact Hk|].
  rewrite (Value_Field_run _ _ _ _ _ _ _ E) in Hv. injection Hv as <-.
  reflexivity.
Qed.

Lemma kept_nonzero s t l p ro :
  kept s (Val t (Addr l p) ro) ->
  exists x, heap_load (s_heap s) l p = Some x /\ is_zero x = false.
Proof.
  intros [Hz _]. unfold Value_IsZero in Hz.
  apply bind_Ok_inv in Hz as (s1 & x & Hload & Hret).
  pose proof (load_run _ _ _ _ Hload). subst s1.
  apply load_Addr in Hload. injection Hret as Hx. eauto.
Qed.

Section Unmatched.
Variable range_order :
  list (string * V2.fieldInfo) -> list (string * V2.fieldInfo).
Hypothesis range_perm : forall l, range_order l ≡ₚ l.

Lemma mapStructs_keeps_unmatched fuel n1 fs1 n2 fs2 lf lt rof rot j f2 s :
  knownMappings_lookup
    {| smi_from := TStruct n1 fs1; smi_to := TStruct n2 fs2 |}
    (knownMappings (s_mapper s)) = None ->
  lt < length (s_heap s) ->
  fs2 !! j = Some f2 ->
  (forall i f1 x, fs1 !! i = Some f1 ->
     V2.field_key f1 = V2.field_key f2 ->
     heap_load (s_heap s) lf [i] = Some x -> is_zero x = true) ->
  keeps_path lt [j] (s_heap s)
    (s_heap (fst (V2.mapStructs range_order fuel
                    (Val (TStruct n1 fs1) (Addr lf []) rof)
                    (Val (TStruct n2 fs2) (Addr lt []) rot) s))).
Proof.
  intros Hplan Hl Hj Hzero.
  destruct fuel as [|fuel]; [apply keeps_path_refl|].
  destruct (mu (s_mapper s)) eqn:Hmu.
  { rewrite mapStructs_blocks by auto. apply keeps_path_refl. }
  rewrite mapStructs_S. cbn [Value_IsValid negb].
  rewrite (bind_Ok _ _ _ _ _ (Lock_run s Hmu)).
  cbn [Value_Type]. unfold bind at 1. cbn [ret].
  unfold bind at 1. cbn [ret].
  unfold bind at 1. cbn [get_mapper locked s_mapper knownMappings].
  rewrite Hplan. unfold bind at 1. cbn [ret].
  unfold bind at 1.
  destruct (V2.knownMappings_reset _ _) as [s1 [[]|m| |]] eqn:E1;
    pose proof (run_ro _ _ _ _ (heap_ro_knownMappings_reset _) E1) as H1;
    cbn [locked s_heap] in H1; cbn [fst]; try (rewrite H1; apply keeps_path_refl).
  unfold bind at 1.
  destruct (Unlock s1) as [s2 [[]|m| |]] eqn:E2;
    pose proof (run_ro _ _ _ _ heap_ro_Unlock E2) as H2;
    cbn [fst]; try (rewrite H2, H1; apply keeps_path_refl).
  rewrite <- H1, <- H2 in *.
  eapply keeps_path_bind; [assumption|apply keeps_path_ro; solve_ro|].
  intros [fromFields toFields] s3 Hr3 Hn3.
  apply getFieldInfo_sound in Hr3 as (-> & Hfrom & Hto). cbn [fst snd].
  apply mapStructs_range_keeps_path;
    [apply path_frame_mapStructs| |assumption].
  intros name fromVal toVal Hin Hk.
  rewrite range_perm in Hin. apply elem_of_map_to_list in Hin.
  destruct (Hfrom _ _ Hin) as [Hef Hkept].
  apply entry_of_struct in Hef as (f1 & Hf1 & Hk1 & Hv1).
  destruct (entry_of_struct _ _ _ _ _ _ _ (Hto _ _ Hk)) as (f' & Hf' & Hk' & Hv').
  rewrite Hv'. exists [V2.index toVal]. split.
  - intros p0 [= <-]. exists []. reflexivity.
  - exists [], (V2.index toVal), j, [], []. split; [|auto].
    intros E. rewrite E, Hj in Hf'. injection Hf' as <-.
    rewrite Hv1 in Hkept. apply kept_nonzero in Hkept as (x & Hx & Hnz).
    rewrite (Hzero _ _ _ Hf1 (eq_trans Hk1 (eq_sym Hk')) Hx) in Hnz.
    discriminate.
Qed.
End Unmatched.

(** On a mapper that holds no plan for the pair of struct types, [Map] of
    a pointer to a struct into a pointer to a struct leaves a destination
    field with the value it had when every source field with the same
    match key (the [mapper] tag, else the name) is zero, and so also when
    no source field has that key.  This holds whatever the call returns and
    whatever the other fields, the registered converters and the plans of
    other pairs are. *)
Theorem Map_keeps_unmatched_destination_fields
    (range_order : list (string * V2.fieldInfo) -> list (string * V2.fieldInfo))
    (n1 : string) (fs1 : list (StructField type))
    (n2 : string) (fs2 : list (StructField type))
    (lf lt j : nat) (f2 : StructField type) (v : value) (s : state) :
  (forall l, range_order l ≡ₚ l) ->
  knownMappings_lookup
    {| smi_from := TStruct n1 fs1; smi_to := TStruct n2 fs2 |}
    (knownMappings (s_mapper s)) = None ->
  fs2 !! j = Some f2 ->
  heap_load (s_heap s) lt [j] = Some v ->
  (forall i f1 x, fs1 !! i = Some f1 ->
     V2.field_key f1 = V2.field_key f2 ->
     heap_load (s_heap s) lf [i] = Some x -> is_zero x = true) ->
  heap_load
    (s_heap (fst (V2.Map range_order (ptr_to (TStruct n1 fs1) lf)
                    (ptr_to (TStruct n2 fs2) lt) s))) lt [j]
  = Some v.
Proof.
  intros Hperm Hplan Hj Hv Hzero.
  assert (Hl : lt < length (s_heap s)).
  { unfold heap_load in Hv.
    destruct (s_heap s !! lt) eqn:E; [|discriminate].
    eapply lookup_lt_Some; eauto. }
  rewrite <- Hv. unfold V2.Map. cbn -[V2.mapStructs heap_load].
  exact (proj2 (mapStructs_keeps_unmatched range_order Hperm _ n1 fs1 n2 fs2
                  lf lt false false j f2 s Hplan Hl Hj Hzero)).
Qed.

Definition Partial1 : type :=
  TStruct "Partial1" [field "Int" TInt; field "Note" TString].
Definition Partial2 : type :=
  TStruct "Partial2" [field "Int" TInt; field "Note" TString;
                      field "Extra" TInt].

(** The source [{Int: 1, Note: ""}] in cell 0 and the destination
    [{Int: 0, Note: "keep", Extra: 9}] in cell 1. *)
Definition partial_state : state :=
  {| s_heap := [VStruct [VInt 1; VString EmptyString];
                VStruct [VInt 0; VString "keep"; VInt 9]];
     s_mapper := New |}.

Lemma Map_keeps_unmatched_destination_fields_witness :
  heap_load
    (s_heap (fst (V2.Map range_in_order
                    (ptr_to Partial1 0) (ptr_to Partial2 1)
                    partial_state))) 1 [1%nat]
  = Some (VString "keep").
Proof.
  refine (Map_keeps_unmatched_destination_fields range_in_order
            "Partial1" [field "Int" TInt; field "Note" TString]
            "Partial2" [field "Int" TInt; field "Note" TString;
                        field "Extra" TInt]
            0 1 1 (field "Note" TString) (VString "keep") partial_state
            (fun l => Permutation_refl l) eq_refl eq_refl eq_refl _).
  intros i f1 x Hi Hk Hx. destruct i as [|[|i]].
  - injection Hi as <-. discriminate Hk.
  - injection Hx as <-. reflexivity.
  - discriminate Hi.
Defined.

(** ** The replay of a plan writes only the fields the plan names *)

Lemma Value_Field_place n fs l p ro i s s1 t :
  Value_Field (Val (TStruct n fs) (Addr l p) ro) i s = (s1, Ok t) ->
  place_of t = Some (l, p ++ [i]).
Proof.
  unfold Value_Field, bind.
  destruct (Type_Field _ i s) as [s' [sf|m| |]]; try discriminate.
  simpl. intros [= _ <-]. reflexivity.
Qed.

Lemma mapKnownStruct_keeps_path rec l q plan from to :
  path_frame rec ->
  (forall step t s s1,
     step ∈ plan -> Value_Field to (toIndex step) s = (s1, Ok t) ->
     off_path l q t) ->
  forall s,
    l < length (s_heap s) ->
    keeps_path l q (s_heap s)
      (s_heap (fst (V2.mapKnownStruct rec plan from to s))).
Proof.
  intros Hrec. induction plan as [|step rest IH]; intros Hoff s Hl; simpl.
  - apply keeps_path_refl.
  - kstep_ro as f s1 Hr1 Hn1. kstep_ro as t s2 Hr2 Hn2.
    destruct (Hoff step t s1 s2) as (p & Hw & Hd);
      [apply elem_of_cons; auto|exact Hr2|].
    eapply keeps_path_bind; [assumption| |intros err s3 Hr3 Hn3].
    { apply (keeps_path_of_pres_in l p q); [exact Hd|].
      apply path_frame_strats; assumption. }
    destruct err; [apply keeps_path_refl|].
    apply IH; [|assumption].
    intros step' t' s' s1' Hin. apply (Hoff step' t' s' s1').
    apply elem_of_cons. auto.
Qed.

(** [mapKnownStruct], the replay of a plan into a struct, leaves every
    field of the destination that is the target ([toIndex]) of no step of
    the plan with the value it had: whatever the source and the steps'
    strategies are, and whatever the replay returns. *)
Theorem mapKnownStruct_writes_only_plan_targets
    (range_order : list (string * V2.fieldInfo) -> list (string * V2.fieldInfo))
    (fuel : nat) (plan : list fieldMappingInfo) (from : Value)
    (n2 : string) (fs2 : list (StructField type)) (lt : nat) (ro : bool)
    (j : nat) (v : value) (s : state) :
  heap_load (s_heap s) lt [j] = Some v ->
  (forall step, step ∈ plan -> toIndex step <> j) ->
  heap_load
    (s_heap (fst (V2.mapKnownStruct (V2.mapStructs range_order fuel) plan from
                    (Val (TStruct n2 fs2) (Addr lt []) ro) s))) lt [j]
  = Some v.
Proof.
  intros Hv Hplan.
  assert (Hl : lt < length (s_heap s)).
  { unfold heap_load in Hv.
    destruct (s_heap s !! lt) eqn:E; [|discriminate].
    eapply lookup_lt_Some; eauto. }
  rewrite <- Hv.
  apply mapKnownStruct_keeps_path;
    [apply path_frame_mapStructs| |exact Hl].
  intros step t s0 s1 Hin Hf. apply Value_Field_place in Hf.
  exists [toIndex step]. split.
  - intros p0 Hp0. rewrite Hf in Hp0. injection Hp0 as <-.
    exists []. reflexivity.
  - exists [], (toIndex step), j, [], []. auto.
Qed.

Lemma mapKnownStruct_writes_only_plan_targets_witness :
  heap_load
    (s_heap (fst (V2.mapKnownStruct (V2.mapStructs range_in_order 2)
                    [{| fromIndex := 0; toIndex := 0;
                        mapperFunc := sameTypes |}]
                    (Val Partial1 (Addr 0 []) false)
                    (Val (TStruct "Partial2"
                            [field "Int" TInt; field "Note" TString;
                             field "Extra" TInt]) (Addr 1 []) false)
                    partial_state))) 1 [2%nat]
  = Some (VInt 9).
Proof.
  refine (mapKnownStruct_writes_only_plan_targets range_in_order 2
            [{| fromIndex := 0; toIndex := 0; mapperFunc := sameTypes |}]
            (Val Partial1 (Addr 0 []) false)
            "Partial2" [field "Int" TInt; field "Note" TString;
                        field "Extra" TInt]
            1 false 2 (VInt 9) partial_state eq_refl _).
  intros step Hin. apply elem_of_cons in Hin as [->|Hin].
  - discriminate.
  - apply elem_of_nil in Hin. contradiction.
Defined.

(** ** A matched pair of fields in a call of [Map] *)

(** What the matcher enters for the field [i], declared as [f], of a struct
    variable in the cell [l]. *)
Definition field_entry (l i : nat) (f : StructField type) : V2.fieldInfo :=
  {| V2.index := i;
     V2.val := Val (FType f) (Addr l [i]) (negb (is_exported (Name f))) |}.

Lemma getFieldInfo_complete from to s s1 fromFields toFields :
  V2.getFieldInfo from to s = (s1, Ok (fromFields, toFields)) ->
  (forall k e, entry_of s from k e -> kept s (V2.val e) ->
     is_Some (fromFields !! k))
  /\ (forall k e, entry_of s to k e -> Value_CanSet (V2.val e) = true ->
        is_Some (toFields !! k)).
Proof.
  intros E. unfold V2.getFieldInfo in E.
  apply bind_Ok_inv in E as (s2 & n & Hn & E).
  pose proof (run_state_ro _ _ _ _ (state_ro_Value_NumField _) Hn). subst s2.
  apply bind_Ok_inv in E as (s3 & ff' & Hff & E).
  pose proof (run_state_ro _ _ _ _ (state_ro_getFieldInfo_from _ _ _) Hff).
  subst s3.
  apply bind_Ok_inv in E as (s4 & n' & Hn' & E).
  pose proof (run_state_ro _ _ _ _ (state_ro_Value_NumField _) Hn'). subst s4.
  apply bind_Ok_inv in E as (s5 & tf' & Htf & E).
  injection E as _ <- <-.
  pose proof (run_state_ro _ _ _ _ (state_ro_getFieldInfo_to _ _ _) Htf).
  subst s5.
  destruct (getFieldInfo_from_spec _ _ _ _ _ _ Hff) as (_ & _ & Hc).
  destruct (getFieldInfo_to_spec _ _ _ _ _ _ Htf) as (_ & _ & Hc').
  split.
  - intros k e He Hkept.
    exact (Hc _ e k (entry_of_index _ _ _ _ _ _ He Hn) eq_refl He Hkept).
  - intros k e He Hcs.
    exact (Hc' _ e k (entry_of_index _ _ _ _ _ _ He Hn') eq_refl He Hcs).
Qed.

Lemma field_entry_of s n fs l i f :
  fs !! i = Some f ->
  entry_of s (Val (TStruct n fs) (Addr l []) false) (V2.field_key f)
    (field_entry l i f).
Proof.
  intros Hf. exists (TStruct n fs), f. split; [reflexivity|]. split.
  - cbn [field_entry V2.index]. unfold Type_Field, lift_option. rewrite Hf.
    reflexivity.
  - split; [reflexivity|]. cbn [field_entry V2.index V2.val].
    rewrite (Value_Field_run _ _ _ _ _ _ _ Hf). reflexivity.
Qed.

Lemma kept_of_nonzero s t l p ro x :
  heap_load (s_heap s) l p = Some x -> is_zero x = false ->
  kept s (Val t (Addr l p) ro).
Proof.
  intros Hx Hz. apply (load_Addr t l p ro) in Hx. split.
  - unfold Value_IsZero. rewrite (bind_Ok _ _ _ _ _ Hx). cbn [ret].
    rewrite Hz. reflexivity.
  - intros Hk. unfold Value_IsNil.
    destruct (Value_Kind (Val t (Addr l p) ro)); try discriminate.
    rewrite (bind_Ok _ _ _ _ _ Hx).
    destruct x as [| | | |[|]|[|]| |]; simpl in Hz; try discriminate;
      reflexivity.
Qed.

(** The entry for a struct field is fixed by its index. *)
Lemma entry_of_field_entry s n fs l k e i f :
  entry_of s (Val (TStruct n fs) (Addr l []) false) k e ->
  V2.index e = i -> fs !! i = Some f -> e = field_entry l i f.
Proof.
  intros He Hi Hf. apply entry_of_struct in He as (f' & Hf' & _ & Hv).
  rewrite Hi in Hf', Hv. assert (f' = f) by congruence. subst f'.
  destruct e as [ix v]. cbn in *. subst. reflexivity.
Qed.

Section Matched_pair.
Variables (n1 n2 : string) (fs1 fs2 : list (StructField type)).
Variables (lf lt i j : nat) (f1 f2 : StructField type).

Local Abbreviation from := (Val (TStruct n1 fs1) (Addr lf []) false).
Local Abbreviation to := (Val (TStruct n2 fs2) (Addr lt []) false).

Hypothesis Hf1 : fs1 !! i = Some f1.
Hypothesis Hf2 : fs2 !! j = Some f2.
Hypothesis Hkey : V2.field_key f2 = V2.field_key f1.
Hypothesis Hexp : is_exported (Name f2) = true.
Hypothesis Huniq1 : forall i' f', fs1 !! i' = Some f' ->
  V2.field_key f' = V2.field_key f1 -> i' = i.
Hypothesis Huniq2 : forall j' f', fs2 !! j' = Some f' ->
  V2.field_key f' = V2.field_key f1 -> j' = j.

(** When the source field is not zero, the matcher enters both fields under
    their key. *)
Lemma getFieldInfo_matched_pair s s1 x fromFields toFields :
  heap_load (s_heap s) lf [i] = Some x -> is_zero x = false ->
  V2.getFieldInfo from to s = (s1, Ok (fromFields, toFields)) ->
  s1 = s
  /\ fromFields !! V2.field_key f1 = Some (field_entry lf i f1)
  /\ toFields !! V2.field_key f1 = Some (field_entry lt j f2).
Proof.
  intros Hx Hz E.
  destruct (getFieldInfo_complete _ _ _ _ _ _ E) as [Hcf Hct].
  destruct (getFieldInfo_sound _ _ _ _ _ _ E) as (-> & Hsf & Hst).
  split; [reflexivity|]. split.
  - destruct (Hcf _ _ (field_entry_of s n1 fs1 lf i f1 Hf1)) as [e He].
    { cbn [field_entry V2.val]. eapply kept_of_nonzero; eauto. }
    rewrite He. f_equal. destruct (Hsf _ _ He) as [Hent _].
    pose proof Hent as Hent'.
    apply entry_of_struct in Hent' as (f' & Hf' & Hk' & _).
    pose proof (Huniq1 _ _ Hf' Hk') as Hi.
    exact (entry_of_field_entry _ _ _ _ _ _ _ _ Hent Hi Hf1).
  - destruct (Hct (V2.field_key f1) (field_entry lt j f2)) as [e He].
    { rewrite <- Hkey. apply field_entry_of. exact Hf2. }
    { cbn [field_entry V2.val Value_CanSet]. rewrite Hexp. reflexivity. }
    rewrite He. f_equal. pose proof (Hst _ _ He) as Hent.
    pose proof Hent as Hent'.
    apply entry_of_struct in Hent' as (f' & Hf' & Hk' & _).
    pose proof (Huniq2 _ _ Hf' Hk') as Hj.
    exact (entry_of_field_entry _ _ _ _ _ _ _ _ Hent Hj Hf2).
Qed.

Section Reach.
Variable range_order :
  list (string * V2.fieldInfo) -> list (string * V2.fieldInfo).
Hypothesis range_perm : forall l, range_order l ≡ₚ l.
Hypothesis Hne : lf <> lt.
Variable Q : list (converterInfo * Func) -> Prop.
Variable fuel : nat.
Hypothesis Hhead : forall mi toFields rest s0,
  Q (converters (s_mapper s0)) ->
  toFields !! V2.field_key f1 = Some (field_entry lt j f2) ->
  snd (V2.mapStructs_range (V2.mapStructs range_order fuel) mi toFields
         ((V2.field_key f1, field_entry lf i f1) :: rest) s0) <> Ok None.

(** A call of [mapStructs] on the two structs does not return nil when no
    turn of its loop for the pair does: a replayed plan leaves the source
    as it is, and the loop that follows visits the pair unless it returns
    before. *)
Lemma mapStructs_meets_pair s x :
  heap_load (s_heap s) lf [i] = Some x -> is_zero x = false ->
  Q (converters (s_mapper s)) ->
  snd (V2.mapStructs range_order (S fuel) from to s) <> Ok None.
Proof.
  intros Hx Hz HQ.
  assert (Hlf : lf < length (s_heap s)).
  { unfold heap_load in Hx. destruct (s_heap s !! lf) eqn:E; [|discriminate].
    eapply lookup_lt_Some; eauto. }
  rewrite mapStructs_S. cbn [Value_IsValid negb].
  unfold bind at 1. destruct (Lock s) as [s1 [u| | |]] eqn:E1; try discriminate.
  pose proof (run_ro _ _ _ _ heap_ro_Lock E1) as H1.
  pose proof (run_conv_ro _ _ _ _ conv_ro_Lock E1) as C1.
  cbn [Value_Type]. unfold bind at 1. cbn [ret].
  unfold bind at 1. cbn [ret]. unfold bind at 1. cbn [get_mapper].
  unfold bind at 1.
  match goal with
  | |- context [let (_, _) := ?c s1 in _] =>
      destruct (c s1) as [s2 [[e|]| | |]] eqn:E2; try discriminate
  end.
  assert (H2 : s_heap s2 !! lf = s_heap s !! lf
               /\ converters (s_mapper s2) = converters (s_mapper s)).
  { rewrite <- H1, <- C1.
    destruct (knownMappings_lookup _ _) as [plan|].
    - split.
      + pose proof (mapKnownStruct_frame _ (mapStructs_frame range_order fuel)
                      plan (length (s_heap s1)) (fun l => l = lt) from to s1
                      (le_n _) ltac:(simpl; intros l [= <-] _; reflexivity))
          as [_ Hp].
        rewrite E2 in Hp. apply Hp; [rewrite H1; exact Hlf|exact Hne].
      + exact (run_conv_ro _ _ _ _
                 (conv_ro_mapKnownStruct _
                    (conv_ro_mapStructs range_order fuel) plan from to) E2).
    - injection E2 as <-. auto. }
  destruct H2 as [H2 C2].
  unfold bind at 1.
  destruct (V2.knownMappings_reset _ s2) as [s3 [u3| | |]] eqn:E3;
    try discriminate.
  pose proof (run_ro _ _ _ _ (heap_ro_knownMappings_reset _) E3) as H3.
  pose proof (run_conv_ro _ _ _ _ (conv_ro_knownMappings_reset _) E3) as C3.
  unfold bind at 1.
  destruct (Unlock s3) as [s4 [u4| | |]] eqn:E4; try discriminate.
  pose proof (run_ro _ _ _ _ heap_ro_Unlock E4) as H4.
  pose proof (run_conv_ro _ _ _ _ conv_ro_Unlock E4) as C4.
  unfold bind at 1.
  destruct (V2.getFieldInfo from to s4) as [s5 [[ff tf]| | |]] eqn:E5;
    try discriminate.
  assert (Hx4 : heap_load (s_heap s4) lf [i] = Some x).
  { unfold heap_load in *. rewrite H4, H3, H2. exact Hx. }
  destruct (getFieldInfo_matched_pair _ _ _ _ _ Hx4 Hz E5) as (-> & Hff & Htf).
  cbn [fst snd].
  apply (mapStructs_range_reaches _ _ tf (V2.field_key f1)
           (field_entry lf i f1) Q
           (fun a b => conv_ro_mapStructs range_order fuel a b)).
  - intros rest s0 H0. apply Hhead; assumption.
  - rewrite range_perm. apply elem_of_map_to_list. exact Hff.
  - rewrite C4, C3, C2. exact HQ.
Qed.

Lemma Map_meets_pair s x :
  fuel = type_size (TPtr (TStruct n1 fs1)) ->
  heap_load (s_heap s) lf [i] = Some x -> is_zero x = false ->
  Q (converters (s_mapper s)) ->
  snd (V2.Map range_order (ptr_to (TStruct n1 fs1) lf)
         (ptr_to (TStruct n2 fs2) lt) s) <> Ok None.
Proof.
  intros Hfuel Hx Hz HQ. unfold V2.Map. cbn -[V2.mapStructs type_size].
  unfold V2.fuel_for. rewrite <- Hfuel.
  exact (mapStructs_meets_pair s x Hx Hz HQ).
Qed.
End Reach.
End Matched_pair.

(** The ways a call can end other than by returning nil. *)
Lemma outcome_not_nil (r : result (option error)) :
  r <> Ok None -> r <> OutOfFuel ->
  (exists e, r = Ok (Some e)) \/ (exists msg, r = Panic msg) \/ r = Deadlock.
Proof.
  destruct r as [[e|]|msg| |]; intros H1 H2; try contradiction; eauto.
Qed.

(** *** C4, the pair in a call of [Map] and in the earlier revision *)

Lemma V1_detectMappingType_unsupported ft td wf wt rof rot s :
  no_strategy (converters (s_mapper s)) ft td ->
  V1.detectMappingType {| V1.tp := ft; V1.val := Val ft wf rof |}
    {| V1.tp := td; V1.val := Val td wt rot |} s = (s, Ok unsupported).
Proof.
  intros (_ & Hne & Hs & Hsl & Har).
  unfold V1.detectMappingType, bind, Value_Type, ret. cbn [V1.val V1.tp].
  rewrite (type_eqb_neq _ _ Hne).
  change V1.isStructOrPtrToStruct with V2.isStructOrPtrToStruct.
  change V1.elem_isStructOrPtrToStruct with V2.elem_isStructOrPtrToStruct.
  rewrite Hs, Hsl, Har. reflexivity.
Qed.

Lemma V1_mapStructs_range_unsupported rec toFields name ft td wf wt rof rot
    rest s :
  toFields !! name = Some {| V1.tp := td; V1.val := Val td wt rot |} ->
  no_strategy (converters (s_mapper s)) ft td ->
  V1.mapStructs_range rec toFields
    ((name, {| V1.tp := ft; V1.val := Val ft wf rof |}) :: rest) s
  = (s, Ok (Some (Errorf_missing ft td))).
Proof.
  intros Hto Hno. pose proof Hno as (Hc & _).
  cbn [V1.mapStructs_range]. unfold V1.mapStructs_turn. rewrite Hto.
  unfold bind at 1. unfold bind at 1. cbn [V1.val Value_Type ret].
  unfold bind at 1. cbn [get_mapper V1.tp]. rewrite Hc.
  unfold bind at 1. cbn [ret].
  rewrite (bind_Ok _ _ _ _ _
             (V1_detectMappingType_unsupported ft td wf wt rof rot s Hno)).
  reflexivity.
Qed.

Section Strategies_conv1.
Variable rec : Value -> Value -> M (option error).
Hypothesis Hrec : forall from to, conv_ro (rec from to).
#[local] Hint Resolve Hrec : cro.

Lemma conv_ro1_mapStructsFunc a b : conv_ro (V1.mapStructsFunc rec a b).
Proof. unfold V1.mapStructsFunc. solve_cro. Qed.
Lemma conv_ro1_setArrayValue_body a b c i :
  conv_ro (V1.setArrayValue_body rec a b c i).
Proof. unfold V1.setArrayValue_body. solve_cro. Qed.
#[local] Hint Resolve conv_ro1_setArrayValue_body : cro.
Lemma conv_ro1_setArrayValue_loop a b c ixs :
  conv_ro (V1.setArrayValue_loop rec a b c ixs).
Proof. induction ixs; simpl; solve_cro. Qed.
#[local] Hint Resolve conv_ro1_setArrayValue_loop : cro.
Lemma conv_ro1_setArrayValue a b c : conv_ro (V1.setArrayValue rec a b c).
Proof. unfold V1.setArrayValue. solve_cro. Qed.
#[local] Hint Resolve conv_ro1_setArrayValue : cro.
Lemma conv_ro1_mapSlicesFunc a b : conv_ro (V1.mapSlicesFunc rec a b).
Proof. unfold V1.mapSlicesFunc. solve_cro. Qed.
Lemma conv_ro1_mapArraysFunc a b : conv_ro (V1.mapArraysFunc rec a b).
Proof. unfold V1.mapArraysFunc. solve_cro. Qed.
Lemma conv_ro1_mapSameTypesFunc a b : conv_ro (V1.mapSameTypesFunc a b).
Proof. unfold V1.mapSameTypesFunc. solve_cro. Qed.
Lemma conv_ro1_strats t a b : conv_ro (V1.strats rec t a b).
Proof.
  destruct t; simpl; auto using conv_ro1_mapStructsFunc,
    conv_ro1_mapSlicesFunc, conv_ro1_mapArraysFunc, conv_ro1_mapSameTypesFunc
    with cro.
Qed.
Lemma conv_ro1_detectMappingType a b : conv_ro (V1.detectMappingType a b).
Proof. unfold V1.detectMappingType. solve_cro. Qed.
Lemma conv_ro1_assert_error x : conv_ro (V1.assert_error x).
Proof. unfold V1.assert_error. solve_cro. Qed.
#[local] Hint Resolve conv_ro1_strats conv_ro1_detectMappingType
  conv_ro1_assert_error : cro.
Lemma conv_ro1_mapStructs_turn toFields name fromVal :
  conv_ro (V1.mapStructs_turn rec toFields name fromVal).
Proof. unfold V1.mapStructs_turn. solve_cro. Qed.
End Strategies_conv1.

(** Every registered converter has a second result. *)
Definition two_results (convs : list (converterInfo * Func)) : Prop :=
  forall k fn, converters_lookup k convs = Some fn -> fn_second fn <> None.

Lemma Func_Call_second fn x s s1 outArgs :
  Func_Call fn x s = (s1, Ok outArgs) -> fn_second fn <> None ->
  snd outArgs <> [].
Proof.
  unfold Func_Call. destruct x as [|tx w ro]; [discriminate|].
  destruct (type_eqb _ _); [|discriminate]. destruct ro; [discriminate|].
  unfold bind. destruct (load _ s) as [s2 [xv| | |]]; try discriminate.
  intros [= _ <-] H. cbn [snd]. destruct (fn_second fn); [discriminate|].
  contradiction.
Qed.

(** In the earlier revision a turn of the loop ends the call with nil only
    through a converter with a single result. *)
Lemma V1_turn_not_nil rec toFields name fromVal s s1 :
  two_results (converters (s_mapper s)) ->
  V1.mapStructs_turn rec toFields name fromVal s <> (s1, Ok (inl None)).
Proof.
  intros H2. unfold V1.mapStructs_turn.
  destruct (toFields !! name) as [toVal|]; [|discriminate].
  unfold bind at 1.
  destruct (Value_Type (V1.val toVal) s) as [s2 [tt_| | |]] eqn:E2;
    try discriminate.
  pose proof (run_conv_ro _ _ _ _ (conv_ro_Value_Type _) E2) as C2.
  unfold bind at 1. cbn [get_mapper]. unfold bind at 1.
  destruct (converters_lookup _ (converters (s_mapper s2))) as [fn|] eqn:Hl.
  - unfold bind at 1.
    destruct (Func_Call fn (V1.val fromVal) s2) as [s3 [outArgs| | |]] eqn:E3;
      try discriminate.
    rewrite C2 in Hl.
    pose proof (Func_Call_second _ _ _ _ _ E3 (H2 _ _ Hl)) as Hout.
    destruct (snd outArgs) as [|out1 outs]; [contradiction|].
    unfold bind at 1.
    destruct (V1.assert_error out1 s3) as [s4 [[e|]| | |]]; try discriminate.
    cbn [ret]. unfold bind at 1.
    destruct (V1.detectMappingType fromVal toVal s4) as [s5 [mt| | |]];
      try discriminate.
    destruct (negb _).
    + unfold bind at 1.
      destruct (V1.strats rec mt fromVal toVal s5) as [s6 [[e|]| | |]];
        discriminate.
    + unfold bind at 1.
      destruct (Value_Type (V1.val fromVal) s5) as [s6 [t1| | |]];
        try discriminate.
      unfold bind at 1.
      destruct (Value_Type (V1.val toVal) s6) as [s7 [t2| | |]]; discriminate.
  - cbn [ret]. unfold bind at 1.
    destruct (V1.detectMappingType fromVal toVal s2) as [s5 [mt| | |]];
      try discriminate.
    destruct (negb _).
    + unfold bind at 1.
      destruct (V1.strats rec mt fromVal toVal s5) as [s6 [[e|]| | |]];
        discriminate.
    + unfold bind at 1.
      destruct (Value_Type (V1.val fromVal) s5) as [s6 [t1| | |]];
        try discriminate.
      unfold bind at 1.
      destruct (Value_Type (V1.val toVal) s6) as [s7 [t2| | |]]; discriminate.
Qed.

Lemma V1_mapStructs_range_never_skips rec toFields name ft td wf wt rof rot :
  (forall a b, conv_ro (rec a b)) ->
  toFields !! name = Some {| V1.tp := td; V1.val := Val td wt rot |} ->
  forall l s,
    (name, {| V1.tp := ft; V1.val := Val ft wf rof |}) ∈ l ->
    no_strategy (converters (s_mapper s)) ft td ->
    two_results (converters (s_mapper s)) ->
    snd (V1.mapStructs_range rec toFields l s) <> Ok None.
Proof.
  intros Hrec Hto. induction l as [|[k fv] rest IH]; intros s Hin Hno H2.
  - apply elem_of_nil in Hin. contradiction.
  - apply elem_of_cons in Hin as [[= <- <-]|Hin].
    { rewrite (V1_mapStructs_range_unsupported rec toFields name ft td
                 wf wt rof rot rest s Hto Hno). discriminate. }
    cbn [V1.mapStructs_range]. unfold bind at 1.
    destruct (V1.mapStructs_turn rec toFields k fv s)
      as [s1 [[[e|]|u]| | |]] eqn:E; try discriminate.
    + exfalso. exact (V1_turn_not_nil _ _ _ _ _ _ H2 E).
    + pose proof (run_conv_ro _ _ _ _
                    (conv_ro1_mapStructs_turn rec Hrec toFields k fv) E) as C.
      apply IH; [assumption|rewrite C; assumption|rewrite C; assumption].
Qed.

Lemma conv_ro1_fromFields_loop from ixs : forall acc,
  conv_ro (V1.fromFields_loop from ixs acc).
Proof. induction ixs; intros acc; simpl; solve_cro. Qed.
Lemma conv_ro1_toFields_loop to ixs : forall acc,
  conv_ro (V1.toFields_loop to ixs acc).
Proof. induction ixs; intros acc; simpl; solve_cro. Qed.

Lemma conv_ro1_mapStructs range_order fuel : forall from to,
  conv_ro (V1.mapStructs range_order fuel from to).
Proof.
  induction fuel as [|fuel IH]; intros from to; simpl.
  - solve_cro.
  - pose proof conv_ro1_fromFields_loop. pose proof conv_ro1_toFields_loop.
    assert (forall tf l, conv_ro (V1.mapStructs_range
                                    (V1.mapStructs range_order fuel) tf l)).
    { intros tf l. induction l as [|[k fv] rest IHl]; simpl; [solve_cro|].
      apply conv_ro_bind; [apply conv_ro1_mapStructs_turn; exact IH|].
      intros [out|u]; [solve_cro|exact IHl]. }
    solve_cro.
Qed.


Definition Second1 : type :=
  TStruct "Second1" [field "A" TInt; field "B" TInt].
Definition Second2 : type :=
  TStruct "Second2" [field "A" TInt; field "B" TString].

(** Source [{A: 1, B: 2}] in cell 0, destination [{A: 0, B: ""}] in cell 1,
    a new mapper: the pair [A] is copied, no strategy applies to the pair
    [B : int -> string]. *)
Definition second_state : state :=
  {| s_heap := [VStruct [VInt 1; VInt 2];
                VStruct [VInt 0; VString EmptyString]];
     s_mapper := New |}.

(** [Map] at that input, where the unmappable pair is visited second: the
    pair [A] is copied, then the call fails with [MissingConverter]. *)
Example Map_unmappable_pair_visited_second :
  snd (V2.Map range_in_order (ptr_to Second1 0) (ptr_to Second2 1) second_state)
    = Ok (Some (Errorf_missing TInt TString))
  /\ s_heap (fst (V2.Map range_in_order (ptr_to Second1 0) (ptr_to Second2 1)
                    second_state))
     = [VStruct [VInt 1; VInt 2]; VStruct [VInt 1; VString EmptyString]].
Proof. vm_compute. split; reflexivity. Qed.


(** *** C7, the pair of arrays in a call of [Map] *)

Lemma mapArraysFunc_mismatch_keeps rec n m ef et wf rof l p l0 q s :
  frame_spec rec -> n <> m -> l0 < length (s_heap s) ->
  keeps_path l0 q (s_heap s)
    (s_heap (fst (V2.mapArraysFunc rec (Val (TArray n ef) wf rof)
                    (Val (TArray m et) (Addr l p) false) s))).
Proof.
  intros Hrec Hnm Hl0.
  pose proof (mapArraysFunc_elements_pres rec Hrec n m ef et wf rof l p Hnm s)
    as [HL Hp].
  rewrite (mapArraysFunc_mismatch_run rec n m ef et wf rof l p Hnm s).
  destruct (mapArraysFunc_elements rec _ _ s) as [s' [[array [e|]]|msg| |]];
    simpl in *; (split; [exact HL|]); unfold heap_load;
    rewrite Hp by auto; reflexivity.
Qed.

(** Any error [mapArraysFunc] returns for arrays of different lengths is
    the error of an element, wrapped. *)
Lemma mapArraysFunc_mismatch_error rec n m ef et wf rof l p s e :
  n <> m ->
  snd (V2.mapArraysFunc rec (Val (TArray n ef) wf rof)
         (Val (TArray m et) (Addr l p) false) s) = Ok (Some e) ->
  exists e', e = Errorf_setArrayValue e'.
Proof.
  intros Hnm. rewrite (mapArraysFunc_mismatch_run rec n m ef et wf rof l p Hnm s).
  destruct (mapArraysFunc_elements rec _ _ s) as [s' [[array [e0|]]|msg| |]];
    simpl; try discriminate.
  intros [= <-]. eauto.
Qed.

(** The discovery loop keeps the path [q] when the destination of every
    pair it matches is off [q] or the strategy chosen for the pair, under
    the registry invariant [Q], keeps [q]. *)
Lemma mapStructs_range_keeps_path_or rec l q mi toFields
    (Q : list (converterInfo * Func) -> Prop) entries :
  path_frame rec ->
  (forall a b, conv_ro (rec a b)) ->
  (forall name fromVal toVal,
     (name, fromVal) ∈ entries -> toFields !! name = Some toVal ->
     off_path l q (V2.val toVal)
     \/ (forall s mt,
           Q (converters (s_mapper s)) -> l < length (s_heap s) ->
           V2.detectMappingType fromVal toVal s = (s, Ok mt) ->
           negb (supportedType_eqb mt unsupported) = true ->
           keeps_path l q (s_heap s)
             (s_heap (fst (V2.strats rec mt (V2.val fromVal) (V2.val toVal)
                             s))))) ->
  forall s,
    Q (converters (s_mapper s)) -> l < length (s_heap s) ->
    keeps_path l q (s_heap s)
      (s_heap (fst (V2.mapStructs_range rec mi toFields entries s))).
Proof.
  intros Hrec Hconv. induction entries as [|[name fromVal] rest IH];
    intros Hoff s HQ Hl; simpl.
  - apply keeps_path_refl.
  - assert (Hrest : forall name fromVal toVal,
              (name, fromVal) ∈ rest -> toFields !! name = Some toVal ->
              off_path l q (V2.val toVal)
              \/ (forall s mt,
                    Q (converters (s_mapper s)) -> l < length (s_heap s) ->
                    V2.detectMappingType fromVal toVal s = (s, Ok mt) ->
                    negb (supportedType_eqb mt unsupported) = true ->
                    keeps_path l q (s_heap s)
                      (s_heap (fst (V2.strats rec mt (V2.val fromVal)
                                      (V2.val toVal) s))))).
    { intros k a b Hin. apply (Hoff k a b). apply elem_of_cons. auto. }
    destruct (toFields !! name) as [toVal|] eqn:Hk; [|apply IH; assumption].
    eapply keeps_path_bind;
      [assumption | apply keeps_path_ro; solve_ro | intros mt s1 Hr1 Hn1].
    pose proof (run_state_ro _ _ _ _ (state_ro_detectMappingType _ _) Hr1).
    subst s1.
    destruct (negb (supportedType_eqb mt unsupported)) eqn:Hsup.
    + eapply keeps_path_bind; [assumption| |intros err s2 Hr2 Hn2].
      { destruct (Hoff name fromVal toVal) as [(p & Hw & Hd)|Hturn];
          [apply elem_of_cons; auto|assumption| |].
        - apply (keeps_path_of_pres_in l p q); [exact Hd|].
          apply path_frame_strats; assumption.
        - apply Hturn; assumption. }
      pose proof (run_conv_ro _ _ _ _ (conv_ro_strats _ Hconv _ _ _) Hr2) as C2.
      destruct err; [apply keeps_path_refl|].
      kstep_ro as u3 s3 Hr3 Hn3.
      pose proof (run_conv_ro _ _ _ _ conv_ro_Lock Hr3) as C3.
      kstep_ro as u4 s4 Hr4 Hn4.
      pose proof (run_conv_ro _ _ _ _ (conv_ro_knownMappings_append _ _) Hr4)
        as C4.
      kstep_ro as u5 s5 Hr5 Hn5.
      pose proof (run_conv_ro _ _ _ _ conv_ro_Unlock Hr5) as C5.
      apply IH; [assumption| |assumption].
      rewrite C5, C4, C3, C2. exact HQ.
    + do 2 kstep_ro. apply keeps_path_refl.
Qed.

Section Arrays_pair.
Variables (n1 n2 : string) (fs1 fs2 : list (StructField type)).
Variables (lf lt i j : nat) (f1 f2 : StructField type).
Variables (n m : nat) (ef et : type).

Local Abbreviation from := (Val (TStruct n1 fs1) (Addr lf []) false).
Local Abbreviation to := (Val (TStruct n2 fs2) (Addr lt []) false).
Local Abbreviation no_converter convs :=
  (converters_lookup {| ci_from := TArray n ef; ci_to := TArray m et |} convs
   = None).

Hypothesis Hf1 : fs1 !! i = Some f1.
Hypothesis Hf2 : fs2 !! j = Some f2.
Hypothesis HT1 : FType f1 = TArray n ef.
Hypothesis HT2 : FType f2 = TArray m et.
Hypothesis Hnm : n <> m.
Hypothesis Hkey : V2.field_key f2 = V2.field_key f1.
Hypothesis Hexp : is_exported (Name f2) = true.
Hypothesis Huniq1 : forall i' f', fs1 !! i' = Some f' ->
  V2.field_key f' = V2.field_key f1 -> i' = i.
Hypothesis Huniq2 : forall j' f', fs2 !! j' = Some f' ->
  V2.field_key f' = V2.field_key f1 -> j' = j.
Variable range_order :
  list (string * V2.fieldInfo) -> list (string * V2.fieldInfo).
Hypothesis range_perm : forall l, range_order l ≡ₚ l.
Hypothesis Hne : lf <> lt.

Lemma field_entry_from_array :
  field_entry lf i f1
  = {| V2.index := i;
       V2.val := Val (TArray n ef) (Addr lf [i])
                   (negb (is_exported (Name f1))) |}.
Proof. unfold field_entry. rewrite HT1. reflexivity. Qed.

Lemma field_entry_to_array :
  field_entry lt j f2
  = {| V2.index := j; V2.val := Val (TArray m et) (Addr lt [j]) false |}.
Proof. unfold field_entry. rewrite HT2, Hexp. reflexivity. Qed.

Lemma arrays_pair_never_nil fuel mi toFields entries s0 :
  toFields !! V2.field_key f1 = Some (field_entry lt j f2) ->
  no_converter (converters (s_mapper s0)) ->
  (V2.field_key f1, field_entry lf i f1) ∈ entries ->
  snd (V2.mapStructs_range (V2.mapStructs range_order fuel) mi toFields
         entries s0) <> Ok None.
Proof.
  rewrite field_entry_from_array, field_entry_to_array. intros Hto Hc Hin.
  exact (mapStructs_range_arrays_never_nil _ mi toFields (V2.field_key f1)
           i j n m ef et (Addr lf [i]) (negb (is_exported (Name f1))) lt [j]
           (mapStructs_frame range_order fuel)
           (fun a b => conv_ro_mapStructs range_order fuel a b)
           Hnm Hto entries s0 Hin Hc).
Qed.

Lemma arrays_pair_strategy mt s :
  no_converter (converters (s_mapper s)) ->
  V2.detectMappingType (field_entry lf i f1) (field_entry lt j f2) s
    = (s, Ok mt) ->
  negb (supportedType_eqb mt unsupported) = true ->
  mt = arrays.
Proof.
  rewrite field_entry_from_array, field_entry_to_array. intros Hc.
  unfold V2.detectMappingType, bind, Value_Type, get_mapper, ret.
  cbn [V2.val]. rewrite Hc.
  rewrite type_eqb_neq by (intros [= E]; congruence).
  cbn [V2.isStructOrPtrToStruct type_Kind Kind_eqb orb andb].
  destruct (_ && _); intros [= <-]; [reflexivity|discriminate].
Qed.

Lemma mapStructs_keeps_array fuel s x :
  heap_load (s_heap s) lf [i] = Some x -> is_zero x = false ->
  no_converter (converters (s_mapper s)) ->
  lt < length (s_heap s) ->
  (forall plan,
     knownMappings_lookup
       {| smi_from := TStruct n1 fs1; smi_to := TStruct n2 fs2 |}
       (knownMappings (s_mapper s)) = Some plan ->
     forall step, step ∈ plan -> toIndex step <> j) ->
  keeps_path lt [j] (s_heap s)
    (s_heap (fst (V2.mapStructs range_order (S fuel) from to s))).
Proof.
  intros Hx Hz Hc Hl Hplan.
  assert (Hlf : lf < length (s_heap s)).
  { unfold heap_load in Hx. destruct (s_heap s !! lf) eqn:E; [|discriminate].
    eapply lookup_lt_Some; eauto. }
  destruct (mu (s_mapper s)) eqn:Hmu.
  { rewrite mapStructs_blocks by auto. apply keeps_path_refl. }
  rewrite mapStructs_S. cbn [Value_IsValid negb].
  rewrite (bind_Ok _ _ _ _ _ (Lock_run s Hmu)).
  cbn [Value_Type]. unfold bind at 1. cbn [ret].
  unfold bind at 1. cbn [ret].
  unfold bind at 1. cbn [get_mapper locked s_mapper knownMappings].
  change (s_heap s) with (s_heap (locked s)) at 1.
  eapply keeps_path_bind; [exact Hl| |intros err s2 Hr2 Hn2].
  { destruct (knownMappings_lookup _ _) as [plan|] eqn:Hpl;
      [|apply keeps_path_refl].
    apply mapKnownStruct_keeps_path;
      [apply path_frame_mapStructs| |exact Hl].
    intros step t s0 s1 Hin Hf. apply Value_Field_place in Hf.
    exists [toIndex step]. split.
    - intros p0 Hp0. rewrite Hf in Hp0. injection Hp0 as <-.
      exists []. reflexivity.
    - exists [], (toIndex step), j, [], [].
      split; [exact (Hplan plan eq_refl step Hin)|auto]. }
  assert (H2 : s_heap s2 !! lf = s_heap s !! lf
               /\ converters (s_mapper s2) = converters (s_mapper s)).
  { destruct (knownMappings_lookup _ _) as [plan|].
    - split.
      + pose proof (mapKnownStruct_frame _ (mapStructs_frame range_order fuel)
                      plan (length (s_heap s)) (fun l => l = lt) from to
                      (locked s) (le_n _)
                      ltac:(simpl; intros l [= <-] _; reflexivity))
          as [_ Hp].
        rewrite Hr2 in Hp. apply Hp; [exact Hlf|exact Hne].
      + exact (run_conv_ro _ _ _ _
                 (conv_ro_mapKnownStruct _
                    (conv_ro_mapStructs range_order fuel) plan from to) Hr2).
    - injection Hr2 as <-. auto. }
  destruct H2 as [H2 C2].
  destruct err; [apply keeps_path_refl|].
  kstep_ro as u3 s3 Hr3 Hn3.
  pose proof (run_ro _ _ _ _ (heap_ro_knownMappings_reset _) Hr3) as H3.
  pose proof (run_conv_ro _ _ _ _ (conv_ro_knownMappings_reset _) Hr3) as C3.
  kstep_ro as u4 s4 Hr4 Hn4.
  pose proof (run_ro _ _ _ _ heap_ro_Unlock Hr4) as H4.
  pose proof (run_conv_ro _ _ _ _ conv_ro_Unlock Hr4) as C4.
  eapply keeps_path_bind;
    [assumption|apply keeps_path_ro; solve_ro|intros [ff tf] s5 Hr5 Hn5].
  assert (Hx4 : heap_load (s_heap s4) lf [i] = Some x).
  { unfold heap_load in *. rewrite H4, H3, H2. exact Hx. }
  destruct (getFieldInfo_sound _ _ _ _ _ _ Hr5) as (_ & Hsf & Hst).
  destruct (getFieldInfo_matched_pair n1 n2 fs1 fs2 lf lt i j f1 f2
              Hf1 Hf2 Hkey Hexp Huniq1 Huniq2 _ _ _ _ _ Hx4 Hz Hr5)
    as (-> & Hff & Htf).
  cbn [fst snd].
  apply (mapStructs_range_keeps_path_or _ lt [j] _ tf
           (fun c => no_converter c));
    [apply path_frame_mapStructs
    |exact (fun a b => conv_ro_mapStructs range_order fuel a b)
    | |rewrite C4, C3, C2; exact Hc|assumption].
  intros name fromVal toVal Hin Hk.
  rewrite range_perm in Hin. apply elem_of_map_to_list in Hin.
  destruct (decide (name = V2.field_key f1)) as [->|Hname].
  - right. rewrite Hff in Hin. injection Hin as <-.
    rewrite Htf in Hk. injection Hk as <-.
    intros s0 mt H0 Hl0 Hdet Hsup.
    rewrite (arrays_pair_strategy mt s0 H0 Hdet Hsup).
    rewrite field_entry_from_array, field_entry_to_array.
    cbn [V2.strats V2.val].
    apply mapArraysFunc_mismatch_keeps;
      [apply mapStructs_frame|exact Hnm|exact Hl0].
  - left. destruct (entry_of_struct _ _ _ _ _ _ _ (Hst _ _ Hk))
      as (f' & Hf' & Hk' & Hv').
    rewrite Hv'. exists [V2.index toVal]. split.
    + intros p0 [= <-]. exists []. reflexivity.
    + exists [], (V2.index toVal), j, [], []. split; [|auto].
      intros E. rewrite E, Hf2 in Hf'. injection Hf' as <-.
      apply Hname. rewrite <- Hk'. exact Hkey.
Qed.

Lemma Map_keeps_array s x :
  heap_load (s_heap s) lf [i] = Some x -> is_zero x = false ->
  no_converter (converters (s_mapper s)) ->
  lt < length (s_heap s) ->
  (forall plan,
     knownMappings_lookup
       {| smi_from := TStruct n1 fs1; smi_to := TStruct n2 fs2 |}
       (knownMappings (s_mapper s)) = Some plan ->
     forall step, step ∈ plan -> toIndex step <> j) ->
  keeps_path lt [j] (s_heap s)
    (s_heap (fst (V2.Map range_order (ptr_to (TStruct n1 fs1) lf)
                    (ptr_to (TStruct n2 fs2) lt) s))).
Proof.
  intros Hx Hz Hc Hl Hplan. unfold V2.Map. cbn -[V2.mapStructs type_size].
  unfold V2.fuel_for. apply mapStructs_keeps_array with (x := x); assumption.
Qed.

Lemma Map_arrays_pair_never_nil s x :
  heap_load (s_heap s) lf [i] = Some x -> is_zero x = false ->
  no_converter (converters (s_mapper s)) ->
  snd (V2.Map range_order (ptr_to (TStruct n1 fs1) lf)
         (ptr_to (TStruct n2 fs2) lt) s) <> Ok None.
Proof.
  intros Hx Hz Hc.
  apply (Map_meets_pair n1 n2 fs1 fs2 lf lt i j f1 f2 Hf1 Hf2 Hkey Hexp
           Huniq1 Huniq2 range_order range_perm Hne
           (fun c => no_converter c)
           (type_size (TPtr (TStruct n1 fs1)))) with (x := x);
    [|reflexivity|assumption|assumption|assumption].
  intros mi toFields rest s0 H0 Hto.
  apply arrays_pair_never_nil; [assumption|assumption|].
  apply elem_of_cons. auto.
Qed.
End Arrays_pair.

(** C7, amended.  A source field that is not zero and an exported
    destination field have the same match key, which no other field of
    either struct has; they are arrays of different lengths, and no
    converter is registered for the two array types.  [Map] of the two
    structs (distinct variables) then never returns nil, whatever the order
    of the iteration and the plans held: it ends with an error, with a
    panic, or blocked.  The destination array is as it was after the call,
    neither truncated nor padded, when no step of a plan held for the pair
    of structs targets it.  The strategy [mapArraysFunc] itself never
    returns nil for such arrays and writes no cell that existed before; an
    error it returns is the error of an element, wrapped; and once
    [setArrayValue] has filled the fresh array of the source's length,
    [Set] panics because its type is not the destination's.  Wherever the
    pair stands among the entries, the loop of [mapStructs] does not end
    with nil. *)
Theorem C7_array_length_mismatch_is_never_mapped
    (range_order : list (string * V2.fieldInfo) -> list (string * V2.fieldInfo))
    (n1 n2 : string) (fs1 fs2 : list (StructField type))
    (lf lt i j : nat) (f1 f2 : StructField type)
    (n m : nat) (ef et : type) (x : value) (s : state) :
  (forall l, range_order l ≡ₚ l) ->
  lf <> lt ->
  n <> m ->
  fs1 !! i = Some f1 ->
  FType f1 = TArray n ef ->
  heap_load (s_heap s) lf [i] = Some x ->
  is_zero x = false ->
  fs2 !! j = Some f2 ->
  FType f2 = TArray m et ->
  is_exported (Name f2) = true ->
  V2.field_key f2 = V2.field_key f1 ->
  (forall i' f', fs1 !! i' = Some f' ->
     V2.field_key f' = V2.field_key f1 -> i' = i) ->
  (forall j' f', fs2 !! j' = Some f' ->
     V2.field_key f' = V2.field_key f1 -> j' = j) ->
  converters_lookup {| ci_from := TArray n ef; ci_to := TArray m et |}
    (converters (s_mapper s)) = None ->
  ((exists e,
      snd (V2.Map range_order (ptr_to (TStruct n1 fs1) lf)
             (ptr_to (TStruct n2 fs2) lt) s) = Ok (Some e))
   \/ (exists msg,
         snd (V2.Map range_order (ptr_to (TStruct n1 fs1) lf)
                (ptr_to (TStruct n2 fs2) lt) s) = Panic msg)
   \/ snd (V2.Map range_order (ptr_to (TStruct n1 fs1) lf)
             (ptr_to (TStruct n2 fs2) lt) s) = Deadlock)
  /\ (forall y,
        heap_load (s_heap s) lt [j] = Some y ->
        (forall plan,
           knownMappings_lookup
             {| smi_from := TStruct n1 fs1; smi_to := TStruct n2 fs2 |}
             (knownMappings (s_mapper s)) = Some plan ->
           forall step, step ∈ plan -> toIndex step <> j) ->
        heap_load
          (s_heap (fst (V2.Map range_order (ptr_to (TStruct n1 fs1) lf)
                          (ptr_to (TStruct n2 fs2) lt) s))) lt [j]
        = Some y)
  /\ (forall fuel wf rof l p s0,
        snd (V2.mapArraysFunc (V2.mapStructs range_order fuel)
               (Val (TArray n ef) wf rof)
               (Val (TArray m et) (Addr l p) false) s0) <> Ok None
        /\ (forall e,
              snd (V2.mapArraysFunc (V2.mapStructs range_order fuel)
                     (Val (TArray n ef) wf rof)
                     (Val (TArray m et) (Addr l p) false) s0) = Ok (Some e) ->
              exists e', e = Errorf_setArrayValue e')
        /\ (forall l', l' < length (s_heap s0) ->
              s_heap (fst (V2.mapArraysFunc (V2.mapStructs range_order fuel)
                             (Val (TArray n ef) wf rof)
                             (Val (TArray m et) (Addr l p) false) s0)) !! l'
              = s_heap s0 !! l')
        /\ (forall s' array,
              mapArraysFunc_elements (V2.mapStructs range_order fuel)
                (Val (TArray n ef) wf rof)
                (Val (TArray m et) (Addr l p) false) s0
              = (s', Ok (array, None)) ->
              V2.mapArraysFunc (V2.mapStructs range_order fuel)
                (Val (TArray n ef) wf rof)
                (Val (TArray m et) (Addr l p) false) s0
              = (s', Panic "reflect.Set: value is not assignable to type")))
  /\ (forall fuel mi toFields entries s0,
        toFields !! V2.field_key f1 = Some (field_entry lt j f2) ->
        converters_lookup {| ci_from := TArray n ef; ci_to := TArray m et |}
          (converters (s_mapper s0)) = None ->
        (V2.field_key f1, field_entry lf i f1) ∈ entries ->
        snd (V2.mapStructs_range (V2.mapStructs range_order fuel) mi toFields
               entries s0) <> Ok None).
Proof.
  intros Hperm Hne Hnm Hf1 HT1 Hx Hz Hf2 HT2 Hexp Hkey Hu1 Hu2 Hc.
  split; [|split; [|split]].
  - apply outcome_not_nil.
    + exact (Map_arrays_pair_never_nil n1 n2 fs1 fs2 lf lt i j f1 f2 n m ef et
               Hf1 Hf2 HT1 HT2 Hnm Hkey Hexp Hu1 Hu2 range_order Hperm Hne
               s x Hx Hz Hc).
    + exact (fuel_ok_Map range_order Hperm _ _ s).
  - intros y Hy Hplan.
    assert (Hl : lt < length (s_heap s)).
    { unfold heap_load in Hy.
      destruct (s_heap s !! lt) eqn:E; [|discriminate].
      eapply lookup_lt_Some; eauto. }
    rewrite <- Hy.
    exact (proj2 (Map_keeps_array n1 n2 fs1 fs2 lf lt i j f1 f2 n m ef et
                    Hf1 Hf2 HT1 HT2 Hnm Hkey Hexp Hu1 Hu2 range_order Hperm
                    Hne s x Hx Hz Hc Hl Hplan)).
  - intros fuel wf rof l p s0.
    destruct (mapArraysFunc_mismatch (V2.mapStructs range_order fuel)
                (mapStructs_frame range_order fuel) n m ef et wf rof l p
                Hnm s0) as (Hnil & Hfr & Hpanic).
    split; [exact Hnil|]. split; [|split; [exact Hfr|exact Hpanic]].
    intros e He.
    exact (mapArraysFunc_mismatch_error _ n m ef et wf rof l p s0 e Hnm He).
  - intros fuel mi toFields entries s0 Hto H0 Hin.
    exact (arrays_pair_never_nil lf lt i j f1 f2 n m ef et HT1 HT2 Hnm Hexp
             range_order fuel mi toFields entries s0 Hto H0 Hin).
Qed.

Definition NestedArrays1 : type :=
  TStruct "NestedArrays1" [field "Field1" (TArray 2 Outer1)].
Definition NestedArrays2 : type :=
  TStruct "NestedArrays2" [field "Field1" (TArray 1 Outer2)].

(** Two elements [Outer1{In: simple1}] in cell 0, a zero destination in
    cell 1, a new mapper. *)
Definition nested_arrays_state : state :=
  {| s_heap := [VStruct [VArray [VStruct [simple1]; VStruct [simple1]]];
                zero_value NestedArrays2];
     s_mapper := New |}.

(** A converter [func([2]Simple1) [1]Simple2] that keeps the first
    element. *)
Definition first_of_two : Func :=
  {| fn_In := TArray 2 Simple1; fn_Out := TArray 1 Simple2;
     fn_first := fun v =>
       match v with
       | VArray (a :: _) => VArray [a]
       | _ => zero_value (TArray 1 Simple2)
       end;
     fn_second := None |}.

Definition converted_arrays_state : state :=
  mapper_with first_of_two
    [VStruct [VArray [simple1; simple1]]; VStruct [VArray [zero_value Simple2]]].

(** C7, counterexample: three calls on a field [[2]T1] and a field
    [[1]T2] that return no error.  With struct elements [Simple1] the call
    panics in [Set]; with elements that hold a nested struct it blocks on
    the mutex while it maps the second element; with a converter registered
    for the two array types it returns nil and the destination holds the
    converter's result, the first element alone. *)
Lemma C7_mismatch_without_error :
  snd (V2.Map range_in_order (ptr_to Arrays1 0) (ptr_to Arrays2 1) arrays_state)
    = Panic "reflect.Set: value is not assignable to type"
  /\ snd (V2.Map range_in_order (ptr_to NestedArrays1 0)
            (ptr_to NestedArrays2 1) nested_arrays_state) = Deadlock
  /\ snd (V2.Map range_in_order (ptr_to Arrays1 0) (ptr_to Arrays2 1)
            converted_arrays_state) = Ok None
  /\ s_heap (fst (V2.Map range_in_order (ptr_to Arrays1 0) (ptr_to Arrays2 1)
                    converted_arrays_state))
     = [VStruct [VArray [simple1; simple1]]; VStruct [VArray [simple1]]].
Proof. vm_compute. repeat split; reflexivity. Qed.

Lemma C7_witness :
  ((exists e,
      snd (V2.Map range_in_order (ptr_to Arrays1 0) (ptr_to Arrays2 1)
             arrays_state) = Ok (Some e))
   \/ (exists msg,
         snd (V2.Map range_in_order (ptr_to Arrays1 0) (ptr_to Arrays2 1)
                arrays_state) = Panic msg)
   \/ snd (V2.Map range_in_order (ptr_to Arrays1 0) (ptr_to Arrays2 1)
             arrays_state) = Deadlock)
  /\ heap_load
       (s_heap (fst (V2.Map range_in_order (ptr_to Arrays1 0)
                       (ptr_to Arrays2 1) arrays_state))) 1 [0%nat]
     = Some (VArray [zero_value Simple2]).
Proof.
  assert (Hne : 0%nat <> 1%nat) by discriminate.
  assert (Hnm : 2%nat <> 1%nat) by discriminate.
  assert (Hu1 : forall i' f',
            [field "Field1" (TArray 2 Simple1)] !! i' = Some f' ->
            V2.field_key f' = V2.field_key (field "Field1" (TArray 2 Simple1)) ->
            i' = 0%nat).
  { intros [|i'] f' Hf' _; [reflexivity|discriminate Hf']. }
  assert (Hu2 : forall j' f',
            [field "Field1" (TArray 1 Simple2)] !! j' = Some f' ->
            V2.field_key f' = V2.field_key (field "Field1" (TArray 2 Simple1)) ->
            j' = 0%nat).
  { intros [|j'] f' Hf' _; [reflexivity|discriminate Hf']. }
  pose proof (C7_array_length_mismatch_is_never_mapped range_in_order
                "Arrays1" "Arrays2"
                [field "Field1" (TArray 2 Simple1)]
                [field "Field1" (TArray 1 Simple2)]
                0 1 0 0 (field "Field1" (TArray 2 Simple1))
                (field "Field1" (TArray 1 Simple2))
                2 1 Simple1 Simple2 (VArray [simple1; simple1]) arrays_state
                (fun l => Permutation_refl l) Hne Hnm eq_refl eq_refl eq_refl
                eq_refl eq_refl eq_refl eq_refl eq_refl Hu1 Hu2 eq_refl)
    as (HMap & Hkeep & _).
  split; [exact HMap|].
  refine (Hkeep (VArray [zero_value Simple2]) eq_refl _).
  intros plan Hplan. discriminate Hplan.
Defined.
